(** * Resource tracking pass of the shader recompiler

    A shallow embedding of [shader_recompiler/runtime_info.h] (resource
    records, attribute flags) and of the resource tracking pass that follows
    it in the same source file (descriptor registry, sharp tracking, inline
    constant buffer detection, buffer and image instruction patching, pass
    driver), with the properties stated for them. *)

From Stdlib Require Import ZArith Lia Bool.
From stdpp Require Import base list numbers option relations.

Local Open Scope Z_scope.

(** ** Results of fallible code

    [Abort] stands for a failed [ASSERT]/[UNREACHABLE] or a violated
    precondition of an accessor; [Timeout] is only produced by the fuel of a
    loop whose termination the source does not establish. *)

Inductive Res (A : Type) : Type :=
| Ok (a : A)
| Abort
| Timeout.

Arguments Ok {A} a.
Arguments Abort {A}.
Arguments Timeout {A}.

#[global] Instance Res_ret : MRet Res := λ A a, Ok a.

#[global] Instance Res_bind : MBind Res := λ A B k m,
  match m with
  | Ok a => k a
  | Abort => Abort
  | Timeout => Timeout
  end.

#[global] Instance Res_fmap : FMap Res := λ A B f m,
  match m with
  | Ok a => Ok (f a)
  | Abort => Abort
  | Timeout => Timeout
  end.

Definition ASSERT (c : bool) : Res unit := if c then Ok tt else Abort.

Definition of_option {A : Type} (o : option A) : Res A :=
  match o with Some a => Ok a | None => Abort end.

(** ** Machine integers *)

Definition wrap32 (z : Z) : Z := z mod 2 ^ 32.
Definition wrap64 (z : Z) : Z := z mod 2 ^ 64.

(** ** Resource records ([runtime_info.h]) *)

(** [AmdGpu::Buffer] is a 128-bit V#; the pass builds it by
    [std::bit_cast] from a [std::array<u64, 2>], and that is how it is kept
    here: [word0] holds the address half, [word1] the control half. *)
Record Buffer : Type := mkBuffer { word0 : Z; word1 : Z }.

#[global] Instance Buffer_eq_dec : EqDecision Buffer.
Proof. solve_decision. Defined.

Definition Buffer_zero : Buffer := mkBuffer 0 0.

Inductive ImageType : Type :=
| Color1D
| Color1DArray
| Color2D
| Color2DArray
| Color2DMsaa
| Color3D
| Cube
| ImageTypeOther (raw : Z).

#[global] Instance ImageType_eq_dec : EqDecision ImageType.
Proof. solve_decision. Defined.

Module BufferResource.
Record t : Type := mk {
  sgpr_base : Z;
  dword_offset : Z;
  stride : Z;
  num_records : Z;
  used_types : Z;
  inline_cbuf : Buffer;
  is_storage : bool;
}.
End BufferResource.

Module ImageResource.
Record t : Type := mk {
  sgpr_base : Z;
  dword_offset : Z;
  type : ImageType;
  nfmt : Z;
  is_storage : bool;
  is_depth : bool;
}.
End ImageResource.

Module SamplerResource.
Record t : Type := mk {
  sgpr_base : Z;
  dword_offset : Z;
  associated_image : Z;
  disable_aniso : bool;
}.
End SamplerResource.

(** [boost::container::static_vector<_, 16>]: the three resource lists hold
    at most 16 entries, [push_back] on a full list fails. *)
Definition ResourceListCapacity : nat := 16.

(** ** Descriptor registry ([class Descriptors]) *)

Module Descriptors.

Record t : Type := mk {
  buffer_resources : list BufferResource.t;
  image_resources : list ImageResource.t;
  sampler_resources : list SamplerResource.t;
}.

Definition empty : t := mk [] [] [].

(** [std::ranges::find_if] followed by [std::distance]. *)
Fixpoint find_if {A : Type} (pred : A → bool) (l : list A) : option nat :=
  match l with
  | [] => None
  | x :: l' => if pred x then Some 0%nat else S <$> find_if pred l'
  end.

(** The private template [Add(descriptors, desc, pred)]. *)
Definition Add {A : Type} (descriptors : list A) (desc : A) (pred : A → bool)
  : Res (nat * list A) :=
  match find_if pred descriptors with
  | Some i => Ok (i, descriptors)
  | None =>
      if decide (length descriptors < ResourceListCapacity)%nat
      then Ok (length descriptors, descriptors ++ [desc])
      else Abort
  end.

Definition buffer_pred (desc existing : BufferResource.t) : bool :=
  bool_decide (BufferResource.sgpr_base desc = BufferResource.sgpr_base existing) &&
  bool_decide (BufferResource.dword_offset desc = BufferResource.dword_offset existing) &&
  bool_decide (BufferResource.inline_cbuf desc = BufferResource.inline_cbuf existing).

Definition image_pred (desc existing : ImageResource.t) : bool :=
  bool_decide (ImageResource.sgpr_base desc = ImageResource.sgpr_base existing) &&
  bool_decide (ImageResource.dword_offset desc = ImageResource.dword_offset existing) &&
  bool_decide (ImageResource.type desc = ImageResource.type existing) &&
  bool_decide (ImageResource.is_storage desc = ImageResource.is_storage existing).

Definition sampler_pred (desc existing : SamplerResource.t) : bool :=
  bool_decide (SamplerResource.sgpr_base desc = SamplerResource.sgpr_base existing) &&
  bool_decide (SamplerResource.dword_offset desc = SamplerResource.dword_offset existing).

(** The flag widening of [Add(const BufferResource&)]:
    [is_storage |= desc.is_storage; used_types |= desc.used_types]. *)
Definition widen (buffer desc : BufferResource.t) : BufferResource.t :=
  BufferResource.mk
    (BufferResource.sgpr_base buffer)
    (BufferResource.dword_offset buffer)
    (BufferResource.stride buffer)
    (BufferResource.num_records buffer)
    (Z.lor (BufferResource.used_types buffer) (BufferResource.used_types desc))
    (BufferResource.inline_cbuf buffer)
    (BufferResource.is_storage buffer || BufferResource.is_storage desc).

(** [u32 Add(const BufferResource& desc)] *)
Definition Add_buffer (d : t) (desc : BufferResource.t) : Res (nat * t) :=
  '(index, buffers) ← Add (buffer_resources d) desc (buffer_pred desc);
  buffer ← of_option (buffers !! index);
  _ ← ASSERT (bool_decide (BufferResource.stride buffer = BufferResource.stride desc) &&
              bool_decide (BufferResource.num_records buffer = BufferResource.num_records desc));
  Ok (index, mk (<[index := widen buffer desc]> buffers)
                (image_resources d) (sampler_resources d)).

(** [u32 Add(const ImageResource& desc)] *)
Definition Add_image (d : t) (desc : ImageResource.t) : Res (nat * t) :=
  '(index, images) ← Add (image_resources d) desc (image_pred desc);
  Ok (index, mk (buffer_resources d) images (sampler_resources d)).

(** [u32 Add(const SamplerResource& desc)] *)
Definition Add_sampler (d : t) (desc : SamplerResource.t) : Res (nat * t) :=
  '(index, samplers) ← Add (sampler_resources d) desc (sampler_pred desc);
  Ok (index, mk (buffer_resources d) (image_resources d) samplers).

(** One successful registration of any kind, and the registrations of a pass
    run: the reflexive transitive closure [rtc step]. *)
Inductive step : t → t → Prop :=
| step_buffer d desc i d' : Add_buffer d desc = Ok (i, d') → step d d'
| step_image d desc i d' : Add_image d desc = Ok (i, d') → step d d'
| step_sampler d desc i d' : Add_sampler d desc = Ok (i, d') → step d d'.

(** The identity fields the three predicates compare. *)
Definition buffer_key (b : BufferResource.t) : Z * Z * Buffer :=
  (BufferResource.sgpr_base b, BufferResource.dword_offset b, BufferResource.inline_cbuf b).

Definition image_key (i : ImageResource.t) : Z * Z * ImageType * bool :=
  (ImageResource.sgpr_base i, ImageResource.dword_offset i,
   ImageResource.type i, ImageResource.is_storage i).

Definition sampler_key (s : SamplerResource.t) : Z * Z :=
  (SamplerResource.sgpr_base s, SamplerResource.dword_offset s).

(** A buffer access sequence of a pass run, registered in order. *)
Fixpoint Add_buffers (d : t) (accesses : list BufferResource.t) : Res (list nat * t) :=
  match accesses with
  | [] => Ok ([], d)
  | a :: rest =>
      '(i, d1) ← Add_buffer d a;
      '(rest_indices, d2) ← Add_buffers d1 rest;
      Ok (i :: rest_indices, d2)
  end.

End Descriptors.

(** ** Intermediate representation

    The instruction graph the pass works on.  Its declarations ([ir/value.h],
    [ir/type.h], [ir/opcodes.inc], [ir/basic_block.h], [ir/program.h],
    [ir/ir_emitter.h]) are not among the sources. *)

(** Modelled from the spec: instructions live in an arena and are addressed
    by stable handles, here their position in the arena. *)
Abbreviation Handle := nat.

(** Modelled from the spec: [IR::Type], with the types the pass names. *)
Inductive IRType : Type :=
| Type_Void
| Type_ScalarReg
| Type_U1
| Type_U32
| Type_U64
| Type_F32
| Type_Other (id : Z).

#[global] Instance IRType_eq_dec : EqDecision IRType.
Proof. solve_decision. Defined.

(** Modelled from the spec: [IR::Value], an operand: a reference to its
    producing instruction or an immediate constant, kept with its IR type
    and its raw bits. *)
Inductive Value : Type :=
| InstRef (inst : Handle)
| Imm (ty : IRType) (raw : Z).

#[global] Instance Value_eq_dec : EqDecision Value.
Proof. solve_decision. Defined.

(** Modelled from the spec: [IR::Opcode], with the opcodes the pass names,
    the two composite operations of the emitter, and [OtherOpcode] for all
    others. *)
Inductive Opcode : Type :=
| Phi
| GetUserData
| ReadConst
| CompositeConstructU32x2
| IAdd32
| IMul32
| ShiftRightLogical32
| FPSub32
| SelectU32
| IEqual
| BitFieldUExtract
| BitwiseAnd32
| BitCastU32F32
| LoadBufferF32
| LoadBufferF32x2
| LoadBufferF32x3
| LoadBufferF32x4
| LoadBufferU32
| ReadConstBuffer
| ReadConstBufferU32
| StoreBufferF32
| StoreBufferF32x2
| StoreBufferF32x3
| StoreBufferF32x4
| StoreBufferU32
| ImageSampleExplicitLod
| ImageSampleImplicitLod
| ImageSampleDrefExplicitLod
| ImageSampleDrefImplicitLod
| ImageFetch
| ImageGather
| ImageGatherDref
| ImageQueryDimensions
| ImageQueryLod
| ImageGradient
| ImageRead
| ImageWrite
| ImageAtomicIAdd32
| ImageAtomicSMin32
| ImageAtomicUMin32
| ImageAtomicSMax32
| ImageAtomicUMax32
| ImageAtomicInc32
| ImageAtomicDec32
| ImageAtomicAnd32
| ImageAtomicOr32
| ImageAtomicXor32
| ImageAtomicExchange32
| CompositeConstruct
| CompositeExtract
| OtherOpcode (id : Z).

#[global] Instance Opcode_eq_dec : EqDecision Opcode.
Proof. solve_decision. Defined.

(** Modelled from the spec: [IR::Inst], an opcode, its ordered operands and
    the packed flag word. *)
Record Inst : Type := mkInst {
  opcode : Opcode;
  args : list Value;
  flags : Z;
}.

#[global] Instance Inst_eq_dec : EqDecision Inst.
Proof. solve_decision. Defined.

(** Modelled from the spec: [IR::Block], the ordered sequence of its
    instructions. *)
Abbreviation Block := (list nat).

(** Modelled from the spec: [IR::ScalarReg::Max], the sentinel base of a
    sharp held directly in user data, and [IR::NumScalarRegs], which [ReadUd]
    compares against ([ir/reg.h] is not among the sources; both name the
    register count). *)
Definition ScalarReg_Max : Z := 104.
Definition NumScalarRegs : Z := ScalarReg_Max.

(** The read-only part of [struct Info] that the pass consults.  The three
    resource lists of [Info] are the ones [Descriptors] holds references to;
    they are kept in [Descriptors.t]. *)
Record Info : Type := mkInfo {
  user_data : list Z;
  pgm_base : Z;
}.

(** The 256-bit T# as the eight dwords [ReadUd] copies. *)
Record Image : Type := mkImage { image_raw : list Z }.

(** Modelled from the spec: [IR::BufferInstInfo] and [IR::TextureInstInfo],
    the views of the packed flag bits of an instruction, with the fields the
    pass reads; where the bits lie in the flag word is a parameter, see
    [External]. *)
Record BufferInstInfo : Type := mkBufferInstInfo {
  index_enable : bool;
  offset_enable : bool;
  inst_offset : Z;
  is_typed : bool;
  bi_dmft : Z;
  bi_nfmt : Z;
}.

Record TextureInstInfo : Type := mkTextureInstInfo {
  is_depth : bool;
  has_offset : bool;
  has_lod_clamp : bool;
  explicit_lod : bool;
}.

(** What the pass consumes from its external collaborators: the fixed-layout
    decoders of the hardware descriptors ([video_core/amdgpu/resource.h]),
    the bit layout of the instruction flag words, the enumerators it compares
    against, the IR type of the value an instruction produces (from the
    opcode table [ir/opcodes.inc]; a Phi keeps it in its flag word), guest
    memory behind the user-data pointers, and the host memory that follows
    the user-data table, by dword index from the start of the table. *)
Class External : Type := {
  Buffer_GetStride : Buffer → Z;
  Buffer_num_records : Buffer → Z;
  Buffer_GetSize : Buffer → Z;
  Buffer_GetStrideElements : Buffer → Z → Z;
  Buffer_swizzle_enable : Buffer → bool;
  Buffer_add_tid_enable : Buffer → bool;
  Image_GetType : Image → ImageType;
  Image_GetNumberFmt : Image → Z;
  Flags_BufferInstInfo : Z → BufferInstInfo;
  Flags_TextureInstInfo : Z → TextureInstInfo;
  NumberFormat_Float : Z;
  DataFormat_Format32 : Z;
  DataFormat_Format32_32 : Z;
  DataFormat_Format32_32_32 : Z;
  DataFormat_Format32_32_32_32 : Z;
  Type_mask : IRType → Z;
  Inst_Type : Opcode → Z → IRType;
  guest_memory : Z → Z;
  memory_past_user_data : Z → Z;
}.

(** The mutable state the pass threads through: the instruction arena, the
    blocks in [post_order_blocks] order and the registry. *)
Record State : Type := mkState {
  insts : list Inst;
  blocks : list Block;
  descriptors : Descriptors.t;
}.

Record SharpLocation : Type := mkSharpLocation {
  sl_sgpr_base : Z;
  sl_dword_offset : Z;
}.

(** *** Operand and instruction accessors *)

(** Modelled from the spec: dereferencing a handle; a handle outside the
    arena is a dangling pointer. *)
Definition GetInst (a : list Inst) (h : Handle) : Res Inst := of_option (a !! h).

(** Modelled from the spec: [Inst::GetOpcode()]. *)
Definition GetOpcode (a : list Inst) (h : Handle) : Res Opcode :=
  of_option (opcode <$> a !! h).

(** Modelled from the spec: [Inst::Arg(index)]; an index past the operand
    count is rejected. *)
Definition Arg (a : list Inst) (h : Handle) (index : nat) : Res Value :=
  i ← GetInst a h;
  of_option (args i !! index).

(** Modelled from the spec: [Value::IsImmediate()]. *)
Definition IsImmediate (v : Value) : bool :=
  match v with Imm _ _ => true | InstRef _ => false end.

(** Modelled from the spec: [Value::InstRecursive()], the producing
    instruction; applying it to an immediate violates its precondition. *)
Definition InstRecursive (v : Value) : Res Handle :=
  match v with InstRef h => Ok h | Imm _ _ => Abort end.

(** Modelled from the spec: [Value::TryInstRecursive()], the producing
    instruction or null. *)
Definition TryInstRecursive (v : Value) : option Handle :=
  match v with InstRef h => Some h | Imm _ _ => None end.

(** Modelled from the spec: [Value::U32()], [Value::U64()] and
    [Value::ScalarReg()] read the storage of an immediate; the pass applies
    the 64-bit accessor to a 32-bit immediate as well, where it yields the
    zero extension.  Applied to an instruction reference they violate their
    precondition. *)
Definition U32 (v : Value) : Res Z :=
  match v with Imm _ raw => Ok (wrap32 raw) | InstRef _ => Abort end.

Definition U64 (v : Value) : Res Z :=
  match v with Imm _ raw => Ok (wrap64 raw) | InstRef _ => Abort end.

Definition ScalarReg (v : Value) : Res Z :=
  match v with Imm _ raw => Ok raw | InstRef _ => Abort end.

(** Modelled from the spec: [IREmitter::Imm32] for [u32], [s32] and [f32]
    arguments. *)
Definition Imm32 (value : Z) : Value := Imm Type_U32 (wrap32 value).
Definition Imm32_f32 (bits : Z) : Value := Imm Type_F32 bits.

(** The bit pattern of [1.5f]. *)
Definition f32_1_5 : Z := 0x3FC00000.

(** Modelled from the spec: [Inst::SetArg(index, value)], the in-place
    operand replacement; an index past the operand count is rejected. *)
Definition SetArg (h : Handle) (index : nat) (v : Value) (s : State) : Res State :=
  i ← GetInst (insts s) h;
  _ ← ASSERT (bool_decide (index < length (args i))%nat);
  Ok (mkState (<[h := mkInst (opcode i) (<[index := v]> (args i)) (flags i)]> (insts s))
              (blocks s) (descriptors s)).

(** Modelled from the spec: insertion of a new instruction in front of
    [before] in a block's instruction list. *)
Fixpoint insert_before (before new : Handle) (l : Block) : Block :=
  match l with
  | [] => []
  | h :: l' => if decide (h = before) then new :: h :: l'
               else h :: insert_before before new l'
  end.

(** Modelled from the spec: an emitting call of
    [IR::IREmitter ir{block, s_iterator_to(inst)}].  The new instruction is
    allocated in the arena, placed in front of [inst] in [block], and a
    reference to it is returned.  The emitter picks the width variant of
    composite construction and extraction from the IR type of the operands,
    and the typed wrappers [IR::U32{..}], [IR::F32{..}] check that type.  The
    pass names one of these variants, [CompositeConstructU32x2]; for the
    others one opcode stands for each of the two composite operations, and
    the type checks are not part of the model. *)
Definition emit (block : nat) (inst : Handle) (op : Opcode) (operands : list Value)
    (s : State) : Value * State :=
  let h := length (insts s) in
  (InstRef h,
   mkState (insts s ++ [mkInst op operands 0])
           (alter (insert_before inst h) block (blocks s))
           (descriptors s)).

Section Emitter.
Context `{External}.

(** Modelled from the spec: [Value::Type()], the IR type of an operand: that
    of the immediate, or the result type of the producing instruction. *)
Definition Value_Type (a : list Inst) (v : Value) : Res IRType :=
  match v with
  | Imm ty _ => Ok ty
  | InstRef h => i ← GetInst a h; Ok (Inst_Type (opcode i) (flags i))
  end.

(** Modelled from the spec: the opcode [IREmitter::CompositeConstruct]
    picks for components of IR type [ty]: two [U32] components make a
    [CompositeConstructU32x2]. *)
Definition CompositeConstruct_opcode (ty : IRType) (operands : list Value) : Opcode :=
  match operands with
  | [_; _] => if bool_decide (ty = Type_U32) then CompositeConstructU32x2
              else CompositeConstruct
  | _ => CompositeConstruct
  end.

(** Modelled from the spec: [IREmitter::CompositeConstruct(e1, e2, ...)],
    which looks at the IR type of its first component. *)
Definition ir_CompositeConstruct (block : nat) (inst : Handle) (operands : list Value)
    (s : State) : Res (Value * State) :=
  e1 ← of_option (head operands);
  ty ← Value_Type (insts s) e1;
  Ok (emit block inst (CompositeConstruct_opcode ty operands) operands s).

End Emitter.

(** *** Opcode classification *)

Definition IsBufferInstruction (op : Opcode) : bool :=
  match op with
  | LoadBufferF32 | LoadBufferF32x2 | LoadBufferF32x3 | LoadBufferF32x4
  | LoadBufferU32 | ReadConstBuffer | ReadConstBufferU32
  | StoreBufferF32 | StoreBufferF32x2 | StoreBufferF32x3 | StoreBufferF32x4
  | StoreBufferU32 => true
  | _ => false
  end.

Definition BufferDataType (op : Opcode) : Res IRType :=
  match op with
  | LoadBufferF32 | LoadBufferF32x2 | LoadBufferF32x3 | LoadBufferF32x4
  | ReadConstBuffer
  | StoreBufferF32 | StoreBufferF32x2 | StoreBufferF32x3 | StoreBufferF32x4 => Ok Type_F32
  | LoadBufferU32 | ReadConstBufferU32 | StoreBufferU32 => Ok Type_U32
  | _ => Abort
  end.

Definition IsBufferStore (op : Opcode) : bool :=
  match op with
  | StoreBufferF32 | StoreBufferF32x2 | StoreBufferF32x3 | StoreBufferF32x4
  | StoreBufferU32 => true
  | _ => false
  end.

Definition IsImageInstruction (op : Opcode) : bool :=
  match op with
  | ImageSampleExplicitLod | ImageSampleImplicitLod
  | ImageSampleDrefExplicitLod | ImageSampleDrefImplicitLod
  | ImageFetch | ImageGather | ImageGatherDref
  | ImageQueryDimensions | ImageQueryLod | ImageGradient
  | ImageRead | ImageWrite
  | ImageAtomicIAdd32 | ImageAtomicSMin32 | ImageAtomicUMin32
  | ImageAtomicSMax32 | ImageAtomicUMax32 | ImageAtomicInc32
  | ImageAtomicDec32 | ImageAtomicAnd32 | ImageAtomicOr32
  | ImageAtomicXor32 | ImageAtomicExchange32 => true
  | _ => false
  end.

Definition IsImageStorageInstruction (op : Opcode) : bool :=
  match op with
  | ImageWrite | ImageRead
  | ImageAtomicIAdd32 | ImageAtomicSMin32 | ImageAtomicUMin32
  | ImageAtomicSMax32 | ImageAtomicUMax32 | ImageAtomicInc32
  | ImageAtomicDec32 | ImageAtomicAnd32 | ImageAtomicOr32
  | ImageAtomicXor32 | ImageAtomicExchange32 => true
  | _ => false
  end.

(** ** The pass *)

Section Pass.
Context `{External}.

(** The dword at [index] from [user_data.data()].  Neither [operator[]] of
    the span nor the pointer arithmetic on its data checks the index: past
    the end of the table the read gives what the host memory holds there. *)
Definition user_data_dword (info : Info) (index : Z) : Z :=
  default (memory_past_user_data index) (user_data info !! Z.to_nat index).

(** [Info::ReadUd<T>(ptr_index, dword_offset)], one dword of the result:
    from the user-data table itself when [ptr_index] is the sentinel,
    otherwise through the 64-bit pointer held in the user-data register pair
    at [ptr_index]. *)
Definition ReadUd_dword (info : Info) (ptr_index dword_offset : Z) : Res Z :=
  if decide (ptr_index ≠ NumScalarRegs) then
    let lo := user_data_dword info ptr_index in
    let hi := user_data_dword info (ptr_index + 1) in
    Ok (guest_memory (wrap64 (Z.lor lo (Z.shiftl hi 32) + 4 * dword_offset)))
  else Ok (user_data_dword info dword_offset).

Fixpoint ReadUd (count : nat) (info : Info) (ptr_index dword_offset : Z) : Res (list Z) :=
  match count with
  | O => Ok []
  | S count' =>
      w ← ReadUd_dword info ptr_index dword_offset;
      ws ← ReadUd count' info ptr_index (dword_offset + 1);
      Ok (w :: ws)
  end.

Definition ReadUd_Buffer (info : Info) (ptr_index dword_offset : Z) : Res Buffer :=
  ws ← ReadUd 4 info ptr_index dword_offset;
  match ws with
  | [d0; d1; d2; d3] => Ok (mkBuffer (Z.lor d0 (Z.shiftl d1 32)) (Z.lor d2 (Z.shiftl d3 32)))
  | _ => Abort
  end.

Definition ReadUd_Image (info : Info) (ptr_index dword_offset : Z) : Res Image :=
  ws ← ReadUd 8 info ptr_index dword_offset;
  Ok (mkImage ws).

(** [TryDisableAnisoLod0]: the four-instruction idiom that clears the
    anisotropy bits of a sampler when the texture has a single mip level. *)
Definition TryDisableAnisoLod0 (a : list Inst) (inst : Handle) : Res (Handle * bool) :=
  let not_found := Ok (inst, false) in
  op ← GetOpcode a inst;
  if negb (bool_decide (op = SelectU32)) then not_found else
  prod0 ← Arg a inst 0 ≫= InstRecursive;
  prod0_op ← GetOpcode a prod0;
  prod0_zero ←
    (if negb (bool_decide (prod0_op = IEqual)) then Ok false else
     v ← Arg a prod0 1;
     if negb (IsImmediate v) then Ok false else
     z ← U32 v; Ok (bool_decide (z = 0)));
  if negb prod0_zero then not_found else
  prod0_arg0 ← Arg a prod0 0 ≫= InstRecursive;
  prod0_arg0_op ← GetOpcode a prod0_arg0;
  lod_bits ←
    (if negb (bool_decide (prod0_arg0_op = BitFieldUExtract)) then Ok false else
     p ← Arg a prod0_arg0 1 ≫= InstRecursive;
     z ← Arg a p 0 ≫= U32;
     Ok (bool_decide (z = 0x0008000c)));
  if negb lod_bits then not_found else
  prod1 ← Arg a inst 1 ≫= InstRecursive;
  prod1_op ← GetOpcode a prod1;
  mask ←
    (if negb (bool_decide (prod1_op = BitwiseAnd32)) then Ok false else
     z ← Arg a prod1 1 ≫= U32;
     Ok (bool_decide (z = 0xfffff1ff)));
  if negb mask then not_found else
  prod2 ← Arg a inst 2 ≫= InstRecursive;
  prod2_op ← GetOpcode a prod2;
  if negb (bool_decide (prod2_op = GetUserData)) && negb (bool_decide (prod2_op = ReadConst))
  then not_found
  else Ok (prod2, true).

(** The loop [while (inst->GetOpcode() == IR::Opcode::Phi) inst =
    inst->Arg(0).InstRecursive();] of [TrackSharp].  The two loops over
    [sbase0] and [sbase1] use [TryInstRecursive] and dereference its result
    in the next test, which fails on the same operands. *)
Fixpoint skip_phi (fuel : nat) (a : list Inst) (inst : Handle) : Res Handle :=
  match fuel with
  | O => Timeout
  | S fuel' =>
      op ← GetOpcode a inst;
      if bool_decide (op = Phi) then
        next ← Arg a inst 0 ≫= InstRecursive;
        skip_phi fuel' a next
      else Ok inst
  end.

Definition TrackSharp (fuel : nat) (a : list Inst) (inst : Handle) : Res SharpLocation :=
  inst ← skip_phi fuel a inst;
  op ← GetOpcode a inst;
  if bool_decide (op = GetUserData) then
    reg ← Arg a inst 0 ≫= ScalarReg;
    Ok (mkSharpLocation ScalarReg_Max (wrap32 reg))
  else
  _ ← ASSERT (bool_decide (op = ReadConst));
  dword_offset ← Arg a inst 1 ≫= U32;
  spgpr_base ← Arg a inst 0 ≫= InstRecursive;
  sbase0 ← Arg a spgpr_base 0 ≫= InstRecursive;
  sbase1 ← Arg a spgpr_base 1 ≫= InstRecursive;
  sbase0 ← skip_phi fuel a sbase0;
  sbase1 ← skip_phi fuel a sbase1;
  op0 ← GetOpcode a sbase0;
  op1 ← GetOpcode a sbase1;
  _ ← ASSERT (bool_decide (op0 = GetUserData) && bool_decide (op1 = GetUserData));
  base ← Arg a sbase0 0 ≫= ScalarReg;
  Ok (mkSharpLocation (wrap32 base) dword_offset).

Definition MaxUboSize : Z := 65536.

(** The sharp [TryHandleInlineCbuf] builds once the pattern is found:
    [buffer[0] = info.pgm_base + imm0 + imm1; buffer[1] = imm2 | imm3 << 32]. *)
Definition inline_sharp (pgm_base imm0 imm1 imm2 imm3 : Z) : Buffer :=
  mkBuffer (wrap64 (pgm_base + imm0 + imm1))
           (Z.lor imm2 (wrap64 (Z.shiftl imm3 32))).

(** [TryHandleInlineCbuf(inst, info, descriptors, cbuf)]: the binding, or
    [-1], with the out-parameter [cbuf] and the state. *)
Definition TryHandleInlineCbuf (inst : Handle) (info : Info) (cbuf : Buffer) (s : State)
  : Res (Z * Buffer * State) :=
  let a := insts s in
  handle ← Arg a inst 0 ≫= InstRecursive;
  p0 ← Arg a handle 0 ≫= InstRecursive;
  p0_op ← GetOpcode a p0;
  if negb (bool_decide (p0_op = IAdd32)) then Ok (-1, cbuf, s) else
  p0_arg0 ← Arg a p0 0;
  if negb (IsImmediate p0_arg0) then Ok (-1, cbuf, s) else
  p0_arg1 ← Arg a p0 1;
  if negb (IsImmediate p0_arg1) then Ok (-1, cbuf, s) else
  p1 ← Arg a handle 1 ≫= InstRecursive;
  p1_op ← GetOpcode a p1;
  if negb (bool_decide (p1_op = IAdd32)) then Ok (-1, cbuf, s) else
  handle_arg3 ← Arg a handle 3;
  if negb (IsImmediate handle_arg3) then Ok (-1, cbuf, s) else
  handle_arg2 ← Arg a handle 2;
  if negb (IsImmediate handle_arg2) then Ok (-1, cbuf, s) else
  imm0 ← U32 p0_arg0;
  imm1 ← U32 p0_arg1;
  imm2 ← U32 handle_arg2;
  imm3 ← U64 handle_arg3;
  let cbuf := inline_sharp (pgm_base info) imm0 imm1 imm2 imm3 in
  inst_op ← GetOpcode a inst;
  used ← BufferDataType inst_op;
  '(index, d) ← Descriptors.Add_buffer (descriptors s)
     (BufferResource.mk
        (2 ^ 32 - 1)
        0
        (Buffer_GetStride cbuf)
        (wrap32 (Buffer_num_records cbuf))
        (Type_mask used)
        cbuf
        (IsBufferStore inst_op || bool_decide (MaxUboSize < Buffer_GetSize cbuf)));
  Ok (Z.of_nat index, cbuf, mkState (insts s) (blocks s) d).

(** [PatchBufferInstruction(block, inst, info, descriptors)], its leading
    statement: the binding and the sharp of the instruction, from the inline
    constant buffer idiom or else from the tracked user-data location. *)
Definition PatchBufferInstruction_sharp (fuel : nat) (inst : Handle) (info : Info)
    (s : State) : Res (Z * Buffer * State) :=
  '(binding, buffer, s) ← TryHandleInlineCbuf inst info Buffer_zero s;
  if bool_decide (binding = -1) then
    let a := insts s in
    handle ← Arg a inst 0 ≫= InstRecursive;
    producer ← Arg a handle 0 ≫= InstRecursive;
    sharp ← TrackSharp fuel a producer;
    buffer ← ReadUd_Buffer info (sl_sgpr_base sharp) (sl_dword_offset sharp);
    inst_op ← GetOpcode a inst;
    used ← BufferDataType inst_op;
    '(index, d) ← Descriptors.Add_buffer (descriptors s)
       (BufferResource.mk
          (sl_sgpr_base sharp)
          (sl_dword_offset sharp)
          (Buffer_GetStride buffer)
          (wrap32 (Buffer_num_records buffer))
          (Type_mask used)
          Buffer_zero
          (IsBufferStore inst_op || bool_decide (MaxUboSize < Buffer_GetSize buffer)));
    Ok (Z.of_nat index, buffer, mkState (insts s) (blocks s) d)
  else Ok (binding, buffer, s).

(** The statements of [PatchBufferInstruction] after the sharp is known:
    the handle operand becomes the binding, and the address operand the
    dword address. *)
Definition PatchBufferInstruction_rewrite (block : nat) (inst : Handle)
    (binding : Z) (buffer : Buffer) (s : State) : Res State :=
  i ← GetInst (insts s) inst;
  let inst_info := Flags_BufferInstInfo (flags i) in
  s ← SetArg inst 0 (Imm32 binding) s;
  _ ← ASSERT (negb (Buffer_swizzle_enable buffer) && negb (Buffer_add_tid_enable buffer));
  _ ← (if is_typed inst_info then
         ASSERT (bool_decide (bi_nfmt inst_info = NumberFormat_Float) &&
                 (bool_decide (bi_dmft inst_info = DataFormat_Format32_32_32_32) ||
                  bool_decide (bi_dmft inst_info = DataFormat_Format32_32_32) ||
                  bool_decide (bi_dmft inst_info = DataFormat_Format32_32) ||
                  bool_decide (bi_dmft inst_info = DataFormat_Format32)))
       else Ok tt);
  inst_op ← GetOpcode (insts s) inst;
  if bool_decide (inst_op = ReadConstBuffer) || bool_decide (inst_op = ReadConstBufferU32)
  then Ok s else
  let dword_stride := Buffer_GetStrideElements buffer 4 in
  let dword_offset := inst_offset inst_info / 4 in
  let address := Imm32 dword_offset in
  '(address, s) ←
    (if index_enable inst_info && offset_enable inst_info then
       arg1 ← Arg (insts s) inst 1;
       let '(offset, s) := emit block inst CompositeExtract [arg1; Imm32 1] s in
       let '(index, s) := emit block inst CompositeExtract [arg1; Imm32 0] s in
       let '(product, s) := emit block inst IMul32 [index; Imm32 dword_stride] s in
       let '(address, s) := emit block inst IAdd32 [product; address] s in
       let '(shifted, s) := emit block inst ShiftRightLogical32 [offset; Imm32 2] s in
       let '(address, s) := emit block inst IAdd32 [address; shifted] s in
       Ok (address, s)
     else if index_enable inst_info then
       index ← Arg (insts s) inst 1;
       let '(product, s) := emit block inst IMul32 [index; Imm32 dword_stride] s in
       let '(address, s) := emit block inst IAdd32 [product; address] s in
       Ok (address, s)
     else if offset_enable inst_info then
       offset ← Arg (insts s) inst 1;
       Ok (address, s)
     else Ok (address, s));
  SetArg inst 1 address s.

Definition PatchBufferInstruction (fuel : nat) (block : nat) (inst : Handle) (info : Info)
    (s : State) : Res State :=
  '(binding, buffer, s) ← PatchBufferInstruction_sharp fuel inst info s;
  PatchBufferInstruction_rewrite block inst binding buffer s.

(** The test of the producer search of [PatchImageInstruction]. *)
Definition producer_pred (op : Opcode) : bool :=
  bool_decide (op = CompositeConstructU32x2) ||
  bool_decide (op = ReadConst) ||
  bool_decide (op = GetUserData).

(** The operands [insts.push_back] appends for one instruction: those with a
    producing instruction, in operand order. *)
Definition inst_operands (i : Inst) : list Handle := omap TryInstRecursive (args i).

(** The search loop over [std::deque<IR::Inst*> insts].  When the queue runs
    empty, [producer] is the last instruction popped, which failed the test,
    and the [ASSERT] after the loop fails. *)
Fixpoint FindProducer (fuel : nat) (a : list Inst) (queue : list Handle) : Res Handle :=
  match queue with
  | [] => Abort
  | producer :: rest =>
      match fuel with
      | O => Timeout
      | S fuel' =>
          i ← GetInst a producer;
          if producer_pred (opcode i) then Ok producer
          else FindProducer fuel' a (rest ++ inst_operands i)
      end
  end.

(** The instructions the search loop assigns to [producer], in order, during
    its first [fuel] iterations. *)
Fixpoint FindProducer_visits (fuel : nat) (a : list Inst) (queue : list Handle) : list Handle :=
  match queue, fuel with
  | producer :: rest, S fuel' =>
      match a !! producer with
      | Some i =>
          if producer_pred (opcode i) then [producer]
          else producer :: FindProducer_visits fuel' a (rest ++ inst_operands i)
      | None => [producer]
      end
  | _, _ => []
  end.

(** Modelled from the spec: the read of a [BitField<position, bits, u32>]
    ([common/bit_field.h] is not among the sources), the unsigned field of
    [bits] bits at bit [position]. *)
Definition BitField (position bits raw : Z) : Z :=
  Z.land (Z.shiftr raw position) (Z.ones bits).

(** [s32(value << 24) >> 24] on a [u32] value. *)
Definition to_s32 (z : Z) : Z := if decide (z < 2 ^ 31) then z else z - 2 ^ 32.

Definition sign_ext (value : Z) : Value :=
  Imm32 (Z.shiftr (to_s32 (wrap32 (Z.shiftl value 24))) 24).

(** The operands of the composite that replaces the texel offset operand
    [raw]: [ir.CompositeConstruct(sign_ext(offset.x), sign_ext(offset.y))]. *)
Definition texel_offset_operands (raw : Z) : list Value :=
  [sign_ext (BitField 0 6 raw); sign_ext (BitField 8 6 raw)].

Definition imm_type (v : Value) : option IRType :=
  match v with Imm ty _ => Some ty | InstRef _ => None end.

(** [PatchCubeCoord(ir, s, t, z)] *)
Definition PatchCubeCoord (block : nat) (inst : Handle) (cs ct cz : Value) (s : State)
  : Value * State :=
  let '(x, s) := emit block inst FPSub32 [cs; Imm32_f32 f32_1_5] s in
  let '(y, s) := emit block inst FPSub32 [ct; Imm32_f32 f32_1_5] s in
  emit block inst CompositeConstruct [x; y; cz] s.

(** [PatchImageInstruction(block, inst, info, descriptors)] *)
Definition PatchImageInstruction (fuel : nat) (block : nat) (inst : Handle) (info : Info)
    (s : State) : Res State :=
  let a := insts s in
  producer ← FindProducer fuel a [inst];
  producer_op ← GetOpcode a producer;
  '(tsharp_handle, ssharp_handle) ←
    (if bool_decide (producer_op = CompositeConstructU32x2) then
       t ← Arg a producer 0 ≫= InstRecursive;
       ss ← Arg a producer 1 ≫= InstRecursive;
       Ok (t, Some ss)
     else Ok (producer, None));
  tsharp ← TrackSharp fuel a tsharp_handle;
  image ← ReadUd_Image info (sl_sgpr_base tsharp) (sl_dword_offset tsharp);
  i ← GetInst a inst;
  let inst_info := Flags_TextureInstInfo (flags i) in
  let inst_op := opcode i in
  '(image_index, d) ← Descriptors.Add_image (descriptors s)
     (ImageResource.mk
        (sl_sgpr_base tsharp)
        (sl_dword_offset tsharp)
        (Image_GetType image)
        (Image_GetNumberFmt image)
        (IsImageStorageInstruction inst_op)
        (is_depth inst_info));
  let image_binding := Z.of_nat image_index in
  '(image_binding, d) ←
    match ssharp_handle with
    | Some ssharp_handle =>
        '(ssharp_ud, disable_aniso) ← TryDisableAnisoLod0 a ssharp_handle;
        ssharp ← TrackSharp fuel a ssharp_ud;
        '(sampler_index, d) ← Descriptors.Add_sampler d
           (SamplerResource.mk
              (sl_sgpr_base ssharp)
              (sl_dword_offset ssharp)
              (image_binding mod 16)
              disable_aniso);
        Ok (Z.lor image_binding (wrap32 (Z.shiftl (Z.of_nat sampler_index) 16)), d)
    | None => Ok (image_binding, d)
    end;
  s ← SetArg inst 0 (Imm32 image_binding) (mkState (insts s) (blocks s) d);
  if bool_decide (inst_op = ImageQueryDimensions) then Ok s else
  body ← Arg (insts s) inst 1 ≫= InstRecursive;
  '(coords, arg, s) ←
    match Image_GetType image with
    | Color1D =>
        b0 ← Arg (insts s) body 0;
        b1 ← Arg (insts s) body 1;
        Ok (b0, b1, s)
    | Color1DArray | Color2D =>
        b0 ← Arg (insts s) body 0;
        b1 ← Arg (insts s) body 1;
        b2 ← Arg (insts s) body 2;
        '(coords, s) ← ir_CompositeConstruct block inst [b0; b1] s;
        Ok (coords, b2, s)
    | Color2DArray | Color2DMsaa | Color3D =>
        b0 ← Arg (insts s) body 0;
        b1 ← Arg (insts s) body 1;
        b2 ← Arg (insts s) body 2;
        b3 ← Arg (insts s) body 3;
        let '(coords, s) := emit block inst CompositeConstruct [b0; b1; b2] s in
        Ok (coords, b3, s)
    | Cube =>
        b0 ← Arg (insts s) body 0;
        b1 ← Arg (insts s) body 1;
        b2 ← Arg (insts s) body 2;
        b3 ← Arg (insts s) body 3;
        let '(coords, s) := PatchCubeCoord block inst b0 b1 b2 s in
        Ok (coords, b3, s)
    | ImageTypeOther _ => Abort
    end;
  s ← SetArg inst 1 coords s;
  s ← (if has_offset inst_info then
         let arg_pos := if is_depth inst_info then 4%nat else 3%nat in
         offset_arg ← Arg (insts s) inst arg_pos;
         _ ← ASSERT (bool_decide (imm_type offset_arg = Some Type_U32));
         raw ← U32 offset_arg;
         '(value, s) ← ir_CompositeConstruct block inst (texel_offset_operands raw) s;
         SetArg inst arg_pos value s
       else Ok s);
  s ← (if has_lod_clamp inst_info then
         let arg_pos := if is_depth inst_info then 5%nat else 4%nat in
         SetArg inst arg_pos arg s
       else Ok s);
  if explicit_lod inst_info then
    _ ← ASSERT (bool_decide (inst_op = ImageFetch) ||
                bool_decide (inst_op = ImageSampleExplicitLod) ||
                bool_decide (inst_op = ImageSampleDrefExplicitLod));
    let pos := if bool_decide (inst_op = ImageSampleExplicitLod) then 2%nat else 3%nat in
    SetArg inst pos arg s
  else Ok s.

(** The body of the second loop of [ResourceTrackingPass] for one
    instruction. *)
Definition visit_inst (fuel : nat) (info : Info) (block : nat) (inst : Handle) (s : State)
  : Res State :=
  op ← GetOpcode (insts s) inst;
  if IsBufferInstruction op then PatchBufferInstruction fuel block inst info s
  else if IsImageInstruction op then PatchImageInstruction fuel block inst info s
  else Ok s.

(** [for (IR::Inst& inst : block->Instructions())]: the instructions a
    patcher emits are linked in front of the instruction being visited, so
    the loop visits the instructions the block held when it was entered. *)
Fixpoint visit_block (fuel : nat) (info : Info) (block : nat) (l : list Handle) (s : State)
  : Res State :=
  match l with
  | [] => Ok s
  | inst :: l' =>
      s ← visit_inst fuel info block inst s;
      visit_block fuel info block l' s
  end.

Fixpoint visit_blocks (fuel : nat) (info : Info) (bs : list nat) (s : State) : Res State :=
  match bs with
  | [] => Ok s
  | block :: bs' =>
      l ← of_option (blocks s !! block);
      s ← visit_block fuel info block l s;
      visit_blocks fuel info bs' s
  end.

(** [ResourceTrackingPass(program)].  The first loop of the source leaves
    every block through its leading [break] and changes nothing. *)
Definition ResourceTrackingPass (fuel : nat) (info : Info) (s : State) : Res State :=
  visit_blocks fuel info (seq 0 (length (blocks s))) s.

End Pass.

(** ** Auxiliary notions for the properties *)

(** [i] is the position of the first entry of [l] with identity [k]. *)
Definition first_at {A K : Type} (key : A → K) (l : list A) (k : K) (i : nat) : Prop :=
  (∃ x, l !! i = Some x ∧ key x = k) ∧
  (∀ j y, (j < i)%nat → l !! j = Some y → key y ≠ k).

(** [l'] keeps the identities of the entries of [l] in place and may have
    more entries. *)
Definition keys_extend {A K : Type} (key : A → K) (l l' : list A) : Prop :=
  key <$> l `prefix_of` key <$> l'.

(** No two entries of [l] share an identity. *)
Definition unique_keys {A K : Type} (key : A → K) (l : list A) : Prop :=
  NoDup (key <$> l).

(** Sample descriptors for running the registry. *)
Definition sample_buffer_load : BufferResource.t :=
  BufferResource.mk 12 4 16 256 1 Buffer_zero false.
Definition sample_buffer_store : BufferResource.t :=
  BufferResource.mk 12 4 16 256 2 Buffer_zero true.
Definition sample_buffer_conflict : BufferResource.t :=
  BufferResource.mk 12 4 32 256 1 Buffer_zero false.
Definition sample_image : ImageResource.t :=
  ImageResource.mk 4 0 Color2D 7 false false.
Definition sample_sampler : SamplerResource.t :=
  SamplerResource.mk 12 0 0 false.

(** ** What a rewritten operand computes

    Run-time values of IR operands: a 32-bit scalar or a composite of
    scalars.  [eval] gives the integer operations the buffer patcher emits
    their meaning on 32-bit words; the value of every other instruction is
    taken from the environment [rho]. *)
Inductive RtValue : Type :=
| RtU32 (z : Z)
| RtComposite (elements : list Z).

Definition interpreted (op : Opcode) : bool :=
  match op with
  | IAdd32 | IMul32 | ShiftRightLogical32 | CompositeExtract => true
  | _ => false
  end.

Definition eval_binop (f : Z → Z → Z) (x y : option RtValue) : option RtValue :=
  match x, y with
  | Some (RtU32 p), Some (RtU32 q) => Some (RtU32 (f p q))
  | _, _ => None
  end.

(** The value of instruction [i], given the values [operand] of operands
    and the environment's value [own] for the instruction itself. *)
Definition eval_inst (operand : Value → option RtValue) (own : option RtValue) (i : Inst)
  : option RtValue :=
  match opcode i, args i with
  | IAdd32, [x; y] => eval_binop (λ p q, wrap32 (p + q)) (operand x) (operand y)
  | IMul32, [x; y] => eval_binop (λ p q, wrap32 (p * q)) (operand x) (operand y)
  | ShiftRightLogical32, [x; y] => eval_binop (λ p q, Z.shiftr p q) (operand x) (operand y)
  | CompositeExtract, [c; Imm _ k] =>
      match operand c with
      | Some (RtComposite elements) => RtU32 <$> elements !! Z.to_nat k
      | _ => None
      end
  | _, _ => if interpreted (opcode i) then None else own
  end.

Fixpoint eval (fuel : nat) (a : list Inst) (rho : Handle → option RtValue) (v : Value)
  : option RtValue :=
  match v with
  | Imm _ raw => Some (RtU32 (wrap32 raw))
  | InstRef h =>
      match fuel with
      | O => None
      | S fuel' =>
          match a !! h with
          | None => None
          | Some i => eval_inst (eval fuel' a rho) (rho h) i
          end
      end
  end.

(** ** The texel offset word, as the spec packs it

    Three values in [-32, 31] as 6-bit two's-complement fields at bit
    positions [0:6), [8:14), [16:22) of a 32-bit word. *)
Definition pack_texel_offset (x y z : Z) : Z :=
  Z.lor (x mod 64) (Z.lor (Z.shiftl (y mod 64) 8) (Z.shiftl (z mod 64) 16)).

(** ** A sample instance of the external collaborators

    The decoders follow the GCN descriptor layout: the V# stride in bits
    [48:62) and the swizzle bit 63 of the first quadword, the record count
    in the low dword and the thread-id bit 55 of the second; the T# type in
    bits [28:32) of the fourth dword.  Used to run the pass on concrete
    programs. *)

(** A user-data table whose register pair 12/13 points at guest address
    [0x10000], with guest memory holding at dword 4 from there a V# of
    stride 16 and 256 records. *)
Definition sample_info : Info :=
  mkInfo [0; 0; 0; 0; 0; 0; 0; 0; 0; 0; 0; 0; 0x10000; 0; 0; 0] 0x1000.

Definition sample_memory (address : Z) : Z :=
  if decide (address = 0x10014) then 0x100000
  else if decide (address = 0x10018) then 256
  else 0.

Definition sample_stride (b : Buffer) : Z := BitField 48 14 (word0 b).

Definition sample_image_type (img : Image) : ImageType :=
  let raw := BitField 28 4 (default 0 (image_raw img !! 3%nat)) in
  if decide (raw = 8) then Color1D
  else if decide (raw = 9) then Color2D
  else if decide (raw = 10) then Color3D
  else if decide (raw = 11) then Cube
  else if decide (raw = 12) then Color1DArray
  else if decide (raw = 13) then Color2DArray
  else if decide (raw = 14) then Color2DMsaa
  else ImageTypeOther raw.

Definition sample_type_mask (ty : IRType) : Z :=
  match ty with
  | Type_Void => 0
  | Type_ScalarReg => 2
  | Type_U1 => 32
  | Type_U32 => 256
  | Type_U64 => 512
  | Type_F32 => 2048
  | Type_Other id => id
  end.

(** The result types of the opcodes the sample programs use. *)
Definition sample_inst_type (op : Opcode) (flag_word : Z) : IRType :=
  match op with
  | GetUserData | ReadConst | IAdd32 | IMul32 | ShiftRightLogical32 | SelectU32
  | BitFieldUExtract | BitwiseAnd32 | BitCastU32F32 => Type_U32
  | IEqual => Type_U1
  | FPSub32 => Type_F32
  | Phi => Type_Other flag_word
  | OtherOpcode id => if decide (id = 5) then Type_U32 else Type_F32
  | _ => Type_Other 0
  end.

Definition sample_external : External := {|
  Buffer_GetStride := sample_stride;
  Buffer_num_records b := BitField 0 32 (word1 b);
  Buffer_GetSize b := sample_stride b * BitField 0 32 (word1 b);
  Buffer_GetStrideElements b element_size :=
    if decide (sample_stride b = 0) then 1 else sample_stride b / element_size;
  Buffer_swizzle_enable b := Z.testbit (word0 b) 63;
  Buffer_add_tid_enable b := Z.testbit (word1 b) 55;
  Image_GetType := sample_image_type;
  Image_GetNumberFmt img := BitField 26 4 (default 0 (image_raw img !! 1%nat));
  Flags_BufferInstInfo raw :=
    mkBufferInstInfo (Z.testbit raw 0) (Z.testbit raw 1) (BitField 2 12 raw)
                     (Z.testbit raw 14) (BitField 15 4 raw) (BitField 19 4 raw);
  Flags_TextureInstInfo raw :=
    mkTextureInstInfo (Z.testbit raw 0) (Z.testbit raw 1) (Z.testbit raw 2) (Z.testbit raw 3);
  NumberFormat_Float := 7;
  DataFormat_Format32 := 4;
  DataFormat_Format32_32 := 11;
  DataFormat_Format32_32_32 := 13;
  DataFormat_Format32_32_32_32 := 14;
  Type_mask := sample_type_mask;
  Inst_Type := sample_inst_type;
  guest_memory := sample_memory;
  memory_past_user_data := λ _, 0;
|}.

(** ** Sample programs *)

(** The handle of a buffer access whose V# is read from constant memory
    through the pointer in s[12:13], at dword offset 4. *)
Definition sample_sharp_insts : list Inst := [
  mkInst GetUserData [Imm Type_ScalarReg 12] 0;
  mkInst GetUserData [Imm Type_ScalarReg 13] 0;
  mkInst CompositeConstructU32x2 [InstRef 0%nat; InstRef 1%nat] 0;
  mkInst ReadConst [InstRef 2%nat; Imm Type_U32 4] 0;
  mkInst (OtherOpcode 0) [InstRef 3%nat; InstRef 3%nat; InstRef 3%nat; InstRef 3%nat] 0;
  mkInst (OtherOpcode 1) [] 0
].

(** A buffer store through that handle with the flag word [flag_word] and
    the address operand produced by instruction 5. *)
Definition sample_store_program (flag_word : Z) : State :=
  mkState (sample_sharp_insts ++
             [mkInst StoreBufferF32 [InstRef 4%nat; InstRef 5%nat; Imm Type_F32 0] flag_word])
          [[0; 1; 2; 3; 4; 5; 6]%nat]
          Descriptors.empty.

(** The inline constant buffer idiom: the handle's first half is the sum of
    two immediates, its second half a sum, its two upper words immediates. *)
Definition sample_inline_program : State :=
  mkState [mkInst IAdd32 [Imm Type_U32 0x100; Imm Type_U32 0x20] 0;
           mkInst IAdd32 [Imm Type_U32 0; Imm Type_U32 0] 0;
           mkInst (OtherOpcode 0)
             [InstRef 0%nat; InstRef 1%nat; Imm Type_U32 0xAAAA; Imm Type_U32 0xBBBB] 0;
           mkInst (OtherOpcode 1) [] 0;
           mkInst LoadBufferF32 [InstRef 2%nat; InstRef 3%nat] 1]
          [[0; 1; 2; 3; 4]%nat]
          Descriptors.empty.

(** [a'] keeps every instruction of [a] in place with its opcode, and the
    instructions [eval] interprets with their operands. *)
Definition arena_agree (a a' : list Inst) : Prop :=
  ∀ h i, a !! h = Some i →
    ∃ i', a' !! h = Some i' ∧ opcode i' = opcode i ∧
          (interpreted (opcode i) = true → i' = i).

(** An image sample with a texel offset: T# in user data s[4:11], S# in
    s[12:15], coordinates from instruction 3, and the offset word
    [offset_word] as operand 3. *)
Definition sample_image_info : Info :=
  mkInfo [0; 0; 0; 0; 0; 0; 0; 0x90000000; 0; 0; 0; 0; 0; 0; 0; 0] 0x1000.

Definition sample_image_program (offset_word : Z) : State :=
  mkState [mkInst GetUserData [Imm Type_ScalarReg 4] 0;
           mkInst GetUserData [Imm Type_ScalarReg 12] 0;
           mkInst CompositeConstructU32x2 [InstRef 0%nat; InstRef 1%nat] 0;
           mkInst (OtherOpcode 2)
             [Imm Type_F32 0; Imm Type_F32 0; Imm Type_F32 0; Imm Type_F32 0] 0;
           mkInst ImageSampleImplicitLod
             [InstRef 2%nat; InstRef 3%nat; Imm Type_F32 0; Imm Type_U32 offset_word;
              Imm Type_F32 0] 2]
          [[0; 1; 2; 3; 4]%nat]
          Descriptors.empty.

(** An image fetch whose handle is a Phi that merges itself, as a loop
    header does. *)
Definition cyclic_phi_program : State :=
  mkState [mkInst Phi [InstRef 0%nat] 0;
           mkInst (OtherOpcode 2)
             [Imm Type_U32 0; Imm Type_U32 0; Imm Type_U32 0; Imm Type_U32 0] 0;
           mkInst ImageFetch [InstRef 0%nat; InstRef 1%nat] 0]
          [[0; 1; 2]%nat]
          Descriptors.empty.

(** An image fetch whose handle reaches instruction 1 through both operands
    of instruction 2. *)
Definition shared_operand_program : State :=
  mkState [mkInst GetUserData [Imm Type_ScalarReg 4] 0;
           mkInst (OtherOpcode 3) [InstRef 0%nat] 0;
           mkInst (OtherOpcode 4) [InstRef 1%nat; InstRef 1%nat] 0;
           mkInst (OtherOpcode 2)
             [Imm Type_U32 0; Imm Type_U32 0; Imm Type_U32 0; Imm Type_U32 0] 0;
           mkInst ImageFetch [InstRef 2%nat; InstRef 3%nat] 0]
          [[0; 1; 2; 3; 4]%nat]
          Descriptors.empty.

(** An image fetch whose handle is the Phi of a loop header: it merges
    itself, the value of the previous iteration, with the [GetUserData] that
    enters the loop. *)
Definition loop_phi_program : State :=
  mkState [mkInst GetUserData [Imm Type_ScalarReg 4] 0;
           mkInst Phi [InstRef 1%nat; InstRef 0%nat] 0;
           mkInst (OtherOpcode 2)
             [Imm Type_U32 0; Imm Type_U32 0; Imm Type_U32 0; Imm Type_U32 0] 0;
           mkInst ImageFetch [InstRef 1%nat; InstRef 2%nat] 0]
          [[0; 1; 2; 3]%nat]
          Descriptors.empty.

(** ** Loops that end

    A computation that gives a result or fails, but does not run out of
    fuel. *)
Definition finishes {A : Type} (r : Res A) : Prop := r ≠ Timeout.

(** The producer search stops at [h]: at a recognised producer, or at a
    handle that names no instruction. *)
Definition search_stops (a : list Inst) (h : Handle) : Prop :=
  ∀ i, a !! h = Some i → producer_pred (opcode i) = true.

(** Below [h] the search runs out of instructions: no operand path from [h]
    goes on for ever through instructions that are not producers. *)
Inductive search_ends (a : list Inst) (h : Handle) : Prop :=
| search_ends_intro :
    (∀ i c, a !! h = Some i → producer_pred (opcode i) = false →
            c ∈ inst_operands i → search_ends a c) →
    search_ends a h.

(** The same with a bound: no such path from [h] has more than [depth]
    edges. *)
Fixpoint search_ends_within (a : list Inst) (depth : nat) (h : Handle) : Prop :=
  match a !! h with
  | Some i =>
      producer_pred (opcode i) = true ∨
      match depth with
      | O => False
      | S depth' => Forall (search_ends_within a depth') (inst_operands i)
      end
  | None => True
  end.

(** The number of queue entries the producer search goes through below [h],
    down to [depth] operand edges. *)
Fixpoint search_cost (a : list Inst) (depth : nat) (h : Handle) : nat :=
  match depth with
  | O => 1
  | S depth' =>
      match a !! h with
      | Some i =>
          if producer_pred (opcode i) then 1%nat
          else S (sum_list_with (search_cost a depth') (inst_operands i))
      | None => 1
      end
  end.

(** ** Structurally identical copies

    Two copies of a program hold the same instructions at different places
    of their arenas.  [pi] maps each handle of the first copy to the handle
    of the same instruction in the second; operands are references, so they
    are mapped along. *)
Definition rename_value (pi : Handle → Handle) (v : Value) : Value :=
  match v with
  | InstRef h => InstRef (pi h)
  | Imm ty raw => Imm ty raw
  end.

Definition rename_inst (pi : Handle → Handle) (i : Inst) : Inst :=
  mkInst (opcode i) (rename_value pi <$> args i) (flags i).

Record copy_of (pi : Handle → Handle) (a a' : list Inst) : Prop := mk_copy_of {
  copy_length : length a' = length a;
  copy_fresh : ∀ h, (length a ≤ h)%nat → pi h = h;
  copy_bound : ∀ h, (h < length a)%nat → (pi h < length a)%nat;
  copy_inj : ∀ h1 h2, pi h1 = pi h2 → h1 = h2;
  copy_lookup : ∀ h i, a !! h = Some i → a' !! pi h = Some (rename_inst pi i);
}.

(** The states of two copies: the same graph up to [pi], the same
    instruction order in every block, the same resource lists. *)
Record copy_state (pi : Handle → Handle) (s s' : State) : Prop := mk_copy_state {
  copy_insts : copy_of pi (insts s) (insts s');
  copy_blocks : blocks s' = (λ l : list nat, pi <$> l) <$> blocks s;
  copy_descriptors : descriptors s' = descriptors s;
}.

(** Two runs end the same way, with related results. *)
Definition res_rel {A B : Type} (R : A → B → Prop) (r : Res A) (r' : Res B) : Prop :=
  match r, r' with
  | Ok x, Ok y => R x y
  | Abort, Abort => True
  | Timeout, Timeout => True
  | _, _ => False
  end.

(** A decidable version of [copy_of] for a permutation given as a list:
    handle [h] of the first copy is handle [perm !!! h] of the second. *)
Definition apply_perm (perm : list nat) (h : Handle) : Handle := default h (perm !! h).

Definition is_copy (perm : list nat) (a a' : list Inst) : bool :=
  bool_decide (length perm = length a) &&
  bool_decide (length a' = length a) &&
  bool_decide (NoDup perm) &&
  forallb (λ h, bool_decide (h < length a)%nat) perm &&
  forallb (λ p : nat * Inst,
             bool_decide (a' !! apply_perm perm p.1 = Some (rename_inst (apply_perm perm) p.2)))
          (imap pair a).

(** The same image program as [sample_image_program], laid out in another
    order in its arena. *)
Definition sample_image_program_copy (offset_word : Z) : State :=
  mkState [mkInst ImageSampleImplicitLod
             [InstRef 2%nat; InstRef 1%nat; Imm Type_F32 0; Imm Type_U32 offset_word;
              Imm Type_F32 0] 2;
           mkInst (OtherOpcode 2)
             [Imm Type_F32 0; Imm Type_F32 0; Imm Type_F32 0; Imm Type_F32 0] 0;
           mkInst CompositeConstructU32x2 [InstRef 4%nat; InstRef 3%nat] 0;
           mkInst GetUserData [Imm Type_ScalarReg 12] 0;
           mkInst GetUserData [Imm Type_ScalarReg 4] 0]
          [[4; 3; 2; 1; 0]%nat]
          Descriptors.empty.

Definition sample_copy_perm : list nat := [4; 3; 2; 1; 0]%nat.

(** ** Attribute flags ([Info::AttributeFlags])

    The component masks of the attributes a stage loads or stores:
    [std::array<u8, IR::NumAttributes> flags], one byte per attribute.  An
    attribute is used through [Index], its enumerator value cast to the array
    index; an index past the array is rejected, and so is a shift count of 32
    or more. *)

#[global] Instance Res_eq_dec {A : Type} `{EqDecision A} : EqDecision (Res A).
Proof. solve_decision. Defined.

Module AttributeFlags.

Abbreviation t := (list Z).

(** Modelled from the spec: [IR::Attribute], an enumeration ([ir/attribute.h]
    is not among the sources), kept as its enumerator value. *)
Abbreviation Attribute := nat.

Definition Index (attrib : Attribute) : nat := attrib.

(** [(1 << comp)], an [int]. *)
Definition comp_bit (comp : Z) : Res Z :=
  _ ← ASSERT (bool_decide (0 ≤ comp < 32));
  Ok (to_s32 (wrap32 (Z.shiftl 1 comp))).

Definition Get (flags : t) (attrib : Attribute) (comp : Z) : Res bool :=
  mask ← of_option (flags !! Index attrib);
  bit ← comp_bit comp;
  Ok (bool_decide (Z.land mask bit ≠ 0)).

Definition GetAny (flags : t) (attrib : Attribute) : Res bool :=
  mask ← of_option (flags !! Index attrib);
  Ok (bool_decide (mask ≠ 0)).

(** [Set(attrib, comp)], [flags[Index(attrib)] |= (1 << comp)]: the
    disjunction is computed on [int] and stored back into the byte. *)
Definition Set_ (flags : t) (attrib : Attribute) (comp : Z) : Res t :=
  mask ← of_option (flags !! Index attrib);
  bit ← comp_bit comp;
  Ok (<[Index attrib := Z.lor mask bit mod 2 ^ 8]> flags).

(** [std::popcount] of an unsigned value of [width] bits. *)
Fixpoint popcount (width : nat) (x : Z) : Z :=
  match width with
  | O => 0
  | S width' => Z.b2z (Z.odd x) + popcount width' (Z.div2 x)
  end.

Definition NumComponents (flags : t) (attrib : Attribute) : Res Z :=
  mask ← of_option (flags !! Index attrib);
  _ ← ASSERT (negb (bool_decide (mask = 0xb)) || negb (bool_decide (mask = 0xd)));
  Ok (popcount 8 mask).

(** Every element of the array is a [u8]. *)
Definition bytes (flags : t) : Prop := Forall (λ mask, 0 ≤ mask < 2 ^ 8) flags.

(** The components [Get] reports for an attribute, among the shift counts
    it accepts. *)
Definition components (flags : t) (attrib : Attribute) : list Z :=
  filter (λ comp, Get flags attrib comp = Ok true) (seqZ 0 32).

End AttributeFlags.

(** Attribute flags as [Info] creates them, [loads{}]: all zero. *)
Definition sample_flags : AttributeFlags.t := replicate 4 0.

(** ** Reading a buffer resource back ([BufferResource::GetVsharp]) *)

Section Vsharp.
Context `{External}.

(** [AmdGpu::Buffer::operator bool] ([video_core/amdgpu/resource.h]), which
    the conditional of [GetVsharp] applies to [inline_cbuf]. *)
Variable Buffer_bool : Buffer → bool.

Definition GetVsharp (r : BufferResource.t) (info : Info) : Res Buffer :=
  if Buffer_bool (BufferResource.inline_cbuf r) then Ok (BufferResource.inline_cbuf r)
  else ReadUd_Buffer info (BufferResource.sgpr_base r) (BufferResource.dword_offset r).

End Vsharp.

(** A V# is taken as present when its base address, bits [0:44) of the first
    quadword in the GCN layout, is not zero. *)
Definition sample_buffer_bool (b : Buffer) : bool :=
  negb (BitField 0 44 (word0 b) =? 0).

(** ** Invariants of the registry *)

(** The three resource lists are within the capacity of their
    [static_vector]. *)
Definition within_capacity (d : Descriptors.t) : Prop :=
  (length (Descriptors.buffer_resources d) ≤ ResourceListCapacity)%nat ∧
  (length (Descriptors.image_resources d) ≤ ResourceListCapacity)%nat ∧
  (length (Descriptors.sampler_resources d) ≤ ResourceListCapacity)%nat.

(** No two entries of a list of the registry share an identity. *)
Definition unique_identities (d : Descriptors.t) : Prop :=
  unique_keys Descriptors.buffer_key (Descriptors.buffer_resources d) ∧
  unique_keys Descriptors.image_key (Descriptors.image_resources d) ∧
  unique_keys Descriptors.sampler_key (Descriptors.sampler_resources d).

(** An entry [b'] that continues the entry [b]: the same identity, stride
    and record count, and at least the flags of [b]. *)
Definition buffer_entry_continues (b b' : BufferResource.t) : Prop :=
  Descriptors.buffer_key b' = Descriptors.buffer_key b ∧
  BufferResource.stride b' = BufferResource.stride b ∧
  BufferResource.num_records b' = BufferResource.num_records b ∧
  (BufferResource.is_storage b = true → BufferResource.is_storage b' = true) ∧
  Z.land (BufferResource.used_types b') (BufferResource.used_types b) =
    BufferResource.used_types b.

(** A full image list: sixteen images in user data at distinct offsets. *)
Definition sample_full_images : list ImageResource.t :=
  (λ k : nat, ImageResource.mk ScalarReg_Max (8 * Z.of_nat k) Color2D 7 false false)
    <$> seq 0 16.

(** An image access with the identity of [sample_image] and another number
    format and depth flag. *)
Definition sample_image_other_format : ImageResource.t :=
  ImageResource.mk 4 0 Color2D 4 false true.

(** ** Shapes of the operand graph *)

(** [h] is a Phi whose first operand is produced by [h']: one round of the
    loops of [TrackSharp]. *)
Definition phi_step (a : list Inst) (h h' : Handle) : Prop :=
  ∃ i, a !! h = Some i ∧ opcode i = Phi ∧ args i !! 0%nat = Some (InstRef h').

(** [h] leads through first operands of Phis to the instruction [i] at [u],
    which is not a Phi. *)
Definition phi_chain (a : list Inst) (h u : Handle) (i : Inst) : Prop :=
  rtc (phi_step a) h u ∧ a !! u = Some i ∧ opcode i ≠ Phi.

(** The chain of first operands from [h] leaves the Phis: it comes to a
    handle that is not a Phi with an instruction as first operand. *)
Definition phi_ends (a : list Inst) (h : Handle) : Prop :=
  ∃ u, rtc (phi_step a) h u ∧ ∀ u', ¬ phi_step a u u'.

(** The handles whose Phis [TrackSharp], called on [h], unwraps: [h] itself
    and, when [h] leads to a [ReadConst] with an immediate offset whose
    pointer operand has two instructions as operands, these two; the second
    one once the first has led to an instruction that is not a Phi. *)
Inductive unwraps (a : list Inst) (h : Handle) : Handle → Prop :=
| unwraps_handle : unwraps a h h
| unwraps_sbase0 u i ty dword_offset spgpr_base ib sbase0 sbase1 :
    phi_chain a h u i →
    opcode i = ReadConst →
    args i !! 1%nat = Some (Imm ty dword_offset) →
    args i !! 0%nat = Some (InstRef spgpr_base) →
    a !! spgpr_base = Some ib →
    args ib !! 0%nat = Some (InstRef sbase0) →
    args ib !! 1%nat = Some (InstRef sbase1) →
    unwraps a h sbase0
| unwraps_sbase1 u i ty dword_offset spgpr_base ib sbase0 sbase1 u0 i0 :
    phi_chain a h u i →
    opcode i = ReadConst →
    args i !! 1%nat = Some (Imm ty dword_offset) →
    args i !! 0%nat = Some (InstRef spgpr_base) →
    a !! spgpr_base = Some ib →
    args ib !! 0%nat = Some (InstRef sbase0) →
    args ib !! 1%nat = Some (InstRef sbase1) →
    phi_chain a sbase0 u0 i0 →
    unwraps a h sbase1.

(** The handles [PatchImageInstruction] passes to [TrackSharp] when its
    search has returned [producer]: the producer itself, or for a
    [CompositeConstructU32x2] its first operand and what
    [TryDisableAnisoLod0] makes of its second. *)
Inductive sharp_handle (a : list Inst) (producer : Handle) : Handle → Prop :=
| sharp_handle_producer i :
    a !! producer = Some i →
    opcode i ≠ CompositeConstructU32x2 →
    sharp_handle a producer producer
| sharp_handle_image i tsharp_handle :
    a !! producer = Some i →
    opcode i = CompositeConstructU32x2 →
    args i !! 0%nat = Some (InstRef tsharp_handle) →
    sharp_handle a producer tsharp_handle
| sharp_handle_sampler i ssharp_handle ssharp_ud disable_aniso :
    a !! producer = Some i →
    opcode i = CompositeConstructU32x2 →
    args i !! 1%nat = Some (InstRef ssharp_handle) →
    TryDisableAnisoLod0 a ssharp_handle = Ok (ssharp_ud, disable_aniso) →
    sharp_handle a producer ssharp_ud.

(** The two shapes of a sharp handle: held in user data at a register, or
    read from constant memory at an immediate dword offset, through a pointer
    whose two halves are read from user data. *)
Inductive tracked (a : list Inst) (h : Handle) : SharpLocation → Prop :=
| tracked_user_data u i ty reg :
    phi_chain a h u i →
    opcode i = GetUserData →
    args i !! 0%nat = Some (Imm ty reg) →
    tracked a h (mkSharpLocation ScalarReg_Max (wrap32 reg))
| tracked_read_const u i ty dword_offset spgpr_base ib b0 b1 u0 u1 i0 i1 ty0 base :
    phi_chain a h u i →
    opcode i = ReadConst →
    args i !! 0%nat = Some (InstRef spgpr_base) →
    args i !! 1%nat = Some (Imm ty dword_offset) →
    a !! spgpr_base = Some ib →
    args ib !! 0%nat = Some (InstRef b0) →
    args ib !! 1%nat = Some (InstRef b1) →
    phi_chain a b0 u0 i0 →
    phi_chain a b1 u1 i1 →
    opcode i0 = GetUserData →
    opcode i1 = GetUserData →
    args i0 !! 0%nat = Some (Imm ty0 base) →
    tracked a h (mkSharpLocation (wrap32 base) (wrap32 dword_offset)).

(** [c] is the producer of an operand of [h]. *)
Definition operand_edge (a : list Inst) (h c : Handle) : Prop :=
  ∃ i, a !! h = Some i ∧ c ∈ inst_operands i.

(** An immediate operand of 32-bit value [z]. *)
Definition imm_arg (i : Inst) (index : nat) (z : Z) : Prop :=
  ∃ ty raw, args i !! index = Some (Imm ty raw) ∧ wrap32 raw = z.

(** The idiom [TryDisableAnisoLod0] looks for at [inst], with the sampler
    word produced by [prod2]:
    [SelectU32 (IEqual (BitFieldUExtract _ k) 0) (BitwiseAnd32 _ 0xfffff1ff) prod2]
    where the first operand of [k] is the immediate [0x0008000c] and [prod2]
    is a [GetUserData] or a [ReadConst]. *)
Definition aniso_idiom (a : list Inst) (inst prod2 : Handle) : Prop :=
  ∃ i prod0 i0 prod0_arg0 i00 k ik prod1 i1 i2,
    a !! inst = Some i ∧ opcode i = SelectU32 ∧
    args i !! 0%nat = Some (InstRef prod0) ∧
    args i !! 1%nat = Some (InstRef prod1) ∧
    args i !! 2%nat = Some (InstRef prod2) ∧
    a !! prod0 = Some i0 ∧ opcode i0 = IEqual ∧
    args i0 !! 0%nat = Some (InstRef prod0_arg0) ∧ imm_arg i0 1 0 ∧
    a !! prod0_arg0 = Some i00 ∧ opcode i00 = BitFieldUExtract ∧
    args i00 !! 1%nat = Some (InstRef k) ∧
    a !! k = Some ik ∧ imm_arg ik 0 0x0008000c ∧
    a !! prod1 = Some i1 ∧ opcode i1 = BitwiseAnd32 ∧ imm_arg i1 1 0xfffff1ff ∧
    a !! prod2 = Some i2 ∧ (opcode i2 = GetUserData ∨ opcode i2 = ReadConst).

(** A sampler handle built by the idiom: the S# word of user-data register
    12, with the anisotropy bits cleared when the T# at register 7 has no
    mip levels. *)
Definition sample_aniso_insts : list Inst := [
  mkInst GetUserData [Imm Type_ScalarReg 7] 0;
  mkInst GetUserData [Imm Type_ScalarReg 12] 0;
  mkInst (OtherOpcode 5) [Imm Type_U32 0x0008000c] 0;
  mkInst BitFieldUExtract [InstRef 0%nat; InstRef 2%nat] 0;
  mkInst IEqual [InstRef 3%nat; Imm Type_U32 0] 0;
  mkInst BitwiseAnd32 [InstRef 1%nat; Imm Type_U32 0xfffff1ff] 0;
  mkInst SelectU32 [InstRef 4%nat; InstRef 5%nat; InstRef 1%nat] 0
].

(** ** What the patchers do to the program *)

(** The opcodes the driver hands to a patcher. *)
Definition is_resource (op : Opcode) : bool :=
  IsBufferInstruction op || IsImageInstruction op.

(** The two kinds of change a patcher makes to the instruction graph once
    the binding is known: an operand of the patched instruction is replaced,
    at position [from] or later, or an instruction that is not a resource
    instruction is emitted in front of it. *)
Inductive update (from : nat) (block : nat) (inst : Handle) : State → State → Prop :=
| update_SetArg index v s s' :
    (from ≤ index)%nat → SetArg inst index v s = Ok s' → update from block inst s s'
| update_emit op operands s :
    is_resource op = false → update from block inst s (emit block inst op operands s).2.

(** The changes a patcher makes that leave operand [k] of the patched
    instruction alone: another operand of it is replaced, or an instruction
    is emitted. *)
Inductive keeps_operand (k : nat) (inst : Handle) : State → State → Prop :=
| keeps_operand_SetArg index v s s' :
    index ≠ k → SetArg inst index v s = Ok s' → keeps_operand k inst s s'
| keeps_operand_emit block op operands s :
    keeps_operand k inst s (emit block inst op operands s).2.

(** The state [s'] continues [s] after the instruction [inst] of [block] was
    patched: the registry is the same, every other instruction is as it was,
    the patched instruction keeps its opcode, flags, operand count and its
    operands before [from], the instructions added are no resource
    instructions, and every block keeps its instructions in order, with the
    added ones among them. *)
Record patched (from : nat) (block : nat) (inst : Handle) (s s' : State) : Prop := mk_patched {
  patched_descriptors : descriptors s' = descriptors s;
  patched_length : (length (insts s) ≤ length (insts s'))%nat;
  patched_other : ∀ h i, h ≠ inst → insts s !! h = Some i → insts s' !! h = Some i;
  patched_inst : ∀ i, insts s !! inst = Some i →
    ∃ i', insts s' !! inst = Some i' ∧ opcode i' = opcode i ∧ flags i' = flags i ∧
          length (args i') = length (args i) ∧ take from (args i') = take from (args i);
  patched_new : ∀ h i', (length (insts s) ≤ h)%nat → insts s' !! h = Some i' →
    is_resource (opcode i') = false;
  patched_blocks_length : length (blocks s') = length (blocks s);
  patched_blocks : ∀ b l', blocks s' !! b = Some l' →
    ∃ l, blocks s !! b = Some l ∧ l `sublist_of` l' ∧ (b ≠ block → l' = l) ∧
         ∀ h, h ∈ l' → h ∈ l ∨ (length (insts s) ≤ h < length (insts s'))%nat;
}.

(** The state [s'] continues [s] after some instructions were patched:
    registrations were made, no instruction was removed or changed its
    opcode, flags or operand count, only resource instructions changed
    operands, the instructions added are no resource instructions, and every
    block keeps its instructions in order, with the added ones among them. *)
Record evolves (s s' : State) : Prop := mk_evolves {
  evolves_steps : rtc Descriptors.step (descriptors s) (descriptors s');
  evolves_length : (length (insts s) ≤ length (insts s'))%nat;
  evolves_old : ∀ h i, insts s !! h = Some i →
    ∃ i', insts s' !! h = Some i' ∧ opcode i' = opcode i ∧ flags i' = flags i ∧
          length (args i') = length (args i) ∧ (is_resource (opcode i) = false → i' = i);
  evolves_new : ∀ h i', (length (insts s) ≤ h)%nat → insts s' !! h = Some i' →
    is_resource (opcode i') = false;
  evolves_blocks_length : length (blocks s') = length (blocks s);
  evolves_blocks : ∀ b l', blocks s' !! b = Some l' →
    ∃ l, blocks s !! b = Some l ∧ l `sublist_of` l' ∧
         ∀ h, h ∈ l' → h ∈ l ∨ (length (insts s) ≤ h < length (insts s'))%nat;
}.

(** The handle operand of a patched resource instruction, read against the
    registry [d]: a buffer instruction holds the index of an entry of the
    buffer list; an image instruction holds the index of an entry of the
    image list in its low 16 bits and, above them, zero or the index of an
    entry of the sampler list. *)
Definition bound (d : Descriptors.t) (i : Inst) : Prop :=
  (IsBufferInstruction (opcode i) = true →
   ∃ k, args i !! 0%nat = Some (Imm Type_U32 k) ∧
        0 ≤ k < Z.of_nat (length (Descriptors.buffer_resources d))) ∧
  (IsImageInstruction (opcode i) = true →
   ∃ k, args i !! 0%nat = Some (Imm Type_U32 k) ∧
        0 ≤ Z.land k 0xFFFF < Z.of_nat (length (Descriptors.image_resources d)) ∧
        (Z.shiftr k 16 = 0 ∨
         0 ≤ Z.shiftr k 16 < Z.of_nat (length (Descriptors.sampler_resources d)))).

(** The instruction at [h], if there is one, is bound in [s]. *)
Definition bound_at (s : State) (h : Handle) : Prop :=
  ∀ i, insts s !! h = Some i → bound (descriptors s) i.

(** A read of a whole constant buffer through the handle of
    [sample_sharp_insts]. *)
Definition sample_read_const_program : State :=
  mkState (sample_sharp_insts ++ [mkInst ReadConstBuffer [InstRef 4%nat; InstRef 5%nat] 0])
          [[0; 1; 2; 3; 4; 5; 6]%nat]
          Descriptors.empty.

(** A program with no buffer and no image instruction. *)
Definition sample_plain_program : State :=
  mkState sample_sharp_insts [[0; 1; 2]%nat; [3; 4; 5]%nat] Descriptors.empty.


(** * Properties *)

(** ** The result monad *)

Lemma bind_Ok {A B : Type} (m : Res A) (k : A → Res B) (b : B) :
  m ≫= k = Ok b → ∃ a, m = Ok a ∧ k a = Ok b.
Proof. destruct m; simpl; intros; try discriminate; eauto. Qed.

Lemma of_option_Ok {A : Type} (o : option A) (a : A) : of_option o = Ok a ↔ o = Some a.
Proof. destruct o; simpl; split; congruence. Qed.

Lemma ASSERT_Ok (c : bool) (u : unit) : ASSERT c = Ok u ↔ c = true.
Proof. destruct c, u; simpl; split; congruence. Qed.

(** ** Descriptor registry *)

Section FindIf.
Context {A : Type} (pred : A → bool).

Lemma find_if_Some (l : list A) (i : nat) :
  Descriptors.find_if pred l = Some i →
  (∃ x, l !! i = Some x ∧ pred x = true) ∧
  (∀ j y, (j < i)%nat → l !! j = Some y → pred y = false).
Proof.
  revert i. induction l as [|x l IH]; intros i; simpl; [discriminate|].
  destruct (pred x) eqn:Hx.
  - intros [= <-]. split; [eauto|]. intros; lia.
  - destruct (Descriptors.find_if pred l) as [k|] eqn:Hk; simpl; [|discriminate].
    intros [= <-]. destruct (IH k eq_refl) as [Hhit Hfirst].
    split; [exact Hhit|].
    intros [|j] y Hj; simpl; [congruence|].
    apply Hfirst. lia.
Qed.

Lemma find_if_None (l : list A) :
  Descriptors.find_if pred l = None → ∀ j y, l !! j = Some y → pred y = false.
Proof.
  induction l as [|x l IH]; simpl; [intros _ j y; by rewrite lookup_nil|].
  destruct (pred x) eqn:Hx; [discriminate|].
  destruct (Descriptors.find_if pred l) eqn:Hk; simpl; [discriminate|].
  intros _ [|j] y; simpl; [congruence|]. by apply IH.
Qed.

(** The index [find_if] returns is determined by "first entry satisfying
    the predicate". *)
Lemma find_if_first (l : list A) (i : nat) (x : A) :
  l !! i = Some x → pred x = true →
  (∀ j y, (j < i)%nat → l !! j = Some y → pred y = false) →
  Descriptors.find_if pred l = Some i.
Proof.
  revert i. induction l as [|z l IH]; intros [|i]; simpl; try discriminate.
  - intros [= ->] -> _. done.
  - intros Hi Hx Hfirst.
    rewrite (Hfirst 0%nat z); [|lia|done]. simpl.
    rewrite (IH i Hi Hx); [done|].
    intros j y Hj Hy. apply (Hfirst (S j) y); [lia|done].
Qed.

End FindIf.

Section Keyed.
Context {A K : Type} (key : A → K) (pred : A → A → bool).
Hypothesis pred_key : ∀ desc existing, pred desc existing = true ↔ key desc = key existing.

Lemma pred_key_false desc existing : pred desc existing = false ↔ key desc ≠ key existing.
Proof. rewrite <- pred_key. destruct (pred desc existing); split; congruence. Qed.

Lemma keys_extend_refl (l : list A) : keys_extend key l l.
Proof. unfold keys_extend. done. Qed.

Lemma keys_extend_trans (l1 l2 l3 : list A) :
  keys_extend key l1 l2 → keys_extend key l2 l3 → keys_extend key l1 l3.
Proof. unfold keys_extend. intros. by etrans. Qed.

Lemma keys_extend_lookup (l l' : list A) (i : nat) (x : A) :
  keys_extend key l l' → l !! i = Some x → ∃ x', l' !! i = Some x' ∧ key x' = key x.
Proof.
  intros [suffix Hs] Hi.
  assert (Hk : (key <$> l') !! i = Some (key x)).
  { rewrite Hs. apply lookup_app_l_Some. by rewrite list_lookup_fmap, Hi. }
  rewrite list_lookup_fmap in Hk.
  destruct (l' !! i) as [x'|]; simpl in Hk; [|discriminate].
  exists x'. split; congruence.
Qed.

Lemma keys_extend_lookup_inv (l l' : list A) (j : nat) (y' : A) :
  keys_extend key l l' → (j < length l)%nat → l' !! j = Some y' →
  ∃ y, l !! j = Some y ∧ key y = key y'.
Proof.
  intros Hext Hj Hy'.
  destruct (lookup_lt_is_Some_2 l j Hj) as [y Hy].
  destruct (keys_extend_lookup _ _ _ _ Hext Hy) as (y'' & Hy'' & Hk).
  exists y. split; [done|]. congruence.
Qed.

Lemma first_at_extend (l l' : list A) (k : K) (i : nat) :
  keys_extend key l l' → first_at key l k i → first_at key l' k i.
Proof.
  intros Hext [(x & Hx & Hkx) Hfirst].
  destruct (keys_extend_lookup _ _ _ _ Hext Hx) as (x' & Hx' & Hk').
  split; [exists x'; split; congruence|].
  intros j y' Hj Hy'.
  assert (Hjl : (j < length l)%nat) by (apply lookup_lt_Some in Hx; lia).
  destruct (keys_extend_lookup_inv _ _ _ _ Hext Hjl Hy') as (y & Hy & Hky).
  rewrite <- Hky. by apply (Hfirst j).
Qed.

(** The template [Add] returns the first position holding the candidate's
    identity, and leaves the list or appends the candidate to it. *)
Lemma Add_first_at (l l' : list A) (desc : A) (i : nat) :
  Descriptors.Add l desc (pred desc) = Ok (i, l') →
  first_at key l' (key desc) i ∧ (l' = l ∨ (l' = l ++ [desc] ∧ i = length l)).
Proof.
  unfold Descriptors.Add.
  destruct (Descriptors.find_if (pred desc) l) as [k|] eqn:Hfind.
  - intros [= <- <-]. split; [|by left].
    destruct (find_if_Some _ _ _ Hfind) as [(x & Hx & Hp) Hfirst].
    split.
    + exists x. split; [done|]. symmetry. by apply pred_key.
    + intros j y Hj Hy Hk. specialize (Hfirst j y Hj Hy).
      apply pred_key_false in Hfirst. congruence.
  - case_decide; [|discriminate]. intros [= <- <-]. split; [|by right].
    split.
    + exists desc. split; [|done]. by apply list_lookup_middle.
    + intros j y Hj Hy Hk.
      rewrite lookup_app_l in Hy by done.
      pose proof (find_if_None _ _ Hfind j y Hy) as Hp.
      apply pred_key_false in Hp. congruence.
Qed.

Lemma Add_keys_extend (l l' : list A) (desc : A) (i : nat) :
  Descriptors.Add l desc (pred desc) = Ok (i, l') → keys_extend key l l'.
Proof.
  intros Hadd. destruct (Add_first_at _ _ _ _ Hadd) as [_ [->|[-> _]]].
  - apply keys_extend_refl.
  - unfold keys_extend. rewrite fmap_app. by apply prefix_app_r.
Qed.

(** Two registrations of a run, the later one on a list that extends the
    list the earlier one left: same index iff same identity. *)
Lemma Add_same_index (l1 l l' : list A) (a b : A) (i j : nat) :
  first_at key l1 (key a) i → keys_extend key l1 l →
  Descriptors.Add l b (pred b) = Ok (j, l') →
  i = j ↔ key a = key b.
Proof.
  intros Ha Hext Hadd.
  pose proof (first_at_extend _ _ _ _ Hext Ha) as [(x & Hx & Hkx) Hfirst].
  unfold Descriptors.Add in Hadd.
  destruct (Descriptors.find_if (pred b) l) as [k|] eqn:Hfind.
  - injection Hadd as <- <-.
    destruct (find_if_Some _ _ _ Hfind) as [(y & Hy & Hp) Hfirstb].
    apply pred_key in Hp.
    split.
    + intros <-. congruence.
    + intros Hab.
      assert (Hi : Descriptors.find_if (pred b) l = Some i).
      { apply (find_if_first _ _ _ x Hx).
        - apply pred_key. congruence.
        - intros j0 y0 Hj0 Hy0. apply pred_key_false.
          rewrite <- Hab. intros Hk. by apply (Hfirst j0 y0). }
      congruence.
  - case_decide; [|discriminate]. injection Hadd as <- <-.
    pose proof (find_if_None _ _ Hfind i x Hx) as Hp.
    apply pred_key_false in Hp.
    apply lookup_lt_Some in Hx.
    split; [lia|]. intros Hab. congruence.
Qed.

End Keyed.

Lemma buffer_pred_key desc existing :
  Descriptors.buffer_pred desc existing = true ↔
  Descriptors.buffer_key desc = Descriptors.buffer_key existing.
Proof.
  unfold Descriptors.buffer_pred, Descriptors.buffer_key.
  rewrite !andb_true_iff, !bool_decide_eq_true.
  split; [intros [[-> ->] ->]; done|intros [= -> -> ->]; done].
Qed.

Lemma image_pred_key desc existing :
  Descriptors.image_pred desc existing = true ↔
  Descriptors.image_key desc = Descriptors.image_key existing.
Proof.
  unfold Descriptors.image_pred, Descriptors.image_key.
  rewrite !andb_true_iff, !bool_decide_eq_true.
  split; [intros [[[-> ->] ->] ->]; done|intros [= -> -> -> ->]; done].
Qed.

Lemma sampler_pred_key desc existing :
  Descriptors.sampler_pred desc existing = true ↔
  Descriptors.sampler_key desc = Descriptors.sampler_key existing.
Proof.
  unfold Descriptors.sampler_pred, Descriptors.sampler_key.
  rewrite !andb_true_iff, !bool_decide_eq_true.
  split; [intros [-> ->]; done|intros [= -> ->]; done].
Qed.

Lemma widen_key buffer desc :
  Descriptors.buffer_key (Descriptors.widen buffer desc) = Descriptors.buffer_key buffer.
Proof. done. Qed.

Lemma keys_extend_insert {A K : Type} (key : A → K) (l : list A) (i : nat) (x x' : A) :
  l !! i = Some x → key x' = key x → keys_extend key l (<[i := x']> l).
Proof.
  intros Hi Hk. unfold keys_extend.
  rewrite list_fmap_insert, Hk, list_insert_id; [done|].
  by rewrite list_lookup_fmap, Hi.
Qed.

(** What a successful buffer registration did: the template call, the entry
    it met, and the widened entry it left. *)
Lemma Add_buffer_inv d desc i d' :
  Descriptors.Add_buffer d desc = Ok (i, d') →
  ∃ buffers buffer,
    Descriptors.Add (Descriptors.buffer_resources d) desc (Descriptors.buffer_pred desc)
      = Ok (i, buffers) ∧
    buffers !! i = Some buffer ∧
    BufferResource.stride buffer = BufferResource.stride desc ∧
    BufferResource.num_records buffer = BufferResource.num_records desc ∧
    d' = Descriptors.mk (<[i := Descriptors.widen buffer desc]> buffers)
           (Descriptors.image_resources d) (Descriptors.sampler_resources d).
Proof.
  unfold Descriptors.Add_buffer. intros Hadd.
  apply bind_Ok in Hadd as ([index buffers] & Ht & Hadd).
  apply bind_Ok in Hadd as (buffer & Hb & Hadd). apply of_option_Ok in Hb.
  apply bind_Ok in Hadd as (u & Hassert & Hadd). apply ASSERT_Ok in Hassert.
  apply andb_true_iff in Hassert as [Hs Hn].
  apply bool_decide_eq_true in Hs, Hn.
  injection Hadd as <- <-. eauto 10.
Qed.

Lemma Add_buffer_first_at d desc i d' :
  Descriptors.Add_buffer d desc = Ok (i, d') →
  first_at Descriptors.buffer_key (Descriptors.buffer_resources d')
    (Descriptors.buffer_key desc) i.
Proof.
  intros Hadd. apply Add_buffer_inv in Hadd as (buffers & buffer & Ht & Hb & _ & _ & ->).
  simpl. apply (Add_first_at _ _ buffer_pred_key) in Ht as [Hfirst _].
  eapply first_at_extend; [|exact Hfirst].
  eapply keys_extend_insert; [exact Hb|apply widen_key].
Qed.

Lemma Add_buffer_keys_extend d desc i d' :
  Descriptors.Add_buffer d desc = Ok (i, d') →
  keys_extend Descriptors.buffer_key
    (Descriptors.buffer_resources d) (Descriptors.buffer_resources d') ∧
  Descriptors.image_resources d' = Descriptors.image_resources d ∧
  Descriptors.sampler_resources d' = Descriptors.sampler_resources d.
Proof.
  intros Hadd. apply Add_buffer_inv in Hadd as (buffers & buffer & Ht & Hb & _ & _ & ->).
  simpl. split; [|done].
  eapply keys_extend_trans.
  - eapply (Add_keys_extend _ _ buffer_pred_key), Ht.
  - eapply keys_extend_insert; [exact Hb|apply widen_key].
Qed.

Lemma Add_image_inv d desc i d' :
  Descriptors.Add_image d desc = Ok (i, d') →
  ∃ images,
    Descriptors.Add (Descriptors.image_resources d) desc (Descriptors.image_pred desc)
      = Ok (i, images) ∧
    d' = Descriptors.mk (Descriptors.buffer_resources d) images
           (Descriptors.sampler_resources d).
Proof.
  unfold Descriptors.Add_image. intros Hadd.
  apply bind_Ok in Hadd as ([index images] & Ht & Hadd).
  injection Hadd as <- <-. eauto.
Qed.

Lemma Add_sampler_inv d desc i d' :
  Descriptors.Add_sampler d desc = Ok (i, d') →
  ∃ samplers,
    Descriptors.Add (Descriptors.sampler_resources d) desc (Descriptors.sampler_pred desc)
      = Ok (i, samplers) ∧
    d' = Descriptors.mk (Descriptors.buffer_resources d)
           (Descriptors.image_resources d) samplers.
Proof.
  unfold Descriptors.Add_sampler. intros Hadd.
  apply bind_Ok in Hadd as ([index samplers] & Ht & Hadd).
  injection Hadd as <- <-. eauto.
Qed.

(** Every registration of a run keeps the identities already in the three
    lists in place. *)
Lemma step_keys_extend d d' :
  Descriptors.step d d' →
  keys_extend Descriptors.buffer_key
    (Descriptors.buffer_resources d) (Descriptors.buffer_resources d') ∧
  keys_extend Descriptors.image_key
    (Descriptors.image_resources d) (Descriptors.image_resources d') ∧
  keys_extend Descriptors.sampler_key
    (Descriptors.sampler_resources d) (Descriptors.sampler_resources d').
Proof.
  intros [d0 desc i d0' Hadd|d0 desc i d0' Hadd|d0 desc i d0' Hadd].
  - apply Add_buffer_keys_extend in Hadd as (Hb & -> & ->).
    split; [done|]. split; apply keys_extend_refl.
  - apply Add_image_inv in Hadd as (images & Ht & ->). simpl.
    split; [apply keys_extend_refl|]. split; [|apply keys_extend_refl].
    eapply (Add_keys_extend _ _ image_pred_key), Ht.
  - apply Add_sampler_inv in Hadd as (samplers & Ht & ->). simpl.
    split; [apply keys_extend_refl|]. split; [apply keys_extend_refl|].
    eapply (Add_keys_extend _ _ sampler_pred_key), Ht.
Qed.

Lemma steps_keys_extend d d' :
  rtc Descriptors.step d d' →
  keys_extend Descriptors.buffer_key
    (Descriptors.buffer_resources d) (Descriptors.buffer_resources d') ∧
  keys_extend Descriptors.image_key
    (Descriptors.image_resources d) (Descriptors.image_resources d') ∧
  keys_extend Descriptors.sampler_key
    (Descriptors.sampler_resources d) (Descriptors.sampler_resources d').
Proof.
  induction 1 as [d|d1 d2 d3 Hstep _ (Hb & Hi & Hs)].
  - repeat split; apply keys_extend_refl.
  - apply step_keys_extend in Hstep as (Hb' & Hi' & Hs').
    repeat split; eapply keys_extend_trans; eauto.
Qed.

(** C2 (dedup correctness).  For two registrations of one pass run, the
    later one made after any number of further registrations, [Add] returns
    the same binding index iff the two descriptors agree on their identity
    fields: [sgpr_base], [dword_offset] and [inline_cbuf] for buffers;
    [sgpr_base], [dword_offset], [type] and [is_storage] for images;
    [sgpr_base] and [dword_offset] for samplers. *)
Theorem dedup_correctness :
  (∀ d0 a i d1 d1' b j d2,
     Descriptors.Add_buffer d0 a = Ok (i, d1) →
     rtc Descriptors.step d1 d1' →
     Descriptors.Add_buffer d1' b = Ok (j, d2) →
     i = j ↔
     BufferResource.sgpr_base a = BufferResource.sgpr_base b ∧
     BufferResource.dword_offset a = BufferResource.dword_offset b ∧
     BufferResource.inline_cbuf a = BufferResource.inline_cbuf b) ∧
  (∀ d0 a i d1 d1' b j d2,
     Descriptors.Add_image d0 a = Ok (i, d1) →
     rtc Descriptors.step d1 d1' →
     Descriptors.Add_image d1' b = Ok (j, d2) →
     i = j ↔
     ImageResource.sgpr_base a = ImageResource.sgpr_base b ∧
     ImageResource.dword_offset a = ImageResource.dword_offset b ∧
     ImageResource.type a = ImageResource.type b ∧
     ImageResource.is_storage a = ImageResource.is_storage b) ∧
  (∀ d0 a i d1 d1' b j d2,
     Descriptors.Add_sampler d0 a = Ok (i, d1) →
     rtc Descriptors.step d1 d1' →
     Descriptors.Add_sampler d1' b = Ok (j, d2) →
     i = j ↔
     SamplerResource.sgpr_base a = SamplerResource.sgpr_base b ∧
     SamplerResource.dword_offset a = SamplerResource.dword_offset b).
Proof.
  split; [|split].
  - intros d0 a i d1 d1' b j d2 Ha Hsteps Hb.
    apply Add_buffer_first_at in Ha.
    apply steps_keys_extend in Hsteps as (Hext & _ & _).
    apply Add_buffer_inv in Hb as (buffers & _ & Ht & _).
    rewrite (Add_same_index _ _ buffer_pred_key _ _ _ _ _ _ _ Ha Hext Ht).
    unfold Descriptors.buffer_key. split; [intros [= -> -> ->]; done|intros (-> & -> & ->); done].
  - intros d0 a i d1 d1' b j d2 Ha Hsteps Hb.
    apply Add_image_inv in Ha as (images & Ha & ->).
    apply (Add_first_at _ _ image_pred_key) in Ha as [Ha _].
    apply steps_keys_extend in Hsteps as (_ & Hext & _).
    apply Add_image_inv in Hb as (images' & Ht & _).
    rewrite (Add_same_index _ _ image_pred_key _ _ _ _ _ _ _ Ha Hext Ht).
    unfold Descriptors.image_key.
    split; [intros [= -> -> -> ->]; done|intros (-> & -> & -> & ->); done].
  - intros d0 a i d1 d1' b j d2 Ha Hsteps Hb.
    apply Add_sampler_inv in Ha as (samplers & Ha & ->).
    apply (Add_first_at _ _ sampler_pred_key) in Ha as [Ha _].
    apply steps_keys_extend in Hsteps as (_ & _ & Hext).
    apply Add_sampler_inv in Hb as (samplers' & Ht & _).
    rewrite (Add_same_index _ _ sampler_pred_key _ _ _ _ _ _ _ Ha Hext Ht).
    unfold Descriptors.sampler_key.
    split; [intros [= -> ->]; done|intros (-> & ->); done].
Qed.

Lemma dedup_correctness_witness :
  ((0 = 0)%nat ↔ 12 = 12 ∧ 4 = 4 ∧ Buffer_zero = Buffer_zero) ∧
  ((0 = 0)%nat ↔ 4 = 4 ∧ 0 = 0 ∧ Color2D = Color2D ∧ false = false) ∧
  ((0 = 0)%nat ↔ 12 = 12 ∧ 0 = 0).
Proof.
  split; [|split].
  - eapply (proj1 dedup_correctness Descriptors.empty sample_buffer_load 0%nat
              _ _ sample_buffer_store 0%nat);
      [reflexivity|apply rtc_refl|reflexivity].
  - eapply (proj1 (proj2 dedup_correctness) Descriptors.empty sample_image 0%nat
              _ _ sample_image 0%nat);
      [reflexivity|apply rtc_refl|reflexivity].
  - eapply (proj2 (proj2 dedup_correctness) Descriptors.empty sample_sampler 0%nat
              _ _ sample_sampler 0%nat);
      [reflexivity|apply rtc_refl|reflexivity].
Defined.

(** *** Unique identities in the buffer list *)

Lemma unique_keys_lookup {A K : Type} (key : A → K) (l : list A) i j x y :
  unique_keys key l → l !! i = Some x → l !! j = Some y → key x = key y → i = j.
Proof.
  intros Hnd Hi Hj Hk.
  eapply NoDup_lookup; [exact Hnd| |].
  - by rewrite list_lookup_fmap, Hi.
  - by rewrite list_lookup_fmap, Hj, Hk.
Qed.

Lemma Add_buffer_unique d desc i d' :
  Descriptors.Add_buffer d desc = Ok (i, d') →
  unique_keys Descriptors.buffer_key (Descriptors.buffer_resources d) →
  unique_keys Descriptors.buffer_key (Descriptors.buffer_resources d').
Proof.
  intros Hadd Hu.
  apply Add_buffer_inv in Hadd as (buffers & buffer & Ht & Hb & _ & _ & ->). simpl.
  assert (Hu' : unique_keys Descriptors.buffer_key buffers).
  { unfold Descriptors.Add in Ht.
    destruct (Descriptors.find_if _ _) eqn:Hfind.
    - by injection Ht as <- <-.
    - case_decide; [|discriminate]. injection Ht as <- <-.
      unfold unique_keys. rewrite fmap_app. apply NoDup_app.
      split; [done|]. split; [|apply NoDup_singleton].
      intros k Hk ->%list_elem_of_singleton.
      apply list_elem_of_fmap in Hk as (y & Hy & Hin).
      apply list_elem_of_lookup in Hin as [j Hj].
      pose proof (find_if_None _ _ Hfind j y Hj) as Hp.
      apply (pred_key_false _ _ buffer_pred_key) in Hp. congruence. }
  unfold unique_keys. rewrite list_fmap_insert, widen_key, list_insert_id; [done|].
  by rewrite list_lookup_fmap, Hb.
Qed.

Lemma step_unique d d' :
  Descriptors.step d d' →
  unique_keys Descriptors.buffer_key (Descriptors.buffer_resources d) →
  unique_keys Descriptors.buffer_key (Descriptors.buffer_resources d').
Proof.
  intros [d0 desc i d0' Hadd|d0 desc i d0' Hadd|d0 desc i d0' Hadd].
  - by eapply Add_buffer_unique.
  - by apply Add_image_inv in Hadd as (images & _ & ->).
  - by apply Add_sampler_inv in Hadd as (samplers & _ & ->).
Qed.

Lemma reachable_unique d :
  rtc Descriptors.step Descriptors.empty d →
  unique_keys Descriptors.buffer_key (Descriptors.buffer_resources d).
Proof.
  intros Hsteps.
  assert (Hgen : ∀ d0, rtc Descriptors.step d0 d →
            unique_keys Descriptors.buffer_key (Descriptors.buffer_resources d0) →
            unique_keys Descriptors.buffer_key (Descriptors.buffer_resources d)).
  { clear. induction 1; [done|]. intros. eauto using step_unique. }
  apply (Hgen _ Hsteps). apply NoDup_nil_2.
Qed.

(** C6 (stride/record immutability).  In a registry built by a pass run,
    registering a buffer whose identity fields match an existing entry but
    whose stride or record count differs from that entry's fails. *)
Theorem stride_record_immutability d desc k existing :
  rtc Descriptors.step Descriptors.empty d →
  Descriptors.buffer_resources d !! k = Some existing →
  BufferResource.sgpr_base desc = BufferResource.sgpr_base existing →
  BufferResource.dword_offset desc = BufferResource.dword_offset existing →
  BufferResource.inline_cbuf desc = BufferResource.inline_cbuf existing →
  BufferResource.stride desc ≠ BufferResource.stride existing ∨
  BufferResource.num_records desc ≠ BufferResource.num_records existing →
  Descriptors.Add_buffer d desc = Abort.
Proof.
  intros Hreach Hk Hs Ho Hc Hdiff.
  pose proof (reachable_unique _ Hreach) as Hu.
  assert (Hkey : Descriptors.buffer_key desc = Descriptors.buffer_key existing).
  { unfold Descriptors.buffer_key. by rewrite Hs, Ho, Hc. }
  assert (Hfind : Descriptors.find_if (Descriptors.buffer_pred desc)
                    (Descriptors.buffer_resources d) = Some k).
  { apply (find_if_first _ _ _ existing Hk); [by apply buffer_pred_key|].
    intros j y Hj Hy. apply (pred_key_false _ _ buffer_pred_key).
    intros Hjk. rewrite Hkey in Hjk.
    pose proof (unique_keys_lookup _ _ _ _ _ _ Hu Hk Hy Hjk). lia. }
  unfold Descriptors.Add_buffer, Descriptors.Add. rewrite Hfind. simpl.
  rewrite Hk. simpl.
  destruct Hdiff as [Hd|Hd].
  - rewrite (bool_decide_eq_false_2 _); [done|congruence].
  - rewrite (bool_decide_eq_false_2 (BufferResource.num_records _ = _)); [|congruence].
    by rewrite andb_false_r.
Qed.

Lemma stride_record_immutability_witness :
  Descriptors.Add_buffer
    (Descriptors.mk [Descriptors.widen sample_buffer_load sample_buffer_load] [] [])
    sample_buffer_conflict = Abort.
Proof.
  apply (stride_record_immutability _ sample_buffer_conflict 0%nat
           (Descriptors.widen sample_buffer_load sample_buffer_load)).
  - eapply rtc_l; [|apply rtc_refl].
    apply (Descriptors.step_buffer Descriptors.empty sample_buffer_load 0%nat). reflexivity.
  - reflexivity.
  - reflexivity.
  - reflexivity.
  - reflexivity.
  - left. simpl. lia.
Defined.

(** *** Flag widening *)

Lemma Add_buffers_steps accesses d indices d' :
  Descriptors.Add_buffers d accesses = Ok (indices, d') → rtc Descriptors.step d d'.
Proof.
  revert d indices. induction accesses as [|a rest IH]; intros d indices; simpl.
  - intros [= <- <-]. apply rtc_refl.
  - intros Hrun. apply bind_Ok in Hrun as ([i d1] & Ha & Hrun).
    apply bind_Ok in Hrun as ([is' d2] & Hrest & Hrun). injection Hrun as <- <-.
    eapply rtc_l; [eapply Descriptors.step_buffer, Ha|]. eauto.
Qed.

Lemma steps_unique d d' :
  rtc Descriptors.step d d' →
  unique_keys Descriptors.buffer_key (Descriptors.buffer_resources d) →
  unique_keys Descriptors.buffer_key (Descriptors.buffer_resources d').
Proof. induction 1; eauto using step_unique. Qed.

Section Widening.
Variable flag : BufferResource.t → bool.
Hypothesis flag_widen : ∀ x y, flag (Descriptors.widen x y) = flag x || flag y.

(** One registration: an entry's flag is set afterwards iff it was set
    before or the registered access has this entry's identity and carries
    the flag. *)
Lemma Add_buffer_flag d a i d1 i' e1 :
  Descriptors.Add_buffer d a = Ok (i, d1) →
  unique_keys Descriptors.buffer_key (Descriptors.buffer_resources d) →
  Descriptors.buffer_resources d1 !! i' = Some e1 →
  flag e1 = true ↔
  (∃ e0, Descriptors.buffer_resources d !! i' = Some e0 ∧ flag e0 = true) ∨
  (Descriptors.buffer_key a = Descriptors.buffer_key e1 ∧ flag a = true).
Proof.
  intros Hadd Hu He1.
  pose proof (Add_buffer_unique _ _ _ _ Hadd Hu) as Hu1.
  pose proof (Add_buffer_first_at _ _ _ _ Hadd) as [(ei & Hei & Hkei) _].
  apply Add_buffer_inv in Hadd as (bl & buffer & Ht & Hb & _ & _ & ->).
  simpl in *.
  pose proof (Add_first_at _ _ buffer_pred_key _ _ _ _ Ht) as [_ Hshape].
  destruct (decide (i' = i)) as [->|Hne].
  - assert (e1 = ei) as -> by congruence.
    rewrite list_lookup_insert_eq in He1 by (by eapply lookup_lt_Some).
    injection He1 as <-. rewrite flag_widen, orb_true_iff.
    destruct Hshape as [->|[-> ->]].
    + split.
      * intros [Hf|Hf]; [left; eauto|right; eauto].
      * intros [(e0 & He0 & Hf)|[_ Hf]]; [left; congruence|by right].
    + rewrite list_lookup_middle in Hb by done. injection Hb as <-.
      split.
      * intros [Hf|Hf]; right; eauto.
      * intros [(e0 & He0 & Hf)|[_ Hf]]; [|by right].
        rewrite lookup_ge_None_2 in He0 by done. discriminate.
  - assert (Hk : Descriptors.buffer_key a ≠ Descriptors.buffer_key e1).
    { intros Hk. apply Hne. symmetry.
      eapply (unique_keys_lookup _ _ _ _ _ _ Hu1 Hei He1). congruence. }
    rewrite list_lookup_insert_ne in He1 by done.
    assert (Hd : Descriptors.buffer_resources d !! i' = Some e1).
    { destruct Hshape as [->|[-> ->]]; [done|].
      apply lookup_app_Some in He1 as [He1|[Hge He1]]; [done|].
      apply list_lookup_singleton_Some in He1 as [Hz _]. lia. }
    split.
    + intros Hf. left. eauto.
    + intros [(e0 & He0 & Hf)|[Hk' _]]; [congruence|done].
Qed.

Lemma Add_buffers_flag accesses d indices d' i' e' :
  Descriptors.Add_buffers d accesses = Ok (indices, d') →
  unique_keys Descriptors.buffer_key (Descriptors.buffer_resources d) →
  Descriptors.buffer_resources d' !! i' = Some e' →
  flag e' = true ↔
  (∃ e0, Descriptors.buffer_resources d !! i' = Some e0 ∧ flag e0 = true) ∨
  (∃ b, b ∈ accesses ∧ Descriptors.buffer_key b = Descriptors.buffer_key e' ∧ flag b = true).
Proof.
  revert d indices. induction accesses as [|a rest IH]; intros d indices; simpl.
  - intros [= <- <-] _ He'. split.
    + intros Hf. left. eauto.
    + intros [(e0 & He0 & Hf)|(b & Hb & _)]; [congruence|].
      by apply not_elem_of_nil in Hb.
  - intros Hrun Hu He'.
    apply bind_Ok in Hrun as ([i d1] & Ha & Hrun).
    apply bind_Ok in Hrun as ([is' d2] & Hrest & Hrun). injection Hrun as <- <-.
    pose proof (Add_buffer_unique _ _ _ _ Ha Hu) as Hu1.
    rewrite (IH _ _ Hrest Hu1 He').
    pose proof (Add_buffers_steps _ _ _ _ Hrest) as Hsteps.
    apply steps_keys_extend in Hsteps as (Hext & _ & _).
    split.
    + intros [(e1 & He1 & Hf)|(b & Hb & Hk & Hf)].
      * destruct (keys_extend_lookup _ _ _ _ _ Hext He1) as (e'' & He'' & Hk'').
        assert (e'' = e') as -> by congruence.
        apply (Add_buffer_flag _ _ _ _ _ _ Ha Hu He1) in Hf
          as [(e0 & He0 & Hf)|[Hk Hf]].
        -- left. eauto.
        -- right. exists a. split; [left|]. split; congruence.
      * right. exists b. split; [by right|done].
    + intros [(e0 & He0 & Hf)|(b & Hb & Hk & Hf)].
      * pose proof (Add_buffer_keys_extend _ _ _ _ Ha) as (Hext0 & _ & _).
        destruct (keys_extend_lookup _ _ _ _ _ Hext0 He0) as (e1 & He1 & Hk1).
        left. exists e1. split; [done|].
        apply (Add_buffer_flag _ _ _ _ _ _ Ha Hu He1). left. eauto.
      * apply elem_of_cons in Hb as [->|Hb]; [|right; eauto].
        pose proof (Add_buffer_first_at _ _ _ _ Ha) as [(e1 & He1 & Hk1) _].
        destruct (keys_extend_lookup _ _ _ _ _ Hext He1) as (e'' & He'' & Hk'').
        assert (i = i') as ->.
        { pose proof (steps_unique _ _ (Add_buffers_steps _ _ _ _ Hrest) Hu1) as Hu'.
          eapply (unique_keys_lookup _ _ _ _ _ _ Hu' He'' He'). congruence. }
        left. exists e1. split; [done|].
        apply (Add_buffer_flag _ _ _ _ _ _ Ha Hu He1). right. split; congruence.
Qed.

End Widening.

(** The index a run returned for an access names an entry with the access's
    identity. *)
Lemma Add_buffers_index accesses d indices d' k a :
  Descriptors.Add_buffers d accesses = Ok (indices, d') →
  accesses !! k = Some a →
  ∃ i e, indices !! k = Some i ∧ Descriptors.buffer_resources d' !! i = Some e ∧
         Descriptors.buffer_key e = Descriptors.buffer_key a.
Proof.
  revert d indices k. induction accesses as [|a0 rest IH]; intros d indices k; simpl.
  - by rewrite lookup_nil.
  - intros Hrun Hk.
    apply bind_Ok in Hrun as ([i d1] & Ha & Hrun).
    apply bind_Ok in Hrun as ([is' d2] & Hrest & Hrun). injection Hrun as <- <-.
    destruct k as [|k]; simpl in *.
    + injection Hk as ->.
      pose proof (Add_buffer_first_at _ _ _ _ Ha) as [(e1 & He1 & Hk1) _].
      pose proof (Add_buffers_steps _ _ _ _ Hrest) as Hsteps.
      apply steps_keys_extend in Hsteps as (Hext & _ & _).
      destruct (keys_extend_lookup _ _ _ _ _ Hext He1) as (e' & He' & Hk').
      exists i, e'. split; [done|]. split; [done|congruence].
    + eauto.
Qed.

(** C7 (monotonic flag widening).  Register the buffer accesses of a pass
    in any visiting order [visited] of the accesses [accesses].  Afterwards
    the binding of each access has [is_storage] set iff some access with the
    same identity carries [is_storage], and its [used_types] has exactly the
    bits of the element types of the accesses with that identity. *)
Theorem monotonic_flag_widening accesses visited indices d k a :
  visited ≡ₚ accesses →
  Descriptors.Add_buffers Descriptors.empty visited = Ok (indices, d) →
  visited !! k = Some a →
  ∃ i e,
    indices !! k = Some i ∧ Descriptors.buffer_resources d !! i = Some e ∧
    (BufferResource.is_storage e = true ↔
     ∃ b, b ∈ accesses ∧ Descriptors.buffer_key b = Descriptors.buffer_key a ∧
          BufferResource.is_storage b = true) ∧
    (∀ n, Z.testbit (BufferResource.used_types e) n = true ↔
     ∃ b, b ∈ accesses ∧ Descriptors.buffer_key b = Descriptors.buffer_key a ∧
          Z.testbit (BufferResource.used_types b) n = true).
Proof.
  intros Hperm Hrun Hk.
  destruct (Add_buffers_index _ _ _ _ _ _ Hrun Hk) as (i & e & Hi & He & Hke).
  exists i, e. split; [done|]. split; [done|].
  assert (Hu : unique_keys Descriptors.buffer_key
                 (Descriptors.buffer_resources Descriptors.empty)) by apply NoDup_nil_2.
  split.
  - rewrite (Add_buffers_flag BufferResource.is_storage (λ _ _, eq_refl) _ _ _ _ _ _ Hrun Hu He).
    rewrite Hke. split.
    + intros [(e0 & He0 & _)|(b & Hb & Hf)]; [simpl in He0; by rewrite lookup_nil in He0|].
      exists b. by rewrite <- Hperm.
    + intros (b & Hb & Hf). right. exists b. by rewrite Hperm.
  - intros n.
    rewrite (Add_buffers_flag (λ x, Z.testbit (BufferResource.used_types x) n)
               (λ x y, Z.lor_spec _ _ n) _ _ _ _ _ _ Hrun Hu He).
    rewrite Hke. split.
    + intros [(e0 & He0 & _)|(b & Hb & Hf)]; [simpl in He0; by rewrite lookup_nil in He0|].
      exists b. by rewrite <- Hperm.
    + intros (b & Hb & Hf). right. exists b. by rewrite Hperm.
Qed.

Lemma monotonic_flag_widening_witness :
  ∃ i e,
    ([0; 0]%nat : list nat) !! 1%nat = Some i ∧
    Descriptors.buffer_resources
      (Descriptors.mk
         [Descriptors.widen (Descriptors.widen sample_buffer_store sample_buffer_store)
            sample_buffer_load] [] []) !! i = Some e ∧
    (BufferResource.is_storage e = true ↔
     ∃ b, b ∈ [sample_buffer_load; sample_buffer_store] ∧
          Descriptors.buffer_key b = Descriptors.buffer_key sample_buffer_load ∧
          BufferResource.is_storage b = true) ∧
    (∀ n, Z.testbit (BufferResource.used_types e) n = true ↔
     ∃ b, b ∈ [sample_buffer_load; sample_buffer_store] ∧
          Descriptors.buffer_key b = Descriptors.buffer_key sample_buffer_load ∧
          Z.testbit (BufferResource.used_types b) n = true).
Proof.
  apply (monotonic_flag_widening [sample_buffer_load; sample_buffer_store]
           [sample_buffer_store; sample_buffer_load] [0; 0]%nat _ 1%nat sample_buffer_load).
  - apply Permutation_swap.
  - reflexivity.
  - reflexivity.
Defined.

(** ** Inline constant buffers *)

Section PassFacts.
Context `{External}.

Lemma Arg_lookup (a : list Inst) (h : Handle) (i : Inst) (index : nat) (v : Value) :
  a !! h = Some i → args i !! index = Some v → Arg a h index = Ok v.
Proof. intros Hh Hv. unfold Arg, GetInst. rewrite Hh. simpl. by rewrite Hv. Qed.

Lemma GetOpcode_lookup (a : list Inst) (h : Handle) (i : Inst) :
  a !! h = Some i → GetOpcode a h = Ok (opcode i).
Proof. intros Hh. unfold GetOpcode. by rewrite Hh. Qed.

(** C8 (inline-constant scenario).  A buffer instruction whose handle
    matches the inline idiom with immediates 0x100, 0x20, 0xAAAA, 0xBBBB,
    in a program based at 0x1000: the descriptor that is synthesized and
    registered has address half 0x1120 and control half 0xBBBB0000AAAA,
    whatever the user-data table holds. *)
Theorem inline_cbuf_scenario (table : list Z) (cbuf0 : Buffer) (s : State)
    (inst handle p0 p1 : Handle) (i hi i1 : Inst) (t0 t1 t2 t3 : IRType) (f0 : Z)
    (used : IRType) :
  insts s !! inst = Some i →
  args i !! 0%nat = Some (InstRef handle) →
  BufferDataType (opcode i) = Ok used →
  insts s !! handle = Some hi →
  args hi !! 0%nat = Some (InstRef p0) →
  args hi !! 1%nat = Some (InstRef p1) →
  args hi !! 2%nat = Some (Imm t2 0xAAAA) →
  args hi !! 3%nat = Some (Imm t3 0xBBBB) →
  insts s !! p0 = Some (mkInst IAdd32 [Imm t0 0x100; Imm t1 0x20] f0) →
  insts s !! p1 = Some i1 →
  opcode i1 = IAdd32 →
  let sharp := mkBuffer 0x1120 0xBBBB0000AAAA in
  TryHandleInlineCbuf inst (mkInfo table 0x1000) cbuf0 s =
    '(index, d) ← Descriptors.Add_buffer (descriptors s)
       (BufferResource.mk (2 ^ 32 - 1) 0
          (Buffer_GetStride sharp) (wrap32 (Buffer_num_records sharp))
          (Type_mask used) sharp
          (IsBufferStore (opcode i) || bool_decide (MaxUboSize < Buffer_GetSize sharp)));
    Ok (Z.of_nat index, sharp, mkState (insts s) (blocks s) d).
Proof.
  intros Hi Hh Hused Hhi H0 H1 H2 H3 Hp0 Hp1 Hop1 sharp.
  unfold TryHandleInlineCbuf.
  rewrite (Arg_lookup _ _ _ _ _ Hi Hh). simpl.
  rewrite (Arg_lookup _ _ _ _ _ Hhi H0). simpl.
  rewrite (GetOpcode_lookup _ _ _ Hp0). simpl.
  rewrite (Arg_lookup _ _ _ 0 _ Hp0 eq_refl). simpl.
  rewrite (Arg_lookup _ _ _ 1 _ Hp0 eq_refl). simpl.
  rewrite (Arg_lookup _ _ _ _ _ Hhi H1). simpl.
  rewrite (GetOpcode_lookup _ _ _ Hp1), Hop1. simpl.
  rewrite (Arg_lookup _ _ _ _ _ Hhi H3). simpl.
  rewrite (Arg_lookup _ _ _ _ _ Hhi H2). simpl.
  rewrite (GetOpcode_lookup _ _ _ Hi). simpl.
  rewrite Hused. simpl.
  reflexivity.
Qed.

Ltac inv_res H :=
  lazymatch type of H with
  | Ok _ = Ok _ => idtac
  | Abort = Ok _ => discriminate H
  | Timeout = Ok _ => discriminate H
  | (_ ≫= _) = Ok _ =>
      let x := fresh "r" in
      let Hx := fresh "Hr" in
      apply bind_Ok in H as (x & Hx & H); inv_res H
  | (if ?c then _ else _) = Ok _ =>
      let E := fresh "Hc" in destruct c eqn:E; inv_res H
  | (let '(_, _) := ?p in _) = Ok _ => destruct p; inv_res H
  | _ => idtac
  end.

(** C10 (inline detection is all or nothing).  When the handle of a buffer
    instruction does not have the shape of the inline idiom, the detector
    answers -1 and hands back the state, resource lists and instruction
    operands included, exactly as it received it; and whenever it answers
    -1 nothing was registered or rewritten. *)
Theorem inline_cbuf_not_applicable (inst : Handle) (info : Info) (cbuf : Buffer) (s : State) :
  (∀ (handle p0 p1 : Handle) (hi i0 i1 : Inst) (a2 a3 : Value),
     Arg (insts s) inst 0 = Ok (InstRef handle) →
     insts s !! handle = Some hi →
     args hi = [InstRef p0; InstRef p1; a2; a3] →
     insts s !! p0 = Some i0 →
     insts s !! p1 = Some i1 →
     (opcode i0 = IAdd32 → ∃ x y, args i0 = [x; y]) →
     ¬ (opcode i0 = IAdd32 ∧ Forall (λ v, IsImmediate v = true) (args i0) ∧
        opcode i1 = IAdd32 ∧ IsImmediate a2 = true ∧ IsImmediate a3 = true) →
     TryHandleInlineCbuf inst info cbuf s = Ok (-1, cbuf, s)) ∧
  (∀ binding cbuf' s',
     TryHandleInlineCbuf inst info cbuf s = Ok (binding, cbuf', s') →
     binding = -1 → cbuf' = cbuf ∧ s' = s).
Proof.
  split.
  - intros handle p0 p1 hi i0 i1 a2 a3 Hh Hhi Hargs Hp0 Hp1 Harity Hshape.
    unfold TryHandleInlineCbuf. rewrite Hh. simpl.
    rewrite (Arg_lookup _ _ _ 0 (InstRef p0) Hhi) by (by rewrite Hargs). simpl.
    rewrite (GetOpcode_lookup _ _ _ Hp0). simpl.
    destruct (decide (opcode i0 = IAdd32)) as [Hop0|Hop0];
      [|by rewrite (bool_decide_eq_false_2 _ Hop0)].
    rewrite (bool_decide_eq_true_2 _ Hop0). simpl.
    destruct (Harity Hop0) as (x & y & Hxy).
    rewrite (Arg_lookup _ _ _ 0 x Hp0) by (by rewrite Hxy). simpl.
    destruct (IsImmediate x) eqn:Hx; [simpl|done].
    rewrite (Arg_lookup _ _ _ 1 y Hp0) by (by rewrite Hxy). simpl.
    destruct (IsImmediate y) eqn:Hy; [simpl|done].
    rewrite (Arg_lookup _ _ _ 1 (InstRef p1) Hhi) by (by rewrite Hargs). simpl.
    rewrite (GetOpcode_lookup _ _ _ Hp1). simpl.
    destruct (decide (opcode i1 = IAdd32)) as [Hop1|Hop1];
      [|by rewrite (bool_decide_eq_false_2 _ Hop1)].
    rewrite (bool_decide_eq_true_2 _ Hop1). simpl.
    rewrite (Arg_lookup _ _ _ 3 a3 Hhi) by (by rewrite Hargs). simpl.
    destruct (IsImmediate a3) eqn:Ha3; [simpl|done].
    rewrite (Arg_lookup _ _ _ 2 a2 Hhi) by (by rewrite Hargs). simpl.
    destruct (IsImmediate a2) eqn:Ha2; [simpl|done].
    exfalso. apply Hshape. rewrite Hxy. repeat split; auto.
  - intros binding cbuf' s' Hrun Hb.
    unfold TryHandleInlineCbuf in Hrun.
    inv_res Hrun; try (injection Hrun as <- <- <-; done).
    injection Hrun as <- <- <-. lia.
Qed.

(** ** Buffer addresses *)

Lemma arena_agree_refl a : arena_agree a a.
Proof. intros h i Hi. eauto. Qed.

Lemma arena_agree_trans a1 a2 a3 :
  arena_agree a1 a2 → arena_agree a2 a3 → arena_agree a1 a3.
Proof.
  intros H12 H23 h i Hi.
  destruct (H12 h i Hi) as (i2 & Hi2 & Hop2 & Hint2).
  destruct (H23 h i2 Hi2) as (i3 & Hi3 & Hop3 & Hint3).
  exists i3. split; [done|]. split; [congruence|].
  intros Hint. rewrite <- (Hint2 Hint). apply Hint3. by rewrite Hop2.
Qed.

Lemma arena_agree_app a l : arena_agree a (a ++ l).
Proof. intros h i Hi. exists i. split; [by apply lookup_app_l_Some|done]. Qed.

Lemma arena_agree_insert a h i i' :
  a !! h = Some i → opcode i' = opcode i → interpreted (opcode i) = false →
  arena_agree a (<[h := i']> a).
Proof.
  intros Hh Hop Hint h0 i0 Hi0.
  destruct (decide (h0 = h)) as [->|Hne].
  - exists i'. assert (i0 = i) as -> by congruence.
    split; [apply list_lookup_insert_eq; by eapply lookup_lt_Some|].
    split; [done|]. congruence.
  - exists i0. by rewrite list_lookup_insert_ne.
Qed.

Lemma eval_inst_mono (operand operand' : Value → option RtValue) own i r :
  (∀ v r, operand v = Some r → operand' v = Some r) →
  eval_inst operand own i = Some r → eval_inst operand' own i = Some r.
Proof.
  intros Hsub. unfold eval_inst, eval_binop.
  destruct (opcode i); try done;
    destruct (args i) as [|x [|y [|z l]]]; try done.
  - destruct (operand x) as [[p|]|] eqn:Hx; try done.
    destruct (operand y) as [[q|]|] eqn:Hy; try done.
    by rewrite (Hsub _ _ Hx), (Hsub _ _ Hy).
  - destruct (operand x) as [[p|]|] eqn:Hx; try done.
    destruct (operand y) as [[q|]|] eqn:Hy; try done.
    by rewrite (Hsub _ _ Hx), (Hsub _ _ Hy).
  - destruct (operand x) as [[p|]|] eqn:Hx; try done.
    destruct (operand y) as [[q|]|] eqn:Hy; try done.
    by rewrite (Hsub _ _ Hx), (Hsub _ _ Hy).
  - destruct y as [|ty k]; [done|].
    destruct (operand x) as [[p|els]|] eqn:Hx; try done.
    by rewrite (Hsub _ _ Hx).
Qed.

Lemma eval_inst_not_interpreted operand own i :
  interpreted (opcode i) = false → eval_inst operand own i = own.
Proof.
  unfold eval_inst. intros Hint. rewrite Hint.
  destruct (opcode i); try discriminate Hint; done.
Qed.

Lemma eval_agree n a a' rho v r :
  arena_agree a a' → eval n a rho v = Some r → eval n a' rho v = Some r.
Proof.
  intros Hag. revert v r. induction n as [|n IH]; intros [h|ty raw] r; simpl; try done.
  destruct (a !! h) as [i|] eqn:Hi; [|done].
  destruct (Hag h i Hi) as (i' & -> & Hop & Hint).
  destruct (interpreted (opcode i)) eqn:Hinterp.
  - rewrite (Hint eq_refl). by apply eval_inst_mono.
  - rewrite (eval_inst_not_interpreted _ _ i) by done.
    rewrite (eval_inst_not_interpreted _ _ i') by (by rewrite Hop). done.
Qed.

Lemma eval_mono n a rho v r : eval n a rho v = Some r → eval (S n) a rho v = Some r.
Proof.
  revert v r. induction n as [|n IH]; intros [h|ty raw] r; try done.
  intros Hv. simpl in Hv.
  change (eval (S (S n)) a rho (InstRef h))
    with (match a !! h with
          | None => None
          | Some i => eval_inst (eval (S n) a rho) (rho h) i
          end).
  destruct (a !! h) as [i|]; [|done].
  by eapply eval_inst_mono.
Qed.

Lemma eval_mono_add n k a rho v r :
  eval n a rho v = Some r → eval (n + k) a rho v = Some r.
Proof.
  intros Hv. induction k as [|k IH]; [by rewrite Nat.add_0_r|].
  rewrite Nat.add_succ_r. by apply eval_mono.
Qed.

Lemma SetArg_inv h index v s s' :
  SetArg h index v s = Ok s' →
  ∃ i, insts s !! h = Some i ∧ (index < length (args i))%nat ∧
       s' = mkState (<[h := mkInst (opcode i) (<[index := v]> (args i)) (flags i)]> (insts s))
                    (blocks s) (descriptors s).
Proof.
  unfold SetArg, GetInst. intros Hset.
  apply bind_Ok in Hset as (i & Hi & Hset). apply of_option_Ok in Hi.
  apply bind_Ok in Hset as (u & Hlt & Hset). apply ASSERT_Ok, bool_decide_eq_true in Hlt.
  injection Hset as <-. eauto.
Qed.

Lemma TryHandleInlineCbuf_insts inst info cbuf s binding cbuf' s' :
  TryHandleInlineCbuf inst info cbuf s = Ok (binding, cbuf', s') →
  insts s' = insts s ∧ blocks s' = blocks s.
Proof.
  unfold TryHandleInlineCbuf. intros Hrun.
  inv_res Hrun; by injection Hrun as <- <- <-.
Qed.

Lemma BufferDataType_not_interpreted op ty :
  BufferDataType op = Ok ty → interpreted op = false.
Proof. by destruct op. Qed.

Lemma PatchBufferInstruction_sharp_inv fuel inst info s binding buffer s1 :
  PatchBufferInstruction_sharp fuel inst info s = Ok (binding, buffer, s1) →
  insts s1 = insts s ∧ blocks s1 = blocks s ∧
  ∀ i, insts s !! inst = Some i → interpreted (opcode i) = false.
Proof.
  unfold PatchBufferInstruction_sharp. intros Hrun.
  apply bind_Ok in Hrun as ([[b0 c0] s0] & Htry & Hrun).
  pose proof (TryHandleInlineCbuf_insts _ _ _ _ _ _ _ Htry) as [Hi0 Hb0].
  destruct (bool_decide (b0 = -1)) eqn:Hb.
  - rewrite Hi0 in Hrun. inv_res Hrun. injection Hrun as <- <- <-. simpl.
    split; [done|]. split; [done|].
    intros i Hi.
    match goal with
    | Hop : GetOpcode _ inst = Ok ?op, Hty : BufferDataType ?op = Ok _ |- _ =>
        rewrite (GetOpcode_lookup _ _ _ Hi) in Hop; injection Hop as <-;
        by eapply BufferDataType_not_interpreted
    end.
  - injection Hrun as <- <- <-. split; [done|]. split; [done|].
    intros i Hi. unfold TryHandleInlineCbuf in Htry.
    inv_res Htry; try (injection Htry as <- _ _; by rewrite bool_decide_eq_true_2 in Hb).
    match goal with
    | Hop : GetOpcode _ inst = Ok ?op, Hty : BufferDataType ?op = Ok _ |- _ =>
        rewrite (GetOpcode_lookup _ _ _ Hi) in Hop; injection Hop as <-;
        by eapply BufferDataType_not_interpreted
    end.
Qed.

Lemma wrap32_add_l p q : wrap32 (wrap32 p + q) = wrap32 (p + q).
Proof. unfold wrap32. by rewrite Zplus_mod_idemp_l. Qed.

Lemma wrap32_add_r p q : wrap32 (p + wrap32 q) = wrap32 (p + q).
Proof. unfold wrap32. by rewrite Zplus_mod_idemp_r. Qed.

Lemma wrap32_mul_r p q : wrap32 (p * wrap32 q) = wrap32 (p * q).
Proof. unfold wrap32. by rewrite Zmult_mod_idemp_r. Qed.

Lemma wrap32_idemp p : wrap32 (wrap32 p) = wrap32 p.
Proof. unfold wrap32. by rewrite Zmod_mod. Qed.

Lemma emit_spec block inst op operands s :
  emit block inst op operands s =
    (InstRef (length (insts s)),
     mkState (insts s ++ [mkInst op operands 0])
             (alter (insert_before inst (length (insts s))) block (blocks s))
             (descriptors s)).
Proof. done. Qed.

Lemma lookup_snoc {A : Type} (l : list A) (x : A) : (l ++ [x]) !! length l = Some x.
Proof. by apply list_lookup_middle. Qed.

Lemma arena_agree_lookup a a' h e :
  arena_agree a a' → a !! h = Some e → interpreted (opcode e) = true → a' !! h = Some e.
Proof. intros Hag He Hint. destruct (Hag h e He) as (x & Hx & _ & Heq). by rewrite Hx, Heq. Qed.

Lemma eval_node n a rho h e :
  a !! h = Some e → eval (S n) a rho (InstRef h) = eval_inst (eval n a rho) (rho h) e.
Proof. intros He. simpl. by rewrite He. Qed.

Lemma eval_Imm32 n a rho z : eval n a rho (Imm32 z) = Some (RtU32 (wrap32 z)).
Proof. destruct n; simpl; by rewrite wrap32_idemp. Qed.

Lemma PatchBufferInstruction_rewrite_address block inst binding buffer s1 s' i v :
  PatchBufferInstruction_rewrite block inst binding buffer s1 = Ok s' →
  insts s1 !! inst = Some i →
  interpreted (opcode i) = false →
  opcode i ≠ ReadConstBuffer → opcode i ≠ ReadConstBufferU32 →
  args i !! 1%nat = Some v →
  index_enable (Flags_BufferInstInfo (flags i)) = true →
  let stride := Buffer_GetStrideElements buffer 4 in
  let base := inst_offset (Flags_BufferInstInfo (flags i)) / 4 in
  ∃ address,
    Arg (insts s') inst 1 = Ok address ∧
    ∀ rho n index offset,
      (offset_enable (Flags_BufferInstInfo (flags i)) = true →
       eval n (insts s1) rho v = Some (RtComposite [index; offset]) →
       eval (n + 4) (insts s') rho address =
         Some (RtU32 (wrap32 (index * stride + base + Z.shiftr offset 2)))) ∧
      (offset_enable (Flags_BufferInstInfo (flags i)) = false →
       eval n (insts s1) rho v = Some (RtU32 index) →
       eval (n + 2) (insts s') rho address =
         Some (RtU32 (wrap32 (index * stride + base)))).
Proof.
  intros Hrun Hi Hint Hop1 Hop2 Hv Hidx stride base.
  unfold PatchBufferInstruction_rewrite in Hrun.
  apply bind_Ok in Hrun as (i0 & Hi0 & Hrun).
  unfold GetInst in Hi0. rewrite Hi in Hi0. injection Hi0 as <-.
  apply bind_Ok in Hrun as (s2 & Hset0 & Hrun).
  apply SetArg_inv in Hset0 as (i0 & Hi0 & Hlen0 & ->).
  assert (i0 = i) as -> by congruence.
  apply bind_Ok in Hrun as (u1 & _ & Hrun).
  apply bind_Ok in Hrun as (u2 & _ & Hrun).
  apply bind_Ok in Hrun as (op & Hop & Hrun).
  simpl in Hop, Hrun.
  set (i2 := mkInst (opcode i) (<[0%nat := Imm32 binding]> (args i)) (flags i)) in *.
  set (a2 := <[inst := i2]> (insts s1)) in *.
  assert (Ha2 : a2 !! inst = Some i2).
  { apply list_lookup_insert_eq. by eapply lookup_lt_Some. }
  assert (Hag2 : arena_agree (insts s1) a2) by (by eapply arena_agree_insert).
  rewrite (GetOpcode_lookup _ _ _ Ha2) in Hop. injection Hop as <-. simpl in Hrun.
  rewrite (bool_decide_eq_false_2 _ Hop1), (bool_decide_eq_false_2 _ Hop2) in Hrun.
  simpl in Hrun. rewrite Hidx in Hrun. simpl in Hrun.
  assert (Hv2 : Arg a2 inst 1 = Ok v).
  { eapply Arg_lookup; [exact Ha2|]. simpl. by rewrite list_lookup_insert_ne. }
  rewrite Hv2 in Hrun. simpl in Hrun.
  destruct (offset_enable (Flags_BufferInstInfo (flags i))) eqn:Hoff; simpl in Hrun.
  - set (e0 := mkInst CompositeExtract [v; Imm32 1] 0) in *.
    set (b0 := a2 ++ [e0]) in *.
    set (e1 := mkInst CompositeExtract [v; Imm32 0] 0) in *.
    set (b1 := b0 ++ [e1]) in *.
    set (e2 := mkInst IMul32 [InstRef (length b0); Imm32 (Buffer_GetStrideElements buffer 4)] 0) in *.
    set (b2 := b1 ++ [e2]) in *.
    set (e3 := mkInst IAdd32 [InstRef (length b1);
                 Imm32 (inst_offset (Flags_BufferInstInfo (flags i)) / 4)] 0) in *.
    set (b3 := b2 ++ [e3]) in *.
    set (e4 := mkInst ShiftRightLogical32 [InstRef (length a2); Imm32 2] 0) in *.
    set (b4 := b3 ++ [e4]) in *.
    set (e5 := mkInst IAdd32 [InstRef (length b2); InstRef (length b3)] 0) in *.
    set (b5 := b4 ++ [e5]) in *.
    apply SetArg_inv in Hrun as (i3 & Hi3 & Hlen3 & ->). simpl in *.
    set (A := <[inst := _]> b5).
    assert (Hb5 : b5 !! inst = Some i2).
    { unfold b5, b4, b3, b2, b1, b0. by repeat apply lookup_app_l_Some. }
    assert (i3 = i2) as -> by congruence.
    assert (HagA : arena_agree b5 A) by (by eapply arena_agree_insert).
    assert (Hag5 : arena_agree b4 b5) by apply arena_agree_app.
    assert (Hag4 : arena_agree b3 b4) by apply arena_agree_app.
    assert (Hag3 : arena_agree b2 b3) by apply arena_agree_app.
    assert (Hag2' : arena_agree b1 b2) by apply arena_agree_app.
    assert (Hag1 : arena_agree b0 b1) by apply arena_agree_app.
    assert (Hag0 : arena_agree a2 b0) by apply arena_agree_app.
    assert (HA5 : A !! length b4 = Some e5).
    { destruct (HagA _ _ (lookup_snoc b4 e5)) as (x & Hx & _ & Heq). by rewrite Hx, Heq. }
    assert (HA4 : A !! length b3 = Some e4).
    { eapply arena_agree_lookup; [|apply (lookup_snoc b3 e4)|done].
      eauto using arena_agree_trans. }
    assert (HA3 : A !! length b2 = Some e3).
    { eapply arena_agree_lookup; [|apply (lookup_snoc b2 e3)|done].
      eauto 6 using arena_agree_trans. }
    assert (HA2 : A !! length b1 = Some e2).
    { eapply arena_agree_lookup; [|apply (lookup_snoc b1 e2)|done].
      eauto 7 using arena_agree_trans. }
    assert (HA1 : A !! length b0 = Some e1).
    { eapply arena_agree_lookup; [|apply (lookup_snoc b0 e1)|done].
      eauto 8 using arena_agree_trans. }
    assert (HA0 : A !! length a2 = Some e0).
    { eapply arena_agree_lookup; [|apply (lookup_snoc a2 e0)|done].
      eauto 9 using arena_agree_trans. }
    assert (HagS : arena_agree (insts s1) A) by eauto 10 using arena_agree_trans.
    exists (InstRef (length b4)). split.
    { eapply Arg_lookup; [apply list_lookup_insert_eq; by eapply lookup_lt_Some|].
      simpl. by apply list_lookup_insert_eq. }
    intros rho n index offset. split; [|done]. intros _ Hev.
    apply (eval_agree _ _ _ _ _ _ HagS) in Hev.
    assert (H0 : eval (S n) A rho (InstRef (length a2)) = Some (RtU32 offset)).
    { rewrite (eval_node _ _ _ _ _ HA0). unfold eval_inst. simpl. by rewrite Hev. }
    assert (H1 : eval (S n) A rho (InstRef (length b0)) = Some (RtU32 index)).
    { rewrite (eval_node _ _ _ _ _ HA1). unfold eval_inst. simpl. by rewrite Hev. }
    assert (H2 : eval (S (S n)) A rho (InstRef (length b1)) =
                 Some (RtU32 (wrap32 (index * stride)))).
    { rewrite (eval_node _ _ _ _ _ HA2). unfold eval_inst, e2. cbn [opcode args].
      rewrite H1, eval_Imm32. simpl. by rewrite wrap32_mul_r. }
    assert (H3 : eval (S (S (S n))) A rho (InstRef (length b2)) =
                 Some (RtU32 (wrap32 (index * stride + base)))).
    { rewrite (eval_node _ _ _ _ _ HA3). unfold eval_inst, e3. cbn [opcode args].
      rewrite H2, eval_Imm32. simpl. by rewrite wrap32_add_l, wrap32_add_r. }
    assert (H4 : eval (S (S (S n))) A rho (InstRef (length b3)) =
                 Some (RtU32 (Z.shiftr offset 2))).
    { apply eval_mono. rewrite (eval_node _ _ _ _ _ HA4). unfold eval_inst, e4.
      cbn [opcode args]. rewrite H0, eval_Imm32. done. }
    replace (n + 4)%nat with (S (S (S (S n)))) by lia.
    rewrite (eval_node _ _ _ _ _ HA5). unfold eval_inst, e5. cbn [opcode args].
    rewrite H3, H4. simpl. by rewrite wrap32_add_l.
  - set (e0 := mkInst IMul32 [v; Imm32 (Buffer_GetStrideElements buffer 4)] 0) in *.
    set (b0 := a2 ++ [e0]) in *.
    set (e1 := mkInst IAdd32 [InstRef (length a2);
                 Imm32 (inst_offset (Flags_BufferInstInfo (flags i)) / 4)] 0) in *.
    set (b1 := b0 ++ [e1]) in *.
    apply SetArg_inv in Hrun as (i3 & Hi3 & Hlen3 & ->). simpl in *.
    set (A := <[inst := _]> b1).
    assert (Hb1 : b1 !! inst = Some i2).
    { unfold b1, b0. by repeat apply lookup_app_l_Some. }
    assert (i3 = i2) as -> by congruence.
    assert (HagA : arena_agree b1 A) by (by eapply arena_agree_insert).
    assert (Hag1 : arena_agree b0 b1) by apply arena_agree_app.
    assert (Hag0 : arena_agree a2 b0) by apply arena_agree_app.
    assert (HA1 : A !! length b0 = Some e1).
    { eapply arena_agree_lookup; [|apply (lookup_snoc b0 e1)|done]. done. }
    assert (HA0 : A !! length a2 = Some e0).
    { eapply arena_agree_lookup; [|apply (lookup_snoc a2 e0)|done].
      eauto using arena_agree_trans. }
    assert (HagS : arena_agree (insts s1) A) by eauto 6 using arena_agree_trans.
    exists (InstRef (length b0)). split.
    { eapply Arg_lookup; [apply list_lookup_insert_eq; by eapply lookup_lt_Some|].
      simpl. by apply list_lookup_insert_eq. }
    intros rho n index offset. split; [done|]. intros _ Hev.
    apply (eval_agree _ _ _ _ _ _ HagS) in Hev.
    assert (H0 : eval (S n) A rho (InstRef (length a2)) =
                 Some (RtU32 (wrap32 (index * stride)))).
    { rewrite (eval_node _ _ _ _ _ HA0). unfold eval_inst, e0. cbn [opcode args].
      rewrite Hev, eval_Imm32. simpl. by rewrite wrap32_mul_r. }
    replace (n + 2)%nat with (S (S n)) by lia.
    rewrite (eval_node _ _ _ _ _ HA1). unfold eval_inst, e1. cbn [opcode args].
    rewrite H0, eval_Imm32. simpl. by rewrite wrap32_add_l, wrap32_add_r.
Qed.

(** With only the offset operand enabled the address operand becomes the
    immediate constant offset: the dynamic offset operand is read and not
    used. *)
Lemma PatchBufferInstruction_rewrite_offset_only block inst binding buffer s1 s' i v :
  PatchBufferInstruction_rewrite block inst binding buffer s1 = Ok s' →
  insts s1 !! inst = Some i →
  opcode i ≠ ReadConstBuffer → opcode i ≠ ReadConstBufferU32 →
  args i !! 1%nat = Some v →
  index_enable (Flags_BufferInstInfo (flags i)) = false →
  Arg (insts s') inst 1 = Ok (Imm32 (inst_offset (Flags_BufferInstInfo (flags i)) / 4)).
Proof.
  intros Hrun Hi Hop1 Hop2 Hv Hidx.
  unfold PatchBufferInstruction_rewrite in Hrun.
  apply bind_Ok in Hrun as (i0 & Hi0 & Hrun).
  unfold GetInst in Hi0. rewrite Hi in Hi0. injection Hi0 as <-.
  apply bind_Ok in Hrun as (s2 & Hset0 & Hrun).
  apply SetArg_inv in Hset0 as (i0 & Hi0 & Hlen0 & ->).
  assert (i0 = i) as -> by congruence.
  apply bind_Ok in Hrun as (u1 & _ & Hrun).
  apply bind_Ok in Hrun as (u2 & _ & Hrun).
  apply bind_Ok in Hrun as (op & Hop & Hrun).
  simpl in Hop, Hrun.
  set (i2 := mkInst (opcode i) (<[0%nat := Imm32 binding]> (args i)) (flags i)) in *.
  set (a2 := <[inst := i2]> (insts s1)) in *.
  assert (Ha2 : a2 !! inst = Some i2).
  { apply list_lookup_insert_eq. by eapply lookup_lt_Some. }
  rewrite (GetOpcode_lookup _ _ _ Ha2) in Hop. injection Hop as <-. simpl in Hrun.
  rewrite (bool_decide_eq_false_2 _ Hop1), (bool_decide_eq_false_2 _ Hop2) in Hrun.
  simpl in Hrun. rewrite Hidx in Hrun. simpl in Hrun.
  assert (Hv2 : Arg a2 inst 1 = Ok v).
  { eapply Arg_lookup; [exact Ha2|]. simpl. by rewrite list_lookup_insert_ne. }
  assert (Hset : SetArg inst 1
            (Imm32 (inst_offset (Flags_BufferInstInfo (flags i)) / 4))
            (mkState a2 (blocks s1) (descriptors s1)) = Ok s').
  { destruct (offset_enable _); [by rewrite Hv2 in Hrun|done]. }
  apply SetArg_inv in Hset as (i3 & Hi3 & Hlen3 & ->). simpl in *.
  eapply Arg_lookup; [apply list_lookup_insert_eq; by eapply lookup_lt_Some|].
  simpl. by apply list_lookup_insert_eq.
Qed.

(** C3 (address arithmetic with an index).  For a patched buffer load or
    store other than [ReadConstBuffer]/[ReadConstBufferU32], with [stride]
    the descriptor's element stride in dwords and [base] the instruction's
    constant byte offset in dwords: when index and offset are enabled the
    new address operand computes [index * stride + base + (offset >> 2)],
    when only the index is enabled it computes [index * stride + base], in
    32-bit arithmetic. *)
Theorem buffer_address_arithmetic fuel block inst info s binding buffer s1 s' i v :
  PatchBufferInstruction_sharp fuel inst info s = Ok (binding, buffer, s1) →
  PatchBufferInstruction fuel block inst info s = Ok s' →
  insts s !! inst = Some i →
  opcode i ≠ ReadConstBuffer → opcode i ≠ ReadConstBufferU32 →
  args i !! 1%nat = Some v →
  index_enable (Flags_BufferInstInfo (flags i)) = true →
  let stride := Buffer_GetStrideElements buffer 4 in
  let base := inst_offset (Flags_BufferInstInfo (flags i)) / 4 in
  ∃ address,
    Arg (insts s') inst 1 = Ok address ∧
    ∀ rho n index offset,
      (offset_enable (Flags_BufferInstInfo (flags i)) = true →
       eval n (insts s) rho v = Some (RtComposite [index; offset]) →
       eval (n + 4) (insts s') rho address =
         Some (RtU32 (wrap32 (index * stride + base + Z.shiftr offset 2)))) ∧
      (offset_enable (Flags_BufferInstInfo (flags i)) = false →
       eval n (insts s) rho v = Some (RtU32 index) →
       eval (n + 2) (insts s') rho address =
         Some (RtU32 (wrap32 (index * stride + base)))).
Proof.
  intros Hsharp Hpatch Hi Hop1 Hop2 Hv Hidx.
  unfold PatchBufferInstruction in Hpatch. rewrite Hsharp in Hpatch. simpl in Hpatch.
  apply PatchBufferInstruction_sharp_inv in Hsharp as (Hinsts & _ & Hint).
  rewrite <- Hinsts in *.
  eapply PatchBufferInstruction_rewrite_address; eauto.
Qed.

End PassFacts.

Lemma inline_cbuf_scenario_witness :
  TryHandleInlineCbuf (H := sample_external) 4%nat (mkInfo [] 0x1000) Buffer_zero
    sample_inline_program =
  Ok (0, mkBuffer 0x1120 0xBBBB0000AAAA,
      mkState (insts sample_inline_program) (blocks sample_inline_program)
        (Descriptors.mk
           [BufferResource.mk (2 ^ 32 - 1) 0 0 0xAAAA 2048
              (mkBuffer 0x1120 0xBBBB0000AAAA) false] [] [])).
Proof.
  apply (inline_cbuf_scenario (H := sample_external) [] Buffer_zero sample_inline_program
           4%nat 2%nat 0%nat 1%nat
           (mkInst LoadBufferF32 [InstRef 2%nat; InstRef 3%nat] 1)
           (mkInst (OtherOpcode 0)
              [InstRef 0%nat; InstRef 1%nat; Imm Type_U32 0xAAAA; Imm Type_U32 0xBBBB] 0)
           (mkInst IAdd32 [Imm Type_U32 0; Imm Type_U32 0] 0)
           Type_U32 Type_U32 Type_U32 Type_U32 0 Type_F32); reflexivity.
Defined.

Lemma inline_cbuf_not_applicable_witness :
  TryHandleInlineCbuf (H := sample_external) 6%nat sample_info Buffer_zero
    (sample_store_program 3) = Ok (-1, Buffer_zero, sample_store_program 3).
Proof.
  apply (proj1 (inline_cbuf_not_applicable (H := sample_external) 6%nat sample_info
                  Buffer_zero (sample_store_program 3))
           4%nat 3%nat 3%nat
           (mkInst (OtherOpcode 0) [InstRef 3%nat; InstRef 3%nat; InstRef 3%nat; InstRef 3%nat] 0)
           (mkInst ReadConst [InstRef 2%nat; Imm Type_U32 4] 0)
           (mkInst ReadConst [InstRef 2%nat; Imm Type_U32 4] 0)
           (InstRef 3%nat) (InstRef 3%nat)).
  - reflexivity.
  - reflexivity.
  - reflexivity.
  - reflexivity.
  - reflexivity.
  - intros Hop. discriminate Hop.
  - intros [Hop _]. discriminate Hop.
Defined.

Lemma buffer_address_arithmetic_witness :
  ∃ s',
    PatchBufferInstruction (H := sample_external) 10 0%nat 6%nat sample_info
      (sample_store_program 35) = Ok s' ∧
    ∃ address,
      Arg (insts s') 6%nat 1 = Ok address ∧
      ∀ rho n index offset,
        (offset_enable (Flags_BufferInstInfo (External := sample_external) 35) = true →
         eval n (insts (sample_store_program 35)) rho (InstRef 5%nat) =
           Some (RtComposite [index; offset]) →
         eval (n + 4) (insts s') rho address =
           Some (RtU32 (wrap32 (index * 4 + 2 + Z.shiftr offset 2)))) ∧
        (offset_enable (Flags_BufferInstInfo (External := sample_external) 35) = false →
         eval n (insts (sample_store_program 35)) rho (InstRef 5%nat) =
           Some (RtU32 index) →
         eval (n + 2) (insts s') rho address = Some (RtU32 (wrap32 (index * 4 + 2)))).
Proof.
  eexists. split; [vm_compute; reflexivity|].
  eapply (buffer_address_arithmetic (H := sample_external) 10 0%nat 6%nat sample_info
            (sample_store_program 35) _ (mkBuffer 4503599627370496 256) _ _
            (mkInst StoreBufferF32 [InstRef 4%nat; InstRef 5%nat; Imm Type_F32 0] 35)
            (InstRef 5%nat)).
  - vm_compute. reflexivity.
  - vm_compute. reflexivity.
  - reflexivity.
  - discriminate.
  - discriminate.
  - reflexivity.
  - reflexivity.
Defined.

(** The end-to-end scenario of the spec: one buffer store whose handle
    resolves to [sgpr_base = 12], [dword_offset = 4] and whose descriptor, read
    through the user-data pointer, has stride 16 and 256 records.  The pass
    leaves exactly one buffer resource, a storage buffer at binding 0, and the
    handle operand of the store is the immediate 0. *)
Example end_to_end_scenario :
  ∃ s',
    ResourceTrackingPass (H := sample_external) 10 sample_info (sample_store_program 35)
      = Ok s' ∧
    Descriptors.buffer_resources (descriptors s') =
      [BufferResource.mk 12 4 16 256 2048 Buffer_zero true] ∧
    Descriptors.image_resources (descriptors s') = [] ∧
    Descriptors.sampler_resources (descriptors s') = [] ∧
    Arg (insts s') 6%nat 0 = Ok (Imm Type_U32 0).
Proof. eexists. split; [vm_compute; reflexivity|]. repeat split. Qed.

(** C4 (address arithmetic with only an offset), evaluated on the code.  A
    buffer store with only the offset operand enabled and constant offset 8
    bytes: the rewritten address operand is the immediate 2, the constant
    offset in dwords.  With the dynamic byte offset 8 the stated address
    [base + (offset >> 2)] is 4; the offset operand is not part of what the
    patched instruction computes. *)
Theorem offset_only_address_drops_offset :
  let rho := λ h : Handle, if decide (h = 5%nat) then Some (RtU32 8) else None in
  ∃ s',
    PatchBufferInstruction (H := sample_external) 10 0%nat 6%nat sample_info
      (sample_store_program 34) = Ok s' ∧
    Arg (insts (sample_store_program 34)) 6%nat 1 = Ok (InstRef 5%nat) ∧
    eval 1 (insts (sample_store_program 34)) rho (InstRef 5%nat) = Some (RtU32 8) ∧
    Arg (insts s') 6%nat 1 = Ok (Imm Type_U32 2) ∧
    eval 1 (insts s') rho (Imm Type_U32 2) = Some (RtU32 2) ∧
    2 ≠ wrap32 (2 + Z.shiftr 8 2).
Proof.
  intros rho. eexists. split; [vm_compute; reflexivity|].
  repeat split; try reflexivity. vm_compute. discriminate.
Qed.

(** ** Texel offsets *)

(** C5 (the texel-offset round trip) fails on the code.  The offset word
    that packs x = -1, y = -32, z = 5 is 0x5203F.  The image patcher replaces
    it by a composite of two components, 63 and 32: [sign_ext] shifts a 6-bit
    field left by 24 before the arithmetic shift back, so bit 5 is never
    extended, against the comment of the code that calls the offsets six-bit
    signed integers; and the composite has no component for z.  The round
    trip would give the two's-complement words of -1 and -32 and a third
    component 5. *)
Lemma texel_offset_roundtrip_fails :
  pack_texel_offset (-1) (-32) 5 = 0x5203F ∧
  texel_offset_operands (pack_texel_offset (-1) (-32) 5) = [Imm Type_U32 63; Imm Type_U32 32] ∧
  texel_offset_operands (pack_texel_offset (-1) (-32) 5) ≠ [Imm32 (-1); Imm32 (-32); Imm32 5] ∧
  texel_offset_operands (pack_texel_offset (-1) (-32) 5) ≠ [Imm32 (-1); Imm32 (-32)] ∧
  ∃ s',
    PatchImageInstruction (H := sample_external) 10 0%nat 4%nat sample_image_info
      (sample_image_program (pack_texel_offset (-1) (-32) 5)) = Ok s' ∧
    Arg (insts s') 4%nat 3 = Ok (InstRef 6%nat) ∧
    insts s' !! 6%nat =
      Some (mkInst CompositeConstructU32x2 [Imm Type_U32 63; Imm Type_U32 32] 0).
Proof.
  split; [reflexivity|]. split; [reflexivity|].
  split; [vm_compute; discriminate|]. split; [vm_compute; discriminate|].
  eexists. split; [vm_compute; reflexivity|]. split; reflexivity.
Qed.

(** On every offset word the two emitted components are the raw 6-bit
    fields, never a negative number. *)
Lemma sign_ext_field v : 0 ≤ v < 64 → sign_ext v = Imm Type_U32 v.
Proof.
  intros Hv. unfold sign_ext, Imm32.
  rewrite Z.shiftl_mul_pow2 by lia.
  assert (Hw : wrap32 (v * 2 ^ 24) = v * 2 ^ 24) by (apply Z.mod_small; lia).
  rewrite Hw. unfold to_s32. rewrite decide_True by lia.
  rewrite Z.shiftr_div_pow2 by lia. rewrite Z.div_mul by lia.
  f_equal. apply Z.mod_small. lia.
Qed.

Lemma BitField_range position bits raw :
  0 ≤ bits → 0 ≤ BitField position bits raw < 2 ^ bits.
Proof.
  intros Hb. unfold BitField. rewrite Z.land_ones by lia.
  apply Z.mod_pos_bound. by apply Z.pow_pos_nonneg.
Qed.

Lemma texel_offset_operands_range raw :
  ∃ x y, 0 ≤ x < 64 ∧ 0 ≤ y < 64 ∧
         texel_offset_operands raw = [Imm Type_U32 x; Imm Type_U32 y].
Proof.
  exists (BitField 0 6 raw), (BitField 8 6 raw).
  pose proof (BitField_range 0 6 raw) as Hx. pose proof (BitField_range 8 6 raw) as Hy.
  split; [lia|]. split; [lia|].
  unfold texel_offset_operands. rewrite !sign_ext_field by lia. done.
Qed.

Lemma testbit_small x k n : 0 ≤ x < 2 ^ k → 0 ≤ k ≤ n → Z.testbit x n = false.
Proof.
  intros Hx Hn. rewrite <- (Z.mod_small x (2 ^ k)) by lia.
  apply Z.mod_pow2_bits_high. lia.
Qed.

(** ** Termination of the backward searches *)

Lemma finishes_bind {A B : Type} (m : Res A) (k : A → Res B) :
  finishes m → (∀ a, m = Ok a → finishes (k a)) → finishes (m ≫= k).
Proof. destruct m; simpl; intros Hm Hk; [by apply Hk|done|done]. Qed.

Lemma finishes_of_option {A : Type} (o : option A) : finishes (of_option o).
Proof. by destruct o. Qed.

Lemma finishes_ASSERT c : finishes (ASSERT c).
Proof. by destruct c. Qed.

Ltac fin_step :=
  lazymatch goal with
  | |- finishes (Ok _) => discriminate
  | |- finishes Abort => discriminate
  | |- finishes (of_option _) => apply finishes_of_option
  | |- finishes (ASSERT _) => apply finishes_ASSERT
  | |- finishes (_ ≫= _) => apply finishes_bind; [|intros ? ?]
  | |- finishes (if ?c then _ else _) => destruct c
  | |- finishes (let '(_, _) := ?p in _) => destruct p
  | |- finishes (match ?x with _ => _ end) => destruct x
  end.

Ltac fin := repeat fin_step.

Lemma finishes_Arg a h index : finishes (Arg a h index).
Proof. unfold Arg, GetInst. fin. Qed.

Lemma finishes_GetInst a h : finishes (GetInst a h).
Proof. unfold GetInst. fin. Qed.

Lemma finishes_GetOpcode a h : finishes (GetOpcode a h).
Proof. unfold GetOpcode. fin. Qed.

Lemma finishes_InstRecursive v : finishes (InstRecursive v).
Proof. by destruct v. Qed.

Lemma finishes_U32 v : finishes (U32 v).
Proof. by destruct v. Qed.

Lemma finishes_ScalarReg v : finishes (ScalarReg v).
Proof. by destruct v. Qed.

Lemma finishes_SetArg h index v s : finishes (SetArg h index v s).
Proof. unfold SetArg, GetInst. fin. Qed.

Lemma finishes_Add {A : Type} (l : list A) desc pred : finishes (Descriptors.Add l desc pred).
Proof. unfold Descriptors.Add. fin. Qed.

Lemma finishes_Add_image d desc : finishes (Descriptors.Add_image d desc).
Proof. unfold Descriptors.Add_image. apply finishes_bind; [apply finishes_Add|]. intros [] _. fin. Qed.

Lemma finishes_Add_sampler d desc : finishes (Descriptors.Add_sampler d desc).
Proof. unfold Descriptors.Add_sampler. apply finishes_bind; [apply finishes_Add|]. intros [] _. fin. Qed.

Create HintDb finishes.

#[local] Hint Resolve finishes_Arg finishes_GetInst finishes_GetOpcode finishes_InstRecursive
  finishes_U32 finishes_ScalarReg finishes_SetArg finishes_Add_image finishes_Add_sampler
  finishes_of_option finishes_ASSERT : finishes.

Ltac fin_auto :=
  repeat first
    [ fin_step
    | lazymatch goal with |- finishes _ => solve [auto with finishes] end ].

Lemma finishes_TryDisableAnisoLod0 a inst : finishes (TryDisableAnisoLod0 a inst).
Proof. unfold TryDisableAnisoLod0. fin_auto. Qed.

Section ReadUdFacts.
Context `{External}.

Lemma finishes_ReadUd_dword info p o : finishes (ReadUd_dword info p o).
Proof. unfold ReadUd_dword. fin_auto. Qed.

Lemma finishes_ReadUd count info p o : finishes (ReadUd count info p o).
Proof.
  revert o. induction count as [|count IH]; intros o; simpl; [done|].
  apply finishes_bind; [apply finishes_ReadUd_dword|]. intros w _.
  apply finishes_bind; [apply IH|]. intros ws _. done.
Qed.

Lemma finishes_ReadUd_Image info p o : finishes (ReadUd_Image info p o).
Proof.
  unfold ReadUd_Image. apply finishes_bind; [apply finishes_ReadUd|]. intros ws _. done.
Qed.

End ReadUdFacts.

#[local] Hint Resolve finishes_TryDisableAnisoLod0 finishes_ReadUd_Image : finishes.

(** Once a loop has finished, more fuel does not change its result. *)
Lemma skip_phi_fuel fuel fuel' a h :
  (fuel ≤ fuel')%nat → finishes (skip_phi fuel a h) →
  skip_phi fuel' a h = skip_phi fuel a h.
Proof.
  revert fuel' h. induction fuel as [|fuel IH]; intros fuel' h Hle Hfin;
    [exfalso; by apply Hfin|].
  destruct fuel' as [|fuel']; [lia|]. simpl in *.
  destruct (GetOpcode a h) as [op| |]; simpl in *; try done.
  destruct (bool_decide (op = Phi)); [|done].
  destruct (Arg a h 0 ≫= InstRecursive) as [next| |]; simpl in *; try done.
  apply IH; [lia|done].
Qed.

Lemma FindProducer_fuel fuel fuel' a queue :
  (fuel ≤ fuel')%nat → finishes (FindProducer fuel a queue) →
  FindProducer fuel' a queue = FindProducer fuel a queue.
Proof.
  revert fuel' queue. induction fuel as [|fuel IH]; intros fuel' queue Hle Hfin.
  - destruct queue as [|h rest]; [by destruct fuel'|]. exfalso. by apply Hfin.
  - destruct queue as [|h rest]; [by destruct fuel'|].
    destruct fuel' as [|fuel']; [lia|]. simpl in *.
    destruct (GetInst a h) as [i| |]; simpl in *; try done.
    destruct (producer_pred (opcode i)); [done|].
    apply IH; [lia|done].
Qed.

(** *** Inversion of accessor calls *)

Lemma GetInst_Ok a h i : GetInst a h = Ok i ↔ a !! h = Some i.
Proof. unfold GetInst. apply of_option_Ok. Qed.

Lemma GetOpcode_Ok a h op : GetOpcode a h = Ok op ↔ ∃ i, a !! h = Some i ∧ opcode i = op.
Proof.
  unfold GetOpcode. rewrite of_option_Ok. destruct (a !! h) as [i|]; simpl.
  - split; [intros [= <-]; eauto|intros (i' & [= <-] & <-); done].
  - split; [done|intros (i' & [=] & _)].
Qed.

Lemma Arg_Ok a h index v :
  Arg a h index = Ok v ↔ ∃ i, a !! h = Some i ∧ args i !! index = Some v.
Proof.
  unfold Arg, GetInst. destruct (a !! h) as [i|]; simpl.
  - rewrite of_option_Ok. split; [eauto|intros (i' & [= <-] & Hv); done].
  - split; [done|intros (i' & [=] & _)].
Qed.

Lemma Arg_InstRecursive_Ok a h index c :
  Arg a h index ≫= InstRecursive = Ok c ↔
  ∃ i, a !! h = Some i ∧ args i !! index = Some (InstRef c).
Proof.
  split.
  - intros Hrun. apply bind_Ok in Hrun as (v & Hv%Arg_Ok & Hc).
    destruct v as [c'|]; [|discriminate]. injection Hc as <-. done.
  - intros Hv%Arg_Ok. by rewrite Hv.
Qed.

Lemma Arg_U32_Ok a h index z :
  Arg a h index ≫= U32 = Ok z ↔
  ∃ i ty raw, a !! h = Some i ∧ args i !! index = Some (Imm ty raw) ∧ wrap32 raw = z.
Proof.
  split.
  - intros Hrun. apply bind_Ok in Hrun as (v & Hv%Arg_Ok & Hz).
    destruct v as [|ty raw]; [discriminate|]. injection Hz as <-.
    destruct Hv as (i & Hi & Hv). eauto 10.
  - intros (i & ty & raw & Hi & Hv & <-).
    assert (Ha : Arg a h index = Ok (Imm ty raw)) by (apply Arg_Ok; eauto).
    by rewrite Ha.
Qed.

Lemma Arg_ScalarReg_Ok a h index z :
  Arg a h index ≫= ScalarReg = Ok z ↔
  ∃ i ty, a !! h = Some i ∧ args i !! index = Some (Imm ty z).
Proof.
  split.
  - intros Hrun. apply bind_Ok in Hrun as (v & Hv%Arg_Ok & Hz).
    destruct v as [|ty raw]; [discriminate|]. injection Hz as <-.
    destruct Hv as (i & Hi & Hv). eauto 10.
  - intros (i & ty & Hi & Hv).
    assert (Ha : Arg a h index = Ok (Imm ty z)) by (apply Arg_Ok; eauto).
    by rewrite Ha.
Qed.

(** *** Phi chains *)

Lemma phi_step_det a h h1 h2 : phi_step a h h1 → phi_step a h h2 → h1 = h2.
Proof. intros (i1 & Hi1 & _ & Ha1) (i2 & Hi2 & _ & Ha2). congruence. Qed.

Lemma skip_phi_chain fuel a h u :
  skip_phi fuel a h = Ok u → ∃ i, phi_chain a h u i.
Proof.
  revert h. induction fuel as [|fuel IH]; intros h; simpl; [discriminate|].
  intros Hrun. apply bind_Ok in Hrun as (op & (i & Hi & Hop)%GetOpcode_Ok & Hrun).
  case_bool_decide as Hphi.
  - apply bind_Ok in Hrun as (next & (i' & Hi' & Hnext)%Arg_InstRecursive_Ok & Hrun).
    destruct (IH _ Hrun) as (iu & Hchain & Hu & Hnphi).
    exists iu. split; [|done].
    eapply rtc_l; [|exact Hchain]. exists i. split; [done|]. split; congruence.
  - injection Hrun as <-. exists i. split; [apply rtc_refl|]. split; congruence.
Qed.

Lemma phi_chain_skip a h u i :
  phi_chain a h u i → ∃ fuel, skip_phi fuel a h = Ok u.
Proof.
  intros (Hchain & Hu & Hnphi).
  induction Hchain as [h|h h' u (ih & Hih & Hop & Hnext) _ IH].
  - exists 1%nat. simpl.
    assert (Hg : GetOpcode a h = Ok (opcode i)) by (apply GetOpcode_Ok; eauto).
    rewrite Hg. simpl. by rewrite bool_decide_eq_false_2.
  - destruct (IH Hu) as [fuel Hfuel]. exists (S fuel). simpl.
    assert (Hg : GetOpcode a h = Ok Phi) by (apply GetOpcode_Ok; eauto).
    rewrite Hg. simpl.
    assert (Ha : Arg a h 0 ≫= InstRecursive = Ok h') by (apply Arg_InstRecursive_Ok; eauto).
    by rewrite Ha.
Qed.

Lemma skip_phi_more fuel fuel' a h u :
  skip_phi fuel a h = Ok u → (fuel ≤ fuel')%nat → skip_phi fuel' a h = Ok u.
Proof.
  intros Hrun Hle. rewrite (skip_phi_fuel fuel fuel') by (done || by rewrite Hrun). done.
Qed.

Lemma skip_phi_not_Phi fuel a h u i :
  skip_phi fuel a h = Ok u → a !! u = Some i → opcode i ≠ Phi.
Proof.
  intros Hrun Hu. destruct (skip_phi_chain _ _ _ _ Hrun) as (i' & _ & Hu' & Hn). congruence.
Qed.

(** *** The producer search *)

Lemma search_cost_pos a depth h : (1 ≤ search_cost a depth h)%nat.
Proof.
  destruct depth; simpl; [lia|].
  destruct (a !! h) as [i|]; [|lia]. destruct (producer_pred (opcode i)); lia.
Qed.

Lemma search_cost_node a depth h i :
  a !! h = Some i → producer_pred (opcode i) = false →
  search_cost a (S depth) h = S (sum_list_with (search_cost a depth) (inst_operands i)).
Proof. intros Hi Hp. simpl. by rewrite Hi, Hp. Qed.

Lemma sum_list_with_ext_in {A : Type} (f g : A → nat) (l : list A) :
  (∀ x, x ∈ l → f x = g x) → sum_list_with f l = sum_list_with g l.
Proof.
  induction l as [|x l IH]; simpl; intros Heq; [done|].
  rewrite (Heq x) by left. rewrite IH; [done|]. intros y Hy. apply Heq. by right.
Qed.

Lemma search_ends_within_mono a depth depth' h :
  search_ends_within a depth h → (depth ≤ depth')%nat → search_ends_within a depth' h.
Proof.
  revert depth' h. induction depth as [|depth IH]; intros depth' h Hw Hle.
  - destruct depth'; simpl in *; destruct (a !! h); try done.
    destruct Hw as [Hw|[]]. by left.
  - destruct depth' as [|depth']; [lia|]. simpl in *.
    destruct (a !! h) as [i|]; [|done].
    destruct Hw as [Hw|Hw]; [by left|right].
    eapply Forall_impl; [exact Hw|]. intros c Hc. apply IH; [done|lia].
Qed.

(** With enough depth the cost no longer grows. *)
Lemma search_cost_stable a depth depth' h :
  search_ends_within a depth h → (depth ≤ depth')%nat →
  search_cost a depth' h = search_cost a depth h.
Proof.
  revert depth' h. induction depth as [|depth IH]; intros depth' h Hw Hle.
  - simpl in *. destruct depth'; simpl; [done|].
    destruct (a !! h) as [i|]; [|done]. destruct Hw as [->|[]]. done.
  - destruct depth' as [|depth']; [lia|]. simpl in *.
    destruct (a !! h) as [i|]; [|done].
    destruct (producer_pred (opcode i)) eqn:Hp; [done|].
    destruct Hw as [Hw|Hw]; [done|]. f_equal.
    apply sum_list_with_ext_in. intros c Hc. apply IH; [|lia].
    rewrite Forall_forall in Hw. by apply Hw.
Qed.

Lemma bound_all {A : Type} (P : nat → A → Prop) (l : list A) :
  (∀ d d' x, P d x → (d ≤ d')%nat → P d' x) →
  (∀ x, x ∈ l → ∃ d, P d x) → ∃ d, Forall (P d) l.
Proof.
  intros Hmono. induction l as [|x l IH]; intros Hall; [by exists 0%nat|].
  destruct (Hall x) as [dx Hx]; [left|].
  destruct IH as [dl Hl]; [intros y Hy; apply Hall; by right|].
  exists (dx `max` dl)%nat. constructor.
  - eapply Hmono; [exact Hx|lia].
  - eapply Forall_impl; [exact Hl|]. intros y Hy. eapply Hmono; [exact Hy|lia].
Qed.

Lemma search_ends_depth a h : search_ends a h → ∃ depth, search_ends_within a depth h.
Proof.
  induction 1 as [h _ IH].
  destruct (a !! h) as [i|] eqn:Hi; [|exists 0%nat; simpl; by rewrite Hi].
  destruct (producer_pred (opcode i)) eqn:Hp; [exists 0%nat; simpl; rewrite Hi; by left|].
  destruct (bound_all (search_ends_within a) (inst_operands i)) as [d Hd].
  - intros d1 d2 c Hc Hle. by eapply search_ends_within_mono.
  - intros c Hc. by eapply IH.
  - exists (S d). simpl. rewrite Hi. by right.
Qed.

(** Expanding an instruction replaces its cost in the queue by the smaller
    total cost of its operands. *)
Lemma FindProducer_cost a depth fuel queue :
  Forall (search_ends_within a depth) queue →
  (sum_list_with (search_cost a depth) queue ≤ fuel)%nat →
  finishes (FindProducer fuel a queue).
Proof.
  revert queue. induction fuel as [|fuel IH]; intros [|h rest] Hall Hcost; try done.
  - simpl in Hcost. pose proof (search_cost_pos a depth h). lia.
  - simpl. unfold GetInst. destruct (a !! h) as [i|] eqn:Hi; [|done]. simpl.
    destruct (producer_pred (opcode i)) eqn:Hp; [done|].
    apply Forall_cons in Hall as [Hh Hrest].
    destruct depth as [|depth]; simpl in Hh; rewrite Hi in Hh;
      (destruct Hh as [Hh|Hh]; [congruence|]); [done|].
    apply IH.
    + apply Forall_app. split; [done|].
      eapply Forall_impl; [exact Hh|]. intros c Hc.
      eapply search_ends_within_mono; [exact Hc|lia].
    + rewrite sum_list_with_app. cbn [sum_list_with] in Hcost.
      rewrite (search_cost_node _ _ _ _ Hi Hp) in Hcost.
      rewrite (sum_list_with_ext_in (search_cost a (S depth)) (search_cost a depth)
                 (inst_operands i)); [lia|].
      intros c Hc. apply search_cost_stable; [|lia].
      rewrite Forall_forall in Hh. by apply Hh.
Qed.

Lemma search_ends_finishes a queue :
  Forall (search_ends a) queue → ∃ fuel, finishes (FindProducer fuel a queue).
Proof.
  intros Hall.
  destruct (bound_all (search_ends_within a) queue) as [d Hd].
  - intros d1 d2 c Hc Hle. by eapply search_ends_within_mono.
  - intros c Hc. apply search_ends_depth. rewrite Forall_forall in Hall. by apply Hall.
  - eexists. eapply FindProducer_cost; [exact Hd|reflexivity].
Qed.

Lemma FindProducer_stops a h rest :
  search_stops a h → finishes (FindProducer 1 a (h :: rest)).
Proof.
  intros Hstop. simpl. unfold GetInst.
  destruct (a !! h) as [i|] eqn:Hi; [|done]. simpl. by rewrite (Hstop i Hi).
Qed.

(** The queue is served in order: what finishes at the front of a queue
    finishes behind any other entries. *)
Lemma FindProducer_behind a h :
  (∀ rest, ∃ fuel, finishes (FindProducer fuel a (h :: rest))) →
  ∀ front rest, ∃ fuel, finishes (FindProducer fuel a (front ++ h :: rest)).
Proof.
  intros Hh front. induction front as [|x front IH]; intros rest; [apply Hh|].
  destruct (a !! x) as [i|] eqn:Hx;
    [|exists 1%nat; simpl; unfold GetInst; by rewrite Hx].
  destruct (producer_pred (opcode i)) eqn:Hp;
    [exists 1%nat; simpl; unfold GetInst; rewrite Hx; simpl; by rewrite Hp|].
  destruct (IH (rest ++ inst_operands i)) as [fuel Hfuel].
  exists (S fuel). simpl. unfold GetInst. rewrite Hx. simpl. rewrite Hp.
  by rewrite <- app_assoc.
Qed.

Lemma reach_finishes a start p :
  rtc (operand_edge a) start p → search_stops a p →
  ∀ front rest, ∃ fuel, finishes (FindProducer fuel a (front ++ start :: rest)).
Proof.
  intros Hpath Hstop.
  induction Hpath as [p|h c p (i & Hi & Hc) _ IH]; apply FindProducer_behind; intros rest.
  - exists 1%nat. by apply FindProducer_stops.
  - destruct (producer_pred (opcode i)) eqn:Hp;
      [exists 1%nat; simpl; unfold GetInst; rewrite Hi; simpl; by rewrite Hp|].
    apply list_elem_of_split in Hc as (l1 & l2 & Hops).
    destruct (IH Hstop (rest ++ l1) l2) as [fuel Hfuel].
    exists (S fuel). simpl. unfold GetInst. rewrite Hi. simpl. rewrite Hp, Hops.
    by rewrite app_assoc.
Qed.

Lemma finishes_reach a fuel queue :
  finishes (FindProducer fuel a queue) →
  (∃ start p, start ∈ queue ∧ rtc (operand_edge a) start p ∧ search_stops a p) ∨
  Forall (search_ends a) queue.
Proof.
  revert queue. induction fuel as [|fuel IH]; intros [|h rest] Hfin;
    try (by right); try (by destruct Hfin).
  simpl in Hfin. unfold GetInst in Hfin.
  destruct (a !! h) as [i|] eqn:Hi.
  2: { left. exists h, h. split; [left|]. split; [done|]. intros i Hi'. congruence. }
  simpl in Hfin. destruct (producer_pred (opcode i)) eqn:Hp.
  { left. exists h, h. split; [left|]. split; [done|]. intros i' Hi'. congruence. }
  destruct (IH _ Hfin) as [(start & p & Hstart & Hpath & Hstop)|Hall].
  - left. apply elem_of_app in Hstart as [Hstart|Hstart].
    + exists start, p. split; [by right|done].
    + exists h, p. split; [left|]. split; [|done].
      eapply rtc_l; [|exact Hpath]. exists i. done.
  - right. apply Forall_app in Hall as [Hrest Hops]. constructor; [|done].
    constructor. intros i' c Hi' _ Hc. assert (i' = i) as -> by congruence.
    rewrite Forall_forall in Hops. by apply Hops.
Qed.

(** *** Phi unwrapping *)

Lemma skip_phi_ends a fuel h : finishes (skip_phi fuel a h) → phi_ends a h.
Proof.
  revert h. induction fuel as [|fuel IH]; intros h Hfin; [by destruct Hfin|].
  simpl in Hfin.
  destruct (a !! h) as [i|] eqn:Hi.
  2: { exists h. split; [done|]. intros u' (i' & Hi' & _). congruence. }
  destruct (decide (opcode i = Phi)) as [Hphi|Hphi].
  2: { exists h. split; [done|]. intros u' (i' & Hi' & Hop & _). congruence. }
  destruct (args i !! 0%nat) as [[next|ty raw]|] eqn:Harg.
  - assert (Hg : GetOpcode a h = Ok Phi) by (apply GetOpcode_Ok; eauto).
    assert (Ha : Arg a h 0 ≫= InstRecursive = Ok next)
      by (apply Arg_InstRecursive_Ok; eauto).
    rewrite Hg in Hfin. simpl in Hfin. rewrite Ha in Hfin. simpl in Hfin.
    destruct (IH _ Hfin) as (u & Hpath & Hend).
    exists u. split; [|done]. eapply rtc_l; [|exact Hpath]. exists i. done.
  - exists h. split; [done|]. intros u' (i' & Hi' & _ & Ha). congruence.
  - exists h. split; [done|]. intros u' (i' & Hi' & _ & Ha). congruence.
Qed.

Lemma phi_ends_finishes a h : phi_ends a h → ∃ fuel, finishes (skip_phi fuel a h).
Proof.
  intros (u & Hpath & Hend).
  induction Hpath as [u|h h' u (i & Hi & Hop & Harg) _ IH].
  - exists 1%nat. simpl.
    apply finishes_bind; [apply finishes_GetOpcode|]. intros op Hop.
    case_bool_decide as Hphi; [|done]. subst op.
    apply finishes_bind;
      [apply finishes_bind; [apply finishes_Arg|intros; apply finishes_InstRecursive]|].
    intros next Hnext. exfalso.
    apply Arg_InstRecursive_Ok in Hnext as (i & Hi & Ha).
    apply GetOpcode_Ok in Hop as (i' & Hi' & Hop).
    apply (Hend next). exists i. split; [done|]. split; congruence.
  - destruct (IH Hend) as [fuel Hfuel]. exists (S fuel). simpl.
    assert (Hg : GetOpcode a h = Ok Phi) by (apply GetOpcode_Ok; eauto).
    assert (Ha : Arg a h 0 ≫= InstRecursive = Ok h')
      by (apply Arg_InstRecursive_Ok; eauto).
    rewrite Hg. simpl. by rewrite Ha.
Qed.

(** A run that has finished and a run that has given a result agree. *)
Lemma skip_phi_agree fuel fuel' a h u :
  finishes (skip_phi fuel a h) → skip_phi fuel' a h = Ok u → skip_phi fuel a h = Ok u.
Proof.
  intros Hfin Hrun.
  rewrite <- (skip_phi_fuel fuel (fuel `max` fuel')) by (lia || done).
  rewrite (skip_phi_fuel fuel' (fuel `max` fuel')) by (lia || by rewrite Hrun). done.
Qed.

(** *** The sharp resolver *)

Lemma phi_chain_det a h u u' i i' :
  phi_chain a h u i → phi_chain a h u' i' → u = u' ∧ i = i'.
Proof.
  intros Hc Hc'.
  destruct (phi_chain_skip _ _ _ _ Hc) as [f Hf].
  destruct (phi_chain_skip _ _ _ _ Hc') as [f' Hf'].
  assert (Hfin : finishes (skip_phi f a h)) by (by rewrite Hf).
  rewrite (skip_phi_agree _ _ _ _ _ Hfin Hf') in Hf. injection Hf as ->.
  destruct Hc as (_ & Hu & _), Hc' as (_ & Hu' & _). split; congruence.
Qed.

(** [TrackSharp] once its first loop has led to a [ReadConst] with an
    immediate offset and a pointer operand with two instructions as
    operands: the two loops over these and the straight-line rest. *)
Lemma TrackSharp_read_const fuel a h u i ty dword_offset spgpr_base ib sbase0 sbase1 :
  skip_phi fuel a h = Ok u →
  a !! u = Some i →
  opcode i = ReadConst →
  args i !! 1%nat = Some (Imm ty dword_offset) →
  args i !! 0%nat = Some (InstRef spgpr_base) →
  a !! spgpr_base = Some ib →
  args ib !! 0%nat = Some (InstRef sbase0) →
  args ib !! 1%nat = Some (InstRef sbase1) →
  TrackSharp fuel a h =
    (sbase0 ← skip_phi fuel a sbase0;
     sbase1 ← skip_phi fuel a sbase1;
     op0 ← GetOpcode a sbase0;
     op1 ← GetOpcode a sbase1;
     _ ← ASSERT (bool_decide (op0 = GetUserData) && bool_decide (op1 = GetUserData));
     base ← Arg a sbase0 0 ≫= ScalarReg;
     Ok (mkSharpLocation (wrap32 base) (wrap32 dword_offset))).
Proof.
  intros Hu Hi Hop Hoff Hsp Hib Hb0 Hb1. unfold TrackSharp. rewrite Hu. simpl.
  assert (Hg : GetOpcode a u = Ok ReadConst) by (apply GetOpcode_Ok; eauto).
  assert (H1 : Arg a u 1 ≫= U32 = Ok (wrap32 dword_offset))
    by (apply Arg_U32_Ok; eauto 10).
  assert (H0 : Arg a u 0 ≫= InstRecursive = Ok spgpr_base)
    by (apply Arg_InstRecursive_Ok; eauto).
  assert (Hs0 : Arg a spgpr_base 0 ≫= InstRecursive = Ok sbase0)
    by (apply Arg_InstRecursive_Ok; eauto).
  assert (Hs1 : Arg a spgpr_base 1 ≫= InstRecursive = Ok sbase1)
    by (apply Arg_InstRecursive_Ok; eauto).
  rewrite Hg. simpl. rewrite H1. simpl. rewrite H0. simpl.
  rewrite Hs0. simpl. by rewrite Hs1.
Qed.

Lemma finishes_bind_l {A B : Type} (m : Res A) (k : A → Res B) :
  finishes (m ≫= k) → finishes m.
Proof. intros Hfin Hm. rewrite Hm in Hfin. by apply Hfin. Qed.

Lemma TrackSharp_unwraps fuel a h b :
  finishes (TrackSharp fuel a h) → unwraps a h b → finishes (skip_phi fuel a b).
Proof.
  intros Hfin Hb.
  assert (Hh : finishes (skip_phi fuel a h)) by (by eapply finishes_bind_l).
  destruct Hb as [|u i ty off sp ib b0 b1 Hchain Hop Hoff Hsp Hib Hb0 Hb1
                  |u i ty off sp ib b0 b1 u0 i0 Hchain Hop Hoff Hsp Hib Hb0 Hb1 Hchain0];
    [done| |].
  - destruct (phi_chain_skip _ _ _ _ Hchain) as [f Hf].
    pose proof (skip_phi_agree _ _ _ _ _ Hh Hf) as Hu.
    destruct Hchain as (_ & Hi & _).
    rewrite (TrackSharp_read_const _ _ _ _ _ _ _ _ _ _ _ Hu Hi Hop Hoff Hsp Hib Hb0 Hb1)
      in Hfin.
    by eapply finishes_bind_l.
  - destruct (phi_chain_skip _ _ _ _ Hchain) as [f Hf].
    pose proof (skip_phi_agree _ _ _ _ _ Hh Hf) as Hu.
    destruct Hchain as (_ & Hi & _).
    rewrite (TrackSharp_read_const _ _ _ _ _ _ _ _ _ _ _ Hu Hi Hop Hoff Hsp Hib Hb0 Hb1)
      in Hfin.
    pose proof (finishes_bind_l _ _ Hfin) as H0.
    destruct (phi_chain_skip _ _ _ _ Hchain0) as [f0 Hf0].
    rewrite (skip_phi_agree _ _ _ _ _ H0 Hf0) in Hfin. simpl in Hfin.
    by eapply finishes_bind_l.
Qed.

(** The loops are all that can keep [TrackSharp] from finishing. *)
Lemma TrackSharp_finishes_at fuel a h :
  (∀ b, unwraps a h b → finishes (skip_phi fuel a b)) → finishes (TrackSharp fuel a h).
Proof.
  intros Hloops. unfold TrackSharp.
  apply finishes_bind; [apply Hloops; constructor|]. intros u Hu.
  destruct (skip_phi_chain _ _ _ _ Hu) as (i & Hchain).
  apply finishes_bind; [apply finishes_GetOpcode|].
  intros op (i' & Hi' & <-)%GetOpcode_Ok.
  assert (i' = i) as -> by (destruct Hchain as (_ & ? & _); congruence).
  case_bool_decide as Hud; [fin_auto|].
  apply finishes_bind; [apply finishes_ASSERT|].
  intros [] Hrc%ASSERT_Ok%bool_decide_eq_true.
  apply finishes_bind; [fin_auto|].
  intros off (i1 & ty & raw & Hi1 & Hoff & <-)%Arg_U32_Ok.
  apply finishes_bind; [fin_auto|]. intros sp (i2 & Hi2 & Hsp)%Arg_InstRecursive_Ok.
  apply finishes_bind; [fin_auto|]. intros b0 (ib & Hib & Hb0)%Arg_InstRecursive_Ok.
  apply finishes_bind; [fin_auto|]. intros b1 (ib' & Hib' & Hb1)%Arg_InstRecursive_Ok.
  assert (i1 = i) as -> by congruence. assert (i2 = i) as -> by congruence.
  assert (ib' = ib) as -> by congruence.
  apply finishes_bind;
    [apply Hloops; by eapply (unwraps_sbase0 a h u i ty raw sp ib b0 b1)|].
  intros u0 Hu0. destruct (skip_phi_chain _ _ _ _ Hu0) as (i0 & Hchain0).
  apply finishes_bind;
    [apply Hloops; by eapply (unwraps_sbase1 a h u i ty raw sp ib b0 b1 u0 i0)|].
  intros u1 _. fin_auto.
Qed.

Lemma finishes_more_skip_phi fuel fuel' a h :
  finishes (skip_phi fuel a h) → (fuel ≤ fuel')%nat → finishes (skip_phi fuel' a h).
Proof. intros Hfin Hle. by rewrite (skip_phi_fuel fuel fuel'). Qed.

Lemma unwraps_TrackSharp a h :
  (∀ b, unwraps a h b → phi_ends a b) → ∃ fuel, finishes (TrackSharp fuel a h).
Proof.
  intros Hends.
  destruct (phi_ends_finishes a h (Hends h (unwraps_handle a h))) as [f Hf].
  destruct (skip_phi f a h) as [u| |] eqn:Hu;
    [|exists f; unfold TrackSharp; by rewrite Hu|done].
  destruct (skip_phi_chain _ _ _ _ Hu) as (i & Hchain).
  (* without the two base handles, the first loop is the only one *)
  assert (Hnone :
    (∀ ty off sp ib b0 b1,
       opcode i = ReadConst → args i !! 1%nat = Some (Imm ty off) →
       args i !! 0%nat = Some (InstRef sp) → a !! sp = Some ib →
       args ib !! 0%nat = Some (InstRef b0) → args ib !! 1%nat = Some (InstRef b1) →
       False) →
    ∃ fuel, finishes (TrackSharp fuel a h)).
  { intros Hno. exists f. apply TrackSharp_finishes_at. intros b Hb.
    destruct Hb as [|u' i' ty off sp ib b0 b1 Hchain' Hop Hoff Hsp Hib Hb0 Hb1
                    |u' i' ty off sp ib b0 b1 u0 i0 Hchain' Hop Hoff Hsp Hib Hb0 Hb1 _];
      [by rewrite Hu| |];
      destruct (phi_chain_det _ _ _ _ _ _ Hchain Hchain') as [<- <-];
      exfalso; eauto. }
  destruct (decide (opcode i = ReadConst)) as [Hop|Hop];
    [|apply Hnone; intros; done].
  destruct (args i !! 1%nat) as [[|ty off]|] eqn:Hoff;
    [apply Hnone; intros; congruence| |apply Hnone; intros; congruence].
  destruct (args i !! 0%nat) as [[sp|]|] eqn:Hsp;
    [|apply Hnone; intros; congruence|apply Hnone; intros; congruence].
  destruct (a !! sp) as [ib|] eqn:Hib;
    [|apply Hnone; intros ?????? _ _ [= <-]; congruence].
  destruct (args ib !! 0%nat) as [[b0|]|] eqn:Hb0;
    [|apply Hnone; intros ?????? _ _ [= <-]; congruence
     |apply Hnone; intros ?????? _ _ [= <-]; congruence].
  destruct (args ib !! 1%nat) as [[b1|]|] eqn:Hb1;
    [|apply Hnone; intros ?????? _ _ [= <-]; congruence
     |apply Hnone; intros ?????? _ _ [= <-]; congruence].
  clear Hnone.
  assert (Hsame : ∀ b,
    unwraps a h b → b = h ∨ b = b0 ∨ (b = b1 ∧ ∃ u0 i0, phi_chain a b0 u0 i0)).
  { intros b Hb.
    destruct Hb as [|u' i' ty' off' sp' ib' b0' b1' Hchain' Hop' Hoff' Hsp' Hib' Hb0' Hb1'
                    |u' i' ty' off' sp' ib' b0' b1' u0 i0 Hchain' Hop' Hoff' Hsp' Hib' Hb0'
                       Hb1' Hchain0];
      [by left| |];
      destruct (phi_chain_det _ _ _ _ _ _ Hchain Hchain') as [<- <-];
      assert (sp' = sp) as -> by congruence; assert (ib' = ib) as -> by congruence.
    - right. left. congruence.
    - right. right. assert (b0' = b0) as -> by congruence. split; [congruence|eauto]. }
  destruct (phi_ends_finishes a b0) as [f0 Hf0].
  { apply Hends. by eapply (unwraps_sbase0 a h u i ty off sp ib b0 b1). }
  destruct (skip_phi f0 a b0) as [u0| |] eqn:Hu0; [| |done].
  - destruct (skip_phi_chain _ _ _ _ Hu0) as (i0 & Hchain0).
    destruct (phi_ends_finishes a b1) as [f1 Hf1].
    { apply Hends. by eapply (unwraps_sbase1 a h u i ty off sp ib b0 b1 u0 i0). }
    exists (f + f0 + f1)%nat. apply TrackSharp_finishes_at. intros b Hb.
    destruct (Hsame b Hb) as [->|[->|[-> _]]].
    + eapply finishes_more_skip_phi; [by rewrite Hu|lia].
    + eapply finishes_more_skip_phi; [by rewrite Hu0|lia].
    + eapply finishes_more_skip_phi; [exact Hf1|lia].
  - exists (f + f0)%nat. apply TrackSharp_finishes_at. intros b Hb.
    destruct (Hsame b Hb) as [->|[->|[-> (u0 & i0 & Hchain0)]]].
    + eapply finishes_more_skip_phi; [by rewrite Hu|lia].
    + eapply finishes_more_skip_phi; [by rewrite Hu0|lia].
    + exfalso. destruct (phi_chain_skip _ _ _ _ Hchain0) as [f0' Hf0'].
      assert (Hfin : finishes (skip_phi f0 a b0)) by (by rewrite Hu0).
      rewrite (skip_phi_agree _ _ _ _ _ Hfin Hf0') in Hu0. discriminate.
Qed.

Lemma TrackSharp_fuel fuel fuel' a h :
  (fuel ≤ fuel')%nat → finishes (TrackSharp fuel a h) →
  finishes (TrackSharp fuel' a h).
Proof.
  intros Hle Hfin. apply TrackSharp_finishes_at. intros b Hb.
  eapply finishes_more_skip_phi; [|exact Hle]. by eapply TrackSharp_unwraps.
Qed.

(** *** The image patcher *)

Section ImageTermination.
Context `{External}.

Lemma finishes_Value_Type a v : finishes (Value_Type a v).
Proof. destruct v; simpl; fin_auto. Qed.

Lemma finishes_ir_CompositeConstruct block inst operands s :
  finishes (ir_CompositeConstruct block inst operands s).
Proof.
  unfold ir_CompositeConstruct.
  apply finishes_bind; [apply finishes_of_option|]. intros e1 _.
  apply finishes_bind; [apply finishes_Value_Type|]. intros ty _. done.
Qed.

(** The search and the loops of [TrackSharp] are all that can keep the
    image patcher from finishing. *)
Lemma PatchImageInstruction_finishes_at fuel block inst info s :
  finishes (FindProducer fuel (insts s) [inst]) →
  (∀ producer h,
     FindProducer fuel (insts s) [inst] = Ok producer →
     sharp_handle (insts s) producer h →
     finishes (TrackSharp fuel (insts s) h)) →
  finishes (PatchImageInstruction fuel block inst info s).
Proof.
  intros Hfind Htrack. unfold PatchImageInstruction.
  apply finishes_bind; [done|]. intros producer Hp.
  apply finishes_bind; [fin_auto|]. intros op (ip & Hip & <-)%GetOpcode_Ok.
  apply finishes_bind; [fin_auto|]. intros [t ss] Hh.
  assert (Hhandles :
    sharp_handle (insts s) producer t ∧
    ∀ ssharp_handle, ss = Some ssharp_handle →
      opcode ip = CompositeConstructU32x2 ∧
      args ip !! 1%nat = Some (InstRef ssharp_handle)).
  { destruct (decide (opcode ip = CompositeConstructU32x2)) as [Hcc|Hcc];
      [rewrite bool_decide_eq_true_2 in Hh by done
      |rewrite bool_decide_eq_false_2 in Hh by done].
    - apply bind_Ok in Hh as (t' & (i0 & Hi0 & Ht)%Arg_InstRecursive_Ok & Hh).
      apply bind_Ok in Hh as (ss' & (i1 & Hi1 & Hss)%Arg_InstRecursive_Ok & Hh).
      injection Hh as <- <-.
      assert (i0 = ip) as -> by congruence. assert (i1 = ip) as -> by congruence.
      split; [by eapply sharp_handle_image|]. intros ? [= <-]. done.
    - injection Hh as <- <-. split; [by eapply sharp_handle_producer|]. done. }
  destruct Hhandles as [Ht Hss].
  apply finishes_bind; [by apply (Htrack producer)|]. intros tsharp _.
  apply finishes_bind; [fin_auto|]. intros image _.
  apply finishes_bind; [fin_auto|]. intros i _.
  apply finishes_bind; [fin_auto|]. intros [image_index d] _.
  apply finishes_bind.
  { destruct ss as [ssharp_handle|]; [|done].
    destruct (Hss _ eq_refl) as [Hcc Harg].
    apply finishes_bind; [fin_auto|]. intros [ssharp_ud disable_aniso] Hud.
    apply finishes_bind;
      [apply (Htrack producer); [done|by eapply sharp_handle_sampler]|].
    intros ssharp _. fin_auto. }
  intros [image_binding d'] _. unfold PatchCubeCoord.
  repeat first [apply finishes_ir_CompositeConstruct | fin_auto].
Qed.

Lemma PatchImageInstruction_finishes block inst info s :
  (∃ fuel, finishes (FindProducer fuel (insts s) [inst])) →
  (∀ producer h,
     (∃ fuel, FindProducer fuel (insts s) [inst] = Ok producer) →
     sharp_handle (insts s) producer h →
     ∃ fuel, finishes (TrackSharp fuel (insts s) h)) →
  ∃ fuel, finishes (PatchImageInstruction fuel block inst info s).
Proof.
  intros [f1 Hf1] Htrack.
  destruct (FindProducer f1 (insts s) [inst]) as [producer| |] eqn:Hp; [| |done].
  2: { exists f1. apply PatchImageInstruction_finishes_at; [by rewrite Hp|].
       intros ? ? Heq. congruence. }
  assert (Hall : ∃ f2, ∀ h, sharp_handle (insts s) producer h →
                        finishes (TrackSharp f2 (insts s) h)).
  { destruct (insts s !! producer) as [ip|] eqn:Hip.
    2: { exists 0%nat. intros h Hh. destruct Hh; congruence. }
    destruct (decide (opcode ip = CompositeConstructU32x2)) as [Hcc|Hcc].
    2: { destruct (Htrack producer producer) as [f2 Hf2];
           [eauto|by eapply sharp_handle_producer|].
         exists f2. intros h Hh. destruct Hh; [done|congruence|congruence]. }
    assert (Himage : ∃ ft, ∀ t, args ip !! 0%nat = Some (InstRef t) →
                           finishes (TrackSharp ft (insts s) t)).
    { destruct (args ip !! 0%nat) as [[t|]|] eqn:Ht;
        [|by exists 0%nat|by exists 0%nat].
      destruct (Htrack producer t) as [ft Hft]; [eauto|by eapply sharp_handle_image|].
      exists ft. by intros ? [= <-]. }
    assert (Hsampler : ∃ fu, ∀ ss ud aniso,
              args ip !! 1%nat = Some (InstRef ss) →
              TryDisableAnisoLod0 (insts s) ss = Ok (ud, aniso) →
              finishes (TrackSharp fu (insts s) ud)).
    { destruct (args ip !! 1%nat) as [[ss|]|] eqn:Hss;
        [|by exists 0%nat|by exists 0%nat].
      destruct (TryDisableAnisoLod0 (insts s) ss) as [[ud aniso]| |] eqn:Hud;
        [|exists 0%nat; intros ? ? ? [= <-]; congruence
         |exists 0%nat; intros ? ? ? [= <-]; congruence].
      destruct (Htrack producer ud) as [fu Hfu]; [eauto|by eapply sharp_handle_sampler|].
      exists fu. intros ? ? ? [= <-] Hud'. rewrite Hud in Hud'. by injection Hud' as <- _. }
    destruct Himage as [ft Hft], Hsampler as [fu Hfu].
    exists (ft + fu)%nat. intros h Hh.
    destruct Hh as [i Hi Hop|i t Hi Hop Ht|i ss ud aniso Hi Hop Hss Hud];
      assert (i = ip) as -> by congruence; [done| |].
    - eapply TrackSharp_fuel; [|by apply Hft]. lia.
    - eapply TrackSharp_fuel; [|by eapply Hfu]. lia. }
  destruct Hall as [f2 Hf2].
  assert (Hp' : FindProducer (f1 + f2) (insts s) [inst] = Ok producer).
  { rewrite (FindProducer_fuel f1 (f1 + f2)) by (lia || by rewrite Hp). done. }
  exists (f1 + f2)%nat. apply PatchImageInstruction_finishes_at; [by rewrite Hp'|].
  intros producer' h Heq Hh. rewrite Hp' in Heq. injection Heq as <-.
  eapply TrackSharp_fuel; [|by apply Hf2]. lia.
Qed.


End ImageTermination.



(** ** Determinism on structurally identical copies *)

Lemma InstRecursive_rename pi v :
  InstRecursive (rename_value pi v) = pi <$> InstRecursive v.
Proof. by destruct v. Qed.

Lemma TryInstRecursive_rename pi v :
  TryInstRecursive (rename_value pi v) = pi <$> TryInstRecursive v.
Proof. by destruct v. Qed.

Lemma U32_rename pi v : U32 (rename_value pi v) = U32 v.
Proof. by destruct v. Qed.

Lemma U64_rename pi v : U64 (rename_value pi v) = U64 v.
Proof. by destruct v. Qed.

Lemma ScalarReg_rename pi v : ScalarReg (rename_value pi v) = ScalarReg v.
Proof. by destruct v. Qed.

Lemma IsImmediate_rename pi v : IsImmediate (rename_value pi v) = IsImmediate v.
Proof. by destruct v. Qed.

Lemma imm_type_rename pi v : imm_type (rename_value pi v) = imm_type v.
Proof. by destruct v. Qed.

Lemma inst_operands_rename pi i :
  inst_operands (rename_inst pi i) = pi <$> inst_operands i.
Proof.
  unfold inst_operands, rename_inst. simpl.
  induction (args i) as [|v l IH]; [done|].
  destruct v as [h|ty raw]; simpl; [f_equal|]; exact IH.
Qed.

Section CopyReaders.
Variables (pi : Handle → Handle) (a a' : list Inst).
Hypothesis Hcopy : copy_of pi a a'.

Lemma copy_lookup_None h : a !! h = None → a' !! pi h = None.
Proof.
  intros Hn. apply lookup_ge_None in Hn. apply lookup_ge_None.
  rewrite (copy_fresh _ _ _ Hcopy h Hn), (copy_length _ _ _ Hcopy). done.
Qed.

Lemma copy_lookup_eq h : a' !! pi h = rename_inst pi <$> a !! h.
Proof.
  destruct (a !! h) as [i|] eqn:Hi; simpl.
  - by apply (copy_lookup _ _ _ Hcopy).
  - by apply copy_lookup_None.
Qed.

Lemma GetInst_copy h : GetInst a' (pi h) = rename_inst pi <$> GetInst a h.
Proof. unfold GetInst. rewrite copy_lookup_eq. by destruct (a !! h). Qed.

Lemma GetOpcode_copy h : GetOpcode a' (pi h) = GetOpcode a h.
Proof. unfold GetOpcode. rewrite copy_lookup_eq. by destruct (a !! h). Qed.

Lemma Arg_copy h index : Arg a' (pi h) index = rename_value pi <$> Arg a h index.
Proof.
  unfold Arg. rewrite GetInst_copy. destruct (GetInst a h) as [i| |]; simpl; try done.
  rewrite list_lookup_fmap. by destruct (args i !! index).
Qed.

(** The operand of an instruction, followed to its producer. *)
Lemma Arg_inst_copy h index :
  Arg a' (pi h) index ≫= InstRecursive = pi <$> (Arg a h index ≫= InstRecursive).
Proof.
  rewrite Arg_copy. destruct (Arg a h index) as [v| |]; simpl; try done.
  apply InstRecursive_rename.
Qed.

Lemma Arg_U32_copy h index : Arg a' (pi h) index ≫= U32 = Arg a h index ≫= U32.
Proof.
  rewrite Arg_copy. destruct (Arg a h index) as [v| |]; simpl; try done.
  apply U32_rename.
Qed.

Lemma Arg_ScalarReg_copy h index :
  Arg a' (pi h) index ≫= ScalarReg = Arg a h index ≫= ScalarReg.
Proof.
  rewrite Arg_copy. destruct (Arg a h index) as [v| |]; simpl; try done.
  apply ScalarReg_rename.
Qed.

Lemma skip_phi_copy fuel h : skip_phi fuel a' (pi h) = pi <$> skip_phi fuel a h.
Proof.
  revert h. induction fuel as [|fuel IH]; intros h; simpl; [done|].
  rewrite GetOpcode_copy. destruct (GetOpcode a h) as [op| |]; simpl; try done.
  destruct (bool_decide (op = Phi)); [|done].
  rewrite Arg_inst_copy.
  destruct (Arg a h 0 ≫= InstRecursive) as [next| |]; simpl; try done.
Qed.

Lemma TrackSharp_copy fuel h : TrackSharp fuel a' (pi h) = TrackSharp fuel a h.
Proof.
  unfold TrackSharp.
  rewrite skip_phi_copy. destruct (skip_phi fuel a h) as [inst| |]; simpl; try done.
  rewrite GetOpcode_copy. destruct (GetOpcode a inst) as [op| |]; simpl; try done.
  destruct (bool_decide (op = GetUserData)).
  { by rewrite Arg_ScalarReg_copy. }
  destruct (ASSERT _) as [[]| |]; simpl; try done.
  rewrite Arg_U32_copy. destruct (Arg a inst 1 ≫= U32) as [dword_offset| |]; simpl; try done.
  rewrite (Arg_inst_copy inst 0).
  destruct (Arg a inst 0 ≫= InstRecursive) as [spgpr_base| |]; simpl; try done.
  rewrite (Arg_inst_copy spgpr_base 0).
  destruct (Arg a spgpr_base 0 ≫= InstRecursive) as [sbase0| |]; simpl; try done.
  rewrite (Arg_inst_copy spgpr_base 1).
  destruct (Arg a spgpr_base 1 ≫= InstRecursive) as [sbase1| |]; simpl; try done.
  rewrite (skip_phi_copy fuel sbase0).
  destruct (skip_phi fuel a sbase0) as [s0| |]; simpl; try done.
  rewrite (skip_phi_copy fuel sbase1).
  destruct (skip_phi fuel a sbase1) as [s1| |]; simpl; try done.
  rewrite (GetOpcode_copy s0), (GetOpcode_copy s1).
  destruct (GetOpcode a s0) as [op0| |]; simpl; try done.
  destruct (GetOpcode a s1) as [op1| |]; simpl; try done.
  destruct (ASSERT _) as [[]| |]; simpl; try done.
  by rewrite Arg_ScalarReg_copy.
Qed.

Lemma TryDisableAnisoLod0_copy inst :
  TryDisableAnisoLod0 a' (pi inst) =
    (λ r : Handle * bool, (pi r.1, r.2)) <$> TryDisableAnisoLod0 a inst.
Proof.
  unfold TryDisableAnisoLod0.
  rewrite GetOpcode_copy. destruct (GetOpcode a inst) as [op| |]; simpl; try done.
  destruct (negb (bool_decide (op = SelectU32))); [done|].
  rewrite (Arg_inst_copy inst 0).
  destruct (Arg a inst 0 ≫= InstRecursive) as [prod0| |]; simpl; try done.
  rewrite (GetOpcode_copy prod0). destruct (GetOpcode a prod0) as [op0| |]; simpl; try done.
  assert (Hzero :
    (if negb (bool_decide (op0 = IEqual)) then Ok false
     else Arg a' (pi prod0) 1 ≫= λ v,
            if negb (IsImmediate v) then Ok false
            else U32 v ≫= λ z, Ok (bool_decide (z = 0))) =
    (if negb (bool_decide (op0 = IEqual)) then Ok false
     else Arg a prod0 1 ≫= λ v,
            if negb (IsImmediate v) then Ok false
            else U32 v ≫= λ z, Ok (bool_decide (z = 0)))).
  { destruct (negb _); [done|]. rewrite Arg_copy.
    destruct (Arg a prod0 1) as [v| |]; simpl; try done.
    by rewrite IsImmediate_rename, U32_rename. }
  rewrite Hzero. clear Hzero.
  match goal with |- (?m ≫= _) = _ => destruct m as [[|]| |]; simpl; try done end.
  rewrite (Arg_inst_copy prod0 0).
  destruct (Arg a prod0 0 ≫= InstRecursive) as [prod0_arg0| |]; simpl; try done.
  rewrite (GetOpcode_copy prod0_arg0).
  destruct (GetOpcode a prod0_arg0) as [op00| |]; simpl; try done.
  assert (Hlod :
    (if negb (bool_decide (op00 = BitFieldUExtract)) then Ok false
     else (Arg a' (pi prod0_arg0) 1 ≫= InstRecursive) ≫= λ p,
            (Arg a' p 0 ≫= U32) ≫= λ z, Ok (bool_decide (z = 0x0008000c))) =
    (if negb (bool_decide (op00 = BitFieldUExtract)) then Ok false
     else (Arg a prod0_arg0 1 ≫= InstRecursive) ≫= λ p,
            (Arg a p 0 ≫= U32) ≫= λ z, Ok (bool_decide (z = 0x0008000c)))).
  { destruct (negb _); [done|]. rewrite (Arg_inst_copy prod0_arg0 1).
    destruct (Arg a prod0_arg0 1 ≫= InstRecursive) as [p| |]; simpl; try done.
    by rewrite Arg_U32_copy. }
  rewrite Hlod. clear Hlod.
  match goal with |- (?m ≫= _) = _ => destruct m as [[|]| |]; simpl; try done end.
  rewrite (Arg_inst_copy inst 1).
  destruct (Arg a inst 1 ≫= InstRecursive) as [prod1| |]; simpl; try done.
  rewrite (GetOpcode_copy prod1). destruct (GetOpcode a prod1) as [op1| |]; simpl; try done.
  assert (Hmask :
    (if negb (bool_decide (op1 = BitwiseAnd32)) then Ok false
     else (Arg a' (pi prod1) 1 ≫= U32) ≫= λ z, Ok (bool_decide (z = 0xfffff1ff))) =
    (if negb (bool_decide (op1 = BitwiseAnd32)) then Ok false
     else (Arg a prod1 1 ≫= U32) ≫= λ z, Ok (bool_decide (z = 0xfffff1ff)))).
  { destruct (negb _); [done|]. by rewrite Arg_U32_copy. }
  rewrite Hmask. clear Hmask.
  match goal with |- (?m ≫= _) = _ => destruct m as [[|]| |]; simpl; try done end.
  rewrite (Arg_inst_copy inst 2).
  destruct (Arg a inst 2 ≫= InstRecursive) as [prod2| |]; simpl; try done.
  rewrite (GetOpcode_copy prod2). destruct (GetOpcode a prod2) as [op2| |]; simpl; try done.
  by destruct (negb _ && negb _).
Qed.

Lemma FindProducer_copy fuel queue :
  FindProducer fuel a' (pi <$> queue) = pi <$> FindProducer fuel a queue.
Proof.
  revert queue. induction fuel as [|fuel IH]; intros [|h rest]; simpl; try done.
  rewrite GetInst_copy. destruct (GetInst a h) as [i| |]; simpl; try done.
  destruct (producer_pred (opcode i)); [done|].
  rewrite inst_operands_rename, <- fmap_app. apply IH.
Qed.

End CopyReaders.

Lemma res_rel_bind {A A' B B' : Type} (R : A → A' → Prop) (Q : B → B' → Prop)
    (m : Res A) (m' : Res A') (k : A → Res B) (k' : A' → Res B') :
  res_rel R m m' → (∀ x x', R x x' → res_rel Q (k x) (k' x')) →
  res_rel Q (m ≫= k) (m' ≫= k').
Proof. destruct m, m'; simpl; try done. intros HR Hk. by apply Hk. Qed.

Lemma res_rel_refl_eq {A : Type} (r : Res A) : res_rel eq r r.
Proof. by destruct r. Qed.

Lemma insert_before_rename pi inst new l :
  (∀ h1 h2, pi h1 = pi h2 → h1 = h2) →
  pi <$> insert_before inst new l = insert_before (pi inst) (pi new) (pi <$> l).
Proof.
  intros Hinj. induction l as [|h l IH]; [done|].
  rewrite fmap_cons. simpl insert_before.
  destruct (decide (h = inst)) as [->|Hne].
  - by rewrite decide_True.
  - rewrite decide_False by (intros Heq; by apply Hne, Hinj).
    rewrite fmap_cons. by rewrite IH.
Qed.

Lemma copy_of_snoc pi a a' i :
  copy_of pi a a' → copy_of pi (a ++ [i]) (a' ++ [rename_inst pi i]).
Proof.
  intros [Hlen Hfresh Hbound Hinj Hlook]. split.
  - rewrite !length_app. simpl. lia.
  - intros h. rewrite length_app. simpl. intros Hh. apply Hfresh. lia.
  - intros h. rewrite length_app. simpl. intros Hh.
    destruct (decide (h < length a)%nat) as [Hlt|Hge].
    + specialize (Hbound h Hlt). lia.
    + rewrite Hfresh by lia. lia.
  - done.
  - intros h i0 Hh. apply lookup_app_Some in Hh as [Hh|[Hge Hh]].
    + apply lookup_app_l_Some. by apply Hlook.
    + apply list_lookup_singleton_Some in Hh as [Hz <-].
      assert (h = length a) as -> by lia.
      rewrite Hfresh by lia. rewrite <- Hlen. apply lookup_snoc.
Qed.

Lemma emit_copy pi block inst op operands operands' s s' :
  copy_state pi s s' →
  operands' = rename_value pi <$> operands →
  ∃ s1',
    emit block (pi inst) op operands' s' =
      (rename_value pi (emit block inst op operands s).1, s1') ∧
    copy_state pi (emit block inst op operands s).2 s1'.
Proof.
  intros [Ha Hb Hd] ->. eexists. split.
  - rewrite emit_spec. simpl.
    rewrite (copy_fresh _ _ _ Ha (length (insts s))) by lia.
    rewrite (copy_length _ _ _ Ha). reflexivity.
  - simpl. split; simpl.
    + by apply (copy_of_snoc pi _ _ (mkInst op operands 0)).
    + rewrite Hb. symmetry. apply list_fmap_alter. apply Forall_true. intros l.
      rewrite (insert_before_rename pi inst) by apply (copy_inj _ _ _ Ha).
      by rewrite (copy_fresh _ _ _ Ha (length (insts s))) by lia.
    + done.
Qed.

Lemma SetArg_copy pi h index v v' s s' :
  copy_state pi s s' → v' = rename_value pi v →
  res_rel (copy_state pi) (SetArg h index v s) (SetArg (pi h) index v' s').
Proof.
  intros [Ha Hb Hd] ->. unfold SetArg.
  rewrite (GetInst_copy _ _ _ Ha). unfold GetInst.
  destruct (insts s !! h) as [i|] eqn:Hi; simpl; [|done].
  rewrite length_fmap.
  destruct (bool_decide (index < length (args i))%nat); simpl; [|done].
  split; simpl; [|done|done].
  destruct Ha as [Hlen Hfresh Hbound Hinj Hlook]. split.
  - by rewrite !length_insert.
  - intros h0. rewrite length_insert. apply Hfresh.
  - intros h0. rewrite length_insert. apply Hbound.
  - done.
  - intros h0 i0 Hh0. destruct (decide (h0 = h)) as [->|Hne].
    + rewrite list_lookup_insert_eq in Hh0 by (by eapply lookup_lt_Some).
      injection Hh0 as <-.
      rewrite list_lookup_insert_eq.
      * unfold rename_inst. simpl. by rewrite list_fmap_insert.
      * rewrite Hlen. apply Hbound. by eapply lookup_lt_Some.
    + rewrite list_lookup_insert_ne in Hh0 by done.
      rewrite list_lookup_insert_ne by (intros Heq; by apply Hne, Hinj).
      by apply Hlook.
Qed.

Lemma res_rel_cases {A B : Type} (R : A → B → Prop) (r : Res A) (r' : Res B) :
  res_rel R r r' →
  (r = Abort ∧ r' = Abort) ∨ (r = Timeout ∧ r' = Timeout) ∨
  ∃ x x', r = Ok x ∧ r' = Ok x' ∧ R x x'.
Proof. destruct r, r'; simpl; intros HR; try done; eauto 10. Qed.

Lemma PatchCubeCoord_copy pi block inst cs ct cz cs' ct' cz' s s' :
  copy_state pi s s' →
  cs' = rename_value pi cs → ct' = rename_value pi ct → cz' = rename_value pi cz →
  ∃ s1',
    PatchCubeCoord block (pi inst) cs' ct' cz' s' =
      (rename_value pi (PatchCubeCoord block inst cs ct cz s).1, s1') ∧
    copy_state pi (PatchCubeCoord block inst cs ct cz s).2 s1'.
Proof.
  intros Hs -> -> ->. unfold PatchCubeCoord.
  destruct (emit_copy pi block inst FPSub32 [cs; Imm32_f32 f32_1_5]
              [rename_value pi cs; Imm32_f32 f32_1_5] s s' Hs eq_refl)
    as (s1' & -> & Hs1).
  destruct (emit block inst FPSub32 [cs; Imm32_f32 f32_1_5] s) as [x s1]. simpl in Hs1.
  destruct (emit_copy pi block inst FPSub32 [ct; Imm32_f32 f32_1_5]
              [rename_value pi ct; Imm32_f32 f32_1_5] s1 s1' Hs1 eq_refl)
    as (s2' & -> & Hs2).
  destruct (emit block inst FPSub32 [ct; Imm32_f32 f32_1_5] s1) as [y s2]. simpl in Hs2.
  apply (emit_copy pi block inst CompositeConstruct [x; y; cz]
           [rename_value pi x; rename_value pi y; rename_value pi cz] s2 s2' Hs2 eq_refl).
Qed.

Section CopyEmitter.
Context `{External}.

Lemma Value_Type_copy pi a a' v :
  copy_of pi a a' → Value_Type a' (rename_value pi v) = Value_Type a v.
Proof.
  intros Ha. destruct v as [h|ty raw]; simpl; [|done].
  rewrite (GetInst_copy pi _ _ Ha). by destruct (GetInst a h).
Qed.

Lemma CompositeConstruct_opcode_rename pi ty operands :
  CompositeConstruct_opcode ty (rename_value pi <$> operands) =
  CompositeConstruct_opcode ty operands.
Proof. by destruct operands as [|e1 [|e2 [|e3 rest]]]. Qed.

Lemma ir_CompositeConstruct_copy pi block inst operands operands' s s' :
  copy_state pi s s' →
  operands' = rename_value pi <$> operands →
  res_rel (λ r r', r'.1 = rename_value pi r.1 ∧ copy_state pi r.2 r'.2)
    (ir_CompositeConstruct block inst operands s)
    (ir_CompositeConstruct block (pi inst) operands' s').
Proof.
  intros Hs ->. unfold ir_CompositeConstruct.
  destruct operands as [|e1 rest]; [done|]. cbn -[emit CompositeConstruct_opcode].
  rewrite (Value_Type_copy pi _ _ _ (copy_insts _ _ _ Hs)).
  destruct (Value_Type (insts s) e1) as [ty| |];
    cbn -[emit CompositeConstruct_opcode]; [|done|done].
  change (rename_value pi e1 :: (rename_value pi <$> rest))
    with (rename_value pi <$> e1 :: rest).
  rewrite CompositeConstruct_opcode_rename.
  destruct (emit_copy pi block inst (CompositeConstruct_opcode ty (e1 :: rest)) (e1 :: rest)
              (rename_value pi <$> e1 :: rest) s s' Hs eq_refl)
    as (s1' & Heq & Hs1).
  by rewrite Heq.
Qed.

End CopyEmitter.

Lemma copy_state_descriptors pi s s' d :
  copy_state pi s s' →
  copy_state pi (mkState (insts s) (blocks s) d) (mkState (insts s') (blocks s') d).
Proof. intros [Ha Hb Hd]. by split. Qed.

#[local] Opaque emit PatchCubeCoord ir_CompositeConstruct.

Ltac head_of t :=
  lazymatch t with
  | ?m ≫= _ => head_of m
  | _ => t
  end.

Ltac copy_case m := destruct m as [?| |]; simpl; [|exact I|exact I].

Ltac copy_step pi :=
  rewrite ?IsImmediate_rename, ?U32_rename, ?U64_rename, ?ScalarReg_rename, ?imm_type_rename;
  lazymatch goal with
  | |- res_rel _ Abort Abort => exact I
  | |- res_rel _ Timeout Timeout => exact I
  | |- res_rel _ ?L ?R =>
      let hl := head_of L in
      let hr := head_of R in
      lazymatch hl with
      | Arg (insts ?s) ?h ?k =>
          lazymatch goal with Hs : copy_state pi s _ |- _ =>
            rewrite (Arg_copy pi _ _ (copy_insts _ _ _ Hs) h k); copy_case hl end
      | GetOpcode (insts ?s) ?h =>
          lazymatch goal with Hs : copy_state pi s _ |- _ =>
            rewrite (GetOpcode_copy pi _ _ (copy_insts _ _ _ Hs) h); copy_case hl end
      | GetInst (insts ?s) ?h =>
          lazymatch goal with Hs : copy_state pi s _ |- _ =>
            rewrite (GetInst_copy pi _ _ (copy_insts _ _ _ Hs) h); copy_case hl end
      | TrackSharp ?f (insts ?s) ?h =>
          lazymatch goal with Hs : copy_state pi s _ |- _ =>
            rewrite (TrackSharp_copy pi _ _ (copy_insts _ _ _ Hs) f h); copy_case hl end
      | FindProducer ?f (insts ?s) [?h] =>
          lazymatch goal with Hs : copy_state pi s ?s' |- _ =>
            change (FindProducer f (insts s') [pi h])
              with (FindProducer f (insts s') (pi <$> [h]));
            rewrite (FindProducer_copy pi _ _ (copy_insts _ _ _ Hs) f [h]); copy_case hl end
      | TryDisableAnisoLod0 (insts ?s) ?h =>
          lazymatch goal with Hs : copy_state pi s _ |- _ =>
            rewrite (TryDisableAnisoLod0_copy pi _ _ (copy_insts _ _ _ Hs) h);
            destruct hl as [[? ?]| |]; simpl; [|exact I|exact I] end
      | InstRecursive ?v => rewrite (InstRecursive_rename pi v); copy_case hl
      | Descriptors.Add_buffer (descriptors ?s) ?d =>
          lazymatch goal with Hs : copy_state pi s _ |- _ =>
            rewrite (copy_descriptors _ _ _ Hs);
            destruct hl as [[? ?]| |]; simpl; [|exact I|exact I] end
      | Descriptors.Add_image (descriptors ?s) ?d =>
          lazymatch goal with Hs : copy_state pi s _ |- _ =>
            rewrite (copy_descriptors _ _ _ Hs);
            destruct hl as [[? ?]| |]; simpl; [|exact I|exact I] end
      | Descriptors.Add_sampler _ _ => destruct hl as [[? ?]| |]; simpl; [|exact I|exact I]
      | SetArg ?h ?k ?v ?s =>
          lazymatch hr with SetArg _ _ ?v' ?s' =>
            lazymatch goal with
            | Hs : copy_state pi s s' |- _ =>
                let E := fresh "E" in let E' := fresh "E" in let Hs1 := fresh "Hs" in
                destruct (res_rel_cases _ _ _ (SetArg_copy pi h k v v' s s' Hs eq_refl))
                  as [[E E']|[[E E']|(? & ? & E & E' & Hs1)]];
                rewrite E, E'; clear E E'; simpl; [exact I|exact I|]
            | _ =>
                lazymatch s with
                | mkState (insts ?s0) (blocks ?s0) ?d =>
                    lazymatch goal with Hs0 : copy_state pi s0 ?s0' |- _ =>
                      pose proof (copy_state_descriptors pi s0 s0' d Hs0)
                    end
                end
            end
          end
      | (let '(_, _) := emit ?b ?i ?op ?ops ?s in _) =>
          lazymatch hr with (let '(_, _) := emit _ _ _ ?ops' ?s' in _) =>
            lazymatch goal with Hs : copy_state pi s s' |- _ =>
              let s1' := fresh "s'" in let Heq := fresh "Heq" in let Hs1 := fresh "Hs" in
              destruct (emit_copy pi b i op ops ops' s s' Hs eq_refl) as (s1' & Heq & Hs1);
              rewrite Heq; clear Heq;
              destruct (emit b i op ops s) as [? ?]; simpl in Hs1 |- *
            end
          end
      | ir_CompositeConstruct ?b ?i ?ops ?s =>
          lazymatch hr with ir_CompositeConstruct _ _ ?ops' ?s' =>
            lazymatch goal with Hs : copy_state pi s s' |- _ =>
              let E := fresh "E" in let E' := fresh "E" in
              let Hv := fresh "Hv" in let Hs1 := fresh "Hs" in
              let v := fresh "v" in let v' := fresh "v" in
              destruct (res_rel_cases _ _ _
                          (ir_CompositeConstruct_copy pi b i ops ops' s s' Hs eq_refl))
                as [[E E']|[[E E']|([v ?] & [v' ?] & E & E' & Hv & Hs1)]];
              rewrite E, E'; clear E E'; simpl in *; [exact I|exact I|subst v']
            end
          end
      | (let '(_, _) := PatchCubeCoord ?b ?i ?cs ?ct ?cz ?s in _) =>
          lazymatch hr with (let '(_, _) := PatchCubeCoord _ _ ?cs' ?ct' ?cz' ?s' in _) =>
            lazymatch goal with Hs : copy_state pi s s' |- _ =>
              let s1' := fresh "s'" in let Heq := fresh "Heq" in let Hs1 := fresh "Hs" in
              destruct (PatchCubeCoord_copy pi b i cs ct cz cs' ct' cz' s s' Hs
                          eq_refl eq_refl eq_refl) as (s1' & Heq & Hs1);
              rewrite Heq; clear Heq;
              destruct (PatchCubeCoord b i cs ct cz s) as [? ?]; simpl in Hs1 |- *
            end
          end
      | (if ?c then _ else _) => destruct c; simpl
      | (match ?x with Some _ => _ | None => _ end) => destruct x; simpl
      | (match _ with _ => _ end) => fail
      | Ok _ => fail
      | _ => copy_case hl
      end
  end.

Section CopyPatchers.
Context `{External}.
Variable pi : Handle → Handle.

Lemma TryHandleInlineCbuf_copy inst info cbuf s s' :
  copy_state pi s s' →
  res_rel (λ r r', r'.1 = r.1 ∧ copy_state pi r.2 r'.2)
    (TryHandleInlineCbuf inst info cbuf s)
    (TryHandleInlineCbuf (pi inst) info cbuf s').
Proof.
  intros Hs. unfold TryHandleInlineCbuf. simpl.
  repeat copy_step pi; try done.
  split; [done|]. by apply copy_state_descriptors.
Qed.

Lemma PatchBufferInstruction_sharp_copy fuel inst info s s' :
  copy_state pi s s' →
  res_rel (λ r r', r'.1 = r.1 ∧ copy_state pi r.2 r'.2)
    (PatchBufferInstruction_sharp fuel inst info s)
    (PatchBufferInstruction_sharp fuel (pi inst) info s').
Proof.
  intros Hs. unfold PatchBufferInstruction_sharp.
  eapply res_rel_bind; [by apply TryHandleInlineCbuf_copy|].
  intros [[binding buffer] s1] [[binding' buffer'] s1'] [[= -> ->] Hs1]. simpl in *.
  destruct (bool_decide (binding = -1)); [|done].
  repeat copy_step pi; try done.
  split; [done|]. by apply copy_state_descriptors.
Qed.

Lemma PatchBufferInstruction_rewrite_copy block inst binding buffer s s' :
  copy_state pi s s' →
  res_rel (copy_state pi)
    (PatchBufferInstruction_rewrite block inst binding buffer s)
    (PatchBufferInstruction_rewrite block (pi inst) binding buffer s').
Proof.
  intros Hs. unfold PatchBufferInstruction_rewrite.
  repeat copy_step pi; try done.
Qed.

Lemma PatchBufferInstruction_copy fuel block inst info s s' :
  copy_state pi s s' →
  res_rel (copy_state pi)
    (PatchBufferInstruction fuel block inst info s)
    (PatchBufferInstruction fuel block (pi inst) info s').
Proof.
  intros Hs. unfold PatchBufferInstruction.
  eapply res_rel_bind; [by apply PatchBufferInstruction_sharp_copy|].
  intros [[binding buffer] s1] [[binding' buffer'] s1'] [[= -> ->] Hs1]. simpl in *.
  by apply PatchBufferInstruction_rewrite_copy.
Qed.

Lemma PatchImageInstruction_copy fuel block inst info s s' :
  copy_state pi s s' →
  res_rel (copy_state pi)
    (PatchImageInstruction fuel block inst info s)
    (PatchImageInstruction fuel block (pi inst) info s').
Proof.
  intros Hs. unfold PatchImageInstruction. simpl.
  repeat copy_step pi; try done.
  all: eapply (res_rel_bind
         (λ r r' : Value * Value * State,
            r'.1.1 = rename_value pi r.1.1 ∧ r'.1.2 = rename_value pi r.1.2 ∧
            copy_state pi r.2 r'.2)).
  all: try (destruct (Image_GetType _); repeat copy_step pi; done).
  all: intros [[coords arg] s1] [[coords' arg'] s1'] (Hc & Harg & Hs1);
    simpl in Hc, Harg, Hs1; subst coords' arg'; simpl.
  all: repeat copy_step pi; try done.
Qed.

Lemma visit_inst_copy fuel info block inst s s' :
  copy_state pi s s' →
  res_rel (copy_state pi)
    (visit_inst fuel info block inst s) (visit_inst fuel info block (pi inst) s').
Proof.
  intros Hs. unfold visit_inst.
  rewrite (GetOpcode_copy pi _ _ (copy_insts _ _ _ Hs) inst).
  destruct (GetOpcode (insts s) inst) as [op| |]; simpl; [|done|done].
  destruct (IsBufferInstruction op); [by apply PatchBufferInstruction_copy|].
  destruct (IsImageInstruction op); [by apply PatchImageInstruction_copy|done].
Qed.

Lemma visit_block_copy fuel info block l s s' :
  copy_state pi s s' →
  res_rel (copy_state pi)
    (visit_block fuel info block l s) (visit_block fuel info block (pi <$> l) s').
Proof.
  revert s s'. induction l as [|inst l IH]; intros s s' Hs; [done|].
  rewrite fmap_cons. simpl.
  eapply res_rel_bind; [by apply visit_inst_copy|]. intros s1 s1' Hs1. by apply IH.
Qed.

Lemma visit_blocks_copy fuel info bs s s' :
  copy_state pi s s' →
  res_rel (copy_state pi) (visit_blocks fuel info bs s) (visit_blocks fuel info bs s').
Proof.
  revert s s'. induction bs as [|block bs IH]; intros s s' Hs; [done|]. simpl.
  rewrite (copy_blocks _ _ _ Hs), list_lookup_fmap.
  destruct (blocks s !! block) as [l|]; simpl; [|done].
  eapply res_rel_bind; [by apply visit_block_copy|]. intros s1 s1' Hs1. by apply IH.
Qed.

Lemma ResourceTrackingPass_copy fuel info s s' :
  copy_state pi s s' →
  res_rel (copy_state pi) (ResourceTrackingPass fuel info s) (ResourceTrackingPass fuel info s').
Proof.
  intros Hs. unfold ResourceTrackingPass.
  rewrite (copy_blocks _ _ _ Hs), length_fmap. by apply visit_blocks_copy.
Qed.

End CopyPatchers.

#[local] Transparent emit PatchCubeCoord ir_CompositeConstruct.

Lemma apply_perm_lt perm h x : perm !! h = Some x → apply_perm perm h = x.
Proof. unfold apply_perm. by intros ->. Qed.

Lemma apply_perm_ge perm h : (length perm ≤ h)%nat → apply_perm perm h = h.
Proof. unfold apply_perm. intros Hh. by rewrite lookup_ge_None_2. Qed.

Lemma is_copy_correct perm a a' :
  is_copy perm a a' = true → copy_of (apply_perm perm) a a'.
Proof.
  unfold is_copy. rewrite !andb_true_iff, !bool_decide_eq_true, !forallb_forall.
  intros [[[[Hlp Hla] Hnd] Hrange] Hlook].
  assert (Hin : ∀ h, (h < length a)%nat →
            ∃ x, perm !! h = Some x ∧ apply_perm perm h = x ∧ (x < length a)%nat).
  { intros h Hh. destruct (lookup_lt_is_Some_2 perm h) as [x Hx]; [lia|].
    exists x. split; [done|]. split; [by apply apply_perm_lt|].
    specialize (Hrange x). rewrite bool_decide_eq_true in Hrange.
    apply Hrange, list_elem_of_In. by eapply list_elem_of_lookup_2. }
  split.
  - done.
  - intros h Hh. apply apply_perm_ge. lia.
  - intros h Hh. destruct (Hin h Hh) as (x & _ & -> & Hx). done.
  - intros h1 h2 Heq.
    destruct (decide (h1 < length a)%nat) as [H1|H1];
      destruct (decide (h2 < length a)%nat) as [H2|H2].
    + destruct (Hin h1 H1) as (x1 & Hx1 & E1 & _).
      destruct (Hin h2 H2) as (x2 & Hx2 & E2 & _).
      eapply NoDup_lookup; [exact Hnd|exact Hx1|]. congruence.
    + destruct (Hin h1 H1) as (x1 & _ & E1 & Hlt).
      rewrite (apply_perm_ge perm h2) in Heq by lia. lia.
    + destruct (Hin h2 H2) as (x2 & _ & E2 & Hlt).
      rewrite (apply_perm_ge perm h1) in Heq by lia. lia.
    + rewrite !apply_perm_ge in Heq by lia. done.
  - intros h i Hi. specialize (Hlook (h, i)). simpl in Hlook.
    rewrite bool_decide_eq_true in Hlook. apply Hlook.
    apply list_elem_of_In, elem_of_lookup_imap. eauto.
Qed.

(** C1 (determinism).  Run the pass on two structurally identical copies
    of a program: the same instructions, placed in the second arena as the
    permutation [perm] says, with operand references following them, the
    same instruction order in every block and the same resource lists.
    Both runs end the same way, and when they succeed the buffer, image and
    sampler lists (hence all binding indices) are identical, every block
    holds the same instructions in the same order, and every instruction of
    the first result, emitted ones included, is found in the second with
    the same opcode, flags and operands: immediates, the binding indices
    among them, are equal, references point to the corresponding
    instructions. *)
Theorem resource_tracking_deterministic `{External} perm fuel info s s' :
  is_copy perm (insts s) (insts s') = true →
  blocks s' = (λ l : list nat, apply_perm perm <$> l) <$> blocks s →
  descriptors s' = descriptors s →
  res_rel
    (λ r r',
       descriptors r' = descriptors r ∧
       blocks r' = (λ l : list nat, apply_perm perm <$> l) <$> blocks r ∧
       length (insts r') = length (insts r) ∧
       ∀ h i, insts r !! h = Some i →
              insts r' !! apply_perm perm h = Some (rename_inst (apply_perm perm) i))
    (ResourceTrackingPass fuel info s)
    (ResourceTrackingPass fuel info s').
Proof.
  intros Hcopy Hblocks Hdesc.
  assert (Hs : copy_state (apply_perm perm) s s').
  { split; [by apply is_copy_correct|done|done]. }
  pose proof (ResourceTrackingPass_copy (apply_perm perm) fuel info s s' Hs) as Hrel.
  destruct (ResourceTrackingPass fuel info s) as [r| |],
           (ResourceTrackingPass fuel info s') as [r'| |]; simpl in *; try done.
  destruct Hrel as [[Hlen _ _ _ Hlook] Hb Hd]. done.
Qed.

Lemma resource_tracking_deterministic_witness :
  res_rel
    (λ r r',
       descriptors r' = descriptors r ∧
       blocks r' = (λ l : list nat, apply_perm sample_copy_perm <$> l) <$> blocks r ∧
       length (insts r') = length (insts r) ∧
       ∀ h i, insts r !! h = Some i →
              insts r' !! apply_perm sample_copy_perm h =
                Some (rename_inst (apply_perm sample_copy_perm) i))
    (ResourceTrackingPass (H := sample_external) 10 sample_image_info
       (sample_image_program 0x5203F))
    (ResourceTrackingPass (H := sample_external) 10 sample_image_info
       (sample_image_program_copy 0x5203F)).
Proof.
  apply (resource_tracking_deterministic (H := sample_external) sample_copy_perm 10
           sample_image_info (sample_image_program 0x5203F)
           (sample_image_program_copy 0x5203F)).
  - reflexivity.
  - reflexivity.
  - reflexivity.
Defined.


(** * Further properties

    The opcode classes, the registry, the attribute flags, the readers of
    the operand graph and of user data, and what the patchers and the pass
    leave behind. *)

(** ** Opcode classification *)

(** X1.  [BufferDataType] returns a type exactly on the opcodes
    [IsBufferInstruction] accepts, so that the driver, which calls the buffer
    patcher on these only, never reaches its [UNREACHABLE]; the type is
    [F32] or [U32]. *)
Theorem BufferDataType_defined_on_buffer_instructions (op : Opcode) :
  (IsBufferInstruction op = true ↔ ∃ ty, BufferDataType op = Ok ty) ∧
  (IsBufferInstruction op = false ↔ BufferDataType op = Abort) ∧
  (∀ ty, BufferDataType op = Ok ty → ty = Type_F32 ∨ ty = Type_U32).
Proof.
  destruct op; simpl; (split; [|split]);
    try (split; [intros _; eauto; fail | intros; done]);
    try (split; [intros; done | intros [? [=]]]);
    try (split; intros; done);
    try (intros ? [= <-]; eauto; fail);
    try (intros ? [=]).
Qed.

(** X2.  The classes of opcodes are nested and disjoint as the driver
    assumes: every buffer store is a buffer instruction, every storage image
    instruction is an image instruction, and no opcode is both a buffer and
    an image instruction. *)
Theorem resource_opcode_classes (op : Opcode) :
  (IsBufferStore op = true → IsBufferInstruction op = true) ∧
  (IsImageStorageInstruction op = true → IsImageInstruction op = true) ∧
  (IsBufferInstruction op = true → IsImageInstruction op = false).
Proof. destruct op; simpl; repeat split; intros; done. Qed.

(** ** Descriptor registry: capacity *)

Lemma Add_length {A : Type} (l l' : list A) (desc : A) (pred : A → bool) (i : nat) :
  Descriptors.Add l desc pred = Ok (i, l') →
  (length l ≤ ResourceListCapacity)%nat →
  (i < length l')%nat ∧ (length l ≤ length l')%nat ∧ (length l' ≤ ResourceListCapacity)%nat.
Proof.
  unfold Descriptors.Add. intros Hadd Hcap.
  destruct (Descriptors.find_if pred l) as [k|] eqn:Hfind.
  - injection Hadd as <- <-.
    destruct (find_if_Some _ _ _ Hfind) as [(x & Hx & _) _].
    apply lookup_lt_Some in Hx. lia.
  - case_decide; [|discriminate]. injection Hadd as <- <-.
    rewrite length_app. simpl. lia.
Qed.

Lemma step_within_capacity d d' :
  Descriptors.step d d' → within_capacity d → within_capacity d'.
Proof.
  intros [d0 desc i d0' Hadd|d0 desc i d0' Hadd|d0 desc i d0' Hadd] (Hb & Hi & Hs).
  - apply Add_buffer_inv in Hadd as (buffers & buffer & Ht & _ & _ & _ & ->).
    apply Add_length in Ht as (_ & _ & Hle); [|done].
    repeat split; simpl; [by rewrite length_insert|done|done].
  - apply Add_image_inv in Hadd as (images & Ht & ->).
    apply Add_length in Ht as (_ & _ & Hle); [|done]. by repeat split.
  - apply Add_sampler_inv in Hadd as (samplers & Ht & ->).
    apply Add_length in Ht as (_ & _ & Hle); [|done]. by repeat split.
Qed.

Lemma steps_within_capacity d d' :
  rtc Descriptors.step d d' → within_capacity d → within_capacity d'.
Proof. induction 1; eauto using step_within_capacity. Qed.

Lemma empty_within_capacity : within_capacity Descriptors.empty.
Proof. unfold within_capacity, ResourceListCapacity. simpl. lia. Qed.

Lemma find_if_None_2 {A : Type} (pred : A → bool) (l : list A) :
  (∀ y, y ∈ l → pred y = false) → Descriptors.find_if pred l = None.
Proof.
  induction l as [|x l IH]; intros Hall; simpl; [done|].
  rewrite (Hall x) by apply list_elem_of_here.
  rewrite IH; [done|]. intros y Hy. apply Hall. by apply list_elem_of_further.
Qed.

(** X3.  The three resource lists of a pass run never hold more than
    sixteen entries, and every binding index a registration returns is below
    sixteen. *)
Theorem registry_within_capacity (d : Descriptors.t) :
  rtc Descriptors.step Descriptors.empty d →
  within_capacity d ∧
  (∀ desc i d', Descriptors.Add_buffer d desc = Ok (i, d') → (i < 16)%nat) ∧
  (∀ desc i d', Descriptors.Add_image d desc = Ok (i, d') → (i < 16)%nat) ∧
  (∀ desc i d', Descriptors.Add_sampler d desc = Ok (i, d') → (i < 16)%nat).
Proof.
  intros Hreach.
  pose proof (steps_within_capacity _ _ Hreach empty_within_capacity) as Hcap.
  split; [done|]. destruct Hcap as (Hb & Hi & Hs).
  change ResourceListCapacity with 16%nat in *.
  repeat split; intros desc i d' Hadd.
  - apply Add_buffer_inv in Hadd as (buffers & buffer & Ht & _).
    apply Add_length in Ht as (? & _ & ?); [|done].
    change ResourceListCapacity with 16%nat in *. lia.
  - apply Add_image_inv in Hadd as (images & Ht & _).
    apply Add_length in Ht as (? & _ & ?); [|done].
    change ResourceListCapacity with 16%nat in *. lia.
  - apply Add_sampler_inv in Hadd as (samplers & Ht & _).
    apply Add_length in Ht as (? & _ & ?); [|done].
    change ResourceListCapacity with 16%nat in *. lia.
Qed.

Lemma registry_within_capacity_witness :
  within_capacity (Descriptors.mk [] [sample_image] []) ∧
  (∀ desc i d',
     Descriptors.Add_buffer (Descriptors.mk [] [sample_image] []) desc = Ok (i, d') →
     (i < 16)%nat) ∧
  (∀ desc i d',
     Descriptors.Add_image (Descriptors.mk [] [sample_image] []) desc = Ok (i, d') →
     (i < 16)%nat) ∧
  (∀ desc i d',
     Descriptors.Add_sampler (Descriptors.mk [] [sample_image] []) desc = Ok (i, d') →
     (i < 16)%nat).
Proof.
  apply (registry_within_capacity (Descriptors.mk [] [sample_image] [])).
  eapply rtc_l; [|apply rtc_refl].
  apply (Descriptors.step_image Descriptors.empty sample_image 0%nat). reflexivity.
Defined.

(** X4.  A registration whose identity is not yet in a list that already
    holds sixteen entries fails: the list is not extended and no entry is
    overwritten. *)
Theorem registry_overflow_fails :
  (∀ d desc,
     length (Descriptors.buffer_resources d) = ResourceListCapacity →
     (∀ e, e ∈ Descriptors.buffer_resources d →
           Descriptors.buffer_key e ≠ Descriptors.buffer_key desc) →
     Descriptors.Add_buffer d desc = Abort) ∧
  (∀ d desc,
     length (Descriptors.image_resources d) = ResourceListCapacity →
     (∀ e, e ∈ Descriptors.image_resources d →
           Descriptors.image_key e ≠ Descriptors.image_key desc) →
     Descriptors.Add_image d desc = Abort) ∧
  (∀ d desc,
     length (Descriptors.sampler_resources d) = ResourceListCapacity →
     (∀ e, e ∈ Descriptors.sampler_resources d →
           Descriptors.sampler_key e ≠ Descriptors.sampler_key desc) →
     Descriptors.Add_sampler d desc = Abort).
Proof.
  repeat split; intros d desc Hlen Hnew.
  - unfold Descriptors.Add_buffer, Descriptors.Add.
    rewrite find_if_None_2.
    + rewrite Hlen. by rewrite decide_False by lia.
    + intros y Hy. apply (pred_key_false _ _ buffer_pred_key).
      intros Hk. by apply (Hnew y Hy).
  - unfold Descriptors.Add_image, Descriptors.Add.
    rewrite find_if_None_2.
    + rewrite Hlen. by rewrite decide_False by lia.
    + intros y Hy. apply (pred_key_false _ _ image_pred_key).
      intros Hk. by apply (Hnew y Hy).
  - unfold Descriptors.Add_sampler, Descriptors.Add.
    rewrite find_if_None_2.
    + rewrite Hlen. by rewrite decide_False by lia.
    + intros y Hy. apply (pred_key_false _ _ sampler_pred_key).
      intros Hk. by apply (Hnew y Hy).
Qed.

Lemma registry_overflow_fails_witness :
  Descriptors.Add_image (Descriptors.mk [] sample_full_images []) sample_image = Abort.
Proof.
  apply (proj1 (proj2 registry_overflow_fails)
           (Descriptors.mk [] sample_full_images []) sample_image).
  - reflexivity.
  - intros e He. vm_compute in He.
    repeat (apply elem_of_cons in He as [->|He]; [discriminate|]).
    by apply elem_of_nil in He.
Defined.

(** ** Descriptor registry: repeated and later registrations *)

Lemma Add_found {A K : Type} (key : A → K) (pred : A → A → bool)
    (pred_key : ∀ desc existing, pred desc existing = true ↔ key desc = key existing)
    (l : list A) (desc : A) (i : nat) :
  first_at key l (key desc) i → Descriptors.Add l desc (pred desc) = Ok (i, l).
Proof.
  intros [(x & Hx & Hk) Hfirst]. unfold Descriptors.Add.
  rewrite (find_if_first _ _ i x Hx); [done|by apply pred_key|].
  intros j y Hj Hy. apply (pred_key_false _ _ pred_key). intros Hkk.
  by apply (Hfirst j y Hj Hy).
Qed.

Lemma widen_idemp buffer desc :
  Descriptors.widen (Descriptors.widen buffer desc) desc = Descriptors.widen buffer desc.
Proof.
  unfold Descriptors.widen. simpl. f_equal.
  - by rewrite <- Z.lor_assoc, Z.lor_diag.
  - by rewrite <- orb_assoc, orb_diag.
Qed.

(** X5.  Registering the same descriptor again returns the same binding
    index and leaves the three lists as the first registration left them. *)
Theorem Add_idempotent :
  (∀ d desc i d',
     Descriptors.Add_buffer d desc = Ok (i, d') →
     Descriptors.Add_buffer d' desc = Ok (i, d')) ∧
  (∀ d desc i d',
     Descriptors.Add_image d desc = Ok (i, d') →
     Descriptors.Add_image d' desc = Ok (i, d')) ∧
  (∀ d desc i d',
     Descriptors.Add_sampler d desc = Ok (i, d') →
     Descriptors.Add_sampler d' desc = Ok (i, d')).
Proof.
  repeat split; intros d desc i d' Hadd.
  - pose proof (Add_buffer_first_at _ _ _ _ Hadd) as Hfirst.
    apply Add_buffer_inv in Hadd as (buffers & buffer & Ht & Hb & Hs & Hn & ->).
    unfold Descriptors.Add_buffer. simpl in *.
    rewrite (Add_found _ _ buffer_pred_key _ _ _ Hfirst). simpl.
    rewrite list_lookup_insert_eq by (by eapply lookup_lt_Some). simpl.
    rewrite Hs, Hn, !bool_decide_eq_true_2 by done. simpl.
    by rewrite widen_idemp, list_insert_insert_eq.
  - apply Add_image_inv in Hadd as (images & Ht & ->).
    apply (Add_first_at _ _ image_pred_key) in Ht as [Hfirst _].
    unfold Descriptors.Add_image. simpl.
    by rewrite (Add_found _ _ image_pred_key _ _ _ Hfirst).
  - apply Add_sampler_inv in Hadd as (samplers & Ht & ->).
    apply (Add_first_at _ _ sampler_pred_key) in Ht as [Hfirst _].
    unfold Descriptors.Add_sampler. simpl.
    by rewrite (Add_found _ _ sampler_pred_key _ _ _ Hfirst).
Qed.

Lemma Add_idempotent_witness :
  Descriptors.Add_buffer
    (Descriptors.mk [Descriptors.widen sample_buffer_load sample_buffer_load] [] [])
    sample_buffer_load =
  Ok (0%nat, Descriptors.mk [Descriptors.widen sample_buffer_load sample_buffer_load] [] []).
Proof.
  apply (proj1 Add_idempotent Descriptors.empty sample_buffer_load). reflexivity.
Defined.

Lemma Add_prefix {A : Type} (l l' : list A) (desc : A) (pred : A → bool) (i : nat) :
  Descriptors.Add l desc pred = Ok (i, l') → l `prefix_of` l'.
Proof.
  unfold Descriptors.Add. intros Hadd.
  destruct (Descriptors.find_if pred l).
  - by injection Hadd as <- <-.
  - case_decide; [|discriminate]. injection Hadd as <- <-. by apply prefix_app_r.
Qed.

(** X6.  Image and sampler entries are never changed once they are in their
    list: every later registration of a run leaves them in place, so the
    number format and depth flag of an image entry, and the associated image
    and anisotropy flag of a sampler entry, are those of the access that
    created the entry. *)
Theorem image_sampler_entries_immutable (d d' : Descriptors.t) :
  rtc Descriptors.step d d' →
  Descriptors.image_resources d `prefix_of` Descriptors.image_resources d' ∧
  Descriptors.sampler_resources d `prefix_of` Descriptors.sampler_resources d'.
Proof.
  induction 1 as [d|d1 d2 d3 Hstep _ [IHi IHs]]; [done|].
  assert (Descriptors.image_resources d1 `prefix_of` Descriptors.image_resources d2 ∧
          Descriptors.sampler_resources d1 `prefix_of` Descriptors.sampler_resources d2)
    as [Hi Hs].
  { destruct Hstep as [d0 desc i d0' Hadd|d0 desc i d0' Hadd|d0 desc i d0' Hadd].
    - by apply Add_buffer_inv in Hadd as (buffers & buffer & _ & _ & _ & _ & ->).
    - apply Add_image_inv in Hadd as (images & Ht & ->). simpl.
      split; [by eapply Add_prefix|done].
    - apply Add_sampler_inv in Hadd as (samplers & Ht & ->). simpl.
      split; [done|by eapply Add_prefix]. }
  split; by etrans.
Qed.

Lemma image_sampler_entries_immutable_witness :
  [sample_image] `prefix_of` [sample_image] ∧
  ([] : list SamplerResource.t) `prefix_of` [sample_sampler].
Proof.
  apply (image_sampler_entries_immutable
           (Descriptors.mk [] [sample_image] [])
           (Descriptors.mk [] [sample_image] [sample_sampler])).
  eapply rtc_l.
  { apply (Descriptors.step_image _ sample_image_other_format 0%nat). reflexivity. }
  eapply rtc_l; [|apply rtc_refl].
  apply (Descriptors.step_sampler _ sample_sampler 0%nat). reflexivity.
Defined.

Lemma land_lor_absorb x y : Z.land (Z.lor x y) x = x.
Proof.
  apply Z.bits_inj'. intros n Hn.
  rewrite Z.land_spec, Z.lor_spec. by destruct (Z.testbit x n), (Z.testbit y n).
Qed.

Lemma buffer_entry_continues_refl b : buffer_entry_continues b b.
Proof. unfold buffer_entry_continues. by rewrite Z.land_diag. Qed.

Lemma buffer_entry_continues_trans b1 b2 b3 :
  buffer_entry_continues b1 b2 → buffer_entry_continues b2 b3 →
  buffer_entry_continues b1 b3.
Proof.
  intros (K1 & S1 & N1 & F1 & U1) (K2 & S2 & N2 & F2 & U2).
  unfold buffer_entry_continues.
  repeat split; [congruence|congruence|congruence|auto|].
  apply Z.bits_inj'. intros n Hn.
  apply (f_equal (λ z, Z.testbit z n)) in U1, U2.
  rewrite Z.land_spec in *.
  destruct (Z.testbit (BufferResource.used_types b1) n),
           (Z.testbit (BufferResource.used_types b2) n),
           (Z.testbit (BufferResource.used_types b3) n); simpl in *; congruence.
Qed.

Lemma buffer_entry_continues_widen b desc :
  buffer_entry_continues b (Descriptors.widen b desc).
Proof.
  unfold buffer_entry_continues, Descriptors.widen. simpl.
  repeat split; [by intros ->|apply land_lor_absorb].
Qed.

Lemma Add_buffer_continues d desc i d' k b :
  Descriptors.Add_buffer d desc = Ok (i, d') →
  Descriptors.buffer_resources d !! k = Some b →
  ∃ b', Descriptors.buffer_resources d' !! k = Some b' ∧ buffer_entry_continues b b'.
Proof.
  intros Hadd Hk.
  apply Add_buffer_inv in Hadd as (buffers & buffer & Ht & Hb & _ & _ & ->). simpl.
  apply Add_prefix in Ht as [suffix ->].
  assert (Hk' : (Descriptors.buffer_resources d ++ suffix) !! k = Some b)
    by (by apply lookup_app_l_Some).
  destruct (decide (k = i)) as [->|Hne].
  - exists (Descriptors.widen buffer desc).
    split; [apply list_lookup_insert_eq; by eapply lookup_lt_Some|].
    assert (buffer = b) as -> by congruence. apply buffer_entry_continues_widen.
  - exists b. rewrite list_lookup_insert_ne by done.
    split; [done|apply buffer_entry_continues_refl].
Qed.

(** X7.  A buffer entry keeps its identity, stride and record count through
    every later registration of a run, and its [is_storage] flag and
    [used_types] bits are only ever added to. *)
Theorem buffer_entries_only_widen (d d' : Descriptors.t) (k : nat) (b : BufferResource.t) :
  rtc Descriptors.step d d' →
  Descriptors.buffer_resources d !! k = Some b →
  ∃ b', Descriptors.buffer_resources d' !! k = Some b' ∧ buffer_entry_continues b b'.
Proof.
  intros Hsteps. revert b.
  induction Hsteps as [d|d1 d2 d3 Hstep _ IH]; intros b Hk.
  - exists b. split; [done|apply buffer_entry_continues_refl].
  - assert (∃ b2, Descriptors.buffer_resources d2 !! k = Some b2 ∧
                  buffer_entry_continues b b2) as (b2 & Hk2 & Hc2).
    { destruct Hstep as [d0 desc i d0' Hadd|d0 desc i d0' Hadd|d0 desc i d0' Hadd].
      - by eapply Add_buffer_continues.
      - apply Add_image_inv in Hadd as (images & _ & ->).
        exists b. split; [done|apply buffer_entry_continues_refl].
      - apply Add_sampler_inv in Hadd as (samplers & _ & ->).
        exists b. split; [done|apply buffer_entry_continues_refl]. }
    destruct (IH b2 Hk2) as (b3 & Hk3 & Hc3).
    exists b3. split; [done|]. by eapply buffer_entry_continues_trans.
Qed.

Lemma buffer_entries_only_widen_witness :
  ∃ b', [Descriptors.widen (Descriptors.widen sample_buffer_load sample_buffer_load)
           sample_buffer_store] !! 0%nat = Some b' ∧
        buffer_entry_continues (Descriptors.widen sample_buffer_load sample_buffer_load) b'.
Proof.
  apply (buffer_entries_only_widen
           (Descriptors.mk [Descriptors.widen sample_buffer_load sample_buffer_load] [] [])
           (Descriptors.mk [Descriptors.widen
                              (Descriptors.widen sample_buffer_load sample_buffer_load)
                              sample_buffer_store] [] [])
           0%nat).
  - eapply rtc_l; [|apply rtc_refl].
    apply (Descriptors.step_buffer _ sample_buffer_store 0%nat). reflexivity.
  - reflexivity.
Defined.

(** ** Attribute flags *)

Lemma u8_cases (P : Z → bool) :
  forallb P (seqZ 0 (2 ^ 8)) = true → ∀ mask, 0 ≤ mask < 2 ^ 8 → P mask = true.
Proof.
  intros Hall mask Hmask. rewrite forallb_forall in Hall.
  apply Hall, list_elem_of_In, elem_of_seqZ. lia.
Qed.

Lemma comp_cases (P : Z → bool) :
  forallb P (seqZ 0 32) = true → ∀ comp, 0 ≤ comp < 32 → P comp = true.
Proof.
  intros Hall comp Hcomp. rewrite forallb_forall in Hall.
  apply Hall, list_elem_of_In, elem_of_seqZ. lia.
Qed.

Lemma comp_bit_value comp :
  0 ≤ comp < 32 →
  AttributeFlags.comp_bit comp = Ok (if decide (comp = 31) then - 2 ^ 31 else 2 ^ comp).
Proof.
  intros Hcomp. unfold AttributeFlags.comp_bit.
  rewrite bool_decide_eq_true_2 by done. simpl. f_equal.
  rewrite Z.shiftl_1_l. unfold wrap32, to_s32.
  assert (2 ^ comp < 2 ^ 32) by (apply Z.pow_lt_mono_r; lia).
  assert (0 < 2 ^ comp) by (apply Z.pow_pos_nonneg; lia).
  rewrite Z.mod_small by lia.
  destruct (decide (comp = 31)) as [->|Hne]; [done|].
  assert (2 ^ comp < 2 ^ 31) by (apply Z.pow_lt_mono_r; lia).
  by rewrite decide_True.
Qed.

Lemma comp_bit_Ok comp bit : AttributeFlags.comp_bit comp = Ok bit → 0 ≤ comp < 32.
Proof.
  unfold AttributeFlags.comp_bit. case_bool_decide; [done|discriminate].
Qed.

Lemma comp_bit_testbit comp n :
  0 ≤ comp < 32 → 0 ≤ n < 31 →
  Z.testbit (if decide (comp = 31) then - 2 ^ 31 else 2 ^ comp) n = bool_decide (n = comp).
Proof.
  intros Hcomp Hn. destruct (decide (comp = 31)) as [->|Hne].
  - rewrite bool_decide_eq_false_2 by lia.
    change (- 2 ^ 31) with (Z.shiftl (-1) 31). apply Z.shiftl_spec_low. lia.
  - rewrite Z.pow2_bits_eqb by lia.
    destruct (Z.eqb_spec comp n); [by rewrite bool_decide_eq_true_2|
                                   by rewrite bool_decide_eq_false_2].
Qed.

(** What [Get] answers on a byte: the bit of the mask, which is clear for
    every component from 8 on. *)
Lemma land_comp_bit mask comp :
  0 ≤ mask < 2 ^ 8 → 0 ≤ comp < 32 →
  bool_decide (Z.land mask (if decide (comp = 31) then - 2 ^ 31 else 2 ^ comp) ≠ 0) =
  Z.testbit mask comp.
Proof.
  intros Hmask Hcomp.
  set (bit := if decide (comp = 31) then - 2 ^ 31 else 2 ^ comp).
  destruct (Z.testbit mask comp) eqn:Hbit.
  - apply bool_decide_eq_true_2. intros Hz.
    assert (comp < 8).
    { destruct (decide (comp < 8)); [done|].
      rewrite (testbit_small mask 8 comp) in Hbit by lia. done. }
    apply (f_equal (λ z, Z.testbit z comp)) in Hz.
    rewrite Z.land_spec, Hbit, Z.bits_0 in Hz. unfold bit in Hz.
    rewrite comp_bit_testbit, bool_decide_eq_true_2 in Hz by lia. done.
  - apply bool_decide_eq_false_2. intros Hz. apply Hz.
    apply Z.bits_inj'. intros n Hn. rewrite Z.land_spec, Z.bits_0.
    destruct (decide (n < 8)).
    + unfold bit. rewrite comp_bit_testbit by lia.
      case_bool_decide as Hnc; [subst n; by rewrite Hbit|by rewrite andb_false_r].
    + by rewrite (testbit_small mask 8 n) by lia.
Qed.

Lemma Get_lookup flags attrib mask comp :
  flags !! attrib = Some mask → 0 ≤ mask < 2 ^ 8 → 0 ≤ comp < 32 →
  AttributeFlags.Get flags attrib comp = Ok (Z.testbit mask comp).
Proof.
  intros Hl Hmask Hcomp. unfold AttributeFlags.Get, AttributeFlags.Index.
  rewrite Hl. simpl. rewrite comp_bit_value by done. simpl.
  by rewrite land_comp_bit.
Qed.

(** What [Set_] stores into a byte: the mask with the bit of a component
    below 8, the mask itself for a component from 8 on. *)
Lemma lor_comp_bit mask comp :
  0 ≤ mask < 2 ^ 8 → 0 ≤ comp < 32 →
  Z.lor mask (if decide (comp = 31) then - 2 ^ 31 else 2 ^ comp) mod 2 ^ 8 =
  if decide (comp < 8) then Z.lor mask (2 ^ comp) else mask.
Proof.
  intros Hmask Hcomp.
  apply Z.bits_inj'. intros n Hn.
  destruct (decide (n < 8)) as [Hn8|Hn8].
  - rewrite Z.mod_pow2_bits_low, Z.lor_spec by lia.
    rewrite comp_bit_testbit by lia.
    destruct (decide (comp < 8)).
    + rewrite Z.lor_spec, Z.pow2_bits_eqb by lia.
      f_equal. destruct (Z.eqb_spec comp n);
        [by rewrite bool_decide_eq_true_2|by rewrite bool_decide_eq_false_2].
    + rewrite bool_decide_eq_false_2 by lia. by rewrite orb_false_r.
  - rewrite Z.mod_pow2_bits_high by lia.
    destruct (decide (comp < 8)).
    + rewrite Z.lor_spec, Z.pow2_bits_eqb by lia.
      rewrite (testbit_small mask 8 n) by lia.
      destruct (Z.eqb_spec comp n); [lia|done].
    + by rewrite (testbit_small mask 8 n) by lia.
Qed.

Lemma Set_lookup flags attrib mask comp :
  flags !! attrib = Some mask → 0 ≤ mask < 2 ^ 8 → 0 ≤ comp < 32 →
  AttributeFlags.Set_ flags attrib comp =
    Ok (<[attrib := if decide (comp < 8) then Z.lor mask (2 ^ comp) else mask]> flags).
Proof.
  intros Hl Hmask Hcomp. unfold AttributeFlags.Set_, AttributeFlags.Index.
  rewrite Hl. simpl. rewrite comp_bit_value by done. simpl.
  by rewrite lor_comp_bit.
Qed.

Lemma lor_pow2_byte mask comp :
  0 ≤ mask < 2 ^ 8 → 0 ≤ comp < 8 → 0 ≤ Z.lor mask (2 ^ comp) < 2 ^ 8.
Proof.
  intros Hmask Hcomp.
  assert (0 ≤ Z.lor mask (2 ^ comp)) by (apply Z.lor_nonneg; split; [lia|apply Z.pow_nonneg; lia]).
  split; [done|].
  destruct (decide (Z.lor mask (2 ^ comp) = 0)) as [->|Hnz]; [done|].
  apply Z.log2_lt_pow2; [lia|].
  rewrite Z.log2_lor by (try lia; apply Z.pow_nonneg; lia).
  rewrite Z.log2_pow2 by lia.
  destruct (decide (mask = 0)) as [->|Hm]; [simpl; lia|].
  assert (Z.log2 mask < 8) by (apply Z.log2_lt_pow2; lia). lia.
Qed.

Lemma bytes_lookup flags attrib mask :
  AttributeFlags.bytes flags → flags !! attrib = Some mask → 0 ≤ mask < 2 ^ 8.
Proof. intros Hb Hl. by apply (Forall_lookup_1 _ _ _ _ Hb Hl). Qed.

Lemma filter_iff_in {A : Type} (P1 P2 : A → Prop)
    `{!∀ x, Decision (P1 x), !∀ x, Decision (P2 x)} (l : list A) :
  (∀ x, x ∈ l → P1 x ↔ P2 x) → filter P1 l = filter P2 l.
Proof.
  induction l as [|x l IH]; intros Hiff; [done|].
  rewrite !filter_cons.
  rewrite IH by (intros y Hy; apply Hiff; by apply list_elem_of_further).
  pose proof (Hiff x (list_elem_of_here _ _)) as Hx.
  destruct (decide (P1 x)), (decide (P2 x)); tauto || done.
Qed.

Lemma components_lookup flags attrib mask :
  flags !! attrib = Some mask → 0 ≤ mask < 2 ^ 8 →
  AttributeFlags.components flags attrib =
    filter (λ comp, Z.testbit mask comp = true) (seqZ 0 32).
Proof.
  intros Hl Hmask. unfold AttributeFlags.components.
  apply filter_iff_in. intros comp Hcomp%elem_of_seqZ.
  rewrite (Get_lookup _ _ _ _ Hl Hmask) by lia.
  split; congruence.
Qed.

Lemma Set_inv flags attrib comp flags' :
  AttributeFlags.Set_ flags attrib comp = Ok flags' →
  ∃ mask, flags !! attrib = Some mask ∧ 0 ≤ comp < 32.
Proof.
  unfold AttributeFlags.Set_, AttributeFlags.Index. intros Hset.
  apply bind_Ok in Hset as (mask & Hl%of_option_Ok & Hset).
  apply bind_Ok in Hset as (bit & Hbit%comp_bit_Ok & _). eauto.
Qed.

(** X8.  Setting a component below 8 of an attribute makes [Get] report it,
    and changes the answer of [Get] for no other component and no other
    attribute; the array stays an array of bytes. *)
Theorem AttributeFlags_Set_Get (flags flags' : AttributeFlags.t)
    (attrib : AttributeFlags.Attribute) (comp : Z) :
  AttributeFlags.bytes flags →
  AttributeFlags.Set_ flags attrib comp = Ok flags' →
  0 ≤ comp < 8 →
  AttributeFlags.bytes flags' ∧
  AttributeFlags.Get flags' attrib comp = Ok true ∧
  ∀ attrib' comp', (attrib', comp') ≠ (attrib, comp) →
    AttributeFlags.Get flags' attrib' comp' = AttributeFlags.Get flags attrib' comp'.
Proof.
  intros Hbytes Hset Hcomp.
  destruct (Set_inv _ _ _ _ Hset) as (mask & Hl & _).
  pose proof (bytes_lookup _ _ _ Hbytes Hl) as Hmask.
  rewrite (Set_lookup _ _ _ _ Hl Hmask) in Hset by lia.
  rewrite decide_True in Hset by lia. injection Hset as <-.
  pose proof (lor_pow2_byte _ _ Hmask Hcomp) as Hnew.
  assert (Hl' : (<[attrib := Z.lor mask (2 ^ comp)]> flags) !! attrib
                = Some (Z.lor mask (2 ^ comp)))
    by (apply list_lookup_insert_eq; by eapply lookup_lt_Some).
  split; [by apply Forall_insert|]. split.
  - rewrite (Get_lookup _ _ _ _ Hl' Hnew) by lia.
    by rewrite Z.lor_spec, Z.pow2_bits_true, orb_true_r by lia.
  - intros attrib' comp' Hne.
    destruct (decide (attrib' = attrib)) as [->|Ha].
    + destruct (decide (0 ≤ comp' < 32)) as [Hc'|Hc'].
      * rewrite (Get_lookup _ _ _ _ Hl' Hnew), (Get_lookup _ _ _ _ Hl Hmask) by done.
        rewrite Z.lor_spec, Z.pow2_bits_eqb by lia.
        destruct (Z.eqb_spec comp comp'); [congruence|by rewrite orb_false_r].
      * unfold AttributeFlags.Get, AttributeFlags.Index, AttributeFlags.comp_bit.
        rewrite Hl', Hl. simpl. by rewrite bool_decide_eq_false_2.
    + unfold AttributeFlags.Get, AttributeFlags.Index.
      by rewrite list_lookup_insert_ne.
Qed.

Lemma AttributeFlags_Set_Get_witness :
  AttributeFlags.bytes [0; 4; 0; 0] ∧
  AttributeFlags.Get [0; 4; 0; 0] 1%nat 2 = Ok true ∧
  ∀ attrib' comp', (attrib', comp') ≠ (1%nat, 2) →
    AttributeFlags.Get [0; 4; 0; 0] attrib' comp' =
    AttributeFlags.Get sample_flags attrib' comp'.
Proof.
  apply (AttributeFlags_Set_Get sample_flags [0; 4; 0; 0] 1%nat 2).
  - unfold AttributeFlags.bytes, sample_flags. simpl. repeat constructor; lia.
  - reflexivity.
  - lia.
Defined.

(** X9.  A component from 8 to 31 does not fit the byte of an attribute:
    [Set_] leaves the array as it is, and [Get] reports the component as not
    set. *)
Theorem AttributeFlags_high_component_dropped (flags : AttributeFlags.t)
    (attrib : AttributeFlags.Attribute) (comp : Z) :
  AttributeFlags.bytes flags →
  (attrib < length flags)%nat →
  8 ≤ comp < 32 →
  AttributeFlags.Set_ flags attrib comp = Ok flags ∧
  AttributeFlags.Get flags attrib comp = Ok false.
Proof.
  intros Hbytes Hattrib Hcomp.
  destruct (lookup_lt_is_Some_2 flags attrib Hattrib) as [mask Hl].
  pose proof (bytes_lookup _ _ _ Hbytes Hl) as Hmask.
  split.
  - rewrite (Set_lookup _ _ _ _ Hl Hmask) by lia.
    rewrite decide_False by lia. by rewrite list_insert_id.
  - rewrite (Get_lookup _ _ _ _ Hl Hmask) by lia.
    by rewrite (testbit_small mask 8 comp) by lia.
Qed.

Lemma AttributeFlags_high_component_dropped_witness :
  AttributeFlags.Set_ sample_flags 1%nat 8 = Ok sample_flags ∧
  AttributeFlags.Get sample_flags 1%nat 8 = Ok false.
Proof.
  apply (AttributeFlags_high_component_dropped sample_flags 1%nat 8).
  - unfold AttributeFlags.bytes, sample_flags. simpl. repeat constructor; lia.
  - simpl. lia.
  - lia.
Defined.

Lemma NumComponents_lookup flags attrib mask :
  flags !! attrib = Some mask →
  AttributeFlags.NumComponents flags attrib = Ok (AttributeFlags.popcount 8 mask).
Proof.
  intros Hl. unfold AttributeFlags.NumComponents, AttributeFlags.Index. rewrite Hl.
  assert (Hassert : negb (bool_decide (mask = 11)) || negb (bool_decide (mask = 13)) = true).
  { destruct (decide (mask = 11)) as [->|Hne]; [done|].
    by rewrite (bool_decide_eq_false_2 (mask = 11)). }
  cbn -[AttributeFlags.popcount]. rewrite Hassert. done.
Qed.

(** X10.  [NumComponents] of an attribute of the array is the number of
    components for which [Get] answers true, and [GetAny] tells whether there
    is one.  Its [ASSERT] holds for every mask, the masks [0b1011] and
    [0b1101] it names included, so the call does not fail. *)
Theorem NumComponents_counts_components (flags : AttributeFlags.t)
    (attrib : AttributeFlags.Attribute) :
  AttributeFlags.bytes flags →
  (attrib < length flags)%nat →
  AttributeFlags.NumComponents flags attrib =
    Ok (Z.of_nat (length (AttributeFlags.components flags attrib))) ∧
  AttributeFlags.GetAny flags attrib =
    Ok (bool_decide (AttributeFlags.components flags attrib ≠ [])).
Proof.
  intros Hbytes Hattrib.
  destruct (lookup_lt_is_Some_2 flags attrib Hattrib) as [mask Hl].
  pose proof (bytes_lookup _ _ _ Hbytes Hl) as Hmask.
  rewrite (components_lookup _ _ _ Hl Hmask), (NumComponents_lookup _ _ _ Hl).
  unfold AttributeFlags.GetAny, AttributeFlags.Index. rewrite Hl.
  cbn -[AttributeFlags.popcount Z.testbit seqZ].
  assert (Hcase : ∀ m, 0 ≤ m < 2 ^ 8 →
    (AttributeFlags.popcount 8 m =?
       Z.of_nat (length (filter (λ comp, Z.testbit m comp = true) (seqZ 0 32)))) &&
    Bool.eqb (bool_decide (m ≠ 0))
      (bool_decide (filter (λ comp, Z.testbit m comp = true) (seqZ 0 32) ≠ [])) = true).
  { apply (u8_cases (λ m, _)). vm_compute. reflexivity. }
  specialize (Hcase mask Hmask).
  apply andb_true_iff in Hcase as [Hcount%Z.eqb_eq Hany%eqb_prop].
  by rewrite Hcount, Hany.
Qed.

Lemma NumComponents_counts_components_witness :
  AttributeFlags.NumComponents [0; 11; 0; 0] 1%nat =
    Ok (Z.of_nat (length (AttributeFlags.components [0; 11; 0; 0] 1%nat))) ∧
  AttributeFlags.GetAny [0; 11; 0; 0] 1%nat =
    Ok (bool_decide (AttributeFlags.components [0; 11; 0; 0] 1%nat ≠ [])).
Proof.
  apply (NumComponents_counts_components [0; 11; 0; 0] 1%nat).
  - unfold AttributeFlags.bytes. repeat constructor; lia.
  - simpl. lia.
Defined.

(** X11.  Setting a component below 8 raises [NumComponents] of the
    attribute by one when the component was not set, and leaves it when the
    component was set already. *)
Theorem Set_adds_one_component (flags flags' : AttributeFlags.t)
    (attrib : AttributeFlags.Attribute) (comp : Z) :
  AttributeFlags.bytes flags →
  AttributeFlags.Set_ flags attrib comp = Ok flags' →
  0 ≤ comp < 8 →
  ∃ n was_set,
    AttributeFlags.NumComponents flags attrib = Ok n ∧
    AttributeFlags.Get flags attrib comp = Ok was_set ∧
    AttributeFlags.NumComponents flags' attrib = Ok (if was_set then n else n + 1).
Proof.
  intros Hbytes Hset Hcomp.
  destruct (Set_inv _ _ _ _ Hset) as (mask & Hl & _).
  pose proof (bytes_lookup _ _ _ Hbytes Hl) as Hmask.
  rewrite (Set_lookup _ _ _ _ Hl Hmask) in Hset by lia.
  rewrite decide_True in Hset by lia. injection Hset as <-.
  exists (AttributeFlags.popcount 8 mask), (Z.testbit mask comp).
  split; [by apply NumComponents_lookup|].
  split; [apply Get_lookup; (done || lia)|].
  rewrite (NumComponents_lookup _ _ (Z.lor mask (2 ^ comp)))
    by (apply list_lookup_insert_eq; by eapply lookup_lt_Some).
  f_equal.
  assert (Hcase : ∀ m, 0 ≤ m < 2 ^ 8 →
    forallb (λ c, AttributeFlags.popcount 8 (Z.lor m (2 ^ c)) =?
                  (if Z.testbit m c then AttributeFlags.popcount 8 m
                   else AttributeFlags.popcount 8 m + 1))
            (seqZ 0 8) = true).
  { apply (u8_cases (λ m, _)). vm_compute. reflexivity. }
  specialize (Hcase mask Hmask). rewrite forallb_forall in Hcase.
  apply Z.eqb_eq, Hcase, list_elem_of_In, elem_of_seqZ. lia.
Qed.

Lemma Set_adds_one_component_witness :
  ∃ n was_set,
    AttributeFlags.NumComponents sample_flags 1%nat = Ok n ∧
    AttributeFlags.Get sample_flags 1%nat 2 = Ok was_set ∧
    AttributeFlags.NumComponents [0; 4; 0; 0] 1%nat = Ok (if was_set then n else n + 1).
Proof.
  apply (Set_adds_one_component sample_flags [0; 4; 0; 0] 1%nat 2).
  - unfold AttributeFlags.bytes, sample_flags. simpl. repeat constructor; lia.
  - reflexivity.
  - lia.
Defined.

(** ** Sharp tracking *)

Lemma TrackSharp_tracked fuel a h loc : TrackSharp fuel a h = Ok loc → tracked a h loc.
Proof.
  intros Hrun. unfold TrackSharp in Hrun.
  apply bind_Ok in Hrun as (u & Hu & Hrun).
  destruct (skip_phi_chain _ _ _ _ Hu) as (i & Hchain).
  apply bind_Ok in Hrun as (op & (i' & Hi' & Hop)%GetOpcode_Ok & Hrun).
  assert (i' = i) as -> by (destruct Hchain as (_ & ? & _); congruence).
  case_bool_decide as Hud.
  - apply bind_Ok in Hrun as (reg & (i' & ty & Hi'' & Hreg)%Arg_ScalarReg_Ok & Hrun).
    assert (i' = i) as -> by congruence.
    injection Hrun as <-. eapply tracked_user_data; eauto. congruence.
  - apply bind_Ok in Hrun as (_ & Hrc%ASSERT_Ok%bool_decide_eq_true & Hrun).
    apply bind_Ok in Hrun as (off & (i1 & ty & raw & Hi1 & Hoff & <-)%Arg_U32_Ok & Hrun).
    apply bind_Ok in Hrun as (p & (i2 & Hi2 & Hp)%Arg_InstRecursive_Ok & Hrun).
    apply bind_Ok in Hrun as (b0 & (ib & Hib & Hb0)%Arg_InstRecursive_Ok & Hrun).
    apply bind_Ok in Hrun as (b1 & (ib' & Hib' & Hb1)%Arg_InstRecursive_Ok & Hrun).
    apply bind_Ok in Hrun as (u0 & Hu0 & Hrun).
    apply bind_Ok in Hrun as (u1 & Hu1 & Hrun).
    destruct (skip_phi_chain _ _ _ _ Hu0) as (i0 & Hchain0).
    destruct (skip_phi_chain _ _ _ _ Hu1) as (i1' & Hchain1).
    apply bind_Ok in Hrun as (op0 & (j0 & Hj0 & Hop0)%GetOpcode_Ok & Hrun).
    apply bind_Ok in Hrun as (op1 & (j1 & Hj1 & Hop1)%GetOpcode_Ok & Hrun).
    apply bind_Ok in Hrun as (_ & Hboth%ASSERT_Ok & Hrun).
    apply andb_true_iff in Hboth as [H0%bool_decide_eq_true H1%bool_decide_eq_true].
    apply bind_Ok in Hrun as (base & (j0' & ty0 & Hj0' & Hbase)%Arg_ScalarReg_Ok & Hrun).
    injection Hrun as <-.
    assert (i1 = i) as -> by congruence. assert (i2 = i) as -> by congruence.
    assert (ib' = ib) as -> by congruence.
    assert (j0 = i0) as -> by (destruct Hchain0 as (_ & ? & _); congruence).
    assert (j1 = i1') as -> by (destruct Hchain1 as (_ & ? & _); congruence).
    assert (j0' = i0) as -> by congruence.
    eapply (tracked_read_const a h u i ty raw p ib b0 b1 u0 u1 i0 i1' ty0 base);
      eauto; congruence.
Qed.

Lemma tracked_TrackSharp a h loc : tracked a h loc → ∃ fuel, TrackSharp fuel a h = Ok loc.
Proof.
  intros [u i ty reg Hchain Hop Hreg
         |u i ty off p ib b0 b1 u0 u1 i0 i1 ty0 base
            Hchain Hop Hp Hoff Hib Hb0 Hb1 Hchain0 Hchain1 Hop0 Hop1 Hbase].
  - destruct (phi_chain_skip _ _ _ _ Hchain) as [fuel Hfuel].
    destruct Hchain as (_ & Hu & _).
    exists fuel. unfold TrackSharp. rewrite Hfuel. simpl.
    assert (Hg : GetOpcode a u = Ok GetUserData) by (apply GetOpcode_Ok; eauto).
    rewrite Hg. simpl.
    assert (Ha : Arg a u 0 ≫= ScalarReg = Ok reg) by (apply Arg_ScalarReg_Ok; eauto).
    by rewrite Ha.
  - destruct (phi_chain_skip _ _ _ _ Hchain) as [fuel Hfuel].
    destruct (phi_chain_skip _ _ _ _ Hchain0) as [fuel0 Hfuel0].
    destruct (phi_chain_skip _ _ _ _ Hchain1) as [fuel1 Hfuel1].
    destruct Hchain as (_ & Hu & _), Hchain0 as (_ & Hu0 & _), Hchain1 as (_ & Hu1 & _).
    exists (fuel + fuel0 + fuel1)%nat. unfold TrackSharp.
    rewrite (skip_phi_more _ _ _ _ _ Hfuel) by lia. simpl.
    assert (Hg : GetOpcode a u = Ok ReadConst) by (apply GetOpcode_Ok; eauto).
    rewrite Hg. simpl.
    assert (Ha1 : Arg a u 1 ≫= U32 = Ok (wrap32 off)) by (apply Arg_U32_Ok; eauto 10).
    rewrite Ha1. simpl.
    assert (Ha0 : Arg a u 0 ≫= InstRecursive = Ok p)
      by (apply Arg_InstRecursive_Ok; eauto).
    rewrite Ha0. simpl.
    assert (Hp0 : Arg a p 0 ≫= InstRecursive = Ok b0)
      by (apply Arg_InstRecursive_Ok; eauto).
    rewrite Hp0. simpl.
    assert (Hp1 : Arg a p 1 ≫= InstRecursive = Ok b1)
      by (apply Arg_InstRecursive_Ok; eauto).
    rewrite Hp1. simpl.
    rewrite (skip_phi_more _ _ _ _ _ Hfuel0) by lia. simpl.
    rewrite (skip_phi_more _ _ _ _ _ Hfuel1) by lia. simpl.
    assert (Hg0 : GetOpcode a u0 = Ok GetUserData) by (apply GetOpcode_Ok; eauto).
    assert (Hg1 : GetOpcode a u1 = Ok GetUserData) by (apply GetOpcode_Ok; eauto).
    rewrite Hg0. simpl. rewrite Hg1. simpl.
    assert (Hr : Arg a u0 0 ≫= ScalarReg = Ok base) by (apply Arg_ScalarReg_Ok; eauto).
    by rewrite Hr.
Qed.

(** X14.  [TrackSharp] gives a location exactly for the two shapes of a
    handle: a [GetUserData] behind first operands of Phis, with the sentinel
    base and the register as offset; or a [ReadConst] with an immediate
    offset whose pointer operand has two operands that lead, through first
    operands of Phis, to [GetUserData] instructions, with the register of the
    first of them as base.  The register of the second is not looked at. *)
Theorem TrackSharp_tracks (a : list Inst) (h : Handle) (loc : SharpLocation) :
  (∃ fuel, TrackSharp fuel a h = Ok loc) ↔ tracked a h loc.
Proof.
  split; [intros [fuel Hrun]; by eapply TrackSharp_tracked|apply tracked_TrackSharp].
Qed.

Lemma TrackSharp_tracks_witness : tracked sample_sharp_insts 3%nat (mkSharpLocation 12 4).
Proof.
  apply (TrackSharp_tracks sample_sharp_insts 3%nat (mkSharpLocation 12 4)).
  exists 1%nat. vm_compute. reflexivity.
Defined.

(** ** The anisotropy idiom *)

Lemma imm_arg_U32 a h i index z :
  a !! h = Some i → imm_arg i index z → Arg a h index ≫= U32 = Ok z.
Proof. intros Hi (ty & raw & Hv & Hz). apply Arg_U32_Ok. eauto 10. Qed.

Lemma TryDisableAnisoLod0_found a inst prod2 :
  TryDisableAnisoLod0 a inst = Ok (prod2, true) → aniso_idiom a inst prod2.
Proof.
  unfold TryDisableAnisoLod0. intros Hrun.
  apply bind_Ok in Hrun as (op & (i & Hi & Hop)%GetOpcode_Ok & Hrun).
  case_bool_decide as Hsel; simpl in Hrun; [|discriminate].
  apply bind_Ok in Hrun as (prod0 & (i' & Hi' & Hp0)%Arg_InstRecursive_Ok & Hrun).
  assert (i' = i) as -> by congruence.
  apply bind_Ok in Hrun as (op0 & (i0 & Hi0 & Hop0)%GetOpcode_Ok & Hrun).
  apply bind_Ok in Hrun as (zero & Hzero & Hrun).
  destruct zero; simpl in Hrun; [|discriminate].
  case_bool_decide as Heq; simpl in Hzero; [|discriminate].
  apply bind_Ok in Hzero as (v & (i0' & Hi0' & Hv)%Arg_Ok & Hzero).
  assert (i0' = i0) as -> by congruence.
  destruct v as [|ty raw]; simpl in Hzero; [discriminate|].
  injection Hzero as Hzero%bool_decide_eq_true.
  apply bind_Ok in Hrun as (p00 & (i0'' & Hi0'' & Hp00)%Arg_InstRecursive_Ok & Hrun).
  assert (i0'' = i0) as -> by congruence.
  apply bind_Ok in Hrun as (op00 & (i00 & Hi00 & Hop00)%GetOpcode_Ok & Hrun).
  apply bind_Ok in Hrun as (lod & Hlod & Hrun).
  destruct lod; simpl in Hrun; [|discriminate].
  case_bool_decide as Hbfe; simpl in Hlod; [|discriminate].
  apply bind_Ok in Hlod as (k & (i00' & Hi00' & Hk)%Arg_InstRecursive_Ok & Hlod).
  assert (i00' = i00) as -> by congruence.
  apply bind_Ok in Hlod as (z & (ik & tyk & rawk & Hik & Hvk & Hzk)%Arg_U32_Ok & Hlod).
  injection Hlod as Hlod%bool_decide_eq_true.
  apply bind_Ok in Hrun as (prod1 & (j & Hj & Hp1)%Arg_InstRecursive_Ok & Hrun).
  assert (j = i) as -> by congruence.
  apply bind_Ok in Hrun as (op1 & (i1 & Hi1 & Hop1)%GetOpcode_Ok & Hrun).
  apply bind_Ok in Hrun as (mask & Hmask & Hrun).
  destruct mask; simpl in Hrun; [|discriminate].
  case_bool_decide as Hand; simpl in Hmask; [|discriminate].
  apply bind_Ok in Hmask as (z1 & (i1' & ty1 & raw1 & Hi1' & Hv1 & Hz1)%Arg_U32_Ok & Hmask).
  assert (i1' = i1) as -> by congruence.
  injection Hmask as Hmask%bool_decide_eq_true.
  apply bind_Ok in Hrun as (p2 & (j' & Hj' & Hp2)%Arg_InstRecursive_Ok & Hrun).
  assert (j' = i) as -> by congruence.
  apply bind_Ok in Hrun as (op2 & (i2 & Hi2 & Hop2)%GetOpcode_Ok & Hrun).
  destruct (negb (bool_decide (op2 = GetUserData)) && negb (bool_decide (op2 = ReadConst)))
    eqn:Hprod2; [discriminate|].
  injection Hrun as <-.
  exists i, prod0, i0, p00, i00, k, ik, prod1, i1, i2.
  repeat split; try done; try congruence.
  - exists ty, raw. split; [done|]. unfold U32 in Hzero. congruence.
  - exists tyk, rawk. split; [done|]. congruence.
  - exists ty1, raw1. split; [done|]. congruence.
  - apply andb_false_iff in Hprod2 as [Hc|Hc]; apply negb_false_iff, bool_decide_eq_true in Hc;
      [left|right]; congruence.
Qed.

Lemma TryDisableAnisoLod0_idiom a inst prod2 :
  aniso_idiom a inst prod2 → TryDisableAnisoLod0 a inst = Ok (prod2, true).
Proof.
  intros (i & prod0 & i0 & p00 & i00 & k & ik & prod1 & i1 & i2 &
          Hi & Hop & Hp0 & Hp1 & Hp2 & Hi0 & Hop0 & Hp00 & Hzero &
          Hi00 & Hop00 & Hk & Hik & Hbits & Hi1 & Hop1 & Hmask & Hi2 & Hop2).
  unfold TryDisableAnisoLod0.
  rewrite (proj2 (GetOpcode_Ok a inst SelectU32)) by eauto. simpl.
  rewrite (proj2 (Arg_InstRecursive_Ok a inst 0 prod0)) by eauto. simpl.
  rewrite (proj2 (GetOpcode_Ok a prod0 IEqual)) by eauto. simpl.
  destruct Hzero as (ty & raw & Hv & Hz).
  rewrite (proj2 (Arg_Ok a prod0 1 (Imm ty raw))) by eauto. simpl.
  rewrite Hz. simpl.
  rewrite (proj2 (Arg_InstRecursive_Ok a prod0 0 p00)) by eauto. simpl.
  rewrite (proj2 (GetOpcode_Ok a p00 BitFieldUExtract)) by eauto. simpl.
  rewrite (proj2 (Arg_InstRecursive_Ok a p00 1 k)) by eauto. simpl.
  rewrite (imm_arg_U32 _ _ _ _ _ Hik Hbits). simpl.
  rewrite (proj2 (Arg_InstRecursive_Ok a inst 1 prod1)) by eauto. simpl.
  rewrite (proj2 (GetOpcode_Ok a prod1 BitwiseAnd32)) by eauto. simpl.
  rewrite (imm_arg_U32 _ _ _ _ _ Hi1 Hmask). simpl.
  rewrite (proj2 (Arg_InstRecursive_Ok a inst 2 prod2)) by eauto. simpl.
  rewrite (proj2 (GetOpcode_Ok a prod2 (opcode i2))) by eauto. simpl.
  by destruct Hop2 as [->| ->].
Qed.

(** X15.  [TryDisableAnisoLod0] answers true exactly on the idiom, and then
    returns the producer of the third operand of the select; when it answers
    false it returns the instruction it was given. *)
Theorem TryDisableAnisoLod0_recognises_idiom (a : list Inst) (inst : Handle) :
  (∀ prod2, TryDisableAnisoLod0 a inst = Ok (prod2, true) ↔ aniso_idiom a inst prod2) ∧
  (∀ h, TryDisableAnisoLod0 a inst = Ok (h, false) → h = inst).
Proof.
  split.
  - intros prod2. split; [apply TryDisableAnisoLod0_found|apply TryDisableAnisoLod0_idiom].
  - intros h. unfold TryDisableAnisoLod0. intros Hrun.
    repeat first
      [ match type of Hrun with Ok _ = Ok _ => injection Hrun as <-; done end
      | match type of Hrun with
        | (_ ≫= _) = Ok _ => let x := fresh "x" in apply bind_Ok in Hrun as (x & _ & Hrun)
        | (if ?c then _ else _) = Ok _ => destruct c
        end ].
Qed.

Lemma TryDisableAnisoLod0_recognises_idiom_witness :
  aniso_idiom sample_aniso_insts 6%nat 1%nat.
Proof.
  apply (proj1 (TryDisableAnisoLod0_recognises_idiom sample_aniso_insts 6%nat)).
  vm_compute. reflexivity.
Defined.

(** ** The producer search *)

Lemma inst_operands_edge a h i c : a !! h = Some i → c ∈ inst_operands i → operand_edge a h c.
Proof. intros Hi Hc. exists i. done. Qed.

(** X16.  The instruction the producer search of the image patcher returns
    is one of the three recognised producers (a [CompositeConstructU32x2], a
    [ReadConst] or a [GetUserData]) and is reached from an instruction of the
    queue along operand edges. *)
Theorem FindProducer_finds_reachable_producer (fuel : nat) (a : list Inst)
    (queue : list Handle) (producer : Handle) :
  FindProducer fuel a queue = Ok producer →
  (∃ i, a !! producer = Some i ∧
        (opcode i = CompositeConstructU32x2 ∨ opcode i = ReadConst ∨
         opcode i = GetUserData)) ∧
  ∃ start, start ∈ queue ∧ rtc (operand_edge a) start producer.
Proof.
  revert queue. induction fuel as [|fuel IH]; intros [|h rest]; simpl; try discriminate.
  intros Hrun. apply bind_Ok in Hrun as (i & Hi%GetInst_Ok & Hrun).
  destruct (producer_pred (opcode i)) eqn:Hpred.
  - injection Hrun as <-. split.
    + exists i. split; [done|]. unfold producer_pred in Hpred.
      apply orb_true_iff in Hpred as [Hpred|Hpred%bool_decide_eq_true]; [|auto].
      apply orb_true_iff in Hpred as [Hpred%bool_decide_eq_true|Hpred%bool_decide_eq_true];
        auto.
    + exists h. split; [apply list_elem_of_here|apply rtc_refl].
  - destruct (IH _ Hrun) as [Hfound (start & Hstart & Hreach)].
    split; [done|].
    apply elem_of_app in Hstart as [Hstart|Hstart].
    + exists start. split; [by apply list_elem_of_further|done].
    + exists h. split; [apply list_elem_of_here|].
      eapply rtc_l; [|exact Hreach]. by eapply inst_operands_edge.
Qed.

Lemma FindProducer_finds_reachable_producer_witness :
  (∃ i, insts (sample_image_program 0) !! 2%nat = Some i ∧
        (opcode i = CompositeConstructU32x2 ∨ opcode i = ReadConst ∨
         opcode i = GetUserData)) ∧
  ∃ start, start ∈ [4%nat] ∧ rtc (operand_edge (insts (sample_image_program 0))) start 2%nat.
Proof.
  apply (FindProducer_finds_reachable_producer 4 (insts (sample_image_program 0)) [4%nat]).
  reflexivity.
Defined.

Ltac run_inv H :=
  lazymatch type of H with
  | Ok _ = Ok _ => idtac
  | Abort = Ok _ => discriminate H
  | Timeout = Ok _ => discriminate H
  | (_ ≫= _) = Ok _ =>
      let x := fresh "r" in
      let Hx := fresh "Hr" in
      apply bind_Ok in H as (x & Hx & H); run_inv H
  | (if ?c then _ else _) = Ok _ =>
      let E := fresh "Hc" in destruct c eqn:E; run_inv H
  | (let '(_, _) := ?p in _) = Ok _ => destruct p; run_inv H
  | _ => idtac
  end.

(** ** The frame of a patch *)

Lemma patched_refl from block inst s : patched from block inst s s.
Proof.
  split; try done.
  - intros i Hi. exists i. done.
  - intros h i' Hh Hi'. apply lookup_lt_Some in Hi'. lia.
  - intros b l' Hl'. exists l'. repeat split; auto.
Qed.

Lemma patched_trans from block inst s1 s2 s3 :
  patched from block inst s1 s2 → patched from block inst s2 s3 →
  patched from block inst s1 s3.
Proof.
  intros [D1 L1 O1 I1 N1 BL1 B1] [D2 L2 O2 I2 N2 BL2 B2]. split.
  - congruence.
  - lia.
  - intros h i Hne Hi. eauto.
  - intros i Hi. destruct (I1 i Hi) as (i2 & Hi2 & Hop2 & Hf2 & Hl2 & Ht2).
    destruct (I2 i2 Hi2) as (i3 & Hi3 & Hop3 & Hf3 & Hl3 & Ht3).
    exists i3. repeat split; congruence.
  - intros h i3 Hh Hi3.
    destruct (decide (h < length (insts s2))%nat) as [Hlt|Hge]; [|apply (N2 h); [lia|done]].
    destruct (lookup_lt_is_Some_2 _ _ Hlt) as [i2 Hi2].
    pose proof (N1 h i2 Hh Hi2) as Hres.
    destruct (decide (h = inst)) as [->|Hne].
    + destruct (I2 i2 Hi2) as (i3' & Hi3' & Hop & _). congruence.
    + rewrite (O2 h i2 Hne Hi2) in Hi3. congruence.
  - congruence.
  - intros b l3 Hl3.
    destruct (B2 b l3 Hl3) as (l2 & Hl2 & Hsub2 & Heq2 & Hin2).
    destruct (B1 b l2 Hl2) as (l1 & Hl1 & Hsub1 & Heq1 & Hin1).
    exists l1. split; [done|]. split; [by etrans|]. split.
    + intros Hne. rewrite Heq2, Heq1 by done. done.
    + intros h Hh. destruct (Hin2 h Hh) as [Hh2|Hh2]; [|right; lia].
      destruct (Hin1 h Hh2) as [Hh1|Hh1]; [by left|right; lia].
Qed.

Lemma insert_before_sublist before new l : l `sublist_of` insert_before before new l.
Proof.
  induction l as [|h l IH]; simpl; [done|].
  case_decide.
  - by apply sublist_cons.
  - by apply sublist_skip.
Qed.

Lemma insert_before_elem before new l h :
  h ∈ insert_before before new l → h ∈ l ∨ h = new.
Proof.
  induction l as [|x l IH]; simpl; [by left|].
  case_decide.
  - intros [->|Hh]%elem_of_cons; [by right|by left].
  - intros [->|Hh]%elem_of_cons; [left; apply list_elem_of_here|].
    destruct (IH Hh) as [?|?]; [left; by apply list_elem_of_further|by right].
Qed.

Lemma update_patched from block inst s s' :
  update from block inst s s' → patched from block inst s s'.
Proof.
  intros [index v s0 s0' Hfrom Hset|op operands s0 Hop].
  - apply SetArg_inv in Hset as (i & Hi & Hlt & ->). split; simpl.
    + done.
    + by rewrite length_insert.
    + intros h i0 Hne Hi0. by rewrite list_lookup_insert_ne.
    + intros i0 Hi0. assert (i0 = i) as -> by congruence.
      eexists. split; [apply list_lookup_insert_eq; by eapply lookup_lt_Some|].
      simpl. repeat split; [by rewrite length_insert|].
      by rewrite take_insert_ge.
    + intros h i' Hh Hi'. apply lookup_lt_Some in Hi'. rewrite length_insert in Hi'. lia.
    + done.
    + intros b l' Hl'. exists l'. repeat split; auto.
  - rewrite emit_spec. split; simpl.
    + done.
    + rewrite length_app. lia.
    + intros h i _ Hi. by apply lookup_app_l_Some.
    + intros i Hi. exists i. split; [by apply lookup_app_l_Some|done].
    + intros h i' Hh Hi'.
      assert (h = length (insts s0)) as ->.
      { apply lookup_lt_Some in Hi'. rewrite length_app in Hi'. simpl in Hi'. lia. }
      rewrite lookup_snoc in Hi'. by injection Hi' as <-.
    + by rewrite length_alter.
    + intros b l' Hl'.
      destruct (decide (b = block)) as [->|Hne].
      * rewrite list_lookup_alter, decide_True in Hl' by done.
        destruct (blocks s0 !! block) as [l|] eqn:Hl; simpl in Hl'; [|discriminate].
        injection Hl' as <-. exists l. split; [done|].
        split; [apply insert_before_sublist|]. split; [done|].
        intros h Hh. destruct (insert_before_elem _ _ _ _ Hh) as [Hh'| ->]; [by left|right].
        rewrite length_app. simpl. lia.
      * rewrite list_lookup_alter_ne in Hl' by done.
        exists l'. repeat split; auto.
Qed.

Lemma updates_patched from block inst s s' :
  rtc (update from block inst) s s' → patched from block inst s s'.
Proof.
  induction 1 as [s|s1 s2 s3 Hstep _ IH]; [apply patched_refl|].
  eapply patched_trans; [by apply update_patched|done].
Qed.

(** ** What a patcher registers and rewrites *)

Lemma BufferDataType_Ok_buffer op ty :
  BufferDataType op = Ok ty → IsBufferInstruction op = true.
Proof. by destruct op. Qed.

Section Shapes.
Context `{External}.

Lemma TryHandleInlineCbuf_registers inst info cbuf s binding cbuf' s' :
  TryHandleInlineCbuf inst info cbuf s = Ok (binding, cbuf', s') →
  (binding = -1 ∧ cbuf' = cbuf ∧ s' = s) ∨
  ∃ index desc i ty,
    binding = Z.of_nat index ∧
    insts s !! inst = Some i ∧ IsBufferInstruction (opcode i) = true ∧
    Descriptors.Add_buffer (descriptors s) desc = Ok (index, descriptors s') ∧
    insts s' = insts s ∧ blocks s' = blocks s ∧
    BufferResource.stride desc = Buffer_GetStride cbuf' ∧
    BufferResource.num_records desc = wrap32 (Buffer_num_records cbuf') ∧
    BufferDataType (opcode i) = Ok ty ∧
    BufferResource.used_types desc = Type_mask ty ∧
    BufferResource.is_storage desc =
      IsBufferStore (opcode i) || bool_decide (MaxUboSize < Buffer_GetSize cbuf') ∧
    BufferResource.sgpr_base desc = 2 ^ 32 - 1 ∧
    BufferResource.dword_offset desc = 0 ∧
    BufferResource.inline_cbuf desc = cbuf'.
Proof.
  unfold TryHandleInlineCbuf. intros Hrun.
  run_inv Hrun; try (injection Hrun as <- <- <-; by left).
  injection Hrun as <- <- <-. right.
  match goal with
  | Hop : GetOpcode _ inst = Ok _ |- _ => apply GetOpcode_Ok in Hop as (i & Hi & <-)
  end.
  match goal with
  | Hty : BufferDataType _ = Ok ?ty,
    Hadd : Descriptors.Add_buffer _ ?desc = Ok (?index, _) |- _ =>
      exists index, desc, i, ty; simpl;
      repeat split; try done; by eapply BufferDataType_Ok_buffer
  end.
Qed.

Lemma PatchBufferInstruction_sharp_registers fuel inst info s binding buffer s1 :
  PatchBufferInstruction_sharp fuel inst info s = Ok (binding, buffer, s1) →
  ∃ index desc i ty,
    binding = Z.of_nat index ∧
    insts s !! inst = Some i ∧ IsBufferInstruction (opcode i) = true ∧
    Descriptors.Add_buffer (descriptors s) desc = Ok (index, descriptors s1) ∧
    insts s1 = insts s ∧ blocks s1 = blocks s ∧
    BufferResource.stride desc = Buffer_GetStride buffer ∧
    BufferResource.num_records desc = wrap32 (Buffer_num_records buffer) ∧
    BufferDataType (opcode i) = Ok ty ∧
    BufferResource.used_types desc = Type_mask ty ∧
    BufferResource.is_storage desc =
      IsBufferStore (opcode i) || bool_decide (MaxUboSize < Buffer_GetSize buffer) ∧
    (BufferResource.inline_cbuf desc = buffer ∨
     (BufferResource.inline_cbuf desc = Buffer_zero ∧
      ReadUd_Buffer info (BufferResource.sgpr_base desc) (BufferResource.dword_offset desc)
        = Ok buffer)) ∧
    ((BufferResource.sgpr_base desc = 2 ^ 32 - 1 ∧ BufferResource.dword_offset desc = 0 ∧
      BufferResource.inline_cbuf desc = buffer) ∨
     (∃ handle producer loc,
        Arg (insts s) inst 0 = Ok (InstRef handle) ∧
        Arg (insts s) handle 0 = Ok (InstRef producer) ∧
        TrackSharp fuel (insts s) producer = Ok loc ∧
        ReadUd_Buffer info (sl_sgpr_base loc) (sl_dword_offset loc) = Ok buffer ∧
        BufferResource.sgpr_base desc = sl_sgpr_base loc ∧
        BufferResource.dword_offset desc = sl_dword_offset loc ∧
        BufferResource.inline_cbuf desc = Buffer_zero)).
Proof.
  unfold PatchBufferInstruction_sharp. intros Hrun.
  apply bind_Ok in Hrun as ([[b0 c0] s0] & Htry & Hrun).
  apply TryHandleInlineCbuf_registers in Htry
    as [(-> & -> & ->)|(index & desc & i & ty & -> & Hi & Hbuf & Hadd & Hi0 & Hb0 & Hs & Hn &
                         Hty & Hused & Hstorage & Hbase & Hoff & Hc)].
  - rewrite bool_decide_eq_true_2 in Hrun by done.
    apply bind_Ok in Hrun as (handle & Hhandle & Hrun).
    apply bind_Ok in Hrun as (producer & Hproducer & Hrun).
    apply bind_Ok in Hrun as (loc & Hloc & Hrun).
    run_inv Hrun. injection Hrun as <- <- <-.
    match goal with
    | Hop : GetOpcode _ inst = Ok _ |- _ => apply GetOpcode_Ok in Hop as (i & Hi & <-)
    end.
    apply Arg_InstRecursive_Ok in Hhandle, Hproducer.
    match goal with
    | Hty : BufferDataType _ = Ok ?ty,
      Hadd : Descriptors.Add_buffer _ ?desc = Ok (?index, _) |- _ =>
        exists index, desc, i, ty; simpl;
        repeat split; try done;
          [by eapply BufferDataType_Ok_buffer|by right|
           right; exists handle, producer, loc;
           repeat split; try done; by apply Arg_Ok]
    end.
  - rewrite bool_decide_eq_false_2 in Hrun by lia. injection Hrun as <- <- <-.
    exists index, desc, i, ty. repeat split; try done; by left.
Qed.

Lemma emit_update from block inst op operands s v s' :
  emit block inst op operands s = (v, s') → is_resource op = false →
  update from block inst s s'.
Proof.
  intros Hemit Hop. replace s' with (emit block inst op operands s).2 by (by rewrite Hemit).
  by constructor.
Qed.

Lemma CompositeConstruct_opcode_cases ty operands :
  CompositeConstruct_opcode ty operands = CompositeConstructU32x2 ∨
  CompositeConstruct_opcode ty operands = CompositeConstruct.
Proof.
  destruct operands as [|e1 [|e2 [|e3 rest]]]; simpl; auto.
  destruct (bool_decide (ty = Type_U32)); auto.
Qed.

Lemma ir_CompositeConstruct_update from block inst operands s v s' :
  ir_CompositeConstruct block inst operands s = Ok (v, s') → update from block inst s s'.
Proof.
  unfold ir_CompositeConstruct. intros Hrun.
  apply bind_Ok in Hrun as (e1 & _ & Hrun).
  apply bind_Ok in Hrun as (ty & _ & Hrun).
  assert (Hemit : emit block inst (CompositeConstruct_opcode ty operands) operands s
                  = (v, s')) by congruence.
  eapply emit_update; [exact Hemit|].
  by destruct (CompositeConstruct_opcode_cases ty operands) as [-> | ->].
Qed.

#[local] Opaque emit.

Ltac emit_inv from H :=
  match type of H with
  | context [emit ?b ?i ?op ?ops ?s] =>
      let v := fresh "v" in
      let s' := fresh "s" in
      let E := fresh "E" in
      destruct (emit b i op ops s) as [v s'] eqn:E;
      apply (emit_update from) in E; [|reflexivity]
  end.

Lemma PatchBufferInstruction_rewrite_updates block inst binding buffer s s' :
  PatchBufferInstruction_rewrite block inst binding buffer s = Ok s' →
  Buffer_swizzle_enable buffer = false ∧ Buffer_add_tid_enable buffer = false ∧
  ∃ s1, SetArg inst 0 (Imm32 binding) s = Ok s1 ∧ rtc (update 1 block inst) s1 s'.
Proof.
  unfold PatchBufferInstruction_rewrite. intros Hrun.
  apply bind_Ok in Hrun as (i & Hi & Hrun).
  apply bind_Ok in Hrun as (s1 & Hset & Hrun).
  apply bind_Ok in Hrun as (_ & Hswz%ASSERT_Ok & Hrun).
  apply andb_true_iff in Hswz as [Hswz%negb_true_iff Htid%negb_true_iff].
  split; [done|]. split; [done|]. exists s1. split; [done|].
  apply bind_Ok in Hrun as (_ & _ & Hrun).
  apply bind_Ok in Hrun as (inst_op & _ & Hrun).
  destruct (bool_decide (inst_op = ReadConstBuffer) || bool_decide (inst_op = ReadConstBufferU32)).
  { injection Hrun as <-. apply rtc_refl. }
  apply bind_Ok in Hrun as ([address s2] & Haddr & Hrun).
  assert (Hemit : rtc (update 1 block inst) s1 s2).
  { destruct (index_enable _ && offset_enable _).
    - apply bind_Ok in Haddr as (arg1 & _ & Haddr).
      repeat emit_inv 1%nat Haddr. injection Haddr as <- <-.
      repeat (eapply rtc_l; [eassumption|]). apply rtc_refl.
    - destruct (index_enable _).
      + apply bind_Ok in Haddr as (index & _ & Haddr).
        repeat emit_inv 1%nat Haddr. injection Haddr as <- <-.
        repeat (eapply rtc_l; [eassumption|]). apply rtc_refl.
      + destruct (offset_enable _).
        * apply bind_Ok in Haddr as (offset & _ & Haddr). injection Haddr as <- <-.
          apply rtc_refl.
        * injection Haddr as <- <-. apply rtc_refl. }
  eapply rtc_r; [exact Hemit|]. by apply (update_SetArg 1 block inst 1%nat address).
Qed.

(** The buffer patcher: one registration, the binding index as operand 0,
    then changes to the operands from position 1 on and emitted
    instructions. *)
Lemma PatchBufferInstruction_shape fuel block inst info s s' :
  PatchBufferInstruction fuel block inst info s = Ok s' →
  ∃ index desc i ty buffer d s1,
    insts s !! inst = Some i ∧ IsBufferInstruction (opcode i) = true ∧
    Descriptors.Add_buffer (descriptors s) desc = Ok (index, d) ∧
    BufferResource.stride desc = Buffer_GetStride buffer ∧
    BufferResource.num_records desc = wrap32 (Buffer_num_records buffer) ∧
    BufferDataType (opcode i) = Ok ty ∧
    BufferResource.used_types desc = Type_mask ty ∧
    BufferResource.is_storage desc =
      IsBufferStore (opcode i) || bool_decide (MaxUboSize < Buffer_GetSize buffer) ∧
    (BufferResource.inline_cbuf desc = buffer ∨
     (BufferResource.inline_cbuf desc = Buffer_zero ∧
      ReadUd_Buffer info (BufferResource.sgpr_base desc) (BufferResource.dword_offset desc)
        = Ok buffer)) ∧
    ((BufferResource.sgpr_base desc = 2 ^ 32 - 1 ∧ BufferResource.dword_offset desc = 0 ∧
      BufferResource.inline_cbuf desc = buffer) ∨
     (∃ handle producer loc,
        Arg (insts s) inst 0 = Ok (InstRef handle) ∧
        Arg (insts s) handle 0 = Ok (InstRef producer) ∧
        TrackSharp fuel (insts s) producer = Ok loc ∧
        ReadUd_Buffer info (sl_sgpr_base loc) (sl_dword_offset loc) = Ok buffer ∧
        BufferResource.sgpr_base desc = sl_sgpr_base loc ∧
        BufferResource.dword_offset desc = sl_dword_offset loc ∧
        BufferResource.inline_cbuf desc = Buffer_zero)) ∧
    Buffer_swizzle_enable buffer = false ∧ Buffer_add_tid_enable buffer = false ∧
    SetArg inst 0 (Imm32 (Z.of_nat index)) (mkState (insts s) (blocks s) d) = Ok s1 ∧
    rtc (update 1 block inst) s1 s'.
Proof.
  unfold PatchBufferInstruction. intros Hrun.
  apply bind_Ok in Hrun as ([[binding buffer] s0] & Hsharp & Hrun).
  apply PatchBufferInstruction_sharp_registers in Hsharp
    as (index & desc & i & ty & -> & Hi & Hbuf & Hadd & Hi0 & Hb0 & Hs & Hn & Hty & Hused &
        Hstorage & Hc & Hident).
  apply PatchBufferInstruction_rewrite_updates in Hrun as (Hswz & Htid & s1 & Hset & Hupd).
  exists index, desc, i, ty, buffer, (descriptors s0), s1.
  repeat split; try done.
  destruct s0 as [insts0 blocks0 d0]. simpl in *. by subst.
Qed.

(** The image patcher: the registration of the image and, when the handle
    has one, of the sampler; the two indices as operand 0; then changes to
    the operands from position 1 on and emitted instructions. *)
Lemma PatchImageInstruction_shape fuel block inst info s s' :
  PatchImageInstruction fuel block inst info s = Ok s' →
  ∃ image_index image_desc d1 binding d s1 i,
    insts s !! inst = Some i ∧
    Descriptors.Add_image (descriptors s) image_desc = Ok (image_index, d1) ∧
    (∃ producer ip tsharp_handle tsharp image,
       FindProducer fuel (insts s) [inst] = Ok producer ∧
       insts s !! producer = Some ip ∧
       ((opcode ip = CompositeConstructU32x2 ∧
         args ip !! 0%nat = Some (InstRef tsharp_handle)) ∨
        (opcode ip ≠ CompositeConstructU32x2 ∧ tsharp_handle = producer)) ∧
       TrackSharp fuel (insts s) tsharp_handle = Ok tsharp ∧
       ReadUd_Image info (sl_sgpr_base tsharp) (sl_dword_offset tsharp) = Ok image ∧
       ImageResource.sgpr_base image_desc = sl_sgpr_base tsharp ∧
       ImageResource.dword_offset image_desc = sl_dword_offset tsharp ∧
       ImageResource.type image_desc = Image_GetType image ∧
       ImageResource.nfmt image_desc = Image_GetNumberFmt image) ∧
    ImageResource.is_storage image_desc = IsImageStorageInstruction (opcode i) ∧
    (opcode i ≠ ImageQueryDimensions →
     ∀ raw, ImageResource.type image_desc ≠ ImageTypeOther raw) ∧
    ((binding = Z.of_nat image_index ∧ d = d1) ∨
     (∃ sampler_index sampler_desc,
        Descriptors.Add_sampler d1 sampler_desc = Ok (sampler_index, d) ∧
        SamplerResource.associated_image sampler_desc = Z.of_nat image_index mod 16 ∧
        binding = Z.lor (Z.of_nat image_index)
                    (wrap32 (Z.shiftl (Z.of_nat sampler_index) 16)))) ∧
    SetArg inst 0 (Imm32 binding) (mkState (insts s) (blocks s) d) = Ok s1 ∧
    rtc (update 1 block inst) s1 s'.
Proof.
  unfold PatchImageInstruction. intros Hrun.
  apply bind_Ok in Hrun as (producer & Hproducer & Hrun).
  apply bind_Ok in Hrun as (producer_op & (ip & Hip & <-)%GetOpcode_Ok & Hrun).
  apply bind_Ok in Hrun as ([tsharp_handle ssharp_handle] & Hhandles & Hrun).
  apply bind_Ok in Hrun as (tsharp & Htsharp & Hrun).
  apply bind_Ok in Hrun as (image & Himg & Hrun).
  apply bind_Ok in Hrun as (i & Hi%GetInst_Ok & Hrun).
  apply bind_Ok in Hrun as ([image_index d1] & Himage & Hrun).
  apply bind_Ok in Hrun as ([binding d] & Hsampler & Hrun).
  apply bind_Ok in Hrun as (s1 & Hset & Hrun).
  eexists image_index, _, d1, binding, d, s1, i.
  split; [done|]. split; [exact Himage|]. split.
  { exists producer, ip, tsharp_handle, tsharp, image. simpl.
    repeat split; try done.
    destruct (decide (opcode ip = CompositeConstructU32x2)) as [Hcc|Hcc];
      [rewrite bool_decide_eq_true_2 in Hhandles by done
      |rewrite bool_decide_eq_false_2 in Hhandles by done].
    - apply bind_Ok in Hhandles as (t & (ip' & Hip' & Ht)%Arg_InstRecursive_Ok & Hhandles).
      apply bind_Ok in Hhandles as (ss & _ & Hhandles). injection Hhandles as <- <-.
      left. split; [done|]. congruence.
    - injection Hhandles as <- <-. by right. }
  split; [done|]. split.
  { simpl. intros Hquery raw Htype.
    rewrite bool_decide_eq_false_2 in Hrun by done.
    apply bind_Ok in Hrun as (body & _ & Hrun).
    apply bind_Ok in Hrun as (r & Hcoords & _).
    rewrite Htype in Hcoords. discriminate. }
  split.
  { destruct ssharp_handle as [ssharp_handle|].
    - apply bind_Ok in Hsampler as ([ssharp_ud disable_aniso] & _ & Hsampler).
      apply bind_Ok in Hsampler as (ssharp & _ & Hsampler).
      apply bind_Ok in Hsampler as ([sampler_index d2] & Hadd & Hsampler).
      injection Hsampler as <- <-. right. eauto.
    - injection Hsampler as <- <-. by left. }
  split; [done|].
  destruct (bool_decide (opcode i = ImageQueryDimensions)).
  { injection Hrun as <-. apply rtc_refl. }
  apply bind_Ok in Hrun as (body & _ & Hrun).
  apply bind_Ok in Hrun as ([[coords arg] s2] & Hcoords & Hrun).
  assert (Hs2 : rtc (update 1 block inst) s1 s2).
  { destruct (Image_GetType image);
      repeat (let x := fresh "b" in let Hx := fresh "Hb" in
              apply bind_Ok in Hcoords as (x & Hx & Hcoords));
      try discriminate Hcoords;
      try unfold PatchCubeCoord in Hcoords;
      repeat emit_inv 1%nat Hcoords;
      repeat match goal with x : (Value * State)%type |- _ => destruct x end;
      injection Hcoords as <- <- <-;
      repeat match goal with
             | Hcc : ir_CompositeConstruct _ _ _ _ = Ok _ |- _ =>
                 apply (ir_CompositeConstruct_update 1%nat) in Hcc
             end;
      repeat (eapply rtc_l; [eassumption|]); apply rtc_refl. }
  apply bind_Ok in Hrun as (s3 & Hset1 & Hrun).
  assert (Hs3 : rtc (update 1 block inst) s2 s3)
    by (by apply rtc_once, (update_SetArg 1 block inst 1%nat coords)).
  apply bind_Ok in Hrun as (s4 & Hoffset & Hrun).
  assert (Hs4 : rtc (update 1 block inst) s3 s4).
  { destruct (has_offset _); [|injection Hoffset as <-; apply rtc_refl].
    apply bind_Ok in Hoffset as (offset_arg & _ & Hoffset).
    apply bind_Ok in Hoffset as (_ & _ & Hoffset).
    apply bind_Ok in Hoffset as (raw & _ & Hoffset).
    apply bind_Ok in Hoffset as ([value s3'] & Hvalue & Hoffset).
    apply (ir_CompositeConstruct_update 1%nat) in Hvalue.
    eapply rtc_l; [exact Hvalue|]. apply rtc_once.
    eapply (update_SetArg 1 block inst); [|exact Hoffset].
    destruct (is_depth _); lia. }
  apply bind_Ok in Hrun as (s5 & Hclamp & Hrun).
  assert (Hs5 : rtc (update 1 block inst) s4 s5).
  { destruct (has_lod_clamp _); [|injection Hclamp as <-; apply rtc_refl].
    apply rtc_once. eapply (update_SetArg 1 block inst); [|exact Hclamp].
    destruct (is_depth _); lia. }
  assert (Hs' : rtc (update 1 block inst) s5 s').
  { destruct (explicit_lod _); [|injection Hrun as <-; apply rtc_refl].
    apply bind_Ok in Hrun as (_ & _ & Hrun).
    apply rtc_once. eapply (update_SetArg 1 block inst); [|exact Hrun].
    case_bool_decide; lia. }
  repeat (etrans; [eassumption|]). done.
Qed.

End Shapes.

(** ** The program across patches *)

Lemma evolves_refl s : evolves s s.
Proof.
  split; try done.
  - intros h i Hi. exists i. done.
  - intros h i' Hh Hi'. apply lookup_lt_Some in Hi'. lia.
  - intros b l' Hl'. exists l'. repeat split; auto.
Qed.

Lemma evolves_trans s1 s2 s3 : evolves s1 s2 → evolves s2 s3 → evolves s1 s3.
Proof.
  intros [S1 L1 O1 N1 BL1 B1] [S2 L2 O2 N2 BL2 B2]. split.
  - by etrans.
  - lia.
  - intros h i Hi. destruct (O1 h i Hi) as (i2 & Hi2 & Hop2 & Hf2 & Hl2 & He2).
    destruct (O2 h i2 Hi2) as (i3 & Hi3 & Hop3 & Hf3 & Hl3 & He3).
    exists i3. repeat split; try congruence.
    intros Hres. rewrite <- (He2 Hres). apply He3. by rewrite Hop2.
  - intros h i3 Hh Hi3.
    destruct (decide (h < length (insts s2))%nat) as [Hlt|Hge]; [|apply (N2 h); [lia|done]].
    destruct (lookup_lt_is_Some_2 _ _ Hlt) as [i2 Hi2].
    pose proof (N1 h i2 Hh Hi2) as Hres.
    destruct (O2 h i2 Hi2) as (i3' & Hi3' & Hop & _). congruence.
  - congruence.
  - intros b l3 Hl3.
    destruct (B2 b l3 Hl3) as (l2 & Hl2 & Hsub2 & Hin2).
    destruct (B1 b l2 Hl2) as (l1 & Hl1 & Hsub1 & Hin1).
    exists l1. split; [done|]. split; [by etrans|].
    intros h Hh. destruct (Hin2 h Hh) as [Hh2|Hh2]; [|right; lia].
    destruct (Hin1 h Hh2) as [Hh1|Hh1]; [by left|right; lia].
Qed.

Lemma patched_evolves from block inst s s0 s' :
  patched from block inst s0 s' →
  insts s0 = insts s → blocks s0 = blocks s →
  rtc Descriptors.step (descriptors s) (descriptors s0) →
  (∀ i, insts s !! inst = Some i → is_resource (opcode i) = true) →
  evolves s s'.
Proof.
  intros [D L O I N BL B] Hi Hb Hsteps Hres. rewrite Hi, Hb in *. split.
  - by rewrite D.
  - done.
  - intros h i Hh. destruct (decide (h = inst)) as [->|Hne].
    + destruct (I i Hh) as (i' & Hi' & Hop & Hf & Hl & _).
      exists i'. repeat split; try done. intros Hnr. rewrite (Hres i Hh) in Hnr. done.
    + exists i. split; [by apply O|done].
  - done.
  - done.
  - intros b l' Hl'. destruct (B b l' Hl') as (l & Hl & Hsub & _ & Hin). eauto.
Qed.

Section PassFrame.
Context `{External}.

Lemma PatchBufferInstruction_patched fuel block inst info s s' :
  PatchBufferInstruction fuel block inst info s = Ok s' →
  ∃ d, rtc Descriptors.step (descriptors s) d ∧
       patched 0 block inst (mkState (insts s) (blocks s) d) s'.
Proof.
  intros Hrun. apply PatchBufferInstruction_shape in Hrun
    as (index & desc & i & ty & buffer & d & s1 & Hi & Hbuf & Hadd & _ & _ & _ & _ & _ & _ &
        _ & _ & _ & Hset & Hupd).
  exists d. split; [by eapply rtc_once, Descriptors.step_buffer|].
  eapply patched_trans.
  - apply update_patched. eapply (update_SetArg 0 block inst 0%nat); [lia|exact Hset].
  - apply updates_patched. eapply rtc_subrel; [|exact Hupd].
    intros x y [index' v s2 s2' Hfrom Hs|op operands s2 Hop].
    + eapply update_SetArg; [lia|exact Hs].
    + by apply update_emit.
Qed.

Lemma PatchImageInstruction_patched fuel block inst info s s' :
  PatchImageInstruction fuel block inst info s = Ok s' →
  ∃ d, rtc Descriptors.step (descriptors s) d ∧
       patched 0 block inst (mkState (insts s) (blocks s) d) s'.
Proof.
  intros Hrun. apply PatchImageInstruction_shape in Hrun
    as (image_index & image_desc & d1 & binding & d & s1 & i & Hi & Himage & _ & _ & _ &
        Hsampler & Hset & Hupd).
  exists d. split.
  { eapply rtc_l; [eapply Descriptors.step_image, Himage|].
    destruct Hsampler as [[_ ->]|(sampler_index & sampler_desc & Hadd & _)];
      [apply rtc_refl|by eapply rtc_once, Descriptors.step_sampler]. }
  eapply patched_trans.
  - apply update_patched. eapply (update_SetArg 0 block inst 0%nat); [lia|exact Hset].
  - apply updates_patched. eapply rtc_subrel; [|exact Hupd].
    intros x y [index' v s2 s2' Hfrom Hs|op operands s2 Hop].
    + eapply update_SetArg; [lia|exact Hs].
    + by apply update_emit.
Qed.

Lemma visit_inst_patched fuel info block inst s s' :
  visit_inst fuel info block inst s = Ok s' →
  s' = s ∨
  (∃ i, insts s !! inst = Some i ∧ is_resource (opcode i) = true) ∧
  ∃ d, rtc Descriptors.step (descriptors s) d ∧
       patched 0 block inst (mkState (insts s) (blocks s) d) s'.
Proof.
  unfold visit_inst. intros Hrun.
  apply bind_Ok in Hrun as (op & (i & Hi & <-)%GetOpcode_Ok & Hrun).
  destruct (IsBufferInstruction (opcode i)) eqn:Hbuf.
  - right. split; [exists i; split; [done|]; unfold is_resource; by rewrite Hbuf|].
    by eapply PatchBufferInstruction_patched.
  - destruct (IsImageInstruction (opcode i)) eqn:Himg.
    + right. split; [exists i; split; [done|]; unfold is_resource; by rewrite Hbuf, Himg|].
      by eapply PatchImageInstruction_patched.
    + left. by injection Hrun as <-.
Qed.

Lemma visit_inst_evolves fuel info block inst s s' :
  visit_inst fuel info block inst s = Ok s' → evolves s s'.
Proof.
  intros [->|[(i & Hi & Hres) (d & Hsteps & Hpatched)]]%visit_inst_patched;
    [apply evolves_refl|].
  eapply patched_evolves; [exact Hpatched|done|done|done|].
  intros i' Hi'. congruence.
Qed.

Lemma visit_block_evolves fuel info block l s s' :
  visit_block fuel info block l s = Ok s' → evolves s s'.
Proof.
  revert s. induction l as [|inst l IH]; intros s; simpl.
  - intros [= <-]. apply evolves_refl.
  - intros Hrun. apply bind_Ok in Hrun as (s1 & Hinst & Hrun).
    eapply evolves_trans; [by eapply visit_inst_evolves|by apply IH].
Qed.

Lemma visit_blocks_evolves fuel info bs s s' :
  visit_blocks fuel info bs s = Ok s' → evolves s s'.
Proof.
  revert s. induction bs as [|block bs IH]; intros s; simpl.
  - intros [= <-]. apply evolves_refl.
  - intros Hrun. apply bind_Ok in Hrun as (l & _ & Hrun).
    apply bind_Ok in Hrun as (s1 & Hblock & Hrun).
    eapply evolves_trans; [by eapply visit_block_evolves|by apply IH].
Qed.

(** X17.  The pass never removes an instruction and never changes an
    opcode, a flag word or an operand count; the instructions it changes
    operands of are buffer and image instructions, the instructions it adds
    are neither; every block keeps its instructions in their order, with the
    added ones among them; and the resource lists change by registrations
    only. *)
Theorem ResourceTrackingPass_frame (fuel : nat) (info : Info) (s s' : State) :
  ResourceTrackingPass fuel info s = Ok s' → evolves s s'.
Proof. apply visit_blocks_evolves. Qed.

End PassFrame.

Lemma ResourceTrackingPass_frame_witness :
  ∃ s', ResourceTrackingPass (H := sample_external) 10 sample_info (sample_store_program 35)
          = Ok s' ∧
        evolves (sample_store_program 35) s'.
Proof.
  eexists. split; [vm_compute; reflexivity|].
  apply (ResourceTrackingPass_frame (H := sample_external) 10 sample_info).
  vm_compute. reflexivity.
Defined.

(** ** Binding indices *)

Lemma steps_lengths d d' :
  rtc Descriptors.step d d' →
  (length (Descriptors.buffer_resources d) ≤ length (Descriptors.buffer_resources d'))%nat ∧
  (length (Descriptors.image_resources d) ≤ length (Descriptors.image_resources d'))%nat ∧
  (length (Descriptors.sampler_resources d) ≤ length (Descriptors.sampler_resources d'))%nat.
Proof.
  intros (Hb & Hi & Hs)%steps_keys_extend.
  apply prefix_length in Hb, Hi, Hs. rewrite !length_fmap in *. done.
Qed.

Lemma bound_steps d d' i : rtc Descriptors.step d d' → bound d i → bound d' i.
Proof.
  intros (Hb & Hi & Hs)%steps_lengths [Hbuf Himg]. split.
  - intros Hop. destruct (Hbuf Hop) as (k & Hk & Hlt). exists k. split; [done|lia].
  - intros Hop. destruct (Himg Hop) as (k & Hk & Hlt & Hsmp). exists k.
    split; [done|]. split; [lia|]. destruct Hsmp; [by left|right; lia].
Qed.

Lemma Add_index_lt {A : Type} (l l' : list A) (desc : A) (pred : A → bool) (i : nat) :
  Descriptors.Add l desc pred = Ok (i, l') → (i < length l')%nat.
Proof.
  unfold Descriptors.Add. intros Hadd.
  destruct (Descriptors.find_if pred l) as [k|] eqn:Hfind.
  - injection Hadd as <- <-.
    destruct (find_if_Some _ _ _ Hfind) as [(x & Hx & _) _]. by eapply lookup_lt_Some.
  - case_decide; [|discriminate]. injection Hadd as <- <-.
    rewrite length_app. simpl. lia.
Qed.

(** The two indices packed into the handle operand of an image instruction
    are read back from its low 16 bits and from the bits above. *)
Lemma image_binding_unpack (image_index sampler_index : nat) :
  (image_index < 16)%nat → (sampler_index < 16)%nat →
  let k := wrap32 (Z.lor (Z.of_nat image_index)
                     (wrap32 (Z.shiftl (Z.of_nat sampler_index) 16))) in
  Z.land k 0xFFFF = Z.of_nat image_index ∧ Z.shiftr k 16 = Z.of_nat sampler_index.
Proof.
  intros Hi Hs.
  assert (Hall : forallb (λ i, forallb (λ j,
            let k := wrap32 (Z.lor (Z.of_nat i) (wrap32 (Z.shiftl (Z.of_nat j) 16))) in
            (Z.land k 0xFFFF =? Z.of_nat i) && (Z.shiftr k 16 =? Z.of_nat j))
            (seq 0 16)) (seq 0 16) = true) by (vm_compute; reflexivity).
  rewrite forallb_forall in Hall.
  specialize (Hall image_index). rewrite forallb_forall in Hall.
  assert (Hin : ∀ n, (n < 16)%nat → In n (seq 0 16)) by (intros n Hn; apply in_seq; lia).
  specialize (Hall (Hin _ Hi) sampler_index (Hin _ Hs)).
  apply andb_true_iff in Hall as [H1%Z.eqb_eq H2%Z.eqb_eq]. done.
Qed.

Lemma patched_operand0 block inst s1 s' i1 v :
  patched 1 block inst s1 s' → insts s1 !! inst = Some i1 → args i1 !! 0%nat = Some v →
  ∃ i', insts s' !! inst = Some i' ∧ opcode i' = opcode i1 ∧ args i' !! 0%nat = Some v.
Proof.
  intros Hp Hi1 Hv. destruct (patched_inst _ _ _ _ _ Hp i1 Hi1) as (i' & Hi' & Hop & _ & _ & Ht).
  exists i'. split; [done|]. split; [done|].
  rewrite <- (lookup_take_lt (args i') 1 0) by lia. rewrite Ht.
  by rewrite lookup_take_lt by lia.
Qed.

Lemma SetArg_operand h index v s s' :
  SetArg h index v s = Ok s' →
  ∃ i i', insts s !! h = Some i ∧ insts s' !! h = Some i' ∧ opcode i' = opcode i ∧
          args i' !! index = Some v ∧ descriptors s' = descriptors s.
Proof.
  intros (i & Hi & Hlt & ->)%SetArg_inv. eexists i, _. split; [done|]. simpl.
  split; [apply list_lookup_insert_eq; by eapply lookup_lt_Some|]. simpl.
  split; [done|]. split; [by apply list_lookup_insert_eq|done].
Qed.

Section PassBinds.
Context `{External}.

Lemma PatchBufferInstruction_bound fuel block inst info s s' :
  within_capacity (descriptors s) →
  PatchBufferInstruction fuel block inst info s = Ok s' → bound_at s' inst.
Proof.
  intros Hcap Hrun. apply PatchBufferInstruction_shape in Hrun
    as (index & desc & i & ty & buffer & d & s1 & Hi & Hbuf & Hadd & _ & _ & _ & _ & _ & _ &
        _ & _ & _ & Hset & Hupd).
  apply updates_patched in Hupd.
  apply SetArg_operand in Hset as (i0 & i1 & Hi0 & Hi1 & Hop1 & Harg & Hd1). simpl in *.
  assert (i0 = i) as -> by congruence.
  destruct (patched_operand0 _ _ _ _ _ _ Hupd Hi1 Harg) as (i' & Hi' & Hop' & Harg').
  intros i'' Hi''. assert (i'' = i') as -> by congruence.
  rewrite (patched_descriptors _ _ _ _ _ Hupd), Hd1.
  destruct Hcap as (Hcb & _ & _).
  apply Add_buffer_inv in Hadd as (buffers & b & Ht & _ & _ & _ & Hd).
  pose proof (Add_length _ _ _ _ _ Ht Hcb) as (Hlt & _ & Hle).
  change ResourceListCapacity with 16%nat in Hle.
  split.
  - intros _. exists (Z.of_nat index). rewrite Hd. simpl. rewrite length_insert.
    split; [|lia]. rewrite Harg'. unfold Imm32, wrap32.
    by rewrite Z.mod_small by lia.
  - intros Himg. rewrite Hop', Hop1 in Himg.
    destruct (opcode i); discriminate.
Qed.

Lemma PatchImageInstruction_bound fuel block inst info s s' :
  within_capacity (descriptors s) →
  (∀ i, insts s !! inst = Some i → IsBufferInstruction (opcode i) = false) →
  PatchImageInstruction fuel block inst info s = Ok s' → bound_at s' inst.
Proof.
  intros Hcap Hnbuf Hrun. apply PatchImageInstruction_shape in Hrun
    as (image_index & image_desc & d1 & binding & d & s1 & i & Hi & Himage & _ & _ & _ &
        Hsampler & Hset & Hupd).
  apply updates_patched in Hupd.
  apply SetArg_operand in Hset as (i0 & i1 & Hi0 & Hi1 & Hop1 & Harg & Hd1). simpl in *.
  assert (i0 = i) as -> by congruence.
  destruct (patched_operand0 _ _ _ _ _ _ Hupd Hi1 Harg) as (i' & Hi' & Hop' & Harg').
  intros i'' Hi''. assert (i'' = i') as -> by congruence.
  rewrite (patched_descriptors _ _ _ _ _ Hupd), Hd1.
  split; [intros Hbuf; rewrite Hop', Hop1, (Hnbuf i Hi) in Hbuf; discriminate|].
  intros _.
  destruct Hcap as (Hcb & Hci & Hcs).
  apply Add_image_inv in Himage as (images & Ht & Hd1').
  pose proof (Add_length _ _ _ _ _ Ht Hci) as (Hlt & _ & Hle).
  change ResourceListCapacity with 16%nat in Hle.
  exists (wrap32 binding). split; [exact Harg'|].
  destruct Hsampler as [[-> ->]|(sampler_index & sampler_desc & Hadd & _ & ->)].
  - rewrite Hd1'. simpl.
    destruct (image_binding_unpack image_index 0) as [Hlo Hhi]; [lia|lia|].
    change (wrap32 (Z.shiftl (Z.of_nat 0) 16)) with 0 in Hlo, Hhi.
    rewrite Z.lor_0_r in Hlo, Hhi. rewrite Hlo, Hhi.
    split; [lia|by left].
  - apply Add_sampler_inv in Hadd as (samplers & Hts & ->). rewrite Hd1' in *. simpl in *.
    pose proof (Add_length _ _ _ _ _ Hts Hcs) as (Hlts & _ & Hles).
    change ResourceListCapacity with 16%nat in Hles.
    destruct (image_binding_unpack image_index sampler_index) as [Hlo Hhi]; [lia|lia|].
    rewrite Hlo, Hhi. split; [lia|right; lia].
Qed.

Lemma visit_inst_bound fuel info block inst s s' :
  within_capacity (descriptors s) →
  visit_inst fuel info block inst s = Ok s' →
  bound_at s' inst ∧ ∀ h, bound_at s h → bound_at s' h.
Proof.
  intros Hcap Hrun.
  assert (Hinst : bound_at s' inst).
  { unfold visit_inst in Hrun.
    apply bind_Ok in Hrun as (op & (i & Hi & <-)%GetOpcode_Ok & Hrun).
    destruct (IsBufferInstruction (opcode i)) eqn:Hbuf;
      [by eapply PatchBufferInstruction_bound|].
    destruct (IsImageInstruction (opcode i)) eqn:Himg.
    - eapply PatchImageInstruction_bound; [done| |done].
      intros i' Hi'. congruence.
    - injection Hrun as <-. intros i' Hi'. assert (i' = i) as -> by congruence.
      split; intros; congruence. }
  split; [done|]. intros h Hh.
  destruct (decide (h = inst)) as [->|Hne]; [done|].
  apply visit_inst_patched in Hrun as [->|[_ (d & Hsteps & Hp)]]; [done|].
  intros i' Hi'.
  destruct (decide (h < length (insts s))%nat) as [Hlt|Hge].
  - destruct (lookup_lt_is_Some_2 _ _ Hlt) as [i Hi].
    pose proof (patched_other _ _ _ _ _ Hp h i Hne Hi) as Hi2.
    assert (i' = i) as -> by congruence.
    rewrite (patched_descriptors _ _ _ _ _ Hp). simpl.
    eapply bound_steps; [exact Hsteps|]. by apply Hh.
  - pose proof (patched_new _ _ _ _ _ Hp h i' ltac:(simpl; lia) Hi') as Hnr.
    unfold is_resource in Hnr. apply orb_false_iff in Hnr as [Hb Hi].
    split; intros; congruence.
Qed.

Lemma visit_block_bound fuel info block l s s' :
  within_capacity (descriptors s) →
  visit_block fuel info block l s = Ok s' →
  (∀ h, h ∈ l → bound_at s' h) ∧ ∀ h, bound_at s h → bound_at s' h.
Proof.
  revert s. induction l as [|inst l IH]; intros s Hcap; simpl.
  - intros [= <-]. split; [by intros h ?%elem_of_nil|done].
  - intros Hrun. apply bind_Ok in Hrun as (s1 & Hinst & Hrun).
    pose proof (visit_inst_evolves _ _ _ _ _ _ Hinst) as Hev.
    pose proof (steps_within_capacity _ _ (evolves_steps _ _ Hev) Hcap) as Hcap1.
    destruct (visit_inst_bound _ _ _ _ _ _ Hcap Hinst) as [Hb1 Hkeep1].
    destruct (IH _ Hcap1 Hrun) as [Hl Hkeep].
    split; [|by auto].
    intros h [->|Hh]%elem_of_cons; auto.
Qed.

Lemma visit_blocks_bound fuel info bs s s' :
  within_capacity (descriptors s) →
  visit_blocks fuel info bs s = Ok s' →
  (∀ b l h, b ∈ bs → blocks s' !! b = Some l → h ∈ l → bound_at s' h) ∧
  ∀ h, bound_at s h → bound_at s' h.
Proof.
  revert s. induction bs as [|block bs IH]; intros s Hcap; simpl.
  - intros [= <-]. split; [by intros b l h ?%elem_of_nil|done].
  - intros Hrun. apply bind_Ok in Hrun as (l & Hl%of_option_Ok & Hrun).
    apply bind_Ok in Hrun as (s1 & Hblock & Hrun).
    pose proof (visit_block_evolves _ _ _ _ _ _ Hblock) as Hev1.
    pose proof (visit_blocks_evolves _ _ _ _ _ Hrun) as Hev2.
    pose proof (steps_within_capacity _ _ (evolves_steps _ _ Hev1) Hcap) as Hcap1.
    destruct (visit_block_bound _ _ _ _ _ _ Hcap Hblock) as [Hvisited Hkeep1].
    destruct (IH _ Hcap1 Hrun) as [Hrest Hkeep2].
    split; [|by auto].
    intros b l' h [->|Hb]%elem_of_cons Hl' Hh; [|by eapply Hrest].
    destruct (evolves_blocks _ _ Hev2 _ _ Hl') as (l1 & Hl1 & _ & Hin1).
    destruct (Hin1 h Hh) as [Hh1|Hfresh1].
    + destruct (evolves_blocks _ _ Hev1 _ _ Hl1) as (l0 & Hl0 & _ & Hin0).
      assert (l0 = l) as -> by congruence.
      destruct (Hin0 h Hh1) as [Hh0|Hfresh0]; [by auto|].
      apply Hkeep2, Hkeep1. intros i Hi. apply lookup_lt_Some in Hi. lia.
    + apply Hkeep2. intros i Hi. apply lookup_lt_Some in Hi. lia.
Qed.

(** X18.  After the pass, with resource lists that held at most sixteen
    entries before it, every buffer instruction of every block has as its
    handle operand the index of an entry of the buffer list, and every image
    instruction the index of an entry of the image list in the low 16 bits
    of that operand and, above them, zero or the index of an entry of the
    sampler list. *)
Theorem ResourceTrackingPass_binds_all (fuel : nat) (info : Info) (s s' : State)
    (b : nat) (l : Block) (h : Handle) (i : Inst) :
  within_capacity (descriptors s) →
  ResourceTrackingPass fuel info s = Ok s' →
  blocks s' !! b = Some l → h ∈ l → insts s' !! h = Some i →
  bound (descriptors s') i.
Proof.
  intros Hcap Hrun Hl Hh Hi. unfold ResourceTrackingPass in Hrun.
  pose proof (visit_blocks_evolves _ _ _ _ _ Hrun) as Hev.
  destruct (visit_blocks_bound _ _ _ _ _ Hcap Hrun) as [Hall _].
  eapply (Hall b l h); [|done|done|done].
  apply elem_of_seq. apply lookup_lt_Some in Hl.
  rewrite (evolves_blocks_length _ _ Hev) in Hl. lia.
Qed.

End PassBinds.

Lemma ResourceTrackingPass_binds_all_witness :
  ∃ s' i,
    ResourceTrackingPass (H := sample_external) 10 sample_image_info (sample_image_program 0)
      = Ok s' ∧
    insts s' !! 4%nat = Some i ∧
    bound (descriptors s') i.
Proof.
  eexists _, _. split; [vm_compute; reflexivity|]. split; [reflexivity|].
  eapply (ResourceTrackingPass_binds_all (H := sample_external) 10 sample_image_info
            (sample_image_program 0) _ 0%nat _ 4%nat).
  - unfold within_capacity, ResourceListCapacity. simpl. lia.
  - vm_compute. reflexivity.
  - reflexivity.
  - apply list_elem_of_In. simpl. tauto.
  - reflexivity.
Defined.

(** ** The registry after the pass *)

Lemma Add_unique_keys {A K : Type} (key : A → K) (pred : A → A → bool)
    (pred_key : ∀ desc existing, pred desc existing = true ↔ key desc = key existing)
    (l l' : list A) (desc : A) (i : nat) :
  Descriptors.Add l desc (pred desc) = Ok (i, l') →
  unique_keys key l → unique_keys key l'.
Proof.
  unfold Descriptors.Add. intros Hadd Hu.
  destruct (Descriptors.find_if _ _) eqn:Hfind.
  - by injection Hadd as <- <-.
  - case_decide; [|discriminate]. injection Hadd as <- <-.
    unfold unique_keys. rewrite fmap_app. apply NoDup_app.
    split; [done|]. split; [|apply NoDup_singleton].
    intros k Hk ->%list_elem_of_singleton.
    apply list_elem_of_fmap in Hk as (y & Hy & Hin).
    apply list_elem_of_lookup in Hin as [j Hj].
    pose proof (find_if_None _ _ Hfind j y Hj) as Hp.
    apply (pred_key_false _ _ pred_key) in Hp. congruence.
Qed.

Lemma step_unique_identities d d' :
  Descriptors.step d d' → unique_identities d → unique_identities d'.
Proof.
  intros Hstep (Hb & Hi & Hs). split; [by eapply step_unique|].
  destruct Hstep as [d0 desc i d0' Hadd|d0 desc i d0' Hadd|d0 desc i d0' Hadd].
  - by apply Add_buffer_inv in Hadd as (buffers & buffer & _ & _ & _ & _ & ->).
  - apply Add_image_inv in Hadd as (images & Ht & ->). simpl.
    split; [|done]. by eapply (Add_unique_keys _ _ image_pred_key).
  - apply Add_sampler_inv in Hadd as (samplers & Ht & ->). simpl.
    split; [done|]. by eapply (Add_unique_keys _ _ sampler_pred_key).
Qed.

Lemma steps_unique_identities d d' :
  rtc Descriptors.step d d' → unique_identities d → unique_identities d'.
Proof. induction 1; eauto using step_unique_identities. Qed.

Section PassRegistry.
Context `{External}.

(** X19.  The pass keeps the invariants of the resource lists: when no list
    held two entries of one identity or more than sixteen entries before the
    pass, none does after it; in particular when the pass starts from empty
    lists. *)
Theorem ResourceTrackingPass_registry (fuel : nat) (info : Info) (s s' : State) :
  unique_identities (descriptors s) →
  within_capacity (descriptors s) →
  ResourceTrackingPass fuel info s = Ok s' →
  unique_identities (descriptors s') ∧ within_capacity (descriptors s').
Proof.
  intros Hu Hcap Hrun.
  pose proof (evolves_steps _ _ (visit_blocks_evolves _ _ _ _ _ Hrun)) as Hsteps.
  split; [by eapply steps_unique_identities|by eapply steps_within_capacity].
Qed.

End PassRegistry.

Lemma ResourceTrackingPass_registry_witness :
  ∃ s', ResourceTrackingPass (H := sample_external) 10 sample_image_info
          (sample_image_program 0) = Ok s' ∧
        unique_identities (descriptors s') ∧ within_capacity (descriptors s').
Proof.
  eexists. split; [vm_compute; reflexivity|].
  apply (ResourceTrackingPass_registry (H := sample_external) 10 sample_image_info
           (sample_image_program 0)).
  - repeat split; apply NoDup_nil_2.
  - apply empty_within_capacity.
  - vm_compute. reflexivity.
Defined.

(** ** The buffer resource of a patched instruction *)

Section PatchedBuffer.
Context `{External}.
Variable Buffer_bool : Buffer → bool.

(** X20.  After the buffer patcher, the handle operand is the index of a
    buffer entry that describes the access: its stride and record count are
    those of the sharp the patcher decoded, a sharp without swizzling and
    thread-id addressing; it has the bits of the element type of the
    instruction among its used types; it is a storage buffer when the
    instruction is a store or the sharp is larger than [MaxUboSize]; and
    [GetVsharp] on it returns the sharp again, unless the sharp is an inline
    one that converts to false.  It is assumed that the zero sharp, the
    [inline_cbuf] of an entry that is not inline, converts to false. *)
Theorem patched_buffer_entry_describes_access (fuel : nat) (block : nat) (inst : Handle)
    (info : Info) (s s' : State) :
  Buffer_bool Buffer_zero = false →
  PatchBufferInstruction fuel block inst info s = Ok s' →
  ∃ index entry buffer i ty,
    insts s !! inst = Some i ∧
    Arg (insts s') inst 0 = Ok (Imm32 (Z.of_nat index)) ∧
    Descriptors.buffer_resources (descriptors s') !! index = Some entry ∧
    BufferResource.stride entry = Buffer_GetStride buffer ∧
    BufferResource.num_records entry = wrap32 (Buffer_num_records buffer) ∧
    Buffer_swizzle_enable buffer = false ∧
    Buffer_add_tid_enable buffer = false ∧
    BufferDataType (opcode i) = Ok ty ∧
    Z.land (BufferResource.used_types entry) (Type_mask ty) = Type_mask ty ∧
    (IsBufferStore (opcode i) = true ∨ MaxUboSize < Buffer_GetSize buffer →
     BufferResource.is_storage entry = true) ∧
    (GetVsharp Buffer_bool entry info = Ok buffer ∨
     (BufferResource.inline_cbuf entry = buffer ∧ Buffer_bool buffer = false)).
Proof.
  intros Hzero Hrun. apply PatchBufferInstruction_shape in Hrun
    as (index & desc & i & ty & buffer & d & s1 & Hi & Hbuf & Hadd & Hstride & Hrecords &
        Hty & Hused & Hstorage & Hsharp & _ & Hswz & Htid & Hset & Hupd).
  apply updates_patched in Hupd.
  apply SetArg_operand in Hset as (i0 & i1 & Hi0 & Hi1 & Hop1 & Harg & Hd1). simpl in *.
  destruct (patched_operand0 _ _ _ _ _ _ Hupd Hi1 Harg) as (i' & Hi' & Hop' & Harg').
  pose proof (Add_buffer_first_at _ _ _ _ Hadd) as [(entry & Hentry & Hkey) _].
  apply Add_buffer_inv in Hadd as (buffers & b & Ht & Hb & Hsb & Hnb & Hd).
  exists index, entry, buffer, i, ty.
  rewrite (patched_descriptors _ _ _ _ _ Hupd), Hd1.
  assert (Hwiden : entry = Descriptors.widen b desc).
  { rewrite Hd in Hentry. simpl in Hentry.
    rewrite list_lookup_insert_eq in Hentry by (by eapply lookup_lt_Some). congruence. }
  injection Hkey as Hk1 Hk2 Hk3.
  split; [done|]. split; [apply Arg_Ok; eauto|]. split; [done|].
  split; [rewrite Hwiden; simpl; congruence|].
  split; [rewrite Hwiden; simpl; congruence|].
  split; [done|]. split; [done|]. split; [done|].
  split.
  { rewrite Hwiden. simpl. rewrite Hused, Z.lor_comm. apply land_lor_absorb. }
  split.
  { intros Hst. rewrite Hwiden. simpl. rewrite Hstorage.
    destruct Hst as [->|Hbig]; [by rewrite orb_true_r|].
    by rewrite (bool_decide_eq_true_2 _ Hbig), !orb_true_r. }
  unfold GetVsharp. rewrite Hk1, Hk2, Hk3.
  destruct Hsharp as [Hinline|[Hnone Hread]].
  - rewrite Hinline. destruct (Buffer_bool buffer); [by left|by right].
  - rewrite Hnone, Hzero. by left.
Qed.

End PatchedBuffer.

Lemma patched_buffer_entry_describes_access_witness :
  ∃ s',
    PatchBufferInstruction (H := sample_external) 10 0%nat 6%nat sample_info
      (sample_store_program 35) = Ok s' ∧
    ∃ index entry buffer i ty,
      insts (sample_store_program 35) !! 6%nat = Some i ∧
      Arg (insts s') 6%nat 0 = Ok (Imm32 (Z.of_nat index)) ∧
      Descriptors.buffer_resources (descriptors s') !! index = Some entry ∧
      BufferResource.stride entry = Buffer_GetStride (External := sample_external) buffer ∧
      BufferResource.num_records entry =
        wrap32 (Buffer_num_records (External := sample_external) buffer) ∧
      Buffer_swizzle_enable (External := sample_external) buffer = false ∧
      Buffer_add_tid_enable (External := sample_external) buffer = false ∧
      BufferDataType (opcode i) = Ok ty ∧
      Z.land (BufferResource.used_types entry) (Type_mask (External := sample_external) ty)
        = Type_mask (External := sample_external) ty ∧
      (IsBufferStore (opcode i) = true ∨
       MaxUboSize < Buffer_GetSize (External := sample_external) buffer →
       BufferResource.is_storage entry = true) ∧
      (GetVsharp (H := sample_external) sample_buffer_bool entry sample_info = Ok buffer ∨
       (BufferResource.inline_cbuf entry = buffer ∧ sample_buffer_bool buffer = false)).
Proof.
  eexists. split; [vm_compute; reflexivity|].
  apply (patched_buffer_entry_describes_access (H := sample_external) sample_buffer_bool
           10 0%nat 6%nat sample_info (sample_store_program 35)).
  - reflexivity.
  - vm_compute. reflexivity.
Defined.

(** ** Instructions without an address or coordinate operand *)

Section QueryInstructions.
Context `{External}.

Lemma PatchBufferInstruction_read_const fuel block inst info s s' i :
  insts s !! inst = Some i →
  opcode i = ReadConstBuffer ∨ opcode i = ReadConstBufferU32 →
  PatchBufferInstruction fuel block inst info s = Ok s' →
  ∃ binding,
    insts s' = <[inst := mkInst (opcode i) (<[0%nat := Imm32 binding]> (args i)) (flags i)]>
                 (insts s) ∧
    blocks s' = blocks s.
Proof.
  intros Hi Hop Hrun. unfold PatchBufferInstruction in Hrun.
  apply bind_Ok in Hrun as ([[binding buffer] s0] & Hsharp & Hrun).
  apply PatchBufferInstruction_sharp_inv in Hsharp as (Hi0 & Hb0 & _).
  unfold PatchBufferInstruction_rewrite in Hrun.
  apply bind_Ok in Hrun as (i0 & Hi0'%GetInst_Ok & Hrun).
  apply bind_Ok in Hrun as (s1 & Hset & Hrun).
  apply bind_Ok in Hrun as (_ & _ & Hrun).
  apply bind_Ok in Hrun as (_ & _ & Hrun).
  apply bind_Ok in Hrun as (inst_op & (i1 & Hi1 & <-)%GetOpcode_Ok & Hrun).
  apply SetArg_inv in Hset as (i0'' & Hi0'' & _ & ->). simpl in *.
  rewrite Hi0 in *. assert (i0 = i) as -> by congruence.
  assert (i0'' = i) as -> by congruence.
  rewrite list_lookup_insert_eq in Hi1 by (by eapply lookup_lt_Some).
  injection Hi1 as <-. simpl in Hrun.
  assert (Hq : bool_decide (opcode i = ReadConstBuffer) ||
               bool_decide (opcode i = ReadConstBufferU32) = true).
  { destruct Hop as [->| ->]; done. }
  rewrite Hq in Hrun. injection Hrun as <-. simpl. eauto.
Qed.

Lemma PatchImageInstruction_query fuel block inst info s s' i :
  insts s !! inst = Some i →
  opcode i = ImageQueryDimensions →
  PatchImageInstruction fuel block inst info s = Ok s' →
  ∃ binding,
    insts s' = <[inst := mkInst (opcode i) (<[0%nat := Imm32 binding]> (args i)) (flags i)]>
                 (insts s) ∧
    blocks s' = blocks s.
Proof.
  intros Hi Hop Hrun. unfold PatchImageInstruction in Hrun.
  apply bind_Ok in Hrun as (producer & _ & Hrun).
  apply bind_Ok in Hrun as (producer_op & _ & Hrun).
  apply bind_Ok in Hrun as ([tsharp_handle ssharp_handle] & _ & Hrun).
  apply bind_Ok in Hrun as (tsharp & _ & Hrun).
  apply bind_Ok in Hrun as (image & _ & Hrun).
  apply bind_Ok in Hrun as (i0 & Hi0%GetInst_Ok & Hrun).
  assert (i0 = i) as -> by congruence.
  apply bind_Ok in Hrun as ([image_index d1] & _ & Hrun).
  apply bind_Ok in Hrun as ([binding d] & _ & Hrun).
  apply bind_Ok in Hrun as (s1 & Hset & Hrun).
  rewrite Hop, bool_decide_eq_true_2 in Hrun by done. injection Hrun as <-.
  apply SetArg_inv in Hset as (i0 & Hi0' & _ & ->). simpl in *.
  assert (i0 = i) as -> by congruence. rewrite Hop. eauto.
Qed.

(** X21.  A read of a whole constant buffer ([ReadConstBuffer],
    [ReadConstBufferU32]) and an [ImageQueryDimensions] only get their
    handle operand replaced by the binding: the patcher emits no
    instruction, leaves the blocks as they are and touches no other
    operand. *)
Theorem query_instructions_keep_operands (fuel : nat) (block : nat) (inst : Handle)
    (info : Info) (s s' : State) (i : Inst) :
  insts s !! inst = Some i →
  ((opcode i = ReadConstBuffer ∨ opcode i = ReadConstBufferU32) ∧
   PatchBufferInstruction fuel block inst info s = Ok s') ∨
  (opcode i = ImageQueryDimensions ∧
   PatchImageInstruction fuel block inst info s = Ok s') →
  ∃ binding,
    insts s' = <[inst := mkInst (opcode i) (<[0%nat := Imm32 binding]> (args i)) (flags i)]>
                 (insts s) ∧
    blocks s' = blocks s.
Proof.
  intros Hi [[Hop Hrun]|[Hop Hrun]].
  - by eapply PatchBufferInstruction_read_const.
  - by eapply PatchImageInstruction_query.
Qed.

End QueryInstructions.

Lemma query_instructions_keep_operands_witness :
  ∃ s' binding,
    PatchBufferInstruction (H := sample_external) 10 0%nat 6%nat sample_info
      sample_read_const_program = Ok s' ∧
    insts s' = <[6%nat := mkInst ReadConstBuffer
                            (<[0%nat := Imm32 binding]> [InstRef 4%nat; InstRef 5%nat]) 0]>
                 (insts sample_read_const_program) ∧
    blocks s' = blocks sample_read_const_program.
Proof.
  eexists.
  assert (Hrun : PatchBufferInstruction (H := sample_external) 10 0%nat 6%nat sample_info
                   sample_read_const_program = Ok _) by (vm_compute; reflexivity).
  destruct (query_instructions_keep_operands (H := sample_external) 10 0%nat 6%nat sample_info
              sample_read_const_program _
              (mkInst ReadConstBuffer [InstRef 4%nat; InstRef 5%nat] 0)
              eq_refl (or_introl (conj (or_introl eq_refl) Hrun)))
    as (binding & Hinsts & Hblocks).
  exists binding. split; [exact Hrun|]. split; [exact Hinsts|exact Hblocks].
Defined.

(** ** Programs without resource instructions *)

Section PlainPrograms.
Context `{External}.

Lemma visit_block_plain fuel info block l s :
  (∀ h, h ∈ l → ∃ i, insts s !! h = Some i ∧ is_resource (opcode i) = false) →
  visit_block fuel info block l s = Ok s.
Proof.
  induction l as [|inst l IH]; intros Hplain; simpl; [done|].
  destruct (Hplain inst (list_elem_of_here _ _)) as (i & Hi & Hres).
  unfold visit_inst. rewrite (GetOpcode_lookup _ _ _ Hi). simpl.
  apply orb_false_iff in Hres as [-> ->]. simpl.
  apply IH. intros h Hh. apply Hplain. by apply list_elem_of_further.
Qed.

Lemma visit_blocks_plain fuel info bs s :
  (∀ b, b ∈ bs → ∃ l, blocks s !! b = Some l ∧
     ∀ h, h ∈ l → ∃ i, insts s !! h = Some i ∧ is_resource (opcode i) = false) →
  visit_blocks fuel info bs s = Ok s.
Proof.
  induction bs as [|block bs IH]; intros Hplain; simpl; [done|].
  destruct (Hplain block (list_elem_of_here _ _)) as (l & Hl & Hall).
  rewrite Hl. simpl. rewrite visit_block_plain by done. simpl.
  apply IH. intros b Hb. apply Hplain. by apply list_elem_of_further.
Qed.

(** X22.  On a program whose blocks hold no buffer and no image
    instruction, the pass succeeds and changes nothing: no instruction, no
    block and no resource list. *)
Theorem ResourceTrackingPass_plain_program (fuel : nat) (info : Info) (s : State) :
  (∀ b l h, blocks s !! b = Some l → h ∈ l →
     ∃ i, insts s !! h = Some i ∧ is_resource (opcode i) = false) →
  ResourceTrackingPass fuel info s = Ok s.
Proof.
  intros Hplain. unfold ResourceTrackingPass. apply visit_blocks_plain.
  intros b Hb%elem_of_seq.
  destruct (lookup_lt_is_Some_2 (blocks s) b) as [l Hl]; [lia|].
  exists l. split; [done|]. intros h Hh. by eapply Hplain.
Qed.

End PlainPrograms.

Lemma ResourceTrackingPass_plain_program_witness :
  ResourceTrackingPass (H := sample_external) 0 sample_info sample_plain_program
    = Ok sample_plain_program.
Proof.
  apply (ResourceTrackingPass_plain_program (H := sample_external) 0 sample_info
           sample_plain_program).
  intros b l h Hl Hh.
  destruct b as [|[|b]]; simpl in Hl; [| |discriminate]; injection Hl as <-;
    repeat (apply elem_of_cons in Hh as [->|Hh]; [eexists; split; [reflexivity|reflexivity]|]);
    by apply elem_of_nil in Hh.
Defined.

(** ** The image of a sampler *)

Section SamplerImage.
Context `{External}.

(** X23.  When the image patcher creates a sampler entry, the entry names
    as its associated image the image binding of the patched instruction:
    the image index in the low 16 bits of the handle operand, stored in the
    four bits of [associated_image] without loss.  The resource lists are
    taken to hold at most sixteen entries before the patch. *)
Theorem new_sampler_is_associated_with_image (fuel : nat) (block : nat) (inst : Handle)
    (info : Info) (s s' : State) :
  within_capacity (descriptors s) →
  PatchImageInstruction fuel block inst info s = Ok s' →
  ∃ k, Arg (insts s') inst 0 = Ok (Imm Type_U32 k) ∧
       ∀ entry,
         Descriptors.sampler_resources (descriptors s') !! Z.to_nat (Z.shiftr k 16)
           = Some entry →
         (length (Descriptors.sampler_resources (descriptors s)) ≤ Z.to_nat (Z.shiftr k 16))%nat →
         SamplerResource.associated_image entry = Z.land k 0xFFFF.
Proof.
  intros Hcap Hrun. apply PatchImageInstruction_shape in Hrun
    as (image_index & image_desc & d1 & binding & d & s1 & i & Hi & Himage & _ & _ & _ &
        Hsampler & Hset & Hupd).
  apply updates_patched in Hupd.
  apply SetArg_operand in Hset as (i0 & i1 & Hi0 & Hi1 & Hop1 & Harg & Hd1). simpl in *.
  destruct (patched_operand0 _ _ _ _ _ _ Hupd Hi1 Harg) as (i' & Hi' & Hop' & Harg').
  exists (wrap32 binding). split; [apply Arg_Ok; eauto|].
  rewrite (patched_descriptors _ _ _ _ _ Hupd), Hd1.
  destruct Hcap as (Hcb & Hci & Hcs).
  apply Add_image_inv in Himage as (images & Ht & Hd1').
  pose proof (Add_length _ _ _ _ _ Ht Hci) as (Hlt & _ & Hle).
  change ResourceListCapacity with 16%nat in Hle.
  intros entry Hentry Hnew.
  destruct Hsampler as [[-> ->]|(sampler_index & sampler_desc & Hadd & Hassoc & ->)].
  - destruct (image_binding_unpack image_index 0) as [_ Hhi]; [lia|lia|].
    change (wrap32 (Z.shiftl (Z.of_nat 0) 16)) with 0 in Hhi.
    rewrite Z.lor_0_r in Hhi. rewrite Hhi in Hentry, Hnew.
    rewrite Hd1' in Hentry. simpl in *.
    apply lookup_lt_Some in Hentry. lia.
  - apply Add_sampler_inv in Hadd as (samplers & Hts & ->). rewrite Hd1' in *. simpl in *.
    pose proof (Add_length _ _ _ _ _ Hts Hcs) as (Hlts & _ & Hles).
    change ResourceListCapacity with 16%nat in Hles.
    destruct (image_binding_unpack image_index sampler_index) as [Hlo Hhi]; [lia|lia|].
    rewrite Hlo. rewrite Hhi, Nat2Z.id in Hentry, Hnew.
    apply (Add_first_at _ _ sampler_pred_key) in Hts as [_ [->|[-> ->]]].
    + apply lookup_lt_Some in Hentry. lia.
    + rewrite lookup_snoc in Hentry. injection Hentry as <-.
      rewrite Hassoc. apply Z.mod_small. lia.
Qed.

End SamplerImage.

Lemma new_sampler_is_associated_with_image_witness :
  ∃ s',
    PatchImageInstruction (H := sample_external) 10 0%nat 4%nat sample_image_info
      (sample_image_program 0) = Ok s' ∧
    ∃ k, Arg (insts s') 4%nat 0 = Ok (Imm Type_U32 k) ∧
         ∀ entry,
           Descriptors.sampler_resources (descriptors s') !! Z.to_nat (Z.shiftr k 16)
             = Some entry →
           (length (Descriptors.sampler_resources (descriptors (sample_image_program 0)))
              ≤ Z.to_nat (Z.shiftr k 16))%nat →
           SamplerResource.associated_image entry = Z.land k 0xFFFF.
Proof.
  eexists. split; [vm_compute; reflexivity|].
  apply (new_sampler_is_associated_with_image (H := sample_external) 10 0%nat 4%nat
           sample_image_info (sample_image_program 0)).
  - apply empty_within_capacity.
  - vm_compute. reflexivity.
Defined.

(** ** One entry for each identity *)

Lemma Add_buffer_keys d desc i d' :
  Descriptors.Add_buffer d desc = Ok (i, d') →
  ∀ k, k ∈ Descriptors.buffer_key <$> Descriptors.buffer_resources d' ↔
       k ∈ Descriptors.buffer_key <$> Descriptors.buffer_resources d ∨
       k = Descriptors.buffer_key desc.
Proof.
  intros Hadd k.
  apply Add_buffer_inv in Hadd as (buffers & buffer & Ht & Hb & _ & _ & ->). simpl.
  rewrite list_fmap_insert, widen_key, list_insert_id by (by rewrite list_lookup_fmap, Hb).
  pose proof (Add_first_at _ _ buffer_pred_key _ _ _ _ Ht)
    as [[(x & Hx & Hkx) _] [->|[-> ->]]].
  - split; [by left|]. intros [Hk| ->]; [done|].
    rewrite <- Hkx. apply list_elem_of_fmap. exists x. split; [done|].
    by eapply list_elem_of_lookup_2.
  - rewrite fmap_app, elem_of_app. simpl. rewrite list_elem_of_singleton. done.
Qed.

Lemma Add_buffers_keys accesses d indices d' :
  Descriptors.Add_buffers d accesses = Ok (indices, d') →
  ∀ k, k ∈ Descriptors.buffer_key <$> Descriptors.buffer_resources d' ↔
       k ∈ Descriptors.buffer_key <$> Descriptors.buffer_resources d ∨
       k ∈ Descriptors.buffer_key <$> accesses.
Proof.
  revert d indices. induction accesses as [|a rest IH]; intros d indices; simpl.
  - intros [= <- <-] k. rewrite elem_of_nil. tauto.
  - intros Hrun k. apply bind_Ok in Hrun as ([i d1] & Ha & Hrun).
    apply bind_Ok in Hrun as ([is' d2] & Hrest & Hrun). injection Hrun as <- <-.
    rewrite (IH _ _ Hrest k), (Add_buffer_keys _ _ _ _ Ha k), elem_of_cons. tauto.
Qed.

(** X24.  After a sequence of buffer accesses registered from the empty
    registry, the buffer list has exactly one entry for each identity
    accessed: the identities of its entries are those of the accesses,
    without repetition. *)
Theorem one_buffer_entry_per_identity (accesses : list BufferResource.t)
    (indices : list nat) (d : Descriptors.t) :
  Descriptors.Add_buffers Descriptors.empty accesses = Ok (indices, d) →
  Descriptors.buffer_key <$> Descriptors.buffer_resources d ≡ₚ
    remove_dups (Descriptors.buffer_key <$> accesses) ∧
  length (Descriptors.buffer_resources d) =
    length (remove_dups (Descriptors.buffer_key <$> accesses)).
Proof.
  intros Hrun.
  assert (Hperm : Descriptors.buffer_key <$> Descriptors.buffer_resources d ≡ₚ
                  remove_dups (Descriptors.buffer_key <$> accesses)).
  { apply NoDup_Permutation.
    - apply (steps_unique _ _ (Add_buffers_steps _ _ _ _ Hrun)). apply NoDup_nil_2.
    - apply NoDup_remove_dups.
    - intros k. rewrite (Add_buffers_keys _ _ _ _ Hrun k), elem_of_remove_dups. simpl.
      rewrite elem_of_nil. tauto. }
  split; [done|]. apply Permutation_length in Hperm. by rewrite length_fmap in Hperm.
Qed.

Lemma one_buffer_entry_per_identity_witness :
  [Descriptors.buffer_key sample_buffer_load] ≡ₚ
    remove_dups (Descriptors.buffer_key <$> [sample_buffer_load; sample_buffer_store]) ∧
  1%nat = length (remove_dups
                    (Descriptors.buffer_key <$> [sample_buffer_load; sample_buffer_store])).
Proof.
  apply (one_buffer_entry_per_identity [sample_buffer_load; sample_buffer_store] [0; 0]%nat
           (Descriptors.mk
              [Descriptors.widen (Descriptors.widen sample_buffer_load sample_buffer_load)
                 sample_buffer_store] [] [])).
  reflexivity.
Defined.

(** ** Each patcher and its lists *)

Section OwnLists.
Context `{External}.

(** X25.  The buffer patcher leaves the image and sampler lists as they
    are, and the image patcher leaves the buffer list as it is. *)
Theorem patchers_touch_own_lists (fuel : nat) (block : nat) (inst : Handle) (info : Info)
    (s s' : State) :
  (PatchBufferInstruction fuel block inst info s = Ok s' →
   Descriptors.image_resources (descriptors s') = Descriptors.image_resources (descriptors s) ∧
   Descriptors.sampler_resources (descriptors s') =
     Descriptors.sampler_resources (descriptors s)) ∧
  (PatchImageInstruction fuel block inst info s = Ok s' →
   Descriptors.buffer_resources (descriptors s') =
     Descriptors.buffer_resources (descriptors s)).
Proof.
  split; intros Hrun.
  - apply PatchBufferInstruction_shape in Hrun
      as (index & desc & i & ty & buffer & d & s1 & _ & _ & Hadd & _ & _ & _ & _ & _ & _ &
          _ & _ & _ & Hset & Hupd).
    apply updates_patched in Hupd.
    apply SetArg_operand in Hset as (_ & _ & _ & _ & _ & _ & Hd1). simpl in Hd1.
    rewrite (patched_descriptors _ _ _ _ _ Hupd), Hd1.
    by apply Add_buffer_inv in Hadd as (buffers & b & _ & _ & _ & _ & ->).
  - apply PatchImageInstruction_shape in Hrun
      as (image_index & image_desc & d1 & binding & d & s1 & i & _ & Himage & _ & _ & _ &
          Hsampler & Hset & Hupd).
    apply updates_patched in Hupd.
    apply SetArg_operand in Hset as (_ & _ & _ & _ & _ & _ & Hd1). simpl in Hd1.
    rewrite (patched_descriptors _ _ _ _ _ Hupd), Hd1.
    apply Add_image_inv in Himage as (images & _ & ->).
    destruct Hsampler as [[_ ->]|(sampler_index & sampler_desc & Hadd & _)]; [done|].
    by apply Add_sampler_inv in Hadd as (samplers & _ & ->).
Qed.

End OwnLists.

Lemma patchers_touch_own_lists_witness :
  ∃ s',
    PatchImageInstruction (H := sample_external) 10 0%nat 4%nat sample_image_info
      (sample_image_program 0) = Ok s' ∧
    Descriptors.buffer_resources (descriptors s') =
      Descriptors.buffer_resources (descriptors (sample_image_program 0)).
Proof.
  eexists. split; [vm_compute; reflexivity|].
  apply (proj2 (patchers_touch_own_lists (H := sample_external) 10 0%nat 4%nat
                  sample_image_info (sample_image_program 0) _)).
  vm_compute. reflexivity.
Defined.

(** ** The image entry of a patched instruction *)

Section PatchedImage.
Context `{External}.

(** X26.  After the image patcher, with resource lists that held at most
    sixteen entries before it, the low 16 bits of the handle operand are the
    index of an image entry of the kind of the instruction: a storage image
    exactly for the storage image instructions; and unless the instruction
    is an [ImageQueryDimensions], the entry has one of the seven image types
    the patcher knows the coordinates of. *)
Theorem patched_image_entry_kind (fuel : nat) (block : nat) (inst : Handle) (info : Info)
    (s s' : State) :
  within_capacity (descriptors s) →
  PatchImageInstruction fuel block inst info s = Ok s' →
  ∃ k entry i,
    insts s !! inst = Some i ∧
    Arg (insts s') inst 0 = Ok (Imm Type_U32 k) ∧
    Descriptors.image_resources (descriptors s') !! Z.to_nat (Z.land k 0xFFFF) = Some entry ∧
    ImageResource.is_storage entry = IsImageStorageInstruction (opcode i) ∧
    (opcode i ≠ ImageQueryDimensions → ∀ raw, ImageResource.type entry ≠ ImageTypeOther raw).
Proof.
  intros Hcap Hrun.
  apply PatchImageInstruction_shape in Hrun
    as (image_index & image_desc & d1 & binding & d & s1 & i & Hi & Himage & _ & Hstorage &
        Htype & Hsampler & Hset & Hupd).
  apply updates_patched in Hupd.
  apply SetArg_operand in Hset as (j0 & i1 & Hj0 & Hi1 & Hop1 & Harg & Hd1). simpl in *.
  destruct (patched_operand0 _ _ _ _ _ _ Hupd Hi1 Harg) as (i' & Hi' & Hop' & Harg').
  rewrite (patched_descriptors _ _ _ _ _ Hupd), Hd1.
  destruct Hcap as (Hcb & Hci & Hcs).
  apply Add_image_inv in Himage as (images & Ht & Hd1').
  pose proof (Add_length _ _ _ _ _ Ht Hci) as (Hlt & _ & Hle).
  change ResourceListCapacity with 16%nat in Hle.
  apply (Add_first_at _ _ image_pred_key) in Ht as [[(entry & Hentry & Hkey) _] _].
  injection Hkey as Hk1 Hk2 Hk3 Hk4.
  assert (Hlow : Z.land (wrap32 binding) 0xFFFF = Z.of_nat image_index ∧
                 Descriptors.image_resources d = images).
  { destruct Hsampler as [[-> ->]|(sampler_index & sampler_desc & Hadd & _ & ->)].
    - rewrite Hd1'. split; [|done].
      destruct (image_binding_unpack image_index 0) as [Hlo _]; [lia|lia|].
      change (wrap32 (Z.shiftl (Z.of_nat 0) 16)) with 0 in Hlo.
      by rewrite Z.lor_0_r in Hlo.
    - apply Add_sampler_inv in Hadd as (samplers & Hts & ->). rewrite Hd1' in *. simpl in *.
      pose proof (Add_length _ _ _ _ _ Hts Hcs) as (Hlts & _ & Hles).
      change ResourceListCapacity with 16%nat in Hles.
      split; [|done].
      by destruct (image_binding_unpack image_index sampler_index) as [Hlo _]; [lia|lia|]. }
  destruct Hlow as [Hlow Himages].
  exists (wrap32 binding), entry, i.
  rewrite Hlow, Nat2Z.id, Himages.
  split; [done|]. split; [apply Arg_Ok; eauto|]. split; [done|].
  split; [congruence|]. intros Hquery raw. rewrite Hk3. by apply Htype.
Qed.

End PatchedImage.

Lemma patched_image_entry_kind_witness :
  ∃ s',
    PatchImageInstruction (H := sample_external) 10 0%nat 4%nat sample_image_info
      (sample_image_program 0) = Ok s' ∧
    ∃ k entry i,
      insts (sample_image_program 0) !! 4%nat = Some i ∧
      Arg (insts s') 4%nat 0 = Ok (Imm Type_U32 k) ∧
      Descriptors.image_resources (descriptors s') !! Z.to_nat (Z.land k 0xFFFF)
        = Some entry ∧
      ImageResource.is_storage entry = IsImageStorageInstruction (opcode i) ∧
      (opcode i ≠ ImageQueryDimensions →
       ∀ raw, ImageResource.type entry ≠ ImageTypeOther raw).
Proof.
  eexists. split; [vm_compute; reflexivity|].
  apply (patched_image_entry_kind (H := sample_external) 10 0%nat 4%nat
           sample_image_info (sample_image_program 0)).
  - apply empty_within_capacity.
  - vm_compute. reflexivity.
Defined.

(** ** What the patchers refuse *)

Section PatcherChecks.
Context `{External}.

(** X27.  The patchers only accept what they can translate.  A typed buffer
    access that is patched has the number format [Float] and one of the four
    32-bit data formats; an image instruction other than
    [ImageQueryDimensions] that is patched with the explicit-lod flag is an
    [ImageFetch], an [ImageSampleExplicitLod] or an
    [ImageSampleDrefExplicitLod].  On any other input the patcher fails. *)
Theorem patchers_check_formats (fuel : nat) (block : nat) (inst : Handle) (info : Info)
    (s s' : State) (i : Inst) :
  insts s !! inst = Some i →
  (PatchBufferInstruction fuel block inst info s = Ok s' →
   is_typed (Flags_BufferInstInfo (flags i)) = true →
   bi_nfmt (Flags_BufferInstInfo (flags i)) = NumberFormat_Float ∧
   (bi_dmft (Flags_BufferInstInfo (flags i)) = DataFormat_Format32_32_32_32 ∨
    bi_dmft (Flags_BufferInstInfo (flags i)) = DataFormat_Format32_32_32 ∨
    bi_dmft (Flags_BufferInstInfo (flags i)) = DataFormat_Format32_32 ∨
    bi_dmft (Flags_BufferInstInfo (flags i)) = DataFormat_Format32)) ∧
  (PatchImageInstruction fuel block inst info s = Ok s' →
   opcode i ≠ ImageQueryDimensions →
   explicit_lod (Flags_TextureInstInfo (flags i)) = true →
   opcode i = ImageFetch ∨ opcode i = ImageSampleExplicitLod ∨
   opcode i = ImageSampleDrefExplicitLod).
Proof.
  intros Hi. split.
  - intros Hrun Htyped. unfold PatchBufferInstruction in Hrun.
    apply bind_Ok in Hrun as ([[binding buffer] s0] & Hsharp & Hrun).
    apply PatchBufferInstruction_sharp_inv in Hsharp as (Hi0 & _ & _).
    unfold PatchBufferInstruction_rewrite in Hrun.
    apply bind_Ok in Hrun as (i0 & Hi0'%GetInst_Ok & Hrun).
    rewrite Hi0 in Hi0'. assert (i0 = i) as -> by congruence.
    apply bind_Ok in Hrun as (s1 & _ & Hrun).
    apply bind_Ok in Hrun as (_ & _ & Hrun).
    apply bind_Ok in Hrun as (u & Hfmt & _).
    rewrite Htyped in Hfmt. apply ASSERT_Ok in Hfmt.
    apply andb_true_iff in Hfmt as [Hn%bool_decide_eq_true Hd].
    split; [done|].
    apply orb_true_iff in Hd as [Hd|Hd%bool_decide_eq_true]; [|auto].
    apply orb_true_iff in Hd as [Hd|Hd%bool_decide_eq_true]; [|auto].
    apply orb_true_iff in Hd as [Hd%bool_decide_eq_true|Hd%bool_decide_eq_true]; auto.
  - intros Hrun Hquery Hlod. unfold PatchImageInstruction in Hrun.
    apply bind_Ok in Hrun as (producer & _ & Hrun).
    apply bind_Ok in Hrun as (producer_op & _ & Hrun).
    apply bind_Ok in Hrun as ([tsharp_handle ssharp_handle] & _ & Hrun).
    apply bind_Ok in Hrun as (tsharp & _ & Hrun).
    apply bind_Ok in Hrun as (image & _ & Hrun).
    apply bind_Ok in Hrun as (i0 & Hi0%GetInst_Ok & Hrun).
    assert (i0 = i) as -> by congruence.
    apply bind_Ok in Hrun as ([image_index d1] & _ & Hrun).
    apply bind_Ok in Hrun as ([binding d] & _ & Hrun).
    apply bind_Ok in Hrun as (s1 & _ & Hrun).
    rewrite bool_decide_eq_false_2 in Hrun by done.
    apply bind_Ok in Hrun as (body & _ & Hrun).
    apply bind_Ok in Hrun as (r & _ & Hrun). destruct r as [[coords arg] s2].
    apply bind_Ok in Hrun as (s3 & _ & Hrun).
    apply bind_Ok in Hrun as (s4 & _ & Hrun).
    apply bind_Ok in Hrun as (s5 & _ & Hrun).
    rewrite Hlod in Hrun.
    apply bind_Ok in Hrun as (u & Hop%ASSERT_Ok & _).
    apply orb_true_iff in Hop as [Hop|Hop%bool_decide_eq_true]; [|auto].
    apply orb_true_iff in Hop as [Hop%bool_decide_eq_true|Hop%bool_decide_eq_true]; auto.
Qed.

End PatcherChecks.

Lemma patchers_check_formats_witness :
  ∃ s',
    PatchBufferInstruction (H := sample_external) 10 0%nat 6%nat sample_info
      (sample_store_program 0x3a4001) = Ok s' ∧
    bi_nfmt (Flags_BufferInstInfo (External := sample_external) 0x3a4001) =
      NumberFormat_Float (External := sample_external) ∧
    (bi_dmft (Flags_BufferInstInfo (External := sample_external) 0x3a4001) =
       DataFormat_Format32_32_32_32 (External := sample_external) ∨
     bi_dmft (Flags_BufferInstInfo (External := sample_external) 0x3a4001) =
       DataFormat_Format32_32_32 (External := sample_external) ∨
     bi_dmft (Flags_BufferInstInfo (External := sample_external) 0x3a4001) =
       DataFormat_Format32_32 (External := sample_external) ∨
     bi_dmft (Flags_BufferInstInfo (External := sample_external) 0x3a4001) =
       DataFormat_Format32 (External := sample_external)).
Proof.
  eexists. split; [vm_compute; reflexivity|].
  eapply (proj1 (patchers_check_formats (H := sample_external) 10 0%nat 6%nat sample_info
                   (sample_store_program 0x3a4001) _
                   (mkInst StoreBufferF32 [InstRef 4%nat; InstRef 5%nat; Imm Type_F32 0]
                      0x3a4001)
                   eq_refl)).
  - vm_compute. reflexivity.
  - reflexivity.
Defined.

(** ** Where the entry of a patched instruction comes from *)

Section EntryIdentity.
Context `{External}.

(** X28.  After the buffer patcher, the buffer entry the handle operand
    names is identified in one of two ways.  Either it is an inline constant
    buffer, with [sgpr_base] the largest [u32] and [dword_offset] zero; or
    its [sgpr_base] and [dword_offset] are the location of the sharp in user
    data that the operand chain of the instruction leads to (operand 0 of
    operand 0 of the instruction, followed as [TrackSharp] follows it), its
    [inline_cbuf] is the zero sharp, and the sharp read at that location has
    the stride and the record count of the entry. *)
Theorem patched_buffer_identity (fuel : nat) (block : nat) (inst : Handle) (info : Info)
    (s s' : State) :
  PatchBufferInstruction fuel block inst info s = Ok s' →
  ∃ index entry,
    Arg (insts s') inst 0 = Ok (Imm32 (Z.of_nat index)) ∧
    Descriptors.buffer_resources (descriptors s') !! index = Some entry ∧
    ((BufferResource.sgpr_base entry = 2 ^ 32 - 1 ∧ BufferResource.dword_offset entry = 0) ∨
     (∃ handle producer loc buffer,
        Arg (insts s) inst 0 = Ok (InstRef handle) ∧
        Arg (insts s) handle 0 = Ok (InstRef producer) ∧
        tracked (insts s) producer loc ∧
        BufferResource.sgpr_base entry = sl_sgpr_base loc ∧
        BufferResource.dword_offset entry = sl_dword_offset loc ∧
        BufferResource.inline_cbuf entry = Buffer_zero ∧
        ReadUd_Buffer info (sl_sgpr_base loc) (sl_dword_offset loc) = Ok buffer ∧
        BufferResource.stride entry = Buffer_GetStride buffer ∧
        BufferResource.num_records entry = wrap32 (Buffer_num_records buffer))).
Proof.
  intros Hrun. apply PatchBufferInstruction_shape in Hrun
    as (index & desc & i & ty & buffer & d & s1 & Hi & Hbuf & Hadd & Hstride & Hrecords &
        Hty & Hused & Hstorage & Hsharp & Hident & Hswz & Htid & Hset & Hupd).
  apply updates_patched in Hupd.
  apply SetArg_operand in Hset as (i0 & i1 & Hi0 & Hi1 & Hop1 & Harg & Hd1). simpl in *.
  destruct (patched_operand0 _ _ _ _ _ _ Hupd Hi1 Harg) as (i' & Hi' & Hop' & Harg').
  pose proof (Add_buffer_first_at _ _ _ _ Hadd) as [(entry & Hentry & Hkey) _].
  apply Add_buffer_inv in Hadd as (buffers & b & Ht & Hb & Hsb & Hnb & Hd).
  exists index, entry.
  rewrite (patched_descriptors _ _ _ _ _ Hupd), Hd1.
  assert (Hwiden : entry = Descriptors.widen b desc).
  { rewrite Hd in Hentry. simpl in Hentry.
    rewrite list_lookup_insert_eq in Hentry by (by eapply lookup_lt_Some). congruence. }
  injection Hkey as Hk1 Hk2 Hk3.
  split; [apply Arg_Ok; eauto|]. split; [done|].
  destruct Hident as [(Hbase & Hoff & _)|
                      (handle & producer & loc & Hh & Hp & Hloc & Hread & Hbase & Hoff & Hzero)].
  - left. split; congruence.
  - right. exists handle, producer, loc, buffer.
    split; [done|]. split; [done|]. split; [by eapply TrackSharp_tracked|].
    split; [congruence|]. split; [congruence|]. split; [congruence|].
    split; [done|].
    split; rewrite Hwiden; simpl; congruence.
Qed.

(** X29.  After the image patcher, with resource lists that held at most
    sixteen entries before it, the image entry named by the low 16 bits of
    the handle operand has as [sgpr_base] and [dword_offset] the location in
    user data of the image sharp of the instruction, and as type the type of
    the image read there.  The sharp handle is operand 0 of the producer the
    search from the instruction returns when that is a
    [CompositeConstructU32x2], and the producer itself otherwise; its
    location is the one [TrackSharp] follows it to. *)
Theorem patched_image_identity (fuel : nat) (block : nat) (inst : Handle) (info : Info)
    (s s' : State) :
  within_capacity (descriptors s) →
  PatchImageInstruction fuel block inst info s = Ok s' →
  ∃ k entry producer ip tsharp_handle loc image,
    Arg (insts s') inst 0 = Ok (Imm Type_U32 k) ∧
    Descriptors.image_resources (descriptors s') !! Z.to_nat (Z.land k 0xFFFF) = Some entry ∧
    FindProducer fuel (insts s) [inst] = Ok producer ∧
    insts s !! producer = Some ip ∧
    ((opcode ip = CompositeConstructU32x2 ∧
      args ip !! 0%nat = Some (InstRef tsharp_handle)) ∨
     (opcode ip ≠ CompositeConstructU32x2 ∧ tsharp_handle = producer)) ∧
    tracked (insts s) tsharp_handle loc ∧
    ReadUd_Image info (sl_sgpr_base loc) (sl_dword_offset loc) = Ok image ∧
    ImageResource.sgpr_base entry = sl_sgpr_base loc ∧
    ImageResource.dword_offset entry = sl_dword_offset loc ∧
    ImageResource.type entry = Image_GetType image.
Proof.
  intros Hcap Hrun.
  apply PatchImageInstruction_shape in Hrun
    as (image_index & image_desc & d1 & binding & d & s1 & i & Hi & Himage & Hident &
        Hstorage & Htype & Hsampler & Hset & Hupd).
  destruct Hident as (producer & ip & tsharp_handle & loc & image & Hfind & Hip & Hhandle &
                      Hloc & Hread & Hbase & Hoff & Hty & _).
  apply updates_patched in Hupd.
  apply SetArg_operand in Hset as (j0 & i1 & Hj0 & Hi1 & Hop1 & Harg & Hd1). simpl in *.
  destruct (patched_operand0 _ _ _ _ _ _ Hupd Hi1 Harg) as (i' & Hi' & Hop' & Harg').
  rewrite (patched_descriptors _ _ _ _ _ Hupd), Hd1.
  destruct Hcap as (Hcb & Hci & Hcs).
  apply Add_image_inv in Himage as (images & Ht & Hd1').
  pose proof (Add_length _ _ _ _ _ Ht Hci) as (Hlt & _ & Hle).
  change ResourceListCapacity with 16%nat in Hle.
  apply (Add_first_at _ _ image_pred_key) in Ht as [[(entry & Hentry & Hkey) _] _].
  injection Hkey as Hk1 Hk2 Hk3 Hk4.
  assert (Hlow : Z.land (wrap32 binding) 0xFFFF = Z.of_nat image_index ∧
                 Descriptors.image_resources d = images).
  { destruct Hsampler as [[-> ->]|(sampler_index & sampler_desc & Hadd & _ & ->)].
    - rewrite Hd1'. split; [|done].
      destruct (image_binding_unpack image_index 0) as [Hlo _]; [lia|lia|].
      change (wrap32 (Z.shiftl (Z.of_nat 0) 16)) with 0 in Hlo.
      by rewrite Z.lor_0_r in Hlo.
    - apply Add_sampler_inv in Hadd as (samplers & Hts & ->). rewrite Hd1' in *. simpl in *.
      pose proof (Add_length _ _ _ _ _ Hts Hcs) as (Hlts & _ & Hles).
      change ResourceListCapacity with 16%nat in Hles.
      split; [|done].
      by destruct (image_binding_unpack image_index sampler_index) as [Hlo _]; [lia|lia|]. }
  destruct Hlow as [Hlow Himages].
  exists (wrap32 binding), entry, producer, ip, tsharp_handle, loc, image.
  rewrite Hlow, Nat2Z.id, Himages.
  split; [apply Arg_Ok; eauto|]. split; [done|]. split; [done|]. split; [done|].
  split; [done|]. split; [by eapply TrackSharp_tracked|]. split; [done|].
  split; [congruence|]. split; congruence.
Qed.

End EntryIdentity.

Lemma patched_buffer_identity_witness :
  ∃ s',
    PatchBufferInstruction (H := sample_external) 10 0%nat 6%nat sample_info
      (sample_store_program 35) = Ok s' ∧
    ∃ index entry,
      Arg (insts s') 6%nat 0 = Ok (Imm32 (Z.of_nat index)) ∧
      Descriptors.buffer_resources (descriptors s') !! index = Some entry ∧
      ((BufferResource.sgpr_base entry = 2 ^ 32 - 1 ∧
        BufferResource.dword_offset entry = 0) ∨
       (∃ handle producer loc buffer,
          Arg (insts (sample_store_program 35)) 6%nat 0 = Ok (InstRef handle) ∧
          Arg (insts (sample_store_program 35)) handle 0 = Ok (InstRef producer) ∧
          tracked (insts (sample_store_program 35)) producer loc ∧
          BufferResource.sgpr_base entry = sl_sgpr_base loc ∧
          BufferResource.dword_offset entry = sl_dword_offset loc ∧
          BufferResource.inline_cbuf entry = Buffer_zero ∧
          ReadUd_Buffer (H := sample_external) sample_info
            (sl_sgpr_base loc) (sl_dword_offset loc) = Ok buffer ∧
          BufferResource.stride entry = Buffer_GetStride (External := sample_external) buffer ∧
          BufferResource.num_records entry =
            wrap32 (Buffer_num_records (External := sample_external) buffer))).
Proof.
  eexists. split; [vm_compute; reflexivity|].
  apply (patched_buffer_identity (H := sample_external) 10 0%nat 6%nat sample_info
           (sample_store_program 35)).
  vm_compute. reflexivity.
Defined.

Lemma patched_image_identity_witness :
  ∃ s',
    PatchImageInstruction (H := sample_external) 10 0%nat 4%nat sample_image_info
      (sample_image_program 0) = Ok s' ∧
    ∃ k entry producer ip tsharp_handle loc image,
      Arg (insts s') 4%nat 0 = Ok (Imm Type_U32 k) ∧
      Descriptors.image_resources (descriptors s') !! Z.to_nat (Z.land k 0xFFFF)
        = Some entry ∧
      FindProducer 10 (insts (sample_image_program 0)) [4%nat] = Ok producer ∧
      insts (sample_image_program 0) !! producer = Some ip ∧
      ((opcode ip = CompositeConstructU32x2 ∧
        args ip !! 0%nat = Some (InstRef tsharp_handle)) ∨
       (opcode ip ≠ CompositeConstructU32x2 ∧ tsharp_handle = producer)) ∧
      tracked (insts (sample_image_program 0)) tsharp_handle loc ∧
      ReadUd_Image (H := sample_external) sample_image_info
        (sl_sgpr_base loc) (sl_dword_offset loc) = Ok image ∧
      ImageResource.sgpr_base entry = sl_sgpr_base loc ∧
      ImageResource.dword_offset entry = sl_dword_offset loc ∧
      ImageResource.type entry = Image_GetType (External := sample_external) image.
Proof.
  eexists. split; [vm_compute; reflexivity|].
  apply (patched_image_identity (H := sample_external) 10 0%nat 4%nat
           sample_image_info (sample_image_program 0)).
  - apply empty_within_capacity.
  - vm_compute. reflexivity.
Defined.

(** ** The texel offset operand *)

Lemma keeps_operand_frame k inst s s' :
  rtc (keeps_operand k inst) s s' →
  (length (insts s) ≤ length (insts s'))%nat ∧
  (∀ h i, h ≠ inst → insts s !! h = Some i → insts s' !! h = Some i) ∧
  (∀ i, insts s !! inst = Some i →
        ∃ i', insts s' !! inst = Some i' ∧ args i' !! k = args i !! k).
Proof.
  induction 1 as [s|s1 s2 s3 Hstep _ (IHlen & IHother & IHinst)].
  { split; [done|]. split; [done|]. intros i Hi. by exists i. }
  assert (Hfirst :
    (length (insts s1) ≤ length (insts s2))%nat ∧
    (∀ h i, h ≠ inst → insts s1 !! h = Some i → insts s2 !! h = Some i) ∧
    (∀ i, insts s1 !! inst = Some i →
          ∃ i', insts s2 !! inst = Some i' ∧ args i' !! k = args i !! k)).
  { destruct Hstep as [index v s0 s0' Hne Hset|block op operands s0].
    - apply SetArg_inv in Hset as (i & Hi & Hlt & ->). simpl.
      split; [by rewrite length_insert|]. split.
      + intros h i0 Hh Hi0. by rewrite list_lookup_insert_ne.
      + intros i0 Hi0. assert (i0 = i) as -> by congruence.
        eexists. split; [apply list_lookup_insert_eq; by eapply lookup_lt_Some|].
        simpl. by rewrite list_lookup_insert_ne.
    - rewrite emit_spec. simpl. split; [rewrite length_app; lia|]. split.
      + intros h i _ Hi. by apply lookup_app_l_Some.
      + intros i Hi. exists i. split; [by apply lookup_app_l_Some|done]. }
  destruct Hfirst as (Hlen & Hother & Hinst).
  split; [lia|]. split; [by auto|].
  intros i Hi. destruct (Hinst i Hi) as (i2 & Hi2 & Hk2).
  destruct (IHinst i2 Hi2) as (i3 & Hi3 & Hk3). exists i3. split; [done|congruence].
Qed.

Section TexelOffset.
Context `{External}.

Lemma ir_CompositeConstruct_Ok k block inst operands s v s' :
  ir_CompositeConstruct block inst operands s = Ok (v, s') →
  ∃ e1 ty,
    head operands = Some e1 ∧
    Value_Type (insts s) e1 = Ok ty ∧
    v = InstRef (length (insts s)) ∧
    insts s' = insts s ++ [mkInst (CompositeConstruct_opcode ty operands) operands 0] ∧
    keeps_operand k inst s s'.
Proof.
  unfold ir_CompositeConstruct. intros Hrun.
  apply bind_Ok in Hrun as (e1 & He1%of_option_Ok & Hrun).
  apply bind_Ok in Hrun as (ty & Hty & Hrun). exists e1, ty.
  split; [done|]. split; [done|].
  assert (Hemit : emit block inst (CompositeConstruct_opcode ty operands) operands s
                  = (v, s')) by congruence.
  split; [rewrite emit_spec in Hemit; congruence|].
  split; [rewrite emit_spec in Hemit; by injection Hemit as _ <-|].
  replace s' with (emit block inst (CompositeConstruct_opcode ty operands) operands s).2
    by (by rewrite Hemit).
  constructor.
Qed.

Lemma emit_keeps_operand k block inst op operands s v s' :
  emit block inst op operands s = (v, s') → keeps_operand k inst s s'.
Proof.
  intros Hemit. replace s' with (emit block inst op operands s).2 by (by rewrite Hemit).
  constructor.
Qed.

(** X30.  When the image patcher succeeds on an instruction that carries the
    texel-offset flag and is not a dimension query, it takes the offset word
    from operand 3, or operand 4 of a depth-comparing instruction, and
    replaces that operand by a reference to a new [CompositeConstructU32x2]
    of two immediates: the values of bits [0:6) and of bits [8:14) of the
    word, as unsigned numbers.  Bits [16:22) are not used.  The operand is
    still that reference when the patcher returns, unless the explicit lod
    is stored in the same position afterwards: operand 3 of an instruction
    that is not depth-comparing and not an [ImageSampleExplicitLod]. *)
Theorem texel_offset_operand_replaced (fuel : nat) (block : nat) (inst : Handle)
    (info : Info) (s s' : State) (i : Inst) :
  PatchImageInstruction fuel block inst info s = Ok s' →
  insts s !! inst = Some i →
  opcode i ≠ ImageQueryDimensions →
  has_offset (Flags_TextureInstInfo (flags i)) = true →
  (explicit_lod (Flags_TextureInstInfo (flags i)) = true →
   is_depth (Flags_TextureInstInfo (flags i)) = true ∨ opcode i = ImageSampleExplicitLod) →
  ∃ raw value,
    args i !! (if is_depth (Flags_TextureInstInfo (flags i)) then 4 else 3)%nat
      = Some (Imm Type_U32 raw) ∧
    Arg (insts s') inst (if is_depth (Flags_TextureInstInfo (flags i)) then 4 else 3)%nat
      = Ok (InstRef value) ∧
    insts s' !! value =
      Some (mkInst CompositeConstructU32x2
              [Imm Type_U32 (BitField 0 6 (wrap32 raw));
               Imm Type_U32 (BitField 8 6 (wrap32 raw))] 0).
Proof.
  unfold PatchImageInstruction. intros Hrun Hi Hquery Hoff Hlod.
  set (k := (if is_depth (Flags_TextureInstInfo (flags i)) then 4 else 3)%nat).
  assert (Hk : (3 ≤ k)%nat) by (unfold k; destruct (is_depth _); lia).
  apply bind_Ok in Hrun as (producer & _ & Hrun).
  apply bind_Ok in Hrun as (producer_op & _ & Hrun).
  apply bind_Ok in Hrun as ([tsharp_handle ssharp_handle] & _ & Hrun).
  apply bind_Ok in Hrun as (tsharp & _ & Hrun).
  apply bind_Ok in Hrun as (image & _ & Hrun).
  apply bind_Ok in Hrun as (i' & Hi'%GetInst_Ok & Hrun).
  assert (i' = i) as -> by congruence.
  apply bind_Ok in Hrun as ([image_index d1] & _ & Hrun).
  apply bind_Ok in Hrun as ([binding d] & _ & Hrun).
  apply bind_Ok in Hrun as (s1 & Hset0 & Hrun).
  rewrite bool_decide_eq_false_2 in Hrun by done.
  apply bind_Ok in Hrun as (body & _ & Hrun).
  apply bind_Ok in Hrun as ([[coords arg] s2] & Hcoords & Hrun).
  assert (Hs1 : rtc (keeps_operand k inst) (mkState (insts s) (blocks s) d) s1).
  { apply rtc_once. eapply (keeps_operand_SetArg k inst 0%nat); [lia|exact Hset0]. }
  assert (Hs2 : rtc (keeps_operand k inst) s1 s2).
  { destruct (Image_GetType image);
      repeat (let x := fresh "b" in let Hx := fresh "Hb" in
              apply bind_Ok in Hcoords as (x & Hx & Hcoords));
      try discriminate Hcoords;
      try unfold PatchCubeCoord in Hcoords;
      repeat match type of Hcoords with
             | context [emit ?b ?i ?op ?ops ?s0] =>
                 let E := fresh "E" in
                 destruct (emit b i op ops s0) as [? ?] eqn:E;
                 apply (emit_keeps_operand k) in E
             end;
      repeat match goal with x : (Value * State)%type |- _ => destruct x end;
      injection Hcoords as <- <- <-;
      repeat match goal with
             | Hcc : ir_CompositeConstruct _ _ _ _ = Ok _ |- _ =>
                 apply (ir_CompositeConstruct_Ok k) in Hcc as (_ & _ & _ & _ & _ & _ & Hcc)
             end;
      repeat (eapply rtc_l; [eassumption|]); apply rtc_refl. }
  apply bind_Ok in Hrun as (s3 & Hset1 & Hrun).
  assert (Hs3 : rtc (keeps_operand k inst) s2 s3).
  { apply rtc_once. eapply (keeps_operand_SetArg k inst 1%nat); [lia|exact Hset1]. }
  apply bind_Ok in Hrun as (s4 & Hoffset & Hrun).
  rewrite Hoff in Hoffset. fold k in Hoffset.
  apply bind_Ok in Hoffset as (offset_arg & (i3 & Hi3 & Harg)%Arg_Ok & Hoffset).
  apply bind_Ok in Hoffset as (u & Hty%ASSERT_Ok%bool_decide_eq_true & Hoffset).
  destruct offset_arg as [|ty raw]; [discriminate|]. injection Hty as ->.
  apply bind_Ok in Hoffset as (raw' & [= <-] & Hoffset).
  apply bind_Ok in Hoffset as ([value s3'] & Hvalue & Hoffset).
  apply (ir_CompositeConstruct_Ok k) in Hvalue as (e1 & ty & He1 & Hty & -> & Hnew & _).
  pose proof (BitField_range 0 6 (wrap32 raw)) as Hx.
  pose proof (BitField_range 8 6 (wrap32 raw)) as Hy.
  unfold texel_offset_operands in He1, Hnew.
  rewrite !sign_ext_field in Hnew by lia.
  rewrite sign_ext_field in He1 by lia. injection He1 as <-. injection Hty as <-.
  change (CompositeConstruct_opcode Type_U32 _) with CompositeConstructU32x2 in Hnew.
  (* the offset operand is the one the instruction came with *)
  assert (Hstart : rtc (keeps_operand k inst) (mkState (insts s) (blocks s) d) s3)
    by (repeat (etrans; [eassumption|]); done).
  destruct (keeps_operand_frame _ _ _ _ Hstart) as (Hlen3 & _ & Hinst3).
  destruct (Hinst3 i Hi) as (i3' & Hi3' & Hk3). simpl in Hlen3.
  assert (i3' = i3) as -> by congruence.
  (* the rest of the patch leaves it alone *)
  apply bind_Ok in Hrun as (s5 & Hclamp & Hrun).
  assert (Hs5 : rtc (keeps_operand k inst) s4 s5).
  { destruct (has_lod_clamp _); [|injection Hclamp as <-; apply rtc_refl].
    apply rtc_once. eapply (keeps_operand_SetArg k inst); [|exact Hclamp].
    unfold k. destruct (is_depth _); lia. }
  assert (Hs' : rtc (keeps_operand k inst) s5 s').
  { destruct (explicit_lod _); [|injection Hrun as <-; apply rtc_refl].
    apply bind_Ok in Hrun as (_ & _ & Hrun).
    apply rtc_once. eapply (keeps_operand_SetArg k inst); [|exact Hrun].
    unfold k. destruct (Hlod eq_refl) as [->| ->]; [case_bool_decide; lia|].
    rewrite bool_decide_eq_true_2 by done. destruct (is_depth _); lia. }
  assert (Hend : rtc (keeps_operand k inst) s4 s') by (etrans; eassumption).
  destruct (keeps_operand_frame _ _ _ _ Hend) as (_ & Hother & Hinst).
  apply SetArg_inv in Hoffset as (i4 & Hi4 & Hlt4 & ->). simpl in *.
  assert (Hinst_lt : (inst < length (insts s3))%nat) by (by eapply lookup_lt_Some).
  destruct (Hinst (mkInst (opcode i4) (<[k := InstRef (length (insts s3))]> (args i4))
                     (flags i4))) as (i5 & Hi5 & Hk5).
  { apply list_lookup_insert_eq. by eapply lookup_lt_Some. }
  simpl in Hk5. rewrite list_lookup_insert_eq in Hk5 by done.
  exists raw, (length (insts s3)).
  split; [congruence|]. split; [apply Arg_Ok; eauto|].
  apply Hother; [lia|].
  rewrite list_lookup_insert_ne by lia. rewrite Hnew. apply lookup_snoc.
Qed.

End TexelOffset.

Lemma texel_offset_operand_replaced_witness :
  ∃ s',
    PatchImageInstruction (H := sample_external) 10 0%nat 4%nat sample_image_info
      (sample_image_program 0x5203F) = Ok s' ∧
    ∃ raw value,
      [InstRef 2%nat; InstRef 3%nat; Imm Type_F32 0; Imm Type_U32 0x5203F; Imm Type_F32 0]
        !! 3%nat = Some (Imm Type_U32 raw) ∧
      Arg (insts s') 4%nat 3%nat = Ok (InstRef value) ∧
      insts s' !! value =
        Some (mkInst CompositeConstructU32x2
                [Imm Type_U32 (BitField 0 6 (wrap32 raw));
                 Imm Type_U32 (BitField 8 6 (wrap32 raw))] 0).
Proof.
  eexists. split; [vm_compute; reflexivity|].
  apply (texel_offset_operand_replaced (H := sample_external) 10 0%nat 4%nat
           sample_image_info (sample_image_program 0x5203F) _
           (mkInst ImageSampleImplicitLod
              [InstRef 2%nat; InstRef 3%nat; Imm Type_F32 0; Imm Type_U32 0x5203F;
               Imm Type_F32 0] 2)).
  - vm_compute. reflexivity.
  - reflexivity.
  - discriminate.
  - reflexivity.
  - discriminate.
Defined.
